(** * CA-75 street connectivity: block-group network metrics

    A shallow embedding of the network-metrics core of the repository
    ([code/computemetrics.py], [code/buildnetwork.py]) and of the
    GEOID_BG key handling of the join scripts ([code/checkinputs.py],
    [code/aggregatetobg.py]).

    Numbers.  Python floats and pandas float64 cells are modelled by
    [float64]: a finite value carries an exact rational, and the three
    IEEE-754 special values are kept, because pandas represents a
    missing cell of a float column by NaN and divides by zero without
    raising.  Overflow is not modelled.  Rounding is abstracted away
    except where the program's control flow depends on it: the
    path-counting search of the betweenness tests sums of lengths for
    equality, and there the sums are rounded as float64 rounds them
    ([round64]).

    Geometry.  The spatial predicates of geopandas (point within
    polygon, line clipped by polygon, polygon area) are not part of the
    repository; their results enter the model as data. *)

From Stdlib Require Import List ZArith QArith Qabs Qround Bool Lia Arith.
From Stdlib Require Import Ascii String DecimalString DecimalZ.
From Stdlib Require Import Permutation Lqa.
Import ListNotations.

Set Implicit Arguments.
Close Scope Q_scope.

(* ===================================================================== *)
(** * Floating-point cells *)
(* ===================================================================== *)

Module Float.

Local Open Scope Q_scope.

Inductive float64 : Type :=
| Fin (q : Q)   (* a finite value *)
| PInf          (* +inf *)
| NInf          (* -inf *)
| NaN.          (* not-a-number; pandas' marker of a missing float cell *)

Definition of_nat (n : nat) : float64 := Fin (inject_Z (Z.of_nat n)).
Definition of_Z (z : Z) : float64 := Fin (inject_Z z).

Definition is_nan (x : float64) : bool :=
  match x with NaN => true | _ => false end.

Definition is_finite (x : float64) : bool :=
  match x with Fin _ => true | _ => false end.

(** Sign of a rational: [Gt] positive, [Eq] zero, [Lt] negative. *)
Definition Qsign (q : Q) : comparison := (q ?= 0)%Q.

Definition fneg (x : float64) : float64 :=
  match x with
  | Fin q => Fin (Qred (- q))
  | PInf => NInf
  | NInf => PInf
  | NaN => NaN
  end.

Definition fadd (x y : float64) : float64 :=
  match x, y with
  | NaN, _ | _, NaN => NaN
  | Fin a, Fin b => Fin (Qred (a + b))
  | PInf, NInf | NInf, PInf => NaN
  | PInf, _ | _, PInf => PInf
  | NInf, _ | _, NInf => NInf
  end.

Definition fmul (x y : float64) : float64 :=
  match x, y with
  | NaN, _ | _, NaN => NaN
  | Fin a, Fin b => Fin (Qred (a * b))
  | Fin a, PInf | PInf, Fin a =>
      match Qsign a with Gt => PInf | Lt => NInf | Eq => NaN end
  | Fin a, NInf | NInf, Fin a =>
      match Qsign a with Gt => NInf | Lt => PInf | Eq => NaN end
  | PInf, PInf | NInf, NInf => PInf
  | PInf, NInf | NInf, PInf => NaN
  end.

(** numpy's true division on float64 (what a pandas [Series / Series]
    performs): no exception is raised; a non-zero finite value over
    zero is an infinity, zero over zero is NaN, NaN propagates.  The
    zero divisor is taken to be [+0.0]. *)
Definition fdiv (x y : float64) : float64 :=
  match x, y with
  | NaN, _ | _, NaN => NaN
  | Fin a, Fin b =>
      match Qsign b with
      | Eq => match Qsign a with Gt => PInf | Lt => NInf | Eq => NaN end
      | _ => Fin (Qred (a / b))
      end
  | Fin _, PInf | Fin _, NInf => Fin 0
  | PInf, Fin b => match Qsign b with Lt => NInf | _ => PInf end
  | NInf, Fin b => match Qsign b with Lt => PInf | _ => NInf end
  | PInf, PInf | PInf, NInf | NInf, PInf | NInf, NInf => NaN
  end.

(** Round half to even, the rounding of [numpy.rint], of Python's
    [round] and of the float64 arithmetic. *)
Definition rint (q : Q) : Z :=
  let f := Qfloor q in
  match Qcompare (q - inject_Z f) (1 # 2) with
  | Lt => f
  | Gt => (f + 1)%Z
  | Eq => if Z.even f then f else (f + 1)%Z
  end.

(** [2^k] for an integer [k]. *)
Definition pow2 (k : Z) : Q :=
  match k with
  | Z0 => 1
  | Zpos p => inject_Z (2 ^ Zpos p)
  | Zneg p => 1 # (2 ^ p)%positive
  end.

(** The binade of a positive rational: the [e] with
    [2^e <= q < 2^(e+1)]. *)
Definition binade (q : Q) : Z :=
  let e := (Z.log2 (Qnum q) - Z.log2 (Zpos (Qden q)))%Z in
  if Qle_bool (pow2 e) q then e else (e - 1)%Z.

(** The float64 nearest to a rational, ties to even: 53 significant
    bits for a normal number, a multiple of [2^-1074] below [2^-1022].
    Overflow is not modelled. *)
Definition round64 (q : Q) : Q :=
  match Qnum q with
  | Z0 => 0
  | _ =>
      let ulp := pow2 (Z.max (binade (Qabs q)) (-1022) - 52) in
      Qred (inject_Z (rint (q / ulp)) * ulp)
  end.

(** The float64 sum of two finite float64 values. *)
Definition radd (a b : Q) : Q := round64 (a + b).

(** Python's [/] on two Python floats: a zero divisor raises
    [ZeroDivisionError] ([None] here). *)
Definition pydiv (x y : float64) : option float64 :=
  match y with
  | Fin b => match Qsign b with Eq => None | _ => Some (fdiv x y) end
  | _ => Some (fdiv x y)
  end.

(** [x] is a finite value equal, as a number, to [q]. *)
Definition is_value (x : float64) (q : Q) : Prop :=
  match x with Fin a => a == q | _ => False end.

(** [x] is numeric and lies in the closed interval [[lo, hi]]. *)
Definition in_range (lo hi : Q) (x : float64) : Prop :=
  match x with Fin a => lo <= a /\ a <= hi | _ => False end.

(** [x < y] as numpy compares: false as soon as a NaN is involved. *)
Definition flt (x y : float64) : bool :=
  match x, y with
  | NaN, _ | _, NaN => false
  | Fin a, Fin b => match (a ?= b)%Q with Lt => true | _ => false end
  | NInf, NInf => false
  | NInf, _ => true
  | _, PInf => match x with PInf => false | _ => true end
  | _, _ => false
  end.

End Float.

Import Float.

(* ===================================================================== *)
(** * The GEOID_BG join key *)
(* ===================================================================== *)

Module Geoid.

Local Open Scope string_scope.

(** A cell of a pandas column that holds keys, when it holds a value:
    text or an integer (a CSV read without [dtype=str] parses a
    12-digit key as int64).  In a column, a missing cell is [None]. *)
Inductive cell : Type :=
| CStr (s : string)
| CInt (z : Z).

(** [Series.astype(str)] on a cell that holds a value: Python's [str]
    of it. *)
Definition astype_str (c : cell) : string :=
  match c with
  | CStr s => s
  | CInt z => NilZero.string_of_int (Z.to_int z)
  end.

Fixpoint drop (n : nat) (s : string) : string :=
  match n, s with
  | O, _ => s
  | S n', String _ s' => drop n' s'
  | S _, EmptyString => EmptyString
  end.

(** [s[-k:]] for [k > 0]: the last [k] characters, all of [s] when it
    is shorter. *)
Definition str_last (k : nat) (s : string) : string :=
  drop (String.length s - k) s.

Fixpoint zeros (n : nat) : string :=
  match n with
  | O => EmptyString
  | S n' => String "0"%char (zeros n')
  end.

(** Python's [str.zfill]: pad on the left with ['0'] up to [width]; a
    leading sign stays in front of the padding. *)
Definition zfill (width : nat) (s : string) : string :=
  if (width <=? String.length s)%nat then s
  else
    let fill := zeros (width - String.length s) in
    match s with
    | String c rest =>
        if (Ascii.eqb c "+" || Ascii.eqb c "-")%bool
        then String c (fill ++ rest)
        else fill ++ s
    | EmptyString => fill
    end.

(** [col.astype(str).str[-12:].str.zfill(12)] on a cell that holds a
    value. *)
Definition normalize (c : cell) : string :=
  zfill 12 (str_last 12 (astype_str c)).

(** The same on a column.  A missing cell stays missing: [astype(str)]
    leaves it as it is, and so do the [.str] accessors. *)
Definition normalize_col (col : list (option cell)) : list (option string) :=
  map (option_map normalize) col.

(** Outcome of a script step that may stop the run with [SystemExit]. *)
Inductive outcome (A : Type) : Type :=
| Done (a : A)
| Abort (msg : string).
Arguments Done {A} a.
Arguments Abort {A} msg.

(** A table seen through its two candidate key columns; [None] is a
    column the table does not have. *)
Record frame : Type := {
  col_GEOID_BG : option (list (option cell));
  col_GEOID : option (list (option cell))
}.

(** [computemetrics.py], "Ensure key": an existing [GEOID_BG] column is
    used as it is; only a key derived from [GEOID] is normalized. *)
Definition ensure_key (bg : frame) : outcome (list (option cell)) :=
  match col_GEOID_BG bg with
  | Some ks => Done ks
  | None =>
      match col_GEOID bg with
      | Some gs => Done (map (option_map CStr) (normalize_col gs))
      | None => Abort "[FAIL] BG layer lacks GEOID/GEOID_BG."
      end
  end.

Definition key_dec (a b : option string) : {a = b} + {a <> b}.
Proof. decide equality. apply string_dec. Defined.

(** [Series.duplicated().sum()]: the number of entries equal to an
    earlier entry; two missing entries count as equal. *)
Fixpoint duplicated_sum (seen : list (option string))
         (l : list (option string)) : nat :=
  match l with
  | [] => O
  | k :: r =>
      if in_dec key_dec k seen
      then S (duplicated_sum seen r)
      else duplicated_sum (k :: seen) r
  end.

(** [df["GEOID_BG"].str.len() != 12], for one key: the length of a
    missing key is missing, and a missing length differs from 12. *)
Definition bad_length (k : option string) : bool :=
  match k with
  | Some s => negb (String.length s =? 12)%nat
  | None => true
  end.

(** The cells of a column that hold a value. *)
Fixpoint present (A : Type) (col : list (option A)) : list A :=
  match col with
  | [] => []
  | Some a :: r => a :: present r
  | None :: r => present r
  end.

(** [checkinputs.py], step 3 on the [GEOID_BG] column of the ACS CSV:
    normalize, abort on duplicates, abort on a key that is not 12
    characters long.  [Done] carries the keys of the column, which all
    hold a value then.  The script's message on duplicates goes on
    with their number, which is left out here. *)
Definition check_keys (col : list (option cell)) : outcome (list string) :=
  let keys := normalize_col col in
  let dups := duplicated_sum [] keys in
  if (0 <? dups)%nat then Abort "GEOID_BG duplicates found"
  else if existsb bad_length keys
       then Abort "Some GEOID_BG values are not 12 characters after normalization."
       else Done (present keys).

(** [aggregatetobg.py]: both sides of the merge are normalized without
    condition before [acs.merge(metrics, on="GEOID_BG", how="left")]. *)
Definition aggregate_keys (acs metrics : list (option cell))
  : list (option string) * list (option string) :=
  (normalize_col acs, normalize_col metrics).

Definition twelve (s : string) : Prop := String.length s = 12.

(** A key of a column is missing or has 12 characters. *)
Definition twelve_or_missing (k : option string) : Prop :=
  match k with Some s => twelve s | None => True end.

End Geoid.

(* ===================================================================== *)
(** * Column statistics of pandas *)
(* ===================================================================== *)

Module Stats.

(** Missing cells are skipped by every reduction below ([skipna]). *)
Definition dropna (l : list float64) : list float64 :=
  filter (fun x => negb (is_nan x)) l.

Definition fsum (l : list float64) : float64 :=
  fold_left fadd l (Fin 0).

(** [Series.count()]: the number of cells that are not missing. *)
Definition count (l : list float64) : nat := List.length (dropna l).

(** [Series.sum()] of a group: the sum of the cells that are not
    missing; an empty selection sums to 0. *)
Definition sum (l : list float64) : float64 := fsum (dropna l).

(** [Series.mean()]: missing cells count neither in the sum nor in the
    denominator; no value left gives NaN. *)
Definition mean (l : list float64) : float64 :=
  match dropna l with
  | [] => NaN
  | v => fdiv (fsum v) (of_nat (List.length v))
  end.

Fixpoint insert_sorted (x : float64) (l : list float64) : list float64 :=
  match l with
  | [] => [x]
  | y :: r => if flt x y then x :: l else y :: insert_sorted x r
  end.

Definition sort_values (l : list float64) : list float64 :=
  fold_right insert_sorted [] l.

(** [Series.quantile(q)] with the default linear interpolation: on the
    [n] sorted values that are not missing, position [h = (n-1) q],
    result [v[floor h] + (v[floor h + 1] - v[floor h]) (h - floor h)]. *)
Definition quantile (q : Q) (l : list float64) : float64 :=
  match sort_values (dropna l) with
  | [] => NaN
  | v =>
      let h := (inject_Z (Z.of_nat (List.length v - 1)) * q)%Q in
      let lo := Z.to_nat (Qfloor h) in
      let frac := Qred (h - inject_Z (Qfloor h))%Q in
      let a := nth lo v NaN in
      let b := nth (Nat.min (S lo) (List.length v - 1)) v NaN in
      match Qsign frac with
      | Eq => a
      | _ => fadd a (fmul (fadd b (fneg a)) (Fin frac))
      end
  end.

End Stats.

(* ===================================================================== *)
(** * Aggregation to block groups and densities *)
(* ===================================================================== *)

Module Table.

Definition key : Type := string.

(** A row of the projected polygon layer [bg_m]: its key and the value
    of [geometry.area] in square metres (NaN for a feature without
    geometry, 0 for an empty one). *)
Record bg_row : Type := {
  bg_GEOID_BG : key;
  bg_geometry_area : float64
}.

(** A row of [nodes_m[["geometry","betweenness","aspl"]]]; every node
    of the graph carries a point geometry. *)
Record node_row : Type := {
  n_osmid : Z;
  n_betweenness : float64;
  n_aspl : float64
}.

(** A row of [nodes_in_bg], the left spatial join of nodes to
    polygons: the node's columns and the key of a polygon it lies
    within, or no key. *)
Record joined_row : Type := {
  j_betweenness : float64;
  j_aspl : float64;
  j_GEOID_BG : option key
}.

(** [gpd.sjoin(nodes, bg, predicate="within", how="left")].
    [within n i] is the answer of the spatial predicate for node [n]
    and the [i]-th polygon.  A node within no polygon keeps one row
    with a missing key. *)
Definition sjoin (nodes : list node_row) (bg : list bg_row)
           (within : Z -> nat -> bool) : list joined_row :=
  flat_map
    (fun n =>
       match filter (fun ib => within (n_osmid n) (fst ib))
                    (combine (seq 0 (List.length bg)) bg) with
       | [] => [ {| j_betweenness := n_betweenness n;
                    j_aspl := n_aspl n;
                    j_GEOID_BG := None |} ]
       | hits =>
           map (fun ib => {| j_betweenness := n_betweenness n;
                             j_aspl := n_aspl n;
                             j_GEOID_BG := Some (bg_GEOID_BG (snd ib)) |})
               hits
       end)
    nodes.

(** A row of [inter], the overlay of edges with polygons: the length in
    metres of the clipped geometry and the polygon's key. *)
Record inter_row : Type := {
  i_geometry_length : float64;
  i_GEOID_BG : key
}.

(** [gpd.overlay(edges, bg, how="intersection")].  [clip e i] is the
    length of the part of the [e]-th edge inside the [i]-th polygon
    when the two share a line, [None] otherwise.  These are the rows
    of the result when there is one; the call raises when no edge
    shares a line with any polygon, which is the empty list here and
    a stopped run in [Pipeline.computemetrics]. *)
Definition overlay (n_edges : nat) (bg : list bg_row)
           (clip : nat -> nat -> option Q) : list inter_row :=
  flat_map
    (fun e =>
       flat_map
         (fun ib =>
            match clip e (fst ib) with
            | Some len => [ {| i_geometry_length := Fin len;
                               i_GEOID_BG := bg_GEOID_BG (snd ib) |} ]
            | None => []
            end)
         (combine (seq 0 (List.length bg)) bg))
    (seq 0 n_edges).

(** Group keys of a [groupby]: the distinct keys, sorted; rows without
    a key belong to no group. *)
Fixpoint insert_key (k : key) (l : list key) : list key :=
  match l with
  | [] => [k]
  | y :: r => if String.leb k y then k :: l else y :: insert_key k r
  end.

Definition sort_keys (l : list key) : list key :=
  fold_right insert_key [] l.

Definition group_keys (ks : list key) : list key :=
  sort_keys (nodup string_dec ks).

Fixpoint some_keys (l : list (option key)) : list key :=
  match l with
  | [] => []
  | Some k :: r => k :: some_keys r
  | None :: r => some_keys r
  end.

Definition has_key (k : key) (o : option key) : bool :=
  match o with Some k' => String.eqb k' k | None => false end.

Record nodes_grp_row : Type := {
  ng_GEOID_BG : key;
  ng_nodes_in_bg : nat;
  ng_betweenness_mean : float64;
  ng_betweenness_p90 : float64;
  ng_aspl_mean : float64
}.

(** [nodes_in_bg.groupby("GEOID_BG").agg(...)]: per key, the count of
    geometries, mean and 0.90 quantile of betweenness, mean of aspl. *)
Definition nodes_grp (nodes_in_bg : list joined_row) : list nodes_grp_row :=
  map
    (fun k =>
       let g := filter (fun r => has_key k (j_GEOID_BG r)) nodes_in_bg in
       {| ng_GEOID_BG := k;
          ng_nodes_in_bg := List.length g;
          ng_betweenness_mean := Stats.mean (map j_betweenness g);
          ng_betweenness_p90 := Stats.quantile (9 # 10) (map j_betweenness g);
          ng_aspl_mean := Stats.mean (map j_aspl g) |})
    (group_keys (some_keys (map j_GEOID_BG nodes_in_bg))).

Record edges_grp_row : Type := {
  eg_GEOID_BG : key;
  eg_edges_km : float64
}.

(** [inter["len_km"] = inter.geometry.length / 1000.0]. *)
Definition len_km (r : inter_row) : float64 :=
  fdiv (i_geometry_length r) (Fin 1000).

(** [inter.groupby("GEOID_BG").agg(edges_km=("len_km","sum"))]. *)
Definition edges_grp (inter : list inter_row) : list edges_grp_row :=
  map
    (fun k =>
       let g := filter (fun r => String.eqb (i_GEOID_BG r) k) inter in
       {| eg_GEOID_BG := k;
          eg_edges_km := Stats.sum (map len_km g) |})
    (group_keys (map i_GEOID_BG inter)).

(** [left.merge(right, on="GEOID_BG", how="left")]: every left row, in
    the order of [left], once per right row with its key, and once with
    nothing when no right row has its key. *)
Definition merge_left (L R : Type) (keyL : L -> key) (keyR : R -> key)
           (left : list L) (right : list R) : list (L * option R) :=
  flat_map
    (fun l =>
       match filter (fun r => String.eqb (keyR r) (keyL l)) right with
       | [] => [(l, None)]
       | hits => map (fun r => (l, Some r)) hits
       end)
    left.

(** A row of the output table, in the order of [keep]. *)
Record metrics_row : Type := {
  GEOID_BG : key;
  area_km2 : float64;
  nodes_in_bg : float64;
  edges_km : float64;
  node_density : float64;
  edge_km_density : float64;
  betweenness_mean : float64;
  betweenness_p90 : float64;
  aspl_mean : float64
}.

(** [bg_m["area_km2"] = bg_m.geometry.area / 1_000_000.0]. *)
Definition area_of (b : bg_row) : float64 :=
  fdiv (bg_geometry_area b) (Fin 1000000).

(** A cell of a column brought in by a left merge: missing when the
    left row found no partner. *)
Definition cell_of (R : Type) (f : R -> float64) (o : option R) : float64 :=
  match o with Some r => f r | None => NaN end.

(** The two merges and the two divisions of [computemetrics.py]. *)
Definition metrics (bg_m : list bg_row) (ng : list nodes_grp_row)
           (eg : list edges_grp_row) : list metrics_row :=
  map
    (fun row =>
       let b := fst (fst row) in
       let n := snd (fst row) in
       let e := snd row in
       let area := area_of b in
       let cnt := cell_of (fun r => of_nat (ng_nodes_in_bg r)) n in
       let km := cell_of eg_edges_km e in
       {| GEOID_BG := bg_GEOID_BG b;
          area_km2 := area;
          nodes_in_bg := cnt;
          edges_km := km;
          node_density := fdiv cnt area;
          edge_km_density := fdiv km area;
          betweenness_mean := cell_of ng_betweenness_mean n;
          betweenness_p90 := cell_of ng_betweenness_p90 n;
          aspl_mean := cell_of ng_aspl_mean n |})
    (merge_left (fun bn => bg_GEOID_BG (fst bn)) eg_GEOID_BG
       (merge_left bg_GEOID_BG ng_GEOID_BG bg_m ng) eg).

(** Step 4 and 5 of the script, from the joined nodes and the clipped
    edges to the rows written to [bg_metrics.csv]. *)
Definition bg_metrics (bg_m : list bg_row) (nodes_in_bg : list joined_row)
           (inter : list inter_row) : list metrics_row :=
  metrics bg_m (nodes_grp nodes_in_bg) (edges_grp inter).

End Table.

(* ===================================================================== *)
(** * Street graphs and component reduction *)
(* ===================================================================== *)

Module Graph.

Definition node : Type := Z.

(** An edge of the MultiDiGraph that [ox.load_graphml] returns: source,
    target and the [length] attribute in metres.  Parallel edges are
    repeated entries. *)
Record edge : Type := {
  e_u : node;
  e_v : node;
  e_length : Q
}.

Record graph : Type := {
  nodes : list node;
  edges : list edge
}.

(** Shorthand for an edge from [u] to [v] of length [l]. *)
Definition E (u v : Z) (l : Q) : edge :=
  {| e_u := u; e_v := v; e_length := l |}.

Definition mem (x : node) (l : list node) : bool := existsb (Z.eqb x) l.

(** Keeps the first occurrence of each node, in order. *)
Fixpoint dedup (seen : list node) (l : list node) : list node :=
  match l with
  | [] => []
  | x :: r => if mem x seen then dedup seen r else x :: dedup (x :: seen) r
  end.

Definition out_edges (G : graph) (v : node) : list edge :=
  filter (fun e => Z.eqb (e_u e) v) (edges G).

(** The keys of [G.adj[v]]: the successors of [v], each once, in the
    order their first edge was added. *)
Definition adj (G : graph) (v : node) : list node :=
  dedup [] (map e_v (out_edges G v)).

Definition reverse_edge (e : edge) : edge :=
  {| e_u := e_v e; e_v := e_u e; e_length := e_length e |}.

(** [G.to_undirected()]: same nodes, every edge usable both ways. *)
Definition to_undirected (G : graph) : graph :=
  {| nodes := nodes G; edges := edges G ++ map reverse_edge (edges G) |}.

(** Inner loop of the breadth-first search: the neighbours of one node
    that are new are added to [seen] and to the next level. *)
Fixpoint visit (ws : list node) (seen next : list node)
  : list node * list node :=
  match ws with
  | [] => (seen, next)
  | w :: r =>
      if mem w seen then visit r seen next
      else visit r (w :: seen) (w :: next)
  end.

Fixpoint scan (G : graph) (level : list node) (seen next : list node)
  : list node * list node :=
  match level with
  | [] => (seen, next)
  | v :: r => let sn := visit (adj G v) seen next in scan G r (fst sn) (snd sn)
  end.

(** The [while nextlevel] loop; [fuel] bounds the number of levels. *)
Fixpoint bfs_loop (fuel : nat) (G : graph) (seen level : list node)
  : list node :=
  match fuel with
  | O => seen
  | S f =>
      match level with
      | [] => seen
      | _ => let sn := scan G level seen [] in
             bfs_loop f G (fst sn) (rev (snd sn))
      end
  end.

(** networkx' [_plain_bfs(G, source)]: the set of nodes reached from
    [source], level by level.  A graph with [n] nodes has at most [n]
    non-empty levels. *)
Definition plain_bfs (G : graph) (source : node) : list node :=
  bfs_loop (S (List.length (nodes G))) G [source] [source].

(** [nx.is_connected(G)]; the null graph raises
    [NetworkXPointlessConcept] ([None]). *)
Definition is_connected (G : graph) : option bool :=
  match nodes G with
  | [] => None
  | v :: _ => Some (List.length (plain_bfs G v) =? List.length (nodes G))%nat
  end.

(** The generator loop of [nx.connected_components(G)]. *)
Fixpoint components_from (G : graph) (vs : list node) (seen : list node)
  : list (list node) :=
  match vs with
  | [] => []
  | v :: r =>
      if mem v seen then components_from G r seen
      else let c := plain_bfs G v in c :: components_from G r (c ++ seen)
  end.

Definition connected_components (G : graph) : list (list node) :=
  components_from G (nodes G) [].

(** Python's [max(it, key=len)] after its first element: the first
    element of maximal length wins. *)
Fixpoint max_by_len (best : list node) (cs : list (list node)) : list node :=
  match cs with
  | [] => best
  | c :: r =>
      if (List.length best <? List.length c)%nat
      then max_by_len c r else max_by_len best r
  end.

(** [G.subgraph(comp).copy()]: the nodes of [comp] and the edges of [G]
    with both ends in [comp]. *)
Definition subgraph (G : graph) (comp : list node) : graph :=
  {| nodes := filter (fun v => mem v comp) (nodes G);
     edges := filter (fun e => mem (e_u e) comp && mem (e_v e) comp)
                     (edges G) |}.

(** [computemetrics.py], [largest_component].  [None] stands for the
    exception a graph without nodes raises. *)
Definition largest_component (G : graph) : option graph :=
  let UG := to_undirected G in
  match is_connected UG with
  | None => None
  | Some true => Some G
  | Some false =>
      match connected_components UG with
      | [] => None
      | c :: cs => Some (subgraph G (max_by_len c cs))
      end
  end.

(** [buildnetwork.py], [largest_connected_component]: the same body. *)
Definition largest_connected_component (G : graph) : option graph :=
  let UG := to_undirected G in
  match is_connected UG with
  | None => None
  | Some true => Some G
  | Some false =>
      match connected_components UG with
      | [] => None
      | c :: cs => Some (subgraph G (max_by_len c cs))
      end
  end.

(** What networkx guarantees of a graph object: node keys are unique
    and both ends of an edge are nodes. *)
Definition wf_graph (G : graph) : Prop :=
  NoDup (nodes G) /\
  forall e, In e (edges G) -> In (e_u e) (nodes G) /\ In (e_v e) (nodes G).

(** Street lengths are not negative. *)
Definition nonneg_lengths (G : graph) : Prop :=
  forall e, In e (edges G) -> (0 <= e_length e)%Q.

Definition positive_lengths (G : graph) : Prop :=
  forall e, In e (edges G) -> (0 < e_length e)%Q.

(** A step along an edge, and its reflexive-transitive closure. *)
Definition arc (G : graph) (u v : node) : Prop :=
  exists e, In e (edges G) /\ e_u e = u /\ e_v e = v.

Inductive reachable (G : graph) (u : node) : node -> Prop :=
| reach_refl : reachable G u u
| reach_step : forall v w, reachable G u v -> arc G v w -> reachable G u w.

(** Connected as an undirected graph: any two nodes are joined by a
    chain of edges taken in either direction. *)
Definition connected (G : graph) : Prop :=
  forall u v, In u (nodes G) -> In v (nodes G) ->
              reachable (to_undirected G) u v.

End Graph.

(* ===================================================================== *)
(** * Mean shortest-path length *)
(* ===================================================================== *)

Module Paths.

Import Graph.

Definition qltb (a b : Q) : bool := negb (Qle_bool b a).
Definition qmin (a b : Q) : Q := if Qle_bool a b then a else b.

(** The weight networkx reads on a multigraph for [weight="length"]:
    the smallest [length] among the parallel edges from [v] to [w]. *)
Definition weight (G : graph) (v w : node) : Q :=
  match filter (fun e => Z.eqb (e_v e) w) (out_edges G v) with
  | [] => 0%Q
  | e :: r => fold_left (fun m e' => qmin m (e_length e')) r (e_length e)
  end.

(** [G._adj[v].items()] with the weight of each neighbour. *)
Definition succ_costs (G : graph) (v : node) : list (node * Q) :=
  map (fun w => (w, weight G v w)) (adj G v).

Fixpoint lookup (A : Type) (k : node) (m : list (node * A)) : option A :=
  match m with
  | [] => None
  | (k', a) :: r => if Z.eqb k' k then Some a else lookup k r
  end.

(** Heap entries [(distance, count, node)]; [heappop] takes the least
    pair (distance, count), and counts are never repeated. *)
Definition entry : Type := (Q * nat * node)%type.

Definition entry_ltb (a b : entry) : bool :=
  let '(da, ca, _) := a in
  let '(db, cb, _) := b in
  qltb da db || (Qeq_bool da db && (ca <? cb)%nat).

Fixpoint pop_min (h : list entry) : option (entry * list entry) :=
  match h with
  | [] => None
  | e :: r =>
      match pop_min r with
      | None => Some (e, [])
      | Some (m, r') =>
          if entry_ltb e m then Some (e, r) else Some (m, e :: r')
      end
  end.

Record frontier : Type := {
  seen : list (node * Q);
  fringe : list entry;
  counter : nat
}.

(** The [for u, e in G_succ[v].items()] loop of
    [_dijkstra_multisource] for a node [v] just settled at distance [d].
    [None] is the [ValueError] raised on contradictory paths. *)
Fixpoint relax (d : Q) (nbrs : list (node * Q)) (dist : list (node * Q))
         (st : frontier) : option frontier :=
  match nbrs with
  | [] => Some st
  | (u, cost) :: r =>
      let vu_dist := Qred (d + cost) in
      match lookup u dist with
      | Some u_dist =>
          if qltb vu_dist u_dist then None else relax d r dist st
      | None =>
          let push :=
            {| seen := (u, vu_dist) :: seen st;
               fringe := (vu_dist, counter st, u) :: fringe st;
               counter := S (counter st) |} in
          match lookup u (seen st) with
          | None => relax d r dist push
          | Some s => if qltb vu_dist s then relax d r dist push
                      else relax d r dist st
          end
      end
  end.

(** The [while fringe] loop.  [dist] is kept in the order nodes are
    settled, as the dict it models. *)
Fixpoint dijkstra_loop (fuel : nat) (G : graph) (dist : list (node * Q))
         (st : frontier) : option (list (node * Q)) :=
  match fuel with
  | O => Some dist
  | S f =>
      match pop_min (fringe st) with
      | None => Some dist
      | Some ((d, _, v), rest) =>
          let st' := {| seen := seen st; fringe := rest;
                        counter := counter st |} in
          match lookup v dist with
          | Some _ => dijkstra_loop f G dist st'
          | None =>
              let dist' := dist ++ [(v, d)] in
              match relax d (succ_costs G v) dist' st' with
              | None => None
              | Some st'' => dijkstra_loop f G dist' st''
              end
          end
      end
  end.

(** [nx.single_source_dijkstra_path_length(G, u, weight="length")]:
    the settled distances from [u].  Every push but the first belongs
    to an edge, so [1 + |E|] rounds empty the heap. *)
Definition single_source_dijkstra_path_length (G : graph) (u : node)
  : option (list (node * Q)) :=
  dijkstra_loop (S (List.length (edges G))) G []
    {| seen := [(u, 0%Q)]; fringe := [(0%Q, O, u)]; counter := 1 |}.

(** [sum(d for v, d in lengths.items() if v != u)]. *)
Definition sum_others (u : node) (lengths : list (node * Q)) : Q :=
  fold_left (fun s vd => if Z.eqb (fst vd) u then s else Qred (s + snd vd))
            lengths 0%Q.

(** The body of the loop of [all_pairs_mean_shortest_path_length] for
    one node.  [None] is an exception: the [ValueError] of the search
    or the [ZeroDivisionError] of Python's [/]. *)
Definition mean_shortest_path_length (G : graph) (u : node)
  : option float64 :=
  match single_source_dijkstra_path_length G u with
  | None => None
  | Some lengths =>
      if (1 <? List.length lengths)%nat
      then pydiv (Fin (sum_others u lengths))
                 (of_nat (List.length lengths - 1))
      else Some NaN
  end.

Fixpoint for_each (A : Type) (f : node -> option A) (vs : list node)
  : option (list (node * A)) :=
  match vs with
  | [] => Some []
  | v :: r =>
      match f v with
      | None => None
      | Some a =>
          match for_each f r with
          | None => None
          | Some m => Some ((v, a) :: m)
          end
      end
  end.

(** [computemetrics.py], [all_pairs_mean_shortest_path_length]: the
    dict node -> mean, in the order of [G.nodes()]. *)
Definition all_pairs_mean_shortest_path_length (G : graph)
  : option (list (node * float64)) :=
  for_each (mean_shortest_path_length G) (nodes G).

End Paths.

(* ===================================================================== *)
(** * Betweenness centrality *)
(* ===================================================================== *)

Module Betweenness.

Import Graph Paths.

(** Dicts that are only read by key are modelled as functions. *)
Definition upd (A : Type) (m : node -> A) (k : node) (a : A) : node -> A :=
  fun x => if Z.eqb x k then a else m x.

(** Heap entries [(distance, count, pred, node)]. *)
Definition bentry : Type := (Q * nat * node * node)%type.

Definition bentry_ltb (a b : bentry) : bool :=
  let '(da, ca, _, _) := a in
  let '(db, cb, _, _) := b in
  qltb da db || (Qeq_bool da db && (ca <? cb)%nat).

Fixpoint bpop_min (h : list bentry) : option (bentry * list bentry) :=
  match h with
  | [] => None
  | e :: r =>
      match bpop_min r with
      | None => Some (e, [])
      | Some (m, r') =>
          if bentry_ltb e m then Some (e, r) else Some (m, e :: r')
      end
  end.

(** The variables of networkx'
    [_single_source_dijkstra_path_basic]: [S] the nodes in the order
    they are settled, [P] the predecessor lists, [sigma] the path
    counts, [D] the settled distances, [seen] the best distances seen,
    [Q] the heap and [c] the counter. *)
Record search : Type := {
  S_ : list node;
  P_ : node -> list node;
  sigma_ : node -> Q;
  D_ : node -> option Q;
  seen_ : node -> option Q;
  Q_ : list bentry;
  c_ : nat
}.

(** One round of [for w, edgedata in G[v].items()].  The sum
    [vw_dist = dist + cost] is the float64 sum: the search tests
    distances for equality, so what the sum rounds to decides which
    nodes count as predecessors. *)
Definition relax1 (v : node) (dist : Q) (st : search) (wc : node * Q)
  : search :=
  let w := fst wc in
  let vw_dist := radd dist (snd wc) in
  let better :=
    match D_ st w with
    | Some _ => false
    | None =>
        match seen_ st w with
        | None => true
        | Some sw => qltb vw_dist sw
        end
    end in
  if better then
    {| S_ := S_ st;
       P_ := upd (P_ st) w [v];
       sigma_ := upd (sigma_ st) w 0%Q;
       D_ := D_ st;
       seen_ := upd (seen_ st) w (Some vw_dist);
       Q_ := (vw_dist, c_ st, v, w) :: Q_ st;
       c_ := S (c_ st) |}
  else
    match seen_ st w with
    | Some sw =>
        if Qeq_bool vw_dist sw then
          {| S_ := S_ st;
             P_ := upd (P_ st) w (P_ st w ++ [v]);
             sigma_ := upd (sigma_ st) w (Qred (sigma_ st w + sigma_ st v));
             D_ := D_ st;
             seen_ := seen_ st;
             Q_ := Q_ st;
             c_ := c_ st |}
        else st
    | None => st
    end.

(** The [while Q] loop. *)
Fixpoint search_loop (fuel : nat) (G : graph) (st : search) : search :=
  match fuel with
  | O => st
  | S f =>
      match bpop_min (Q_ st) with
      | None => st
      | Some ((dist, _, pred, v), rest) =>
          match D_ st v with
          | Some _ =>
              search_loop f G
                {| S_ := S_ st; P_ := P_ st; sigma_ := sigma_ st;
                   D_ := D_ st; seen_ := seen_ st; Q_ := rest;
                   c_ := c_ st |}
          | None =>
              let st1 :=
                {| S_ := S_ st ++ [v];
                   P_ := P_ st;
                   sigma_ := upd (sigma_ st) v
                               (Qred (sigma_ st v + sigma_ st pred));
                   D_ := upd (D_ st) v (Some dist);
                   seen_ := seen_ st;
                   Q_ := rest;
                   c_ := c_ st |} in
              search_loop f G
                (fold_left (relax1 v dist) (succ_costs G v) st1)
          end
      end
  end.

(** [_single_source_dijkstra_path_basic(G, s, weight)]. *)
Definition single_source_dijkstra_path_basic (G : graph) (s : node)
  : search :=
  search_loop (S (List.length (edges G))) G
    {| S_ := [];
       P_ := fun _ => [];
       sigma_ := upd (fun _ => 0%Q) s 1%Q;
       D_ := fun _ => None;
       seen_ := upd (fun _ => None) s (Some 0%Q);
       Q_ := [(0%Q, O, s, s)];
       c_ := 1 |}.

(** No street is lost in a sum: wherever a search settles a node at a
    distance [d], the float64 sum of [d] and the length of a street
    that leaves the node is above [d].  A length of zero, or one below
    half the spacing of the float64 values around [d], is absorbed:
    the sum is [d] again. *)
Definition no_absorption (G : graph) : Prop :=
  forall s v d e,
    In s (nodes G) ->
    D_ (single_source_dijkstra_path_basic G s) v = Some d ->
    In e (edges G) -> e_u e = v ->
    (d < radd d (e_length e))%Q.

(** The same as a test that runs the searches. *)
Definition absorbed_from (G : graph) (s : node) : bool :=
  let st := single_source_dijkstra_path_basic G s in
  existsb
    (fun e =>
       match D_ st (e_u e) with
       | Some d => Qle_bool (radd d (e_length e)) d
       | None => false
       end)
    (edges G).

Definition no_absorptionb (G : graph) : bool :=
  forallb (fun s => negb (absorbed_from G s)) (nodes G).

(** The inner loop [for v in P[w]: delta[v] += sigma[v] * coeff]. *)
Definition spread (sigma : node -> Q) (coeff : Q) (preds : list node)
           (delta : node -> Q) : node -> Q :=
  fold_left (fun dl v => upd dl v (Qred (dl v + sigma v * coeff)))
            preds delta.

(** [_accumulate_basic]: [order] is [S] read from its end.  The
    division is Python's, so a zero [sigma[w]] raises ([None]). *)
Fixpoint accumulate_basic (order : list node) (P : node -> list node)
         (sigma : node -> Q) (s : node) (delta betweenness : node -> Q)
  : option (node -> Q) :=
  match order with
  | [] => Some betweenness
  | w :: r =>
      if Qeq_bool (sigma w) 0 then None
      else
        let coeff := Qred ((1 + delta w) / sigma w) in
        let delta' := spread sigma coeff (P w) delta in
        let betweenness' :=
          if Z.eqb w s then betweenness
          else upd betweenness w (Qred (betweenness w + delta' w)) in
        accumulate_basic r P sigma s delta' betweenness'
  end.

(** The loop [for s in nodes] of [betweenness_centrality]. *)
Fixpoint accumulate_sources (G : graph) (sources : list node)
         (betweenness : node -> Q) : option (node -> Q) :=
  match sources with
  | [] => Some betweenness
  | s :: r =>
      let st := single_source_dijkstra_path_basic G s in
      match accumulate_basic (rev (S_ st)) (P_ st) (sigma_ st) s
                             (fun _ => 0%Q) betweenness with
      | None => None
      | Some b => accumulate_sources G r b
      end
  end.

(** [_rescale] for [normalized=True], [k=None], [endpoints=False]: no
    scaling up to two nodes, [1 / ((n-1)(n-2))] beyond. *)
Definition rescale (n : nat) (b : Q) : Q :=
  if (n <=? 2)%nat then b
  else Qred (b * (1 / inject_Z (Z.of_nat ((n - 1) * (n - 2))))).

(** [nx.betweenness_centrality(G, weight="length", normalized=True)]:
    the dict node -> score in the order of the nodes of [G]. *)
Definition betweenness_centrality (G : graph) : option (list (node * Q)) :=
  match accumulate_sources G (nodes G) (fun _ => 0%Q) with
  | None => None
  | Some b =>
      Some (map (fun v => (v, rescale (List.length (nodes G)) (b v)))
                (nodes G))
  end.

End Betweenness.

(* ===================================================================== *)
(** * The script [computemetrics.py] end to end *)
(* ===================================================================== *)

Module Pipeline.

Import Graph Paths Betweenness Table.

(** [nodes_gdf["betweenness"] = nodes_gdf.index.map(btw)] and the same
    for [aspl]: a node missing from the dict gets NaN. *)
Definition node_rows (G : graph) (btw : list (node * Q))
           (aspl : list (node * float64)) : list node_row :=
  map
    (fun v =>
       {| n_osmid := v;
          n_betweenness :=
            match lookup v btw with Some b => Fin b | None => NaN end;
          n_aspl :=
            match lookup v aspl with Some a => a | None => NaN end |})
    (nodes G).

(** A feature of the polygon layer as [gpd.read_file] returns it: the
    area of its geometry after projection (NaN for a feature without
    geometry) and the text of its key cells. *)
Record feature : Type := {
  f_geometry_area : float64;
  f_GEOID_BG : string;
  f_GEOID : string
}.

(** The layer: its features and which of the two key columns it has.
    The cell of a column the layer lacks is not read.  The key columns
    of the layer hold text, and none of their cells is missing. *)
Record layer : Type := {
  features : list feature;
  has_GEOID_BG : bool;
  has_GEOID : bool
}.

(** "Ensure key" (lines 71-75), for one feature: a [GEOID_BG] column
    is used as it is; without one the key is the normalized [GEOID]. *)
Definition key_of (L : layer) (f : feature) : key :=
  if has_GEOID_BG L then f_GEOID_BG f
  else Geoid.normalize (Geoid.CStr (f_GEOID f)).

(** The two columns of [bg_m] that the rest of the script reads. *)
Definition bg_of (L : layer) (f : feature) : bg_row :=
  {| bg_GEOID_BG := key_of L f; bg_geometry_area := f_geometry_area f |}.

(** A layer with neither key column stops the run ([None]). *)
Definition keyed (L : layer) : option (list bg_row) :=
  if has_GEOID_BG L || has_GEOID L
  then Some (map (bg_of L) (features L))
  else None.

(** The run from the loaded graph [G0] and the polygon layer [L] to
    the rows of [bg_metrics.csv].  [None] is a run that stops and
    writes nothing:
    - the null graph ([nx.is_connected] raises);
    - an empty layer, or a layer without key column ([SystemExit]);
    - a reduced graph without edges ([ox.graph_to_gdfs] raises
      [ValueError]);
    - an exception of a metric;
    - no edge that meets a polygon ([gpd.overlay] raises: its empty
      result is built by joining the index of the edges, which has
      three levels, with the index of the layer). *)
Definition computemetrics (G0 : graph) (L : layer)
           (within : Z -> nat -> bool) (clip : nat -> nat -> option Q)
  : option (list metrics_row) :=
  match largest_component G0 with
  | None => None
  | Some G =>
      match features L with
      | [] => None
      | _ =>
          match keyed L with
          | None => None
          | Some bg =>
              match edges G with
              | [] => None
              | _ =>
                  match betweenness_centrality G with
                  | None => None
                  | Some btw =>
                      match all_pairs_mean_shortest_path_length G with
                      | None => None
                      | Some aspl =>
                          let nodes_in_bg :=
                            sjoin (node_rows G btw aspl) bg within in
                          match overlay (List.length (edges G)) bg clip with
                          | [] => None
                          | inter => Some (bg_metrics bg nodes_in_bg inter)
                          end
                      end
                  end
              end
          end
      end
  end.

End Pipeline.

(* ===================================================================== *)
(** * Identifier columns of the census scripts *)
(* ===================================================================== *)

Module Idents.

Import Geoid.
Local Open Scope string_scope.

Fixpoint take (n : nat) (s : string) : string :=
  match n, s with
  | O, _ => EmptyString
  | S n', String c s' => String c (take n' s')
  | S _, EmptyString => EmptyString
  end.

(** Python's [s[lo:hi]] for [0 <= lo <= hi]: a slice that runs past the
    end is cut short, it raises nothing. *)
Definition slice (lo hi : nat) (s : string) : string :=
  take (hi - lo) (drop lo s).

(** The three identifier columns of a row. *)
Record ids : Type := {
  id_TRACT : string;
  id_BG : string;
  id_GEOID_BG : string
}.

(** [HW4/deliverable1.py], [fetch_census], and [HW4/deliverable2.py]:
    [TRACT = tract.str.zfill(6)], [BG = block group],
    [GEOID_BG = "17031" + TRACT + BG]. *)
Definition standardize_ids (tract block_group : string) : ids :=
  let t := zfill 6 tract in
  {| id_TRACT := t;
     id_BG := block_group;
     id_GEOID_BG := "17031" ++ t ++ block_group |}.

(** [checkinputs.py], step 3, for one row: the key is normalized; a
    [TRACT] or [BG] column the CSV lacks ([None]) is cut out of the
    normalized key, [str[5:11]] and [str[-1:]]. *)
Definition derive_ids (geoid : cell) (tract bg : option string) : ids :=
  let k := normalize geoid in
  {| id_TRACT := match tract with Some t => t | None => slice 5 11 k end;
     id_BG := match bg with Some b => b | None => str_last 1 k end;
     id_GEOID_BG := k |}.

(** [str.replace(r"\.0$", "", regex=True)]: a final [.0] is removed;
    [$] also matches before a newline that ends the string. *)
Definition newline : string := String "010"%char EmptyString.

Fixpoint strip_dot0 (s : string) : string :=
  match s with
  | EmptyString => EmptyString
  | String c r =>
      if String.eqb s ".0" then EmptyString
      else if String.eqb s (".0" ++ newline) then newline
      else String c (strip_dot0 r)
  end.

(** [HW4/deliverable3.py], the key of a column that exists:
    [col.astype(str).str.replace(r"\.0$", "").str.zfill(12)]. *)
Definition geoid_fix (c : cell) : string :=
  zfill 12 (strip_dot0 (astype_str c)).

(** [make_geoid_bg_from_parts], for one row of the TIGER layer. *)
Definition geoid_from_parts (statefp countyfp tractce blkgrpce : cell)
  : string :=
  zfill 2 (astype_str statefp) ++ zfill 3 (astype_str countyfp)
  ++ zfill 6 (astype_str tractce) ++ zfill 1 (astype_str blkgrpce).

(** The TIGER layer seen through the columns the key may come from. *)
Record bg_cols : Type := {
  g_GEOID : option (list cell);
  g_STATEFP : option (list cell);
  g_COUNTYFP : option (list cell);
  g_TRACTCE : option (list cell);
  g_BLKGRPCE : option (list cell)
}.

Fixpoint zip4 (A : Type) (a b c d : list A) : list (A * A * A * A) :=
  match a, b, c, d with
  | x :: a', y :: b', z :: c', w :: d' => (x, y, z, w) :: zip4 a' b' c' d'
  | _, _, _, _ => []
  end.

Definition missing_field (fld : string) : string :=
  "Block-group layer missing required field: " ++ fld.

(** [make_geoid_bg_from_parts]: the first field the layer lacks, in the
    order of the loop, stops the run. *)
Definition make_geoid_bg_from_parts (bg : bg_cols) : outcome (list string) :=
  match g_STATEFP bg with
  | None => Abort (missing_field "STATEFP")
  | Some st =>
  match g_COUNTYFP bg with
  | None => Abort (missing_field "COUNTYFP")
  | Some co =>
  match g_TRACTCE bg with
  | None => Abort (missing_field "TRACTCE")
  | Some tr =>
  match g_BLKGRPCE bg with
  | None => Abort (missing_field "BLKGRPCE")
  | Some bl =>
      Done (map (fun p => let '(s, c, t, b) := p in geoid_from_parts s c t b)
                (zip4 st co tr bl))
  end end end end.

(** The ACS table seen through its identifier columns. *)
Record acs_cols : Type := {
  a_GEOID_BG : option (list cell);
  a_GEOID : option (list cell);
  a_TRACT : option (list cell);
  a_BG : option (list cell)
}.

(** [ensure_geoid_bg_strings], layer side. *)
Definition bg_key (bg : bg_cols) : outcome (list string) :=
  match g_GEOID bg with
  | Some gs => Done (map geoid_fix gs)
  | None => make_geoid_bg_from_parts bg
  end.

(** [ensure_geoid_bg_strings], ACS side: [GEOID_BG], else [GEOID], else
    [TRACT] and [BG] behind the fixed state and county codes. *)
Definition acs_key (acs : acs_cols) : outcome (list string) :=
  match a_GEOID_BG acs with
  | Some ks => Done (map geoid_fix ks)
  | None =>
      match a_GEOID acs with
      | Some gs => Done (map geoid_fix gs)
      | None =>
          match a_TRACT acs, a_BG acs with
          | Some ts, Some bs =>
              Done (map (fun tb =>
                           "17" ++ "031" ++ zfill 6 (astype_str (fst tb))
                           ++ zfill 1 (astype_str (snd tb)))
                        (combine ts bs))
          | _, _ => Abort "ACS CSV needs GEOID_BG or (GEOID) or (TRACT + BG)."
          end
      end
  end.

(** What [pd.read_csv] without [dtype] makes of a cell of decimal
    digits: the integer it denotes ([None]: the cell is not of that
    form).  Leading zeros are lost. *)
Definition read_int (s : string) : option Z :=
  match s with
  | EmptyString => None
  | _ => option_map Z.of_uint (NilEmpty.uint_of_string s)
  end.

End Idents.

(* ===================================================================== *)
(** * Percentages of the census tables *)
(* ===================================================================== *)

Module Rates.

Local Open Scope Q_scope.

(** [Series.round(2)] and [round(x, 2)]: NaN and the infinities round
    to themselves. *)
Definition round2 (x : float64) : float64 :=
  match x with
  | Fin q => Fin (Qred (inject_Z (rint (q * 100)) / 100))
  | _ => x
  end.

(** [x <= y] and [x == y] as numpy compares: false with a NaN. *)
Definition fle (x y : float64) : bool :=
  match x, y with
  | NaN, _ | _, NaN => false
  | Fin a, Fin b => Qle_bool a b
  | NInf, _ => true
  | _, PInf => true
  | _, _ => false
  end.

Definition feq (x y : float64) : bool :=
  match x, y with
  | Fin a, Fin b => Qeq_bool a b
  | PInf, PInf | NInf, NInf => true
  | _, _ => false
  end.

(** [Series.mask(cond)]: NaN where the condition holds. *)
Definition mask (cond : bool) (x : float64) : float64 :=
  if cond then NaN else x.

(** [aggregatetobg.py], [pct(n, d)], cell by cell. *)
Definition pct (n d : float64) : float64 :=
  let out := fmul (fdiv n d) (Fin 100) in
  round2 (mask (fle d (Fin 0) || is_nan d || is_nan n) out).

(** [HW4/deliverable3.py], [safe_rate(num, den)]. *)
Definition safe_rate (num den : float64) : float64 :=
  let out := fmul (fdiv num den) (Fin 100) in
  round2 (mask (feq den (Fin 0) || is_nan den || is_nan num) out).

(** [HW4/deliverable1.py] and [HW4/deliverable2.py]:
    [(x / pop * 100).round(2)], without a guard. *)
Definition raw_rate (x pop : float64) : float64 :=
  round2 (fmul (fdiv x pop) (Fin 100)).

(** [HW4/deliverable1.py], [pct_change(new, old)] on two floats;
    [None] is the [None] the function returns for [old == 0]. *)
Definition pct_change (new old : float64) : option float64 :=
  if feq old (Fin 0) then None
  else Some (round2 (fmul (fdiv (fadd new (fneg old)) old) (Fin 100))).

(** [checkinputs.py], step 4: a cell is bad when it is not missing and
    lies below -0.01 or above 100.01; the first column with a bad cell
    stops the run. *)
Definition bad_rate (x : float64) : bool :=
  negb (is_nan x) && (flt x (Fin (- (1 # 100))) || flt (Fin (10001 # 100)) x).

Fixpoint check_rates (cols : list (string * list float64))
  : Geoid.outcome unit :=
  match cols with
  | [] => Geoid.Done tt
  | (c, col) :: r =>
      if existsb bad_rate col
      then Geoid.Abort ("Out-of-range values in " ++ c)%string
      else check_rates r
  end.

End Rates.

(* ===================================================================== *)
(** * Inner merges of the later scripts *)
(* ===================================================================== *)

Module Joins.

Import Table.

(** [left.merge(right, on="GEOID_BG", how="inner")] of
    [robustcheck.py], [analysismaps.py] and [HW4/deliverable3.py]:
    the left rows in their order, each once per right row with its key;
    a left row without partner is dropped. *)
Definition merge_inner (L R : Type) (keyL : L -> key) (keyR : R -> key)
           (left : list L) (right : list R) : list (L * R) :=
  flat_map
    (fun l =>
       map (fun r => (l, r))
           (filter (fun r => String.eqb (keyR r) (keyL l)) right))
    left.

End Joins.

(* ===================================================================== *)
(** * The script [buildnetwork.py] *)
(* ===================================================================== *)

Module Build.

Import Graph Geoid.
Local Open Scope string_scope.

(** [main] of [buildnetwork.py] from what the outside world answers:
    whether the polygon layer is empty, whether the dissolved polygon
    is, the graph that [get_drive_graph] returns for the polygon and
    the one it returns for the polygon grown by 150 m.  The second
    download happens only when the first graph has no node.  [Done] is
    the graph written to the GraphML file. *)
Definition main (bg_empty poly_empty : bool) (first retry : graph)
  : outcome graph :=
  if bg_empty then Abort "[FAIL] No geometries found"
  else if poly_empty
  then Abort "[FAIL] Could not dissolve BGs into a single CA polygon."
  else
    let G :=
      match nodes first with
      | [] => retry
      | _ => first
      end in
    match nodes G with
    | [] => Abort "[FAIL] Still empty after buffering; check boundary or internet connection."
    | _ =>
        match largest_connected_component G with
        | Some G' => Done G'
        | None => Abort "NetworkXPointlessConcept"
        end
    end.

End Build.

(* ===================================================================== *)
(** * The script [checkinputs.py] *)
(* ===================================================================== *)

Module Checker.

Import Geoid Rates.
Local Open Scope string_scope.

(** The ACS table as the checker reads it: the required columns it
    lacks, its key column and its rate columns after
    [pd.to_numeric(errors="coerce")]. *)
Record acs_csv : Type := {
  missing_core : list string;
  csv_GEOID_BG : list (option cell);
  csv_rates : list (string * list float64)
}.

(** The spatial file: not readable (or geopandas not installed), or a
    layer seen through its key columns. *)
Inductive geometry : Type :=
| NoGeometry
| Layer (g : frame).

(** The two ways the script ends with exit code 0. *)
Inductive verdict : Type :=
| ReadyCsvOnly   (* "[READY] Inputs pass basic CSV checks." *)
| ReadyAll.      (* "[READY] Inputs pass checks and are ready for Step 3." *)

(** Step 5, the key of the layer: an existing [GEOID_BG] column is
    used as it is. *)
Definition geometry_key (g : frame) : outcome (list (option cell)) :=
  match col_GEOID_BG g with
  | Some ks => Done ks
  | None =>
      match col_GEOID g with
      | Some gs => Done (map (option_map CStr) (normalize_col gs))
      | None => Abort "Geometry lacks GEOID/GEOID_BG for overlap check."
      end
  end.

(** A cell of the layer equals a key of the CSV only if it is the same
    text. *)
Definition is_key (k : string) (c : option cell) : bool :=
  match c with Some (CStr s) => String.eqb s k | _ => false end.

(** [set(df["GEOID_BG"]).intersection(set(g["GEOID_BG"]))], as the
    keys of the CSV that the layer has. *)
Definition common (keys : list string) (gkeys : list (option cell))
  : list string :=
  filter (fun k => existsb (is_key k) gkeys) keys.

(** The script from its first check to its last. *)
Definition checkinputs (csv_exists : bool) (csv : acs_csv) (geo : geometry)
  : outcome verdict :=
  if negb csv_exists then Abort "ACS CSV not found"
  else
    match missing_core csv with
    | _ :: _ => Abort "Missing required columns in CSV"
    | [] =>
        match check_keys (csv_GEOID_BG csv) with
        | Abort m => Abort m
        | Done keys =>
            match check_rates (csv_rates csv) with
            | Abort m => Abort m
            | Done _ =>
                match geo with
                | NoGeometry => Done ReadyCsvOnly
                | Layer g =>
                    match geometry_key g with
                    | Abort m => Abort m
                    | Done gkeys =>
                        match common keys gkeys with
                        | [] => Abort "No overlap between CSV GEOIDs and geometry"
                        | _ => Done ReadyAll
                        end
                    end
                end
            end
        end
    end.

End Checker.

(* ===================================================================== *)
(** * Suffixed columns after a merge *)
(* ===================================================================== *)

Module Frames.

Local Open Scope string_scope.

(** A table as its columns in order; a column holds float cells. *)
Definition column : Type := list float64.
Definition table : Type := list (string * column).

(** [c in df.columns] and [df[c]]. *)
Definition has (c : string) (df : table) : bool :=
  existsb (fun p => String.eqb (fst p) c) df.

Fixpoint get (c : string) (df : table) : option column :=
  match df with
  | [] => None
  | (c', col) :: r => if String.eqb c' c then Some col else get c r
  end.

(** [df[c] = col]: an existing column is replaced where it stands, a
    new one is added at the end. *)
Fixpoint set_col (c : string) (col : column) (df : table) : table :=
  match df with
  | [] => [(c, col)]
  | (c', col') :: r =>
      if String.eqb c' c then (c, col) :: r
      else (c', col') :: set_col c col r
  end.

(** [df.drop(columns=[c])]. *)
Definition drop_col (c : string) (df : table) : table :=
  filter (fun p => negb (String.eqb (fst p) c)) df.

(** [y.where(y.notna(), x)], row by row. *)
Definition coalesce (y x : column) : column :=
  map (fun p => if is_nan (fst p) then snd p else fst p) (combine y x).

(** [analysismaps.py], [collapse_suffixes(geodf, base)]. *)
Definition collapse_suffixes_maps (df : table) (base : string) : table :=
  let x := base ++ "_x" in
  let y := base ++ "_y" in
  let df1 :=
    match get x df, get y df with
    | Some cx, Some cy => set_col base (coalesce cy cx) df
    | None, Some cy => if has base df then df else set_col base cy df
    | _, None => df
    end in
  let df2 := if has x df1 then drop_col x df1 else df1 in
  if has y df2 then drop_col y df2 else df2.

(** [robustcheck.py], [collapse_suffixes(df, base)]. *)
Definition collapse_suffixes_robust (df : table) (base : string) : table :=
  let x := base ++ "_x" in
  let y := base ++ "_y" in
  match get x df, get y df with
  | Some cx, Some cy =>
      drop_col y (drop_col x (set_col base (coalesce cy cx) df))
  | None, Some cy =>
      if has base df then df else drop_col y (set_col base cy df)
  | Some cx, None =>
      if has base df then df else drop_col x (set_col base cx df)
  | None, None => df
  end.

End Frames.

(* ===================================================================== *)
(** * Filling in a missing rate column *)
(* ===================================================================== *)

Module Refill.

Import Frames Rates.
Local Open Scope string_scope.

(** [pd.to_numeric(col, errors="coerce").notna().sum() == 0]. *)
Definition all_missing (col : column) : bool := forallb is_nan col.

(** A function of two columns applied row by row. *)
Definition map2 (f : float64 -> float64 -> float64) (a b : column) : column :=
  map (fun p => f (fst p) (snd p)) (combine a b).

(** [HW4/deliverable3.py], [needs_compute(df, field, deps)]. *)
Definition needs_compute (df : table) (field : string) (deps : list string)
  : bool :=
  negb (has field df)
  || (match get field df with
      | Some col => all_missing col
      | None => true
      end
      && forallb (fun d => has d df) deps).

(** [HW4/deliverable3.py]:
    [if needs_compute(g, field, [num, den]):
       g[field] = safe_rate(g[num], g[den])].
    [None] is the [KeyError] of [g[num]] or [g[den]]. *)
Definition fill_rate (g : table) (field num den : string) : option table :=
  if needs_compute g field [num; den] then
    match get num g with
    | None => None
    | Some n =>
        match get den g with
        | None => None
        | Some d => Some (set_col field (map2 safe_rate n d) g)
        end
    end
  else Some g.

(** [aggregatetobg.py]:
    [if (field not in acs.columns) or (no value in it):
       if {num, den}.issubset(acs.columns):
         acs[field] = pct(acs[num], acs[den])]. *)
Definition refill_rate (acs : table) (field num den : string) : table :=
  if negb (has field acs)
     || match get field acs with
        | Some col => all_missing col
        | None => true
        end
  then
    if has num acs && has den acs then
      match get num acs, get den acs with
      | Some n, Some d => set_col field (map2 pct n d) acs
      | _, _ => acs
      end
    else acs
  else acs.

End Refill.

(* ===================================================================== *)
(** * Rounding *)
(* ===================================================================== *)

Module FloatFacts.

Local Open Scope Q_scope.

Lemma rint_cases : forall q,
  rint q = Qfloor q \/
  (rint q = (Qfloor q + 1)%Z /\ 1 # 2 <= q - inject_Z (Qfloor q)).
Proof.
  intros q. unfold rint.
  destruct (Qcompare (q - inject_Z (Qfloor q)) (1 # 2)) eqn:Hc.
  - apply Qeq_alt in Hc. destruct (Z.even (Qfloor q)); [now left |].
    right. split; [reflexivity |]. rewrite Hc. apply Qle_refl.
  - now left.
  - right. split; [reflexivity |]. apply Qgt_alt in Hc. now apply Qlt_le_weak.
Qed.

Lemma rint_half : forall q,
  rint q = Qfloor q -> q - inject_Z (Qfloor q) <= 1 # 2.
Proof.
  intros q. unfold rint.
  destruct (Qcompare (q - inject_Z (Qfloor q)) (1 # 2)) eqn:Hc.
  - intros _. apply Qeq_alt in Hc. rewrite Hc. apply Qle_refl.
  - intros _. apply Qlt_alt in Hc. now apply Qlt_le_weak.
  - intros H. lia.
Qed.

(** The rounded value is within one half of the number. *)
Lemma rint_close : forall q,
  - (1 # 2) <= inject_Z (rint q) - q /\ inject_Z (rint q) - q <= 1 # 2.
Proof.
  intros q. pose proof (Qfloor_le q) as Hlo. pose proof (Qlt_floor q) as Hhi.
  rewrite inject_Z_plus in Hhi. change (inject_Z 1) with 1 in Hhi.
  destruct (rint_cases q) as [H | [H Hr]].
  - pose proof (rint_half q H). rewrite H. split; lra.
  - rewrite H, inject_Z_plus. change (inject_Z 1) with 1. split; lra.
Qed.

(** Rounding does not cross an integer. *)
Lemma rint_le : forall q N, q <= inject_Z N -> (rint q <= N)%Z.
Proof.
  intros q N H.
  assert (Hf : (Qfloor q <= N)%Z).
  { rewrite <- (Qfloor_Z N). now apply Qfloor_resp_le. }
  destruct (rint_cases q) as [-> | [-> Hr]]; [exact Hf |].
  destruct (Z.eq_dec (Qfloor q) N) as [He | Hne]; [| lia].
  exfalso. rewrite He in Hr. lra.
Qed.

Lemma rint_ge : forall q M, inject_Z M <= q -> (M <= rint q)%Z.
Proof.
  intros q M H.
  assert (Hf : (M <= Qfloor q)%Z).
  { rewrite <- (Qfloor_Z M). now apply Qfloor_resp_le. }
  destruct (rint_cases q) as [-> | [-> _]]; lia.
Qed.

Lemma pow2_pos : forall k, 0 < pow2 k.
Proof.
  intros [| p | p]; cbn [pow2]; [reflexivity | | reflexivity].
  change 0 with (inject_Z 0). rewrite <- Zlt_Qlt.
  apply Z.pow_pos_nonneg; lia.
Qed.

(** Rounding to float64 keeps the sign. *)
Lemma round64_nonpos : forall q, q <= 0 -> round64 q <= 0.
Proof.
  intros q Hq. unfold round64.
  destruct (Qnum q); [apply Qle_refl | |];
    set (ulp := pow2 (Z.max (binade (Qabs q)) (-1022) - 52));
    pose proof (pow2_pos (Z.max (binade (Qabs q)) (-1022) - 52)) as Hu;
    fold ulp in Hu; rewrite Qred_correct;
    (assert (Hr : (rint (q / ulp) <= 0)%Z);
     [ apply rint_le; change (inject_Z 0) with 0;
       apply Qle_shift_div_r; [exact Hu | lra]
     | rewrite Zle_Qle in Hr; change (inject_Z 0) with 0 in Hr; nra ]).
Qed.

End FloatFacts.

(* ===================================================================== *)
(** * Properties of the key normalisation *)
(* ===================================================================== *)

Module GeoidFacts.

Import Geoid.
Local Open Scope string_scope.

Lemma length_drop : forall n s,
  String.length (drop n s) = String.length s - n.
Proof.
  induction n as [|n IH]; intros s; simpl.
  - lia.
  - destruct s as [|c s]; simpl; [reflexivity | apply IH].
Qed.

Lemma length_str_last : forall k s,
  String.length (str_last k s) = Nat.min k (String.length s).
Proof.
  intros k s. unfold str_last. rewrite length_drop. lia.
Qed.

Lemma length_zeros : forall n, String.length (zeros n) = n.
Proof.
  induction n as [|n IH]; simpl; congruence.
Qed.

Lemma length_append : forall a b,
  String.length (a ++ b) = String.length a + String.length b.
Proof.
  induction a as [|c a IH]; intros b; simpl; [reflexivity | now rewrite IH].
Qed.

Lemma length_zfill : forall w s,
  String.length (zfill w s) = Nat.max w (String.length s).
Proof.
  intros w s. unfold zfill.
  destruct (Nat.leb_spec w (String.length s)) as [Hle | Hlt].
  - lia.
  - destruct s as [|c rest].
    + rewrite length_zeros. simpl. lia.
    + destruct (Ascii.eqb c "+" || Ascii.eqb c "-")%bool; simpl in *;
        rewrite length_append, length_zeros; simpl; lia.
Qed.

Lemma normalize_twelve : forall c, twelve (normalize c).
Proof.
  intros c. unfold twelve, normalize.
  rewrite length_zfill, length_str_last. lia.
Qed.

Lemma normalize_col_twelve : forall col,
  Forall twelve_or_missing (normalize_col col).
Proof.
  intros col. unfold normalize_col. apply Forall_forall.
  intros k Hk. apply in_map_iff in Hk. destruct Hk as [[c |] [<- _]]; simpl.
  - apply normalize_twelve.
  - exact I.
Qed.

(** A key is missing after the normalisation exactly when it was
    missing before. *)
Lemma normalize_col_missing : forall col,
  In None (normalize_col col) <-> In None col.
Proof.
  intros col. unfold normalize_col. rewrite in_map_iff. split.
  - intros [[c |] [H Hin]]; [discriminate | exact Hin].
  - intros H. now exists None.
Qed.

(** No duplicate is counted exactly when the keys are pairwise
    distinct and new with respect to [seen]. *)
Lemma duplicated_sum_zero : forall l seen,
  duplicated_sum seen l = 0 <->
  (NoDup l /\ forall k, In k l -> ~ In k seen).
Proof.
  induction l as [|k r IH]; intros seen; simpl.
  - split; [intros _; split; [constructor | intros ? []] | reflexivity].
  - destruct (in_dec key_dec k seen) as [Hin | Hout].
    + split; [discriminate |].
      intros [_ H]. exfalso. apply (H k); [now left | exact Hin].
    + rewrite IH. split.
      * intros [Hnd H]. split.
        -- constructor; [| exact Hnd].
           intros Hk. apply (H k Hk). now left.
        -- intros k' [<- | Hk'] Hs; [now apply Hout |].
           apply (H k' Hk'). now right.
      * intros [Hnd H]. inversion Hnd as [| ? ? Hk Hr]; subst.
        split; [exact Hr |].
        intros k' Hk' [<- | Hs]; [now apply Hk |].
        apply (H k'); [now right | exact Hs].
Qed.

(** The length test fires exactly for a missing key. *)
Lemma length_check_fires : forall col,
  existsb bad_length (normalize_col col) = true <-> In None col.
Proof.
  intros col. rewrite existsb_exists. split.
  - intros [[k |] [Hk Hlen]].
    + exfalso. pose proof (normalize_col_twelve col) as Hall.
      rewrite Forall_forall in Hall. specialize (Hall _ Hk).
      simpl in Hall, Hlen. unfold twelve in Hall. rewrite Hall in Hlen.
      discriminate.
    + now apply normalize_col_missing.
  - intros H. exists None. split; [now apply normalize_col_missing | reflexivity].
Qed.

Lemma present_all : forall (A : Type) (col : list (option A)),
  ~ In None col -> map Some (present col) = col.
Proof.
  induction col as [|[a |] r IH]; intros H; simpl.
  - reflexivity.
  - f_equal. apply IH. intros Hin. apply H. now right.
  - exfalso. apply H. now left.
Qed.

Lemma in_present : forall (A : Type) (col : list (option A)) a,
  In a (present col) <-> In (Some a) col.
Proof.
  induction col as [|[b |] r IH]; intros a; simpl.
  - reflexivity.
  - rewrite IH. split; intros [H | H]; auto; left; congruence.
  - rewrite IH. split; [auto | intros [H | H]; [discriminate | exact H]].
Qed.

Lemma NoDup_present : forall (A : Type) (col : list (option A)),
  NoDup col -> NoDup (present col).
Proof.
  induction col as [|[a |] r IH]; intros H; simpl.
  - constructor.
  - inversion H as [| ? ? Ha Hr]; subst. constructor; [| now apply IH].
    rewrite in_present. exact Ha.
  - inversion H as [| ? ? _ Hr]; subst. now apply IH.
Qed.

(** The three ways the key check of [checkinputs.py] ends. *)
Lemma check_keys_cases : forall col,
  (check_keys col = Done (present (normalize_col col)) /\
   NoDup (normalize_col col) /\ ~ In None col) \/
  (check_keys col = Abort "GEOID_BG duplicates found" /\
   ~ NoDup (normalize_col col)) \/
  (check_keys col
   = Abort "Some GEOID_BG values are not 12 characters after normalization." /\
   NoDup (normalize_col col) /\ In None col).
Proof.
  intros col. unfold check_keys.
  destruct (Nat.ltb_spec 0 (duplicated_sum [] (normalize_col col))) as [Hd | Hd].
  - right. left. split; [reflexivity |]. intros Hnd.
    assert (Hz : duplicated_sum [] (normalize_col col) = 0).
    { apply duplicated_sum_zero. split; [exact Hnd | intros ? _ []]. }
    lia.
  - assert (Hz : duplicated_sum [] (normalize_col col) = 0) by lia.
    apply duplicated_sum_zero in Hz. destruct Hz as [Hnd _].
    destruct (existsb bad_length (normalize_col col)) eqn:Hb.
    + right. right. apply length_check_fires in Hb. auto.
    + left. split; [reflexivity |]. split; [exact Hnd |].
      intros Hin. apply length_check_fires in Hin. congruence.
Qed.

Lemma check_keys_done : forall col keys,
  check_keys col = Done keys ->
  normalize_col col = map Some keys /\ NoDup keys /\ Forall twelve keys.
Proof.
  intros col keys H.
  destruct (check_keys_cases col) as [[He [Hnd Hin]] | [[He _] | [He _]]];
    rewrite He in H; try discriminate.
  injection H as <-.
  assert (Hm : ~ In None (normalize_col col))
    by (now rewrite normalize_col_missing).
  split; [symmetry; now apply present_all |].
  split; [now apply NoDup_present |].
  apply Forall_forall. intros k Hk. apply in_present in Hk.
  pose proof (normalize_col_twelve col) as Hall. rewrite Forall_forall in Hall.
  exact (Hall _ Hk).
Qed.

End GeoidFacts.

(* ===================================================================== *)
(** * Properties of the block-group table *)
(* ===================================================================== *)

Module TableFacts.

Import Table.

(** ** Group keys *)

Lemma in_insert_key : forall x l k,
  In k (insert_key x l) <-> k = x \/ In k l.
Proof.
  induction l as [|y r IH]; intros k; simpl.
  - intuition.
  - destruct (String.leb x y); simpl; [intuition |].
    rewrite IH. intuition.
Qed.

Lemma in_sort_keys : forall l k, In k (sort_keys l) <-> In k l.
Proof.
  induction l as [|x r IH]; intros k; simpl; [reflexivity |].
  rewrite in_insert_key, IH. intuition.
Qed.

Lemma NoDup_insert_key : forall x l,
  ~ In x l -> NoDup l -> NoDup (insert_key x l).
Proof.
  induction l as [|y r IH]; intros Hx Hnd; simpl.
  - constructor; [intros [] | constructor].
  - destruct (String.leb x y).
    + constructor; assumption.
    + inversion Hnd as [| ? ? Hy Hr]; subst. constructor.
      * rewrite in_insert_key. intros [-> | Hin]; [apply Hx; now left | now apply Hy].
      * apply IH; [intros Hin; apply Hx; now right | exact Hr].
Qed.

Lemma NoDup_sort_keys : forall l, NoDup l -> NoDup (sort_keys l).
Proof.
  induction l as [|x r IH]; intros Hnd; simpl; [constructor |].
  inversion Hnd as [| ? ? Hx Hr]; subst.
  apply NoDup_insert_key; [rewrite in_sort_keys; exact Hx | now apply IH].
Qed.

Lemma in_group_keys : forall ks k, In k (group_keys ks) <-> In k ks.
Proof.
  intros ks k. unfold group_keys. rewrite in_sort_keys. apply nodup_In.
Qed.

Lemma NoDup_group_keys : forall ks, NoDup (group_keys ks).
Proof.
  intros ks. apply NoDup_sort_keys, NoDup_nodup.
Qed.

Lemma in_some_keys : forall l k, In k (some_keys l) <-> In (Some k) l.
Proof.
  induction l as [|o r IH]; intros k; simpl; [reflexivity |].
  destruct o as [k' |]; simpl; rewrite IH.
  - split; intros [H | H]; auto; left; congruence.
  - split; [auto | intros [H | H]; [discriminate | exact H]].
Qed.

(** ** Left merge against a table with unique keys *)

Section Merge.

Variables L R : Type.
Variable keyL : L -> key.
Variable keyR : R -> key.

Definition partner (right : list R) (l : L) : option R :=
  find (fun r => String.eqb (keyR r) (keyL l)) right.

Lemma filter_key_absent : forall (right : list R) k,
  ~ In k (map keyR right) ->
  filter (fun r => String.eqb (keyR r) k) right = [].
Proof.
  induction right as [|r rest IH]; intros k Hk; simpl; [reflexivity |].
  destruct (String.eqb_spec (keyR r) k) as [He | Hne].
  - exfalso. apply Hk. left. exact He.
  - apply IH. intros Hin. apply Hk. now right.
Qed.

Lemma merge_row_unique : forall (right : list R) l,
  NoDup (map keyR right) ->
  match filter (fun r => String.eqb (keyR r) (keyL l)) right with
  | [] => [(l, None)]
  | hits => map (fun r => (l, Some r)) hits
  end = [(l, partner right l)].
Proof.
  unfold partner.
  induction right as [|r rest IH]; intros l Hnd; simpl; [reflexivity |].
  inversion Hnd as [| ? ? Hr Hrest]; subst.
  destruct (String.eqb_spec (keyR r) (keyL l)) as [He | Hne].
  - rewrite filter_key_absent; [reflexivity |]. now rewrite <- He.
  - now apply IH.
Qed.

Lemma merge_left_unique : forall (left : list L) (right : list R),
  NoDup (map keyR right) ->
  merge_left keyL keyR left right = map (fun l => (l, partner right l)) left.
Proof.
  intros left right Hnd. unfold merge_left.
  induction left as [|l rest IH]; [reflexivity |].
  change (flat_map ?f (l :: rest)) with (f l ++ flat_map f rest).
  cbn beta. rewrite (@merge_row_unique right l Hnd), IH. reflexivity.
Qed.

End Merge.

Lemma find_group : forall (R : Type) (keyR : R -> key) (mk : key -> R) ks k,
  (forall k', keyR (mk k') = k') ->
  find (fun r => String.eqb (keyR r) k) (map mk ks)
  = if in_dec string_dec k ks then Some (mk k) else None.
Proof.
  intros R keyR mk ks k Hmk.
  induction ks as [|k' r IH]; simpl; [reflexivity |].
  rewrite Hmk. destruct (String.eqb_spec k' k) as [He | Hne].
  - subst k'. destruct (string_dec k k) as [He | Hc]; [reflexivity | congruence].
  - rewrite IH. destruct (string_dec k' k) as [Hc | Hc]; [congruence |].
    destruct (in_dec string_dec k r); reflexivity.
Qed.

Lemma filter_nil_iff : forall (A : Type) (p : A -> bool) l,
  filter p l = [] <-> forall x, In x l -> p x = false.
Proof.
  induction l as [|a r IH]; simpl.
  - split; [intros _ ? [] | reflexivity].
  - destruct (p a) eqn:Ha.
    + split; [discriminate |]. intros H. specialize (H a (or_introl eq_refl)). congruence.
    + rewrite IH. split.
      * intros H x [<- | Hx]; [exact Ha | now apply H].
      * intros H x Hx. apply H. now right.
Qed.

(** A key heads a group of [nodes_grp] exactly when some joined row
    carries it. *)
Lemma node_group_exists : forall nodes_in_bg k,
  In k (group_keys (some_keys (map j_GEOID_BG nodes_in_bg))) <->
  filter (fun r => has_key k (j_GEOID_BG r)) nodes_in_bg <> [].
Proof.
  intros rows k. rewrite in_group_keys, in_some_keys, in_map_iff. split.
  - intros [r [Hk Hr]] Hnil. rewrite filter_nil_iff in Hnil.
    specialize (Hnil r Hr). rewrite Hk in Hnil. simpl in Hnil.
    rewrite String.eqb_refl in Hnil. discriminate.
  - intros Hne. destruct (filter _ rows) as [|r g] eqn:Hf; [congruence |].
    assert (Hin : In r (filter (fun r => has_key k (j_GEOID_BG r)) rows))
      by (rewrite Hf; now left).
    apply filter_In in Hin. destruct Hin as [Hr Hk].
    exists r. split; [| exact Hr].
    destruct (j_GEOID_BG r) as [k' |]; simpl in Hk; [| discriminate].
    apply String.eqb_eq in Hk. now subst.
Qed.

Lemma edge_group_exists : forall inter k,
  In k (group_keys (map i_GEOID_BG inter)) <->
  filter (fun r => String.eqb (i_GEOID_BG r) k) inter <> [].
Proof.
  intros rows k. rewrite in_group_keys, in_map_iff. split.
  - intros [r [Hk Hr]] Hnil. rewrite filter_nil_iff in Hnil.
    specialize (Hnil r Hr). simpl in Hnil. rewrite Hk, String.eqb_refl in Hnil.
    discriminate.
  - intros Hne. destruct (filter _ rows) as [|r g] eqn:Hf; [congruence |].
    assert (Hin : In r (filter (fun r => String.eqb (i_GEOID_BG r) k) rows))
      by (rewrite Hf; now left).
    apply filter_In in Hin. destruct Hin as [Hr Hk].
    exists r. split; [| exact Hr]. now apply String.eqb_eq in Hk.
Qed.

(** ** The table, row by row *)

(** The joined rows and the clipped pieces that carry the key [k]. *)
Definition nodes_of (nodes_in_bg : list joined_row) (k : key)
  : list joined_row :=
  filter (fun r => has_key k (j_GEOID_BG r)) nodes_in_bg.

Definition pieces_of (inter : list inter_row) (k : key) : list inter_row :=
  filter (fun r => String.eqb (i_GEOID_BG r) k) inter.

(** A statistic of a group, missing when the group is empty. *)
Definition stat (A : Type) (g : list A) (f : list A -> float64) : float64 :=
  match g with [] => NaN | _ => f g end.

(** The output row of one polygon, computed from that polygon and from
    the rows that carry its key, and from nothing else. *)
Definition row_of (nodes_in_bg : list joined_row) (inter : list inter_row)
           (b : bg_row) : metrics_row :=
  let g := nodes_of nodes_in_bg (bg_GEOID_BG b) in
  let h := pieces_of inter (bg_GEOID_BG b) in
  let cnt := stat g (fun g => of_nat (List.length g)) in
  let km := stat h (fun h => Stats.sum (map len_km h)) in
  {| GEOID_BG := bg_GEOID_BG b;
     area_km2 := area_of b;
     nodes_in_bg := cnt;
     edges_km := km;
     node_density := fdiv cnt (area_of b);
     edge_km_density := fdiv km (area_of b);
     betweenness_mean := stat g (fun g => Stats.mean (map j_betweenness g));
     betweenness_p90 :=
       stat g (fun g => Stats.quantile (9 # 10) (map j_betweenness g));
     aspl_mean := stat g (fun g => Stats.mean (map j_aspl g)) |}.

Lemma bg_metrics_rows : forall bg_m nodes_in_bg inter,
  bg_metrics bg_m nodes_in_bg inter = map (row_of nodes_in_bg inter) bg_m.
Proof.
  intros bg_m rows inter. unfold bg_metrics, metrics.
  rewrite (merge_left_unique bg_GEOID_BG ng_GEOID_BG).
  2:{ unfold nodes_grp. rewrite map_map. simpl. rewrite map_id.
      apply NoDup_group_keys. }
  rewrite (merge_left_unique (fun bn : bg_row * option nodes_grp_row =>
                                bg_GEOID_BG (fst bn)) eg_GEOID_BG).
  2:{ unfold edges_grp. rewrite map_map. simpl. rewrite map_id.
      apply NoDup_group_keys. }
  rewrite !map_map. apply map_ext. intros b. simpl.
  unfold partner, nodes_grp, edges_grp. simpl.
  rewrite (find_group ng_GEOID_BG) by reflexivity.
  rewrite (find_group eg_GEOID_BG) by reflexivity.
  unfold row_of, stat, nodes_of, pieces_of.
  destruct (in_dec string_dec (bg_GEOID_BG b)
              (group_keys (some_keys (map j_GEOID_BG rows)))) as [Hn | Hn];
    rewrite node_group_exists in Hn;
    destruct (in_dec string_dec (bg_GEOID_BG b)
                (group_keys (map i_GEOID_BG inter))) as [He | He];
    rewrite edge_group_exists in He; simpl;
    destruct (filter (fun r => has_key (bg_GEOID_BG b) (j_GEOID_BG r)) rows)
      as [|r g] eqn:Hg;
    destruct (filter (fun r => String.eqb (i_GEOID_BG r) (bg_GEOID_BG b)) inter)
      as [|p h] eqn:Hh;
    try congruence; try reflexivity;
    try (exfalso; apply Hn; discriminate);
    try (exfalso; apply He; discriminate).
Qed.

End TableFacts.

(* ===================================================================== *)
(** * Claims on keys *)
(* ===================================================================== *)

Module KeyClaims.

Import Geoid GeoidFacts.
Local Open Scope string_scope.

(** A cell of a key column that holds a 12-character string, and one
    that does so or is missing. *)
Definition twelve_cell (c : option cell) : Prop :=
  match c with Some c' => twelve (astype_str c') | None => False end.

Definition twelve_or_missing_cell (c : option cell) : Prop :=
  match c with Some c' => twelve (astype_str c') | None => True end.

(** The key column of [computemetrics.py] is made of 12-character
    strings only if the layer's own column already is: a layer that
    brings a [GEOID_BG] column keeps it untouched, here a 7-character
    key, although a [GEOID] column is at hand.  And a key that is
    missing in the table of [aggregatetobg.py] goes into the merge
    missing, not as a 12-character string. *)
Lemma existing_key_column_not_normalized :
  let bg := {| col_GEOID_BG := Some [Some (CStr "8203001")];
               col_GEOID := Some [Some (CStr "170318203001")] |} in
  (exists ks, ensure_key bg = Done ks /\ ~ Forall twelve_cell ks) /\
  fst (aggregate_keys [Some (CStr "170318203001"); None] [])
  = [Some "170318203001"; None].
Proof.
  cbv zeta. split; [| reflexivity].
  exists [Some (CStr "8203001")]. split; [reflexivity |].
  intros H. inversion H as [| ? ? H1 _]; subst.
  unfold twelve_cell, twelve in H1. simpl in H1. discriminate.
Qed.

(** C10, amended.  The normalisation (last 12 characters of the string
    form, zero-padded to 12) yields a 12-character string for every
    cell that holds a value, text or integer; in a column it leaves a
    missing cell missing.  [checkinputs.py] and [aggregatetobg.py]
    apply it to their key columns without condition.  The checker
    stops the run when two normalized keys coincide, and otherwise when
    a normalized key is not 12 characters long, which is the case
    exactly for a missing key; when it goes on, the keys are pairwise
    distinct 12-character strings.  [computemetrics.py] normalizes only
    a key it derives from [GEOID]; an existing [GEOID_BG] column is
    used as it is. *)
Theorem geoid_key_normalisation :
  (forall c, twelve (normalize c)) /\
  (forall col,
      Forall twelve_or_missing (normalize_col col) /\
      (In None (normalize_col col) <-> In None col)) /\
  (forall col,
      (exists keys,
          check_keys col = Done keys /\ normalize_col col = map Some keys /\
          NoDup keys /\ Forall twelve keys) \/
      (check_keys col = Abort "GEOID_BG duplicates found" /\
       ~ NoDup (normalize_col col)) \/
      (check_keys col
       = Abort "Some GEOID_BG values are not 12 characters after normalization." /\
       NoDup (normalize_col col) /\ In None col)) /\
  (forall acs metrics,
      Forall twelve_or_missing (fst (aggregate_keys acs metrics)) /\
      Forall twelve_or_missing (snd (aggregate_keys acs metrics))) /\
  (forall ks g,
      ensure_key {| col_GEOID_BG := Some ks; col_GEOID := g |} = Done ks) /\
  (forall gs,
      exists ks,
        ensure_key {| col_GEOID_BG := None; col_GEOID := Some gs |} = Done ks /\
        Forall twelve_or_missing_cell ks).
Proof.
  split; [apply normalize_twelve |].
  split.
  { intros col. split; [apply normalize_col_twelve | apply normalize_col_missing]. }
  split.
  { intros col.
    destruct (check_keys_cases col) as [[He _] | [H | H]]; [left | auto | auto].
    exists (present (normalize_col col)). split; [exact He |].
    now apply check_keys_done. }
  split.
  { intros acs metrics. simpl. split; apply normalize_col_twelve. }
  split; [reflexivity |].
  intros gs. eexists. split; [reflexivity |].
  apply Forall_forall. intros c Hc. apply in_map_iff in Hc.
  destruct Hc as [[k |] [<- Hk]]; simpl; [| exact I].
  pose proof (normalize_col_twelve gs) as Hall. rewrite Forall_forall in Hall.
  exact (Hall _ Hk).
Qed.

(** An integer key that lost its leading zero gets it back, a longer
    identifier is cut to its last 12 characters, a sign stays in
    front of the padding, and a missing cell stays missing. *)
Example normalize_examples :
  normalize (CInt 60371234561) = "060371234561" /\
  normalize (CStr "US170318203001") = "170318203001" /\
  normalize (CStr "-42") = "-00000000042" /\
  normalize_col [Some (CInt 60371234561); None]
  = [Some "060371234561"; None].
Proof. repeat split; reflexivity. Qed.

(** Two keys that coincide after the normalisation stop the checker,
    and so does a missing key. *)
Example check_keys_examples :
  check_keys [Some (CStr "170318203001"); Some (CStr "170318203002")]
  = Done ["170318203001"; "170318203002"] /\
  check_keys [Some (CStr "170318203001"); Some (CInt 170318203001)]
  = Abort "GEOID_BG duplicates found" /\
  check_keys [Some (CStr "170318203001"); None]
  = Abort "Some GEOID_BG values are not 12 characters after normalization." /\
  check_keys [None; Some (CStr "170318203001"); None]
  = Abort "GEOID_BG duplicates found".
Proof. repeat split; reflexivity. Qed.

End KeyClaims.

(* ===================================================================== *)
(** * Claims on the block-group table *)
(* ===================================================================== *)

Module TableClaims.

Import Table TableFacts.
Local Open Scope string_scope.
Local Open Scope Q_scope.

(** What a density cell holds for a given numerator and area: the
    quotient over a positive area, NaN as soon as one of the two is
    missing, and over a zero area +inf for a positive numerator and NaN
    for a zero one. *)
Definition density_spec (num area d : float64) : Prop :=
  match num, area with
  | Fin c, Fin a =>
      (0 < a -> is_value d (c / a)) /\
      (a == 0 -> 0 < c -> d = PInf) /\
      (a == 0 -> c == 0 -> d = NaN)
  | NaN, _ => d = NaN
  | _, NaN => d = NaN
  | _, _ => True
  end.

Lemma fdiv_density_spec : forall num area, density_spec num area (fdiv num area).
Proof.
  intros [c | | |] [a | | |]; cbn [density_spec fdiv]; auto.
  unfold Qsign. repeat split.
  - intros Ha. destruct (a ?= 0) eqn:Hc.
    + apply Qeq_alt in Hc. rewrite Hc in Ha. now apply Qlt_irrefl in Ha.
    + cbn [is_value]. apply Qred_correct.
    + cbn [is_value]. apply Qred_correct.
  - intros Ha Hpos. apply Qeq_alt in Ha. rewrite Ha.
    apply Qgt_alt in Hpos. now rewrite Hpos.
  - intros Ha Hz. apply Qeq_alt in Ha. rewrite Ha.
    apply Qeq_alt in Hz. now rewrite Hz.
Qed.

(** A layer in which two features share a key, the second one with an
    empty geometry: the node joined to the first is counted for both,
    and the row of area 0 gets the density +inf, neither a quotient nor
    a missing value. *)
Lemma zero_area_density_is_infinite :
  let bg := [ {| bg_GEOID_BG := "170318203001"; bg_geometry_area := Fin 2000000 |};
              {| bg_GEOID_BG := "170318203001"; bg_geometry_area := Fin 0 |} ] in
  let nodes := [ {| j_betweenness := Fin 0; j_aspl := Fin 175;
                    j_GEOID_BG := Some "170318203001"%string |} ] in
  let rows := bg_metrics bg nodes [] in
  map area_km2 rows = [Fin 2; Fin 0] /\
  map nodes_in_bg rows = [Fin 1; Fin 1] /\
  map node_density rows = [Fin (1 # 2); PInf].
Proof. cbv zeta. repeat split; reflexivity. Qed.

(** C1, amended.  In every row both densities are the float64 quotient
    of the count, respectively the summed length, by the area: the
    exact quotient when the area is positive and the numerator defined,
    a missing value when the numerator or the area is missing, and over
    a zero area +inf for a positive numerator (NaN for a zero one).  The
    division is total: it raises nothing. *)
Theorem density_is_float_quotient : forall bg_m nodes inter,
  Forall
    (fun r =>
       node_density r = fdiv (nodes_in_bg r) (area_km2 r) /\
       edge_km_density r = fdiv (edges_km r) (area_km2 r) /\
       density_spec (nodes_in_bg r) (area_km2 r) (node_density r) /\
       density_spec (edges_km r) (area_km2 r) (edge_km_density r))
    (bg_metrics bg_m nodes inter).
Proof.
  intros bg_m nodes inter. rewrite bg_metrics_rows.
  apply Forall_forall. intros r Hr. apply in_map_iff in Hr.
  destruct Hr as [b [<- _]]. unfold row_of. simpl.
  repeat split; try reflexivity; apply fdiv_density_spec.
Qed.

(** The table has one row per row of [bg_m], in its order, with its
    key and its area. *)
Lemma rows_of_layer : forall bg_m nodes inter,
  List.length (bg_metrics bg_m nodes inter) = List.length bg_m /\
  map GEOID_BG (bg_metrics bg_m nodes inter) = map bg_GEOID_BG bg_m /\
  map area_km2 (bg_metrics bg_m nodes inter) = map area_of bg_m.
Proof.
  intros bg_m nodes inter. rewrite bg_metrics_rows.
  split; [apply length_map |].
  split; rewrite map_map; reflexivity.
Qed.

Lemma area_of_value : forall b a,
  bg_geometry_area b = Fin a -> is_value (area_of b) (a / 1000000).
Proof.
  intros b a Ha. unfold area_of. rewrite Ha.
  pose proof (fdiv_density_spec (Fin a) (Fin 1000000)) as H. simpl in H.
  apply H. reflexivity.
Qed.

(** The scenario of a block group with no node and no edge, next to an
    ordinary one: its densities are missing, its area is a positive
    number, and the other row is what it is without it. *)
Example empty_block_group_scenario :
  let full := {| bg_GEOID_BG := "170318203001"; bg_geometry_area := Fin 500000 |} in
  let void := {| bg_GEOID_BG := "170318203002"; bg_geometry_area := Fin 250000 |} in
  let nodes := [ {| j_betweenness := Fin 0; j_aspl := Fin 175;
                    j_GEOID_BG := Some "170318203001"%string |};
                 {| j_betweenness := Fin 1; j_aspl := Fin 125;
                    j_GEOID_BG := Some "170318203001"%string |};
                 {| j_betweenness := Fin 0; j_aspl := Fin 200;
                    j_GEOID_BG := None |} ] in
  let inter := [ {| i_geometry_length := Fin 100;
                    i_GEOID_BG := "170318203001" |};
                 {| i_geometry_length := Fin 150;
                    i_GEOID_BG := "170318203001" |} ] in
  bg_metrics [full; void] nodes inter =
  [ {| GEOID_BG := "170318203001"; area_km2 := Fin (1 # 2);
       nodes_in_bg := Fin 2; edges_km := Fin (1 # 4);
       node_density := Fin 4; edge_km_density := Fin (1 # 2);
       betweenness_mean := Fin (1 # 2); betweenness_p90 := Fin (9 # 10);
       aspl_mean := Fin 150 |};
    {| GEOID_BG := "170318203002"; area_km2 := Fin (1 # 4);
       nodes_in_bg := NaN; edges_km := NaN;
       node_density := NaN; edge_km_density := NaN;
       betweenness_mean := NaN; betweenness_p90 := NaN;
       aspl_mean := NaN |} ] /\
  bg_metrics [full] nodes inter =
  [ {| GEOID_BG := "170318203001"; area_km2 := Fin (1 # 2);
       nodes_in_bg := Fin 2; edges_km := Fin (1 # 4);
       node_density := Fin 4; edge_km_density := Fin (1 # 2);
       betweenness_mean := Fin (1 # 2); betweenness_p90 := Fin (9 # 10);
       aspl_mean := Fin 150 |} ].
Proof. cbv zeta. split; reflexivity. Qed.

End TableClaims.

(* ===================================================================== *)
(** * Breadth-first search and components *)
(* ===================================================================== *)

Module GraphFacts.

Import Graph.

Lemma mem_In : forall x l, mem x l = true <-> In x l.
Proof.
  intros x l. unfold mem. rewrite existsb_exists. split.
  - intros [y [Hy He]]. apply Z.eqb_eq in He. now subst.
  - intros H. exists x. split; [exact H | apply Z.eqb_refl].
Qed.

Lemma mem_not_In : forall x l, mem x l = false <-> ~ In x l.
Proof.
  intros x l. rewrite <- mem_In. destruct (mem x l); intuition congruence.
Qed.

Lemma in_dedup : forall l seen x,
  In x (dedup seen l) <-> In x l /\ ~ In x seen.
Proof.
  induction l as [|a r IH]; intros seen x; simpl.
  - intuition.
  - destruct (mem a seen) eqn:Ha.
    + apply mem_In in Ha. rewrite IH. split.
      * intros [H1 H2]. auto.
      * intros [[-> | H1] H2]; [contradiction | auto].
    + apply mem_not_In in Ha. simpl. rewrite IH. simpl. split.
      * intros [-> | [H1 H2]]; [auto |]. split; [auto |]. intros H. apply H2. now right.
      * intros [[-> | H1] H2]; [now left |].
        destruct (Z.eq_dec a x) as [-> | Hne]; [now left |].
        right. split; [exact H1 |]. intros [-> | H]; [now apply Hne | contradiction].
Qed.

Lemma NoDup_dedup : forall l seen, NoDup (dedup seen l).
Proof.
  induction l as [|a r IH]; intros seen; simpl; [constructor |].
  destruct (mem a seen); [apply IH |].
  constructor; [| apply IH].
  rewrite in_dedup. intros [_ H]. apply H. now left.
Qed.

Lemma in_out_edges : forall G v e,
  In e (out_edges G v) <-> In e (edges G) /\ e_u e = v.
Proof.
  intros G v e. unfold out_edges. rewrite filter_In.
  now rewrite Z.eqb_eq.
Qed.

Lemma in_adj : forall G v w, In w (adj G v) <-> arc G v w.
Proof.
  intros G v w. unfold adj, arc. rewrite in_dedup, in_map_iff. split.
  - intros [[e [Hw He]] _]. apply in_out_edges in He. exists e. tauto.
  - intros [e [He [Hu Hv]]]. split; [| intros []].
    exists e. split; [exact Hv |]. apply in_out_edges. tauto.
Qed.

Lemma NoDup_adj : forall G v, NoDup (adj G v).
Proof. intros. apply NoDup_dedup. Qed.

(** ** Reachability *)

Lemma reachable_trans : forall G u v w,
  reachable G u v -> reachable G v w -> reachable G u w.
Proof.
  intros G u v w Huv Hvw. induction Hvw as [| x y _ IH Hxy].
  - exact Huv.
  - eapply reach_step; eauto.
Qed.

Lemma reachable_in_nodes : forall G u v,
  wf_graph G -> In u (nodes G) -> reachable G u v -> In v (nodes G).
Proof.
  intros G u v [_ Hwf] Hu Hr. induction Hr as [| x y _ IH [e [He [_ Hy]]]].
  - exact Hu.
  - subst y. now apply Hwf.
Qed.

Lemma arc_undirected : forall G u v,
  arc (to_undirected G) u v <-> arc G u v \/ arc G v u.
Proof.
  intros G u v. unfold arc, to_undirected. simpl. split.
  - intros [e [He [Hu Hv]]]. apply in_app_or in He. destruct He as [He | He].
    + left. exists e. auto.
    + right. apply in_map_iff in He. destruct He as [e' [<- He']].
      simpl in *. exists e'. auto.
  - intros [[e [He [Hu Hv]]] | [e [He [Hu Hv]]]].
    + exists e. split; [apply in_or_app; now left | auto].
    + exists (reverse_edge e). split; [| simpl; auto].
      apply in_or_app. right. now apply in_map.
Qed.

Lemma arc_undirected_sym : forall G u v,
  arc (to_undirected G) u v -> arc (to_undirected G) v u.
Proof. intros G u v. rewrite !arc_undirected. tauto. Qed.

Lemma reachable_undirected_sym : forall G u v,
  reachable (to_undirected G) u v -> reachable (to_undirected G) v u.
Proof.
  intros G u v H. induction H as [| x y _ IH Hxy].
  - constructor.
  - apply reachable_trans with x; [| exact IH].
    eapply reach_step; [constructor | now apply arc_undirected_sym].
Qed.

Lemma wf_to_undirected : forall G, wf_graph G -> wf_graph (to_undirected G).
Proof.
  intros G [Hnd Hwf]. split; [exact Hnd |]. simpl.
  intros e He. apply in_app_or in He. destruct He as [He | He].
  - now apply Hwf.
  - apply in_map_iff in He. destruct He as [e' [<- He']]. simpl.
    destruct (Hwf e' He'). auto.
Qed.

(** ** The search loop *)

Lemma visit_spec : forall ws seen next, exists d,
  visit ws seen next = (d ++ seen, d ++ next) /\
  (forall x, In x d <-> In x ws /\ ~ In x seen) /\
  (NoDup seen -> NoDup (d ++ seen)).
Proof.
  induction ws as [|w r IH]; intros seen next; simpl.
  - exists []. simpl. intuition.
  - destruct (mem w seen) eqn:Hw.
    + apply mem_In in Hw. destruct (IH seen next) as [d [He [Hin Hnd]]].
      exists d. split; [exact He |]. split; [| exact Hnd].
      intros x. rewrite Hin. split; [tauto |].
      intros [[-> | Hx] Hn]; [contradiction | auto].
    + apply mem_not_In in Hw.
      destruct (IH (w :: seen) (w :: next)) as [d [He [Hin Hnd]]].
      exists (d ++ [w]). rewrite <- !app_assoc. simpl.
      split; [exact He |]. split.
      * intros x. rewrite in_app_iff, Hin. simpl. split.
        -- intros [[Hx Hn] | [<- | []]]; [| auto].
           split; [auto |]. intros Hs. apply Hn. now right.
        -- intros [[<- | Hx] Hn]; [right; now left |].
           destruct (Z.eq_dec w x) as [-> | Hne]; [right; now left |].
           left. split; [exact Hx |]. intros [-> | Hs]; [now apply Hne | contradiction].
      * intros Hs. apply Hnd. constructor; assumption.
Qed.

Lemma scan_spec : forall G level seen next, exists d,
  scan G level seen next = (d ++ seen, d ++ next) /\
  (forall x, In x d <->
             (exists v, In v level /\ In x (adj G v)) /\ ~ In x seen) /\
  (NoDup seen -> NoDup (d ++ seen)).
Proof.
  induction level as [|v r IH]; intros seen next; simpl.
  - exists []. simpl. split; [reflexivity |]. split; [| auto].
    intros x. split; [intros [] | intros [[w [[] _]] _]].
  - destruct (visit_spec (adj G v) seen next) as [d1 [He1 [Hin1 Hnd1]]].
    rewrite He1. simpl.
    destruct (IH (d1 ++ seen) (d1 ++ next)) as [d2 [He2 [Hin2 Hnd2]]].
    exists (d2 ++ d1). rewrite <- !app_assoc.
    split; [exact He2 |]. split.
    + intros x. rewrite in_app_iff, Hin2, Hin1, in_app_iff. split.
      * intros [[[w [Hw Hx]] Hn] | [Hx Hn]].
        -- split; [exists w; auto | tauto].
        -- split; [exists v; auto | exact Hn].
      * intros [[w [[<- | Hw] Hx]] Hn].
        -- right. auto.
        -- destruct (in_dec Z.eq_dec x d1) as [Hd | Hd].
           ++ right. now apply Hin1.
           ++ left. split; [exists w; auto | tauto].
    + intros Hs. auto.
Qed.

Section Search.

Variable G : graph.
Variable s : node.
Hypothesis Hwf : wf_graph G.

Definition bfs_inv (seen level : list node) : Prop :=
  NoDup seen /\ incl seen (nodes G) /\ incl level seen /\
  (forall x, In x seen -> reachable G s x) /\
  (forall x y, In x seen -> ~ In x level -> arc G x y -> In y seen).

(** What the search returns: a duplicate-free list of nodes, all
    reached from [s], that contains [seen] and is closed under arcs. *)
Definition bfs_result (seen r : list node) : Prop :=
  NoDup r /\ incl r (nodes G) /\ incl seen r /\
  (forall x, In x r -> reachable G s x) /\
  (forall x y, In x r -> arc G x y -> In y r).

Lemma bfs_loop_result : forall fuel seen level,
  bfs_inv seen level ->
  level = [] \/ List.length (nodes G) < fuel + List.length seen ->
  bfs_result seen (bfs_loop fuel G seen level).
Proof.
  induction fuel as [|f IH]; intros seen level Hinv Hfuel.
  - destruct Hinv as [Hnd [Hsub [Hlv [Hreach Hcl]]]].
    assert (Hnil : level = []).
    { destruct Hfuel as [H | H]; [exact H |].
      pose proof (NoDup_incl_length Hnd Hsub). simpl in H. lia. }
    subst level. simpl. repeat split; auto using incl_refl.
    intros x y Hx. apply Hcl; auto.
  - destruct level as [|v lv].
    + destruct Hinv as [Hnd [Hsub [Hlv [Hreach Hcl]]]].
      simpl. repeat split; auto using incl_refl.
      intros x y Hx. apply Hcl; auto.
    + cbn [bfs_loop].
      destruct (scan_spec G (v :: lv) seen []) as [d [He [Hin Hnd']]].
      rewrite He. cbn [fst snd]. rewrite app_nil_r.
      destruct Hinv as [Hnd [Hsub [Hlv [Hreach Hcl]]]].
      assert (Hinv' : bfs_inv (d ++ seen) (rev d)).
      { repeat split.
        - auto.
        - intros x Hx. apply in_app_or in Hx. destruct Hx as [Hx | Hx]; [| auto].
          apply Hin in Hx. destruct Hx as [[w [Hw Hx]] _].
          apply in_adj in Hx. destruct Hx as [e [He' [_ Hv]]]. subst x.
          now apply Hwf.
        - intros x Hx. apply in_rev in Hx. apply in_or_app. now left.
        - intros x Hx. apply in_app_or in Hx. destruct Hx as [Hx | Hx]; [| auto].
          apply Hin in Hx. destruct Hx as [[w [Hw Hx]] _].
          apply reach_step with w; [apply Hreach, Hlv, Hw | now apply in_adj].
        - intros x y Hx Hnl Hxy. apply in_app_or in Hx.
          destruct Hx as [Hx | Hx]; [exfalso; apply Hnl; now apply in_rev in Hx |].
          destruct (in_dec Z.eq_dec y seen) as [Hy | Hy];
            [apply in_or_app; now right |].
          destruct (in_dec Z.eq_dec x (v :: lv)) as [Hl | Hl].
          + apply in_or_app. left. apply Hin. split; [| exact Hy].
            exists x. split; [exact Hl | now apply in_adj].
          + exfalso. apply Hy. now apply (Hcl x y). }
      specialize (IH (d ++ seen) (rev d) Hinv').
      assert (Hf : rev d = [] \/
                   List.length (nodes G) < f + List.length (d ++ seen)).
      { destruct d as [|a d']; [now left |]. right.
        destruct Hfuel as [H | H]; [discriminate |].
        rewrite length_app. simpl. simpl in H. lia. }
      destruct (IH Hf) as [R1 [R2 [R3 [R4 R5]]]].
      repeat split; auto.
      intros x Hx. apply R3. apply in_or_app. now right.
Qed.

Hypothesis Hs : In s (nodes G).

Lemma plain_bfs_result : bfs_result [s] (plain_bfs G s).
Proof.
  unfold plain_bfs. apply bfs_loop_result.
  - repeat split.
    + constructor; [intros [] | constructor].
    + intros x [<- | []]. exact Hs.
    + apply incl_refl.
    + intros x [<- | []]. constructor.
    + intros x y Hx Hn. contradiction.
  - right. simpl. lia.
Qed.

(** The search returns exactly the nodes reachable from its source. *)
Lemma plain_bfs_reachable : forall v,
  In v (plain_bfs G s) <-> reachable G s v.
Proof.
  destruct plain_bfs_result as [_ [_ [Hs' [Hsound Hclosed]]]].
  intros v. split; [apply Hsound |].
  intros Hr. induction Hr as [| x y _ IH Hxy].
  - apply Hs'. now left.
  - now apply (Hclosed x y).
Qed.

Lemma plain_bfs_NoDup : NoDup (plain_bfs G s).
Proof. apply plain_bfs_result. Qed.

Lemma plain_bfs_incl : incl (plain_bfs G s) (nodes G).
Proof. apply plain_bfs_result. Qed.

End Search.

End GraphFacts.

(* ===================================================================== *)
(** * Component reduction *)
(* ===================================================================== *)

Module ComponentFacts.

Import Graph GraphFacts.

Lemma components_from_source : forall G vs seen c,
  In c (components_from G vs seen) -> exists v, In v vs /\ c = plain_bfs G v.
Proof.
  induction vs as [|v r IH]; intros seen c Hc; simpl in Hc; [contradiction |].
  destruct (mem v seen).
  - destruct (IH _ _ Hc) as [w [Hw He]]. exists w. split; [now right | exact He].
  - destruct Hc as [<- | Hc].
    + exists v. split; [now left | reflexivity].
    + destruct (IH _ _ Hc) as [w [Hw He]]. exists w. split; [now right | exact He].
Qed.

Lemma components_from_cover : forall G vs seen v,
  wf_graph G -> incl vs (nodes G) -> In v vs ->
  In v seen \/ exists c, In c (components_from G vs seen) /\ In v c.
Proof.
  intros G vs seen v Hwf. revert seen.
  induction vs as [|a r IH]; intros seen Hsub Hv; [contradiction |].
  assert (Hr : incl r (nodes G)) by (intros x Hx; apply Hsub; now right).
  simpl. destruct (mem a seen) eqn:Ha.
  - destruct Hv as [<- | Hv]; [left; now apply mem_In |]. now apply IH.
  - assert (Hself : In a (plain_bfs G a)).
    { apply plain_bfs_reachable; [exact Hwf | apply Hsub; now left | constructor]. }
    destruct Hv as [<- | Hv].
    + right. exists (plain_bfs G a). split; [now left | exact Hself].
    + destruct (IH (plain_bfs G a ++ seen) Hr Hv) as [Hin | [c [Hc Hvc]]].
      * apply in_app_or in Hin. destruct Hin as [Hin | Hin]; [| now left].
        right. exists (plain_bfs G a). split; [now left | exact Hin].
      * right. exists c. split; [now right | exact Hvc].
Qed.

Lemma max_by_len_spec : forall cs best,
  In (max_by_len best cs) (best :: cs) /\
  forall c, In c (best :: cs) ->
            List.length c <= List.length (max_by_len best cs).
Proof.
  induction cs as [|a r IH]; intros best; simpl.
  - split; [now left |]. intros c [<- | []]. lia.
  - destruct (Nat.ltb_spec (List.length best) (List.length a)) as [Hlt | Hge].
    + destruct (IH a) as [Hin Hmax]. split.
      * destruct Hin as [<- | Hin]; [right; now left | right; now right].
      * intros c [<- | [<- | Hc]].
        -- specialize (Hmax a (or_introl eq_refl)). lia.
        -- apply Hmax. now left.
        -- apply Hmax. now right.
    + destruct (IH best) as [Hin Hmax]. split.
      * destruct Hin as [<- | Hin]; [now left | right; now right].
      * intros c [<- | [<- | Hc]].
        -- apply Hmax. now left.
        -- specialize (Hmax best (or_introl eq_refl)). lia.
        -- apply Hmax. now right.
Qed.

(** The test of [nx.is_connected] decides connectedness. *)
Lemma is_connected_spec : forall G v0 r,
  wf_graph G -> nodes G = v0 :: r ->
  (is_connected (to_undirected G) = Some true <-> connected G).
Proof.
  intros G v0 r Hwf Hn.
  pose proof (wf_to_undirected Hwf) as Hwu.
  assert (Hv0 : In v0 (nodes (to_undirected G))) by (simpl; rewrite Hn; now left).
  pose proof (plain_bfs_NoDup v0 Hwu Hv0) as Hnd.
  pose proof (plain_bfs_incl v0 Hwu Hv0) as Hsub.
  pose proof (plain_bfs_reachable v0 Hwu Hv0) as Hreach.
  unfold is_connected. simpl nodes. rewrite Hn. rewrite <- Hn.
  split.
  - intros H. injection H as H. apply Nat.eqb_eq in H.
    assert (Hall : incl (nodes G) (plain_bfs (to_undirected G) v0)).
    { apply NoDup_length_incl; [exact Hnd | lia | exact Hsub]. }
    intros u v Hu Hv.
    apply reachable_trans with v0.
    + apply reachable_undirected_sym. apply Hreach. now apply Hall.
    + apply Hreach. now apply Hall.
  - intros Hc. f_equal. apply Nat.eqb_eq.
    assert (Hall : incl (nodes G) (plain_bfs (to_undirected G) v0)).
    { intros v Hv. apply Hreach. apply Hc; [rewrite Hn; now left | exact Hv]. }
    destruct Hwf as [Hndn _].
    pose proof (NoDup_incl_length Hndn Hall).
    pose proof (NoDup_incl_length Hnd Hsub). simpl in *. lia.
Qed.

Lemma subgraph_all : forall G, wf_graph G -> subgraph G (nodes G) = G.
Proof.
  intros [ns es] [_ Hwf]. unfold subgraph. simpl in *. f_equal.
  - apply forallb_filter_id. apply forallb_forall. intros v Hv. now apply mem_In.
  - apply forallb_filter_id. apply forallb_forall. intros e He.
    destruct (Hwf e He) as [Hu Hv].
    apply andb_true_iff. split; now apply mem_In.
Qed.

(** A set of nodes closed under undirected arcs induces a subgraph in
    which every chain of the whole graph that starts in the set is a
    chain of the subgraph. *)
Lemma reachable_in_subgraph : forall G comp u v,
  (forall x y, In x comp -> arc (to_undirected G) x y -> In y comp) ->
  In u comp -> reachable (to_undirected G) u v ->
  reachable (to_undirected (subgraph G comp)) u v /\ In v comp.
Proof.
  intros G comp u v Hcl Hu Hr. induction Hr as [| x y _ [IH Hx] Hxy].
  - split; [constructor | exact Hu].
  - assert (Hy : In y comp) by (now apply (Hcl x y)).
    split; [| exact Hy].
    apply reach_step with x; [exact IH |].
    apply arc_undirected. apply arc_undirected in Hxy.
    destruct Hxy as [[e [He [Heu Hev]]] | [e [He [Heu Hev]]]]; [left | right];
      exists e; (split; [| auto]); unfold subgraph; simpl;
      apply filter_In; (split; [exact He |]);
      apply andb_true_iff; subst; split; now apply mem_In.
Qed.

(** A largest connected component of [G] taken as undirected: a
    duplicate-free, non-empty set of nodes that holds, with each of its
    nodes, exactly the nodes joined to it, and at least as many nodes
    as the nodes joined to any node of [G]. *)
Definition is_largest_component (G : graph) (comp : list node) : Prop :=
  NoDup comp /\ comp <> [] /\ incl comp (nodes G) /\
  (forall u v, In u comp ->
               (In v comp <-> reachable (to_undirected G) u v)) /\
  (forall v l, In v (nodes G) -> NoDup l ->
               (forall w, In w l -> reachable (to_undirected G) v w) ->
               List.length l <= List.length comp).

Lemma whole_is_largest : forall G,
  wf_graph G -> nodes G <> [] -> connected G ->
  is_largest_component G (nodes G).
Proof.
  intros G Hwf Hne Hconn.
  pose proof (wf_to_undirected Hwf) as Hwu.
  split; [apply Hwf |].
  split; [exact Hne |].
  split; [apply incl_refl |].
  split.
  - intros u v Hu. split.
    + intros Hv. now apply Hconn.
    + intros Hr. exact (reachable_in_nodes Hwu Hu Hr).
  - intros v l Hv Hnd Hl. apply NoDup_incl_length; [exact Hnd |].
    intros w Hw. exact (reachable_in_nodes Hwu Hv (Hl w Hw)).
Qed.

Lemma search_is_largest : forall G c0 comp,
  wf_graph G -> In c0 (nodes G) ->
  comp = plain_bfs (to_undirected G) c0 ->
  (forall v, In v (nodes G) ->
             exists vi, In vi (nodes G) /\
                        In v (plain_bfs (to_undirected G) vi) /\
                        List.length (plain_bfs (to_undirected G) vi)
                        <= List.length comp) ->
  is_largest_component G comp.
Proof.
  intros G c0 comp Hwf Hc0 Hcomp Hmax.
  pose proof (wf_to_undirected Hwf) as Hwu.
  pose proof (plain_bfs_reachable c0 Hwu Hc0) as Hreach.
  rewrite <- Hcomp in Hreach.
  assert (Hself : In c0 comp) by (apply Hreach; constructor).
  split; [rewrite Hcomp; now apply plain_bfs_NoDup |].
  split; [intros Hnil; rewrite Hnil in Hself; contradiction |].
  split; [rewrite Hcomp; now apply (plain_bfs_incl c0 Hwu Hc0) |].
  split.
  - intros u v Hu. split.
    + intros Hv. apply reachable_trans with c0.
      * apply reachable_undirected_sym. now apply Hreach.
      * now apply Hreach.
    + intros Hr. apply Hreach.
      apply reachable_trans with u; [now apply Hreach | exact Hr].
  - intros v l Hv Hnd Hl.
    destruct (Hmax v Hv) as [vi [Hvi [Hvci Hlen]]].
    pose proof (plain_bfs_reachable vi Hwu Hvi) as Hri.
    apply Nat.le_trans with (List.length (plain_bfs (to_undirected G) vi));
      [| exact Hlen].
    apply NoDup_incl_length; [exact Hnd |].
    intros w Hw. apply Hri.
    apply reachable_trans with v; [now apply Hri | now apply Hl].
Qed.

Lemma search_subgraph_connected : forall G c0,
  wf_graph G -> In c0 (nodes G) ->
  connected (subgraph G (plain_bfs (to_undirected G) c0)) /\
  nodes (subgraph G (plain_bfs (to_undirected G) c0)) <> [].
Proof.
  intros G c0 Hwf Hc0.
  pose proof (wf_to_undirected Hwf) as Hwu.
  pose proof (plain_bfs_reachable c0 Hwu Hc0) as Hreach.
  set (comp := plain_bfs (to_undirected G) c0) in *.
  assert (Hself : In c0 comp) by (apply Hreach; constructor).
  assert (Hclosed : forall x y,
             In x comp -> arc (to_undirected G) x y -> In y comp).
  { intros x y Hx Hxy. apply Hreach.
    apply reach_step with x; [now apply Hreach | exact Hxy]. }
  split.
  - intros u v Hu Hv. simpl in Hu, Hv.
    apply filter_In in Hu. apply filter_In in Hv.
    destruct Hu as [_ Hu]. destruct Hv as [_ Hv].
    apply mem_In in Hu. apply mem_In in Hv.
    apply (@reachable_in_subgraph G comp u v Hclosed Hu).
    apply reachable_trans with c0.
    + apply reachable_undirected_sym. now apply Hreach.
    + now apply Hreach.
  - simpl. intros Hnil.
    assert (Hf : In c0 (filter (fun v => mem v comp) (nodes G))).
    { apply filter_In. split; [exact Hc0 | now apply mem_In]. }
    rewrite Hnil in Hf. contradiction.
Qed.

(** The component [max] picks: the search from some node of [G], at
    least as large as the search from the component of any node. *)
Lemma max_component : forall G c cs,
  wf_graph G ->
  connected_components (to_undirected G) = c :: cs ->
  exists c0, In c0 (nodes G) /\
    max_by_len c cs = plain_bfs (to_undirected G) c0 /\
    forall v, In v (nodes G) ->
      exists vi, In vi (nodes G) /\
                 In v (plain_bfs (to_undirected G) vi) /\
                 List.length (plain_bfs (to_undirected G) vi)
                 <= List.length (max_by_len c cs).
Proof.
  intros G c cs Hwf Hcc.
  pose proof (wf_to_undirected Hwf) as Hwu.
  destruct (max_by_len_spec cs c) as [Hin Hmax].
  rewrite <- Hcc in Hin. unfold connected_components in Hin.
  apply components_from_source in Hin. destruct Hin as [c0 [Hc0 He]].
  exists c0. split; [exact Hc0 |]. split; [exact He |].
  intros v Hv.
  destruct (@components_from_cover (to_undirected G)
              (nodes (to_undirected G)) [] v Hwu (incl_refl _) Hv)
    as [[] | [ci [Hci Hvci]]].
  fold (connected_components (to_undirected G)) in Hci.
  pose proof Hci as Hci'. unfold connected_components in Hci'.
  apply components_from_source in Hci'. destruct Hci' as [vi [Hvi Hcie]].
  exists vi. split; [exact Hvi |]. rewrite <- Hcie. split; [exact Hvci |].
  apply Hmax. rewrite <- Hcc. exact Hci.
Qed.

End ComponentFacts.

Module GraphClaims.

Import Graph GraphFacts ComponentFacts.

(** What both reductions compute, in terms of [G.subgraph]. *)
Lemma reduction_subgraph : forall G,
  wf_graph G -> nodes G <> [] ->
  exists G' comp,
    largest_component G = Some G' /\
    largest_connected_component G = Some G' /\
    nodes G' <> [] /\ connected G' /\
    is_largest_component G comp /\
    G' = subgraph G comp /\
    (connected G -> G' = G).
Proof.
  intros G Hwf Hne.
  destruct (nodes G) as [|v0 r] eqn:Hn; [congruence |].
  pose proof (is_connected_spec Hwf Hn) as Hspec.
  unfold largest_component, largest_connected_component.
  destruct (is_connected (to_undirected G)) as [[|] |] eqn:Hc.
  - (* already connected *)
    assert (Hconn : connected G) by (now apply Hspec).
    exists G, (nodes G).
    split; [reflexivity |]. split; [reflexivity |].
    split; [rewrite Hn; exact Hne |].
    split; [exact Hconn |].
    split; [apply whole_is_largest; auto; rewrite Hn; exact Hne |].
    split; [symmetry; now apply subgraph_all | reflexivity].
  - (* several components *)
    destruct (connected_components (to_undirected G)) as [|c cs] eqn:Hcc.
    { unfold connected_components in Hcc. simpl nodes in Hcc.
      rewrite Hn in Hcc. discriminate. }
    destruct (max_component Hwf Hcc) as [c0 [Hc0 [Hcomp Hmax]]].
    destruct (@search_subgraph_connected G c0 Hwf Hc0) as [Hconn Hnonempty].
    rewrite <- Hcomp in Hconn, Hnonempty.
    exists (subgraph G (max_by_len c cs)), (max_by_len c cs).
    split; [reflexivity |]. split; [reflexivity |].
    split; [exact Hnonempty |].
    split; [exact Hconn |].
    split; [now apply (@search_is_largest G c0 _ Hwf Hc0 Hcomp) |].
    split; [reflexivity |].
    intros Hcn. apply Hspec in Hcn. discriminate.
  - (* the null graph is excluded *)
    unfold is_connected in Hc. simpl nodes in Hc. rewrite Hn in Hc.
    discriminate.
Qed.

(** The nodes and the edges of the graph that [G.subgraph(comp)]
    returns for nodes of [G]. *)
Lemma subgraph_members : forall G comp,
  incl comp (nodes G) ->
  (forall v, In v (nodes (subgraph G comp)) <-> In v comp) /\
  (forall e, In e (edges (subgraph G comp)) <->
             In e (edges G) /\ In (e_u e) comp /\ In (e_v e) comp).
Proof.
  intros G comp Hsub. unfold subgraph. cbn [nodes edges]. split.
  - intros v. rewrite filter_In. split.
    + intros [_ H]. now apply mem_In.
    + intros H. split; [now apply Hsub | now apply mem_In].
  - intros e. rewrite filter_In, andb_true_iff. split.
    + intros [He [Hu Hv]]. repeat split; [exact He | |]; now apply mem_In.
    + intros [He [Hu Hv]]. repeat split; [exact He | |]; now apply mem_In.
Qed.

(** C3.  For a graph with at least one node, both component reductions
    ([largest_component] of [computemetrics.py] and
    [largest_connected_component] of [buildnetwork.py]) return a graph
    that is not empty and is connected when taken as undirected.  It is
    the restriction of the input to a largest undirected component
    [comp]: its nodes are the nodes of [comp], each once, and its
    edges are the edges of the input that start and end in [comp].
    It is the input itself when the input is connected. *)
Theorem component_reduction : forall G,
  wf_graph G -> nodes G <> [] ->
  exists G' comp,
    largest_component G = Some G' /\
    largest_connected_component G = Some G' /\
    nodes G' <> [] /\ connected G' /\
    is_largest_component G comp /\
    NoDup (nodes G') /\
    (forall v, In v (nodes G') <-> In v comp) /\
    (forall e, In e (edges G') <->
               In e (edges G) /\ In (e_u e) comp /\ In (e_v e) comp) /\
    (connected G -> G' = G).
Proof.
  intros G Hwf Hne.
  destruct (@reduction_subgraph G Hwf Hne)
    as [G' [comp [H1 [H2 [H3 [H4 [H5 [H6 H7]]]]]]]].
  exists G', comp.
  split; [exact H1 |]. split; [exact H2 |]. split; [exact H3 |].
  split; [exact H4 |]. split; [exact H5 |].
  assert (Hsub : incl comp (nodes G)) by apply H5.
  destruct (@subgraph_members G comp Hsub) as [Hn He].
  rewrite H6. split.
  - unfold subgraph. cbn [nodes]. apply NoDup_filter. apply Hwf.
  - split; [exact Hn |]. split; [exact He |]. rewrite <- H6. exact H7.
Qed.

(** Two fragments: a street between 1 and 2, and a chain 5 -> 4 -> 3 of
    one-way streets. *)
Definition two_fragments : graph :=
  {| nodes := [1; 2; 3; 4; 5]%Z;
     edges := [E 1 2 100; E 4 3 1; E 5 4 1] |}.

Lemma wf_two_fragments : wf_graph two_fragments.
Proof.
  split.
  - simpl. repeat constructor; simpl; intuition discriminate.
  - intros e He. simpl in He.
    repeat (destruct He as [<- | He]; [simpl; intuition |]). contradiction.
Qed.

Lemma component_reduction_witness :
  exists G' comp,
    largest_component two_fragments = Some G' /\
    largest_connected_component two_fragments = Some G' /\
    nodes G' <> [] /\ connected G' /\
    is_largest_component two_fragments comp /\
    NoDup (nodes G') /\
    (forall v, In v (nodes G') <-> In v comp) /\
    (forall e, In e (edges G') <->
               In e (edges two_fragments) /\
               In (e_u e) comp /\ In (e_v e) comp) /\
    (connected two_fragments -> G' = two_fragments).
Proof.
  apply (@component_reduction two_fragments wf_two_fragments).
  discriminate.
Defined.

Example largest_component_two_fragments :
  largest_component two_fragments =
  Some {| nodes := [3; 4; 5]%Z; edges := [E 4 3 1; E 5 4 1] |}.
Proof. reflexivity. Qed.

(** The null graph makes [nx.is_connected] raise. *)
Example largest_component_null :
  largest_component {| nodes := []; edges := [] |} = None.
Proof. reflexivity. Qed.

End GraphClaims.

(* ===================================================================== *)
(** * The shortest-path search *)
(* ===================================================================== *)

Module DijkstraFacts.

Import Graph GraphFacts Paths.
Local Open Scope Q_scope.

Definition keys (A : Type) (m : list (node * A)) : list node := map fst m.
Definition enode (e : entry) : node := snd e.
Definition eprio (e : entry) : Q := fst (fst e).

Lemma keys_app : forall (A : Type) (m1 m2 : list (node * A)),
  keys (m1 ++ m2) = keys m1 ++ keys m2.
Proof. intros. unfold keys. apply map_app. Qed.

Lemma lookup_some_in : forall (A : Type) k (m : list (node * A)) a,
  lookup k m = Some a -> In (k, a) m.
Proof.
  induction m as [|[k' a'] r IH]; intros a H; simpl in H; [discriminate |].
  destruct (Z.eqb_spec k' k) as [-> | Hne].
  - injection H as <-. now left.
  - right. now apply IH.
Qed.

Lemma lookup_none : forall (A : Type) k (m : list (node * A)),
  lookup k m = None <-> ~ In k (keys m).
Proof.
  induction m as [|[k' a'] r IH]; simpl.
  - split; [intros _ [] | reflexivity].
  - destruct (Z.eqb_spec k' k) as [-> | Hne].
    + split; [discriminate | intros H; exfalso; apply H; now left].
    + rewrite IH. split; [intros H [Hk | Hk]; [congruence | contradiction] |].
      intros H Hk. apply H. now right.
Qed.

Lemma qltb_true : forall a b, qltb a b = true <-> a < b.
Proof.
  intros a b. unfold qltb. rewrite negb_true_iff. split.
  - intros H. apply Qnot_le_lt. intros Hle.
    apply Qle_bool_iff in Hle. congruence.
  - intros H. apply not_true_is_false. intros Hle.
    apply Qle_bool_iff in Hle. now apply Qlt_not_le in H.
Qed.

Lemma qltb_false : forall a b, qltb a b = false <-> b <= a.
Proof.
  intros a b. unfold qltb. rewrite negb_false_iff. apply Qle_bool_iff.
Qed.

(** ** The heap *)

Lemma entry_ltb_true : forall a b, entry_ltb a b = true -> eprio a <= eprio b.
Proof.
  intros [[da ca] va] [[db cb] vb]. unfold entry_ltb, eprio. simpl.
  intros H. apply orb_true_iff in H. destruct H as [H | H].
  - apply qltb_true in H. now apply Qlt_le_weak.
  - apply andb_true_iff in H. destruct H as [H _].
    apply Qeq_bool_iff in H. rewrite H. apply Qle_refl.
Qed.

Lemma entry_ltb_false : forall a b, entry_ltb a b = false -> eprio b <= eprio a.
Proof.
  intros [[da ca] va] [[db cb] vb]. unfold entry_ltb, eprio. simpl.
  intros H. apply orb_false_iff in H. destruct H as [H _].
  now apply qltb_false in H.
Qed.

Lemma pop_min_none : forall h, pop_min h = None -> h = [].
Proof.
  intros [|e r]; simpl; [reflexivity |].
  destruct (pop_min r) as [[m r'] |]; [destruct (entry_ltb e m) |]; discriminate.
Qed.

Lemma pop_min_spec : forall h m rest,
  pop_min h = Some (m, rest) ->
  Permutation h (m :: rest) /\
  forall e, In e rest -> eprio m <= eprio e.
Proof.
  induction h as [|e r IH]; intros m rest H; simpl in H; [discriminate |].
  destruct (pop_min r) as [[m' r'] |] eqn:Hp.
  - destruct (IH m' r' eq_refl) as [Hperm Hmin].
    destruct (entry_ltb e m') eqn:Hlt; injection H as <- <-.
    + split; [apply Permutation_refl |].
      intros x Hx. apply (Permutation_in _ Hperm) in Hx.
      apply entry_ltb_true in Hlt.
      destruct Hx as [<- | Hx]; [exact Hlt |].
      apply Qle_trans with (eprio m'); [exact Hlt | now apply Hmin].
    + split.
      * apply Permutation_trans with (e :: m' :: r');
          [now apply perm_skip | apply perm_swap].
      * intros x [<- | Hx]; [now apply entry_ltb_false | now apply Hmin].
  - injection H as <- <-. apply pop_min_none in Hp. subst r.
    split; [apply Permutation_refl | intros x []].
Qed.

(** ** Weights *)

Lemma qmin_cases : forall a b, qmin a b = a \/ qmin a b = b.
Proof. intros a b. unfold qmin. destruct (Qle_bool a b); auto. Qed.

Lemma fold_qmin_nonneg : forall (es : list edge) m,
  0 <= m -> (forall e, In e es -> 0 <= e_length e) ->
  0 <= fold_left (fun m e' => qmin m (e_length e')) es m.
Proof.
  induction es as [|e r IH]; intros m Hm Hes; simpl; [exact Hm |].
  apply IH.
  - destruct (qmin_cases m (e_length e)) as [-> | ->]; [exact Hm |].
    apply Hes. now left.
  - intros e' He'. apply Hes. now right.
Qed.

Lemma weight_nonneg : forall G v w, nonneg_lengths G -> 0 <= weight G v w.
Proof.
  intros G v w Hnn. unfold weight.
  destruct (filter _ (out_edges G v)) as [|e r] eqn:Hf; [apply Qle_refl |].
  assert (Hall : forall e', In e' (e :: r) -> 0 <= e_length e').
  { intros e' He'. rewrite <- Hf in He'. apply filter_In in He'.
    destruct He' as [He' _]. apply in_out_edges in He'. apply Hnn, He'. }
  apply fold_qmin_nonneg.
  - apply Hall. now left.
  - intros e' He'. apply Hall. now right.
Qed.

Lemma succ_costs_nodes : forall G v, map fst (succ_costs G v) = adj G v.
Proof.
  intros G v. unfold succ_costs. rewrite map_map. simpl. apply map_id.
Qed.

Lemma succ_costs_nonneg : forall G v w c,
  nonneg_lengths G -> In (w, c) (succ_costs G v) -> 0 <= c.
Proof.
  intros G v w c Hnn H. unfold succ_costs in H. apply in_map_iff in H.
  destruct H as [w' [He _]]. injection He as _ <-. now apply weight_nonneg.
Qed.

(** ** One round of relaxations *)

Definition relaxed (d : Q) (nbrs : list (node * Q)) (dist : list (node * Q))
           (st st' : frontier) : Prop :=
  exists new,
    fringe st' = new ++ fringe st /\
    (List.length new <= List.length nbrs)%nat /\
    (forall e, In e new ->
               d <= eprio e /\ ~ In (enode e) (keys dist) /\
               In (enode e) (map fst nbrs)) /\
    (forall w, In w (keys (seen st')) <->
               In w (keys (seen st)) \/ In w (map enode new)) /\
    (forall w, In w (map fst nbrs) ->
               In w (keys dist) \/ In w (keys (seen st'))).

Lemma relax_spec : forall d dist nbrs st,
  (forall x dx, In (x, dx) dist -> dx <= d) ->
  (forall w c, In (w, c) nbrs -> 0 <= c) ->
  exists st', relax d nbrs dist st = Some st' /\ relaxed d nbrs dist st st'.
Proof.
  intros d dist. induction nbrs as [|[u cost] r IH]; intros st Hd Hc.
  - exists st. split; [reflexivity |]. exists []. simpl.
    split; [reflexivity |]. split; [lia |]. split; [intros e [] |].
    split; [intros w; tauto | intros w []].
  - assert (Hcr : forall w c, In (w, c) r -> 0 <= c)
      by (intros w c H; apply (Hc w c); now right).
    assert (Hcost : 0 <= cost) by (apply (Hc u cost); now left).
    assert (Hvu : d <= Qred (d + cost)).
    { rewrite Qred_correct. rewrite <- (Qplus_0_r d) at 1.
      apply Qplus_le_r. exact Hcost. }
    (* continuing without a push *)
    assert (Hskip : In u (keys dist) \/ In u (keys (seen st)) ->
              exists st', relax d r dist st = Some st' /\
                          relaxed d ((u, cost) :: r) dist st st').
    { intros Hu. destruct (IH st Hd Hcr) as [st' [He [new [F1 [F2 [F3 [F4 F5]]]]]]].
      exists st'. split; [exact He |]. exists new.
      split; [exact F1 |]. split; [simpl; lia |].
      split.
      { intros e Hin. destruct (F3 e Hin) as [A [B C]].
        split; [exact A |]. split; [exact B | now right]. }
      split; [exact F4 |].
      intros w [<- | Hw]; [| now apply F5].
      destruct Hu as [Hu | Hu]; [now left |]. right. apply F4. now left. }
    (* continuing after a push *)
    assert (Hpush : ~ In u (keys dist) ->
              exists st',
                relax d r dist
                  {| seen := (u, Qred (d + cost)) :: seen st;
                     fringe := (Qred (d + cost), counter st, u) :: fringe st;
                     counter := S (counter st) |} = Some st' /\
                relaxed d ((u, cost) :: r) dist st st').
    { intros Hu.
      destruct (IH {| seen := (u, Qred (d + cost)) :: seen st;
                      fringe := (Qred (d + cost), counter st, u) :: fringe st;
                      counter := S (counter st) |} Hd Hcr)
        as [st' [He [new [F1 [F2 [F3 [F4 F5]]]]]]].
      exists st'. split; [exact He |].
      exists (new ++ [(Qred (d + cost), counter st, u)]).
      simpl in F1, F4. rewrite <- app_assoc. simpl.
      split; [exact F1 |].
      split; [rewrite length_app; simpl; lia |].
      split.
      { intros e Hin. apply in_app_or in Hin. destruct Hin as [Hin | [<- | []]].
        - destruct (F3 e Hin) as [A [B C]].
          split; [exact A |]. split; [exact B | now right].
        - unfold eprio, enode. simpl. split; [exact Hvu |].
          split; [exact Hu | now left]. }
      split.
      { intros w. rewrite F4, map_app, in_app_iff. simpl.
        unfold enode at 2. simpl. tauto. }
      intros w [<- | Hw]; [| now apply F5].
      right. apply F4. left. now left. }
    cbn [relax]. destruct (lookup u dist) as [u_dist |] eqn:Hl.
    + apply lookup_some_in in Hl.
      assert (Hle : u_dist <= Qred (d + cost)).
      { apply Qle_trans with d; [now apply (Hd u) | exact Hvu]. }
      apply qltb_false in Hle. rewrite Hle.
      apply Hskip. left. unfold keys. apply in_map_iff. now exists (u, u_dist).
    + apply lookup_none in Hl.
      destruct (lookup u (seen st)) as [s |] eqn:Hs.
      * destruct (qltb (Qred (d + cost)) s); [now apply Hpush |].
        apply Hskip. right. apply lookup_some_in in Hs.
        unfold keys. apply in_map_iff. now exists (u, s).
      * now apply Hpush.
Qed.

(** ** Counting the rounds *)

Lemma mem_app_single : forall a ks v,
  mem a (ks ++ [v]) = (mem a ks || Z.eqb a v)%bool.
Proof.
  intros a ks v. unfold mem. rewrite existsb_app. simpl.
  now rewrite orb_false_r.
Qed.

Lemma list_sum_map_add : forall (A : Type) (f g : A -> nat) l,
  list_sum (map (fun x => (f x + g x)%nat) l)
  = (list_sum (map f l) + list_sum (map g l))%nat.
Proof.
  induction l as [|a r IH]; simpl; [reflexivity | rewrite IH; lia].
Qed.

Lemma list_sum_map_le : forall (A : Type) (f g : A -> nat) l,
  (forall x, In x l -> (f x <= g x)%nat) ->
  (list_sum (map f l) <= list_sum (map g l))%nat.
Proof.
  induction l as [|a r IH]; intros H; simpl; [lia |].
  specialize (H a (or_introl eq_refl)) as Ha.
  assert (Hr : (list_sum (map f r) <= list_sum (map g r))%nat).
  { apply IH. intros x Hx. apply H. now right. }
  lia.
Qed.

Lemma indicator_sum : forall (k : node) ns,
  NoDup ns ->
  (list_sum (map (fun v => if Z.eqb k v then 1 else 0)%nat ns) <= 1)%nat.
Proof.
  induction ns as [|a r IH]; intros Hnd; simpl; [lia |].
  inversion Hnd as [| ? ? Ha Hr]; subst.
  destruct (Z.eqb_spec k a) as [-> | Hne]; [| specialize (IH Hr); lia].
  assert (Hz : list_sum (map (fun v => if Z.eqb a v then 1 else 0)%nat r) = 0%nat).
  { clear IH Hnd Hr. induction r as [|b r IH]; simpl; [reflexivity |].
    destruct (Z.eqb_spec a b) as [-> | Hne].
    - exfalso. apply Ha. now left.
    - apply IH. intros H. apply Ha. now right. }
  lia.
Qed.

Lemma out_edges_sum : forall es ns,
  NoDup ns ->
  (list_sum (map (fun v => List.length
                             (filter (fun e => Z.eqb (e_u e) v) es)) ns)
   <= List.length es)%nat.
Proof.
  induction es as [|e r IH]; intros ns Hnd.
  - simpl. induction ns as [|a ns IHn]; simpl; [lia |].
    inversion Hnd; subst. auto.
  - rewrite (map_ext
               (fun v => List.length (filter (fun e0 => Z.eqb (e_u e0) v) (e :: r)))
               (fun v => ((if Z.eqb (e_u e) v then 1 else 0)
                          + List.length (filter (fun e0 => Z.eqb (e_u e0) v) r))%nat)).
    2:{ intros v. simpl. destruct (Z.eqb (e_u e) v); reflexivity. }
    rewrite list_sum_map_add.
    pose proof (indicator_sum (e_u e) Hnd). specialize (IH ns Hnd). simpl. lia.
Qed.

Lemma length_dedup : forall l seen,
  (List.length (dedup seen l) <= List.length l)%nat.
Proof.
  induction l as [|a r IH]; intros seen; simpl; [lia |].
  destruct (mem a seen); simpl; [specialize (IH seen) | specialize (IH (a :: seen))]; lia.
Qed.

Lemma length_adj : forall G v,
  (List.length (adj G v) <= List.length (out_edges G v))%nat.
Proof.
  intros G v. unfold adj.
  eapply Nat.le_trans; [apply length_dedup |]. now rewrite length_map.
Qed.

Section Loop.

Variable G : graph.
Variable u : node.
Hypothesis Hwf : wf_graph G.
Hypothesis Hnn : nonneg_lengths G.
Hypothesis Hu : In u (nodes G).

(** The number of pushes still possible: one per successor of a node
    that is not settled. *)
Definition pend (ns ks : list node) : nat :=
  list_sum (map (fun v => List.length (adj G v))
                (filter (fun v => negb (mem v ks)) ns)).

Lemma pend_add_absent : forall ns ks v,
  ~ In v ns -> pend ns (ks ++ [v]) = pend ns ks.
Proof.
  unfold pend. induction ns as [|a r IH]; intros ks v Hv; [reflexivity |].
  simpl. rewrite mem_app_single.
  destruct (Z.eqb_spec a v) as [-> | Hne]; [exfalso; apply Hv; now left |].
  rewrite orb_false_r.
  assert (Hr : ~ In v r) by (intros H; apply Hv; now right).
  destruct (mem a ks); simpl; now rewrite IH.
Qed.

Lemma pend_add : forall ns ks v,
  NoDup ns -> In v ns -> ~ In v ks ->
  (pend ns (ks ++ [v]) + List.length (adj G v) = pend ns ks)%nat.
Proof.
  induction ns as [|a r IH]; intros ks v Hnd Hin Hks; [contradiction |].
  inversion Hnd as [| ? ? Ha Hr]; subst.
  destruct Hin as [-> | Hin].
  - pose proof (@pend_add_absent r ks v Ha) as Hrest.
    unfold pend in *. simpl. rewrite mem_app_single, Z.eqb_refl, orb_true_r.
    apply mem_not_In in Hks. rewrite Hks. simpl. rewrite Hrest. lia.
  - specialize (IH ks v Hr Hin Hks).
    assert (Hne : a <> v) by (intros ->; contradiction).
    unfold pend in *. simpl. rewrite mem_app_single.
    destruct (Z.eqb_spec a v) as [He | _]; [contradiction |].
    rewrite orb_false_r. destruct (mem a ks); simpl; lia.
Qed.

Lemma pend_initial : (pend (nodes G) [] <= List.length (edges G))%nat.
Proof.
  unfold pend. simpl.
  rewrite forallb_filter_id by (apply forallb_forall; reflexivity).
  eapply Nat.le_trans; [| apply (out_edges_sum (edges G) (proj1 Hwf))].
  apply list_sum_map_le. intros v _. apply length_adj.
Qed.

Record dinv (dist : list (node * Q)) (st : frontier) : Prop := {
  inv_nodup : NoDup (keys dist);
  inv_reach_dist : forall v, In v (keys dist) -> reachable G u v;
  inv_reach_fringe : forall e, In e (fringe st) -> reachable G u (enode e);
  inv_seen : forall v, In v (keys (seen st)) ->
                       In v (keys dist) \/ In v (map enode (fringe st));
  inv_closed : forall v w, In v (keys dist) -> arc G v w ->
                           In w (keys dist) \/ In w (keys (seen st));
  inv_order : forall x dx e, In (x, dx) dist -> In e (fringe st) ->
                             dx <= eprio e;
  inv_source : In u (keys (seen st))
}.

(** With an empty heap the settled nodes are the reachable ones. *)
Lemma dinv_final : forall dist st,
  dinv dist st -> fringe st = [] ->
  NoDup (keys dist) /\ forall v, In v (keys dist) <-> reachable G u v.
Proof.
  intros dist st [I1 I2 I3 I4 I5 I6 I7] Hnil. split; [exact I1 |].
  assert (Hseen : forall v, In v (keys (seen st)) -> In v (keys dist)).
  { intros v Hv. destruct (I4 v Hv) as [H | H]; [exact H |].
    rewrite Hnil in H. contradiction. }
  intros v. split; [apply I2 |].
  intros Hr. induction Hr as [| x y _ IH Hxy].
  - apply Hseen, I7.
  - destruct (I5 x y IH Hxy) as [H | H]; [exact H | now apply Hseen].
Qed.

Lemma dinv_skip : forall dist st d c v rest,
  dinv dist st ->
  Permutation (fringe st) ((d, c, v) :: rest) ->
  In v (keys dist) ->
  dinv dist {| seen := seen st; fringe := rest; counter := counter st |}.
Proof.
  intros dist st d c v rest [I1 I2 I3 I4 I5 I6 I7] Hperm Hv.
  assert (Hsub : forall e, In e rest -> In e (fringe st)).
  { intros e He. apply (Permutation_in _ (Permutation_sym Hperm)). now right. }
  constructor; simpl.
  - exact I1.
  - exact I2.
  - intros e He. apply I3. now apply Hsub.
  - intros w Hw. destruct (I4 w Hw) as [H | H]; [now left |].
    apply in_map_iff in H. destruct H as [e [<- He]].
    apply (Permutation_in _ Hperm) in He. destruct He as [<- | He].
    + left. exact Hv.
    + right. now apply in_map.
  - exact I5.
  - intros x dx e Hx He. apply (I6 x dx e Hx). now apply Hsub.
  - exact I7.
Qed.

Lemma dinv_settle : forall dist st d c v rest st',
  dinv dist st ->
  Permutation (fringe st) ((d, c, v) :: rest) ->
  (forall e, In e rest -> d <= eprio e) ->
  ~ In v (keys dist) ->
  relaxed d (succ_costs G v) (dist ++ [(v, d)])
          {| seen := seen st; fringe := rest; counter := counter st |} st' ->
  dinv (dist ++ [(v, d)]) st' /\
  (List.length (fringe st') + pend (nodes G) (keys (dist ++ [(v, d)]))
   < List.length (fringe st) + pend (nodes G) (keys dist))%nat.
Proof.
  intros dist st d c v rest st' [I1 I2 I3 I4 I5 I6 I7] Hperm Hmin Hv
         [new [F1 [F2 [F3 [F4 F5]]]]].
  simpl in F1, F4.
  assert (Hsub : forall e, In e rest -> In e (fringe st)).
  { intros e He. apply (Permutation_in _ (Permutation_sym Hperm)). now right. }
  assert (Hpop : In (d, c, v) (fringe st)).
  { apply (Permutation_in _ (Permutation_sym Hperm)). now left. }
  assert (Hrv : reachable G u v) by (apply (I3 _ Hpop)).
  assert (Hvn : In v (nodes G)) by (exact (reachable_in_nodes Hwf Hu Hrv)).
  rewrite succ_costs_nodes in F3, F5.
  unfold succ_costs in F2. rewrite length_map in F2.
  split.
  - constructor.
    + rewrite keys_app. simpl.
      apply Permutation_NoDup with (v :: keys dist).
      * apply Permutation_cons_append.
      * constructor; [exact Hv | exact I1].
    + intros w Hw. rewrite keys_app in Hw. apply in_app_or in Hw.
      destruct Hw as [Hw | [<- | []]]; [now apply I2 | exact Hrv].
    + intros e He. rewrite F1 in He. apply in_app_or in He.
      destruct He as [He | He].
      * destruct (F3 e He) as [_ [_ Ha]]. apply in_adj in Ha.
        now apply reach_step with v.
      * apply I3. now apply Hsub.
    + intros w Hw. apply F4 in Hw. destruct Hw as [Hw | Hw].
      * destruct (I4 w Hw) as [H | H].
        -- left. rewrite keys_app. apply in_or_app. now left.
        -- apply in_map_iff in H. destruct H as [e [<- He]].
           apply (Permutation_in _ Hperm) in He. destruct He as [<- | He].
           ++ left. rewrite keys_app. apply in_or_app. right. now left.
           ++ right. rewrite F1, map_app. apply in_or_app. right.
              now apply in_map.
      * right. rewrite F1, map_app. apply in_or_app. now left.
    + intros x w Hx Hxw. rewrite keys_app in Hx. apply in_app_or in Hx.
      destruct Hx as [Hx | [<- | []]].
      * destruct (I5 x w Hx Hxw) as [H | H].
        -- left. rewrite keys_app. apply in_or_app. now left.
        -- right. apply F4. now left.
      * apply F5. now apply in_adj.
    + intros x dx e Hx He. rewrite F1 in He.
      assert (Hdx : dx <= d).
      { apply in_app_or in Hx. destruct Hx as [Hx | [Hx | []]].
        - apply (I6 x dx _ Hx Hpop).
        - injection Hx as _ <-. apply Qle_refl. }
      apply in_app_or in He. destruct He as [He | He].
      * destruct (F3 e He) as [Ha _]. now apply Qle_trans with d.
      * apply in_app_or in Hx. destruct Hx as [Hx | [Hx | []]].
        -- apply (I6 x dx e Hx). now apply Hsub.
        -- injection Hx as _ <-. now apply Hmin.
    + apply F4. left. exact I7.
  - rewrite F1, length_app, keys_app. simpl.
    pose proof (Permutation_length Hperm) as Hlen. simpl in Hlen.
    pose proof (@pend_add (nodes G) (keys dist) v (proj1 Hwf) Hvn Hv).
    lia.
Qed.

Lemma dijkstra_loop_spec : forall fuel dist st,
  dinv dist st ->
  (List.length (fringe st) + pend (nodes G) (keys dist) <= fuel)%nat ->
  exists lengths,
    dijkstra_loop fuel G dist st = Some lengths /\
    NoDup (keys lengths) /\
    forall v, In v (keys lengths) <-> reachable G u v.
Proof.
  induction fuel as [|f IH]; intros dist st Hinv Hfuel.
  - exists dist. split; [reflexivity |].
    apply (dinv_final Hinv).
    destruct (fringe st); [reflexivity | simpl in Hfuel; lia].
  - cbn [dijkstra_loop].
    destruct (pop_min (fringe st)) as [[[[d c] v] rest] |] eqn:Hpop.
    + destruct (pop_min_spec _ Hpop) as [Hperm Hmin].
      pose proof (Permutation_length Hperm) as Hlen. simpl in Hlen.
      destruct (lookup v dist) as [dv |] eqn:Hl.
      * apply IH.
        -- apply (dinv_skip Hinv Hperm). apply lookup_some_in in Hl.
           unfold keys. apply in_map_iff. now exists (v, dv).
        -- simpl. lia.
      * apply lookup_none in Hl.
        destruct (@relax_spec d (dist ++ [(v, d)]) (succ_costs G v)
                    {| seen := seen st; fringe := rest; counter := counter st |})
          as [st' [He Hrel]].
        { intros x dx Hx. apply in_app_or in Hx. destruct Hx as [Hx | [Hx | []]].
          - destruct Hinv as [_ _ _ _ _ I6 _]. apply (I6 x dx (d, c, v) Hx).
            apply (Permutation_in _ (Permutation_sym Hperm)). now left.
          - injection Hx as _ <-. apply Qle_refl. }
        { intros w cost Hw. eapply succ_costs_nonneg; eauto. }
        rewrite He.
        destruct (dinv_settle Hinv Hperm Hmin Hl Hrel) as [Hinv' Hlt].
        apply IH; [exact Hinv' | lia].
    + exists dist. split; [reflexivity |].
      apply (dinv_final Hinv). now apply pop_min_none.
Qed.

(** The search from [u] raises nothing and settles exactly the nodes
    reachable from [u], each once. *)
Lemma dijkstra_reaches :
  exists lengths,
    single_source_dijkstra_path_length G u = Some lengths /\
    NoDup (keys lengths) /\
    forall v, In v (keys lengths) <-> reachable G u v.
Proof.
  unfold single_source_dijkstra_path_length. apply dijkstra_loop_spec.
  - constructor; simpl.
    + constructor.
    + intros v [].
    + intros e [<- | []]. constructor.
    + intros v [<- | []]. right. now left.
    + intros v w [].
    + intros x dx e [].
    + now left.
  - simpl. pose proof pend_initial. lia.
Qed.

End Loop.

(** The weight of a pair of neighbours is the length of one of its
    streets. *)
Lemma fold_qmin_in : forall (es : list edge) m,
  fold_left (fun m e' => qmin m (e_length e')) es m = m \/
  exists e, In e es /\
            fold_left (fun m e' => qmin m (e_length e')) es m = e_length e.
Proof.
  induction es as [|a es IH]; intros m; simpl; [now left |].
  destruct (IH (qmin m (e_length a))) as [H | [e [He H]]].
  - rewrite H. destruct (qmin_cases m (e_length a)) as [-> | ->]; [now left |].
    right. exists a. split; [now left | reflexivity].
  - right. exists e. split; [now right | exact H].
Qed.

Lemma weight_attained : forall G v w,
  In w (adj G v) ->
  exists e, In e (edges G) /\ e_u e = v /\ e_v e = w /\
            e_length e = weight G v w.
Proof.
  intros G v w Hw. unfold weight.
  destruct (filter (fun e => Z.eqb (e_v e) w) (out_edges G v)) as [|a r] eqn:Hf.
  - exfalso. apply in_adj in Hw. destruct Hw as [e [He [Hu Hv]]].
    assert (Hin : In e (filter (fun e => Z.eqb (e_v e) w) (out_edges G v))).
    { apply filter_In. split; [apply in_out_edges; auto | now apply Z.eqb_eq]. }
    rewrite Hf in Hin. contradiction.
  - assert (Hall : forall e, In e (a :: r) ->
                             In e (edges G) /\ e_u e = v /\ e_v e = w).
    { intros e He. rewrite <- Hf in He. apply filter_In in He.
      destruct He as [He Hv]. apply in_out_edges in He. apply Z.eqb_eq in Hv.
      tauto. }
    destruct (fold_qmin_in r (e_length a)) as [H | [e [He H]]].
    + exists a. rewrite H. destruct (Hall a (or_introl eq_refl)) as [A [B C]].
      auto.
    + exists e. rewrite H. destruct (Hall e (or_intror He)) as [A [B C]].
      auto.
Qed.

End DijkstraFacts.

(* ===================================================================== *)
(** * Claims on the mean shortest-path length *)
(* ===================================================================== *)

Module PathClaims.

Import Graph GraphFacts Paths DijkstraFacts.
Local Open Scope Q_scope.

(** The entries of [lengths] for the nodes other than [u]. *)
Definition others (u : node) (lengths : list (node * Q)) : list (node * Q) :=
  filter (fun vd => negb (Z.eqb (fst vd) u)) lengths.

Definition Qsum (l : list Q) : Q := fold_right Qplus 0 l.

Lemma sum_others_fold : forall u l a,
  fold_left (fun s vd => if Z.eqb (fst vd) u then s else Qred (s + snd vd)) l a
  == a + Qsum (map snd (others u l)).
Proof.
  intros u. induction l as [|[v d] r IH]; intros a.
  - change (a == a + 0). ring.
  - unfold others. cbn [fold_left filter fst snd].
    destruct (Z.eqb v u); cbn [negb map fold_right snd Qsum];
      rewrite IH; unfold others, Qsum; [reflexivity |].
    rewrite Qred_correct. ring.
Qed.

Lemma sum_others_eq : forall u l,
  sum_others u l == Qsum (map snd (others u l)).
Proof.
  intros u l. unfold sum_others. rewrite sum_others_fold. apply Qplus_0_l.
Qed.

Lemma others_absent : forall u l, ~ In u (keys l) -> others u l = l.
Proof.
  intros u. induction l as [|[v d] r IH]; intros H; [reflexivity |].
  unfold others in *. cbn [filter fst].
  destruct (Z.eqb_spec v u) as [-> | Hne].
  - exfalso. apply H. now left.
  - cbn [negb]. rewrite IH; [reflexivity |]. intros Hin. apply H. now right.
Qed.

Lemma length_others : forall u l,
  NoDup (keys l) -> In u (keys l) ->
  List.length l = S (List.length (others u l)).
Proof.
  intros u. induction l as [|[v d] r IH]; intros Hnd Hin; [contradiction |].
  simpl in Hnd. inversion Hnd as [| ? ? Hv Hr]; subst.
  unfold others. cbn [filter fst List.length]. fold (others u r).
  destruct (Z.eqb_spec v u) as [-> | Hne]; cbn [negb List.length].
  - now rewrite others_absent.
  - destruct Hin as [He | Hin]; [simpl in He; contradiction |].
    now rewrite <- IH.
Qed.

Lemma in_others : forall u l v d,
  In (v, d) (others u l) <-> In (v, d) l /\ v <> u.
Proof.
  intros u l v d. unfold others. rewrite filter_In. simpl.
  rewrite negb_true_iff, Z.eqb_neq. reflexivity.
Qed.

Lemma Qsign_of_nat : forall n, (0 < n)%nat ->
  Qsign (inject_Z (Z.of_nat n)) = Gt.
Proof.
  intros n Hn. unfold Qsign. apply Qgt_alt.
  unfold Qlt. simpl. lia.
Qed.

(** What the function computes for one node, in terms of the search. *)
Lemma mean_by_cases : forall G u lengths,
  single_source_dijkstra_path_length G u = Some lengths ->
  NoDup (keys lengths) -> In u (keys lengths) ->
  match others u lengths with
  | [] => mean_shortest_path_length G u = Some NaN
  | o => exists m,
      mean_shortest_path_length G u = Some (Fin m) /\
      m == Qsum (map snd o) / inject_Z (Z.of_nat (List.length o))
  end.
Proof.
  intros G u lengths He Hnd Hin. unfold mean_shortest_path_length. rewrite He.
  pose proof (@length_others u lengths Hnd Hin) as Hlen. rewrite Hlen.
  destruct (others u lengths) as [|p o] eqn:Ho.
  - reflexivity.
  - cbn [List.length]. replace (1 <? S (S (List.length o)))%nat with true
      by (symmetry; apply Nat.ltb_lt; lia).
    replace (S (S (List.length o)) - 1)%nat with (S (List.length o)) by lia.
    unfold pydiv, of_nat. rewrite Qsign_of_nat by lia.
    cbn [fdiv]. rewrite Qsign_of_nat by lia.
    eexists. split; [reflexivity |].
    rewrite Qred_correct, sum_others_eq, Ho. reflexivity.
Qed.

(** The mean stored for [u]: the distances of the search from [u], whose
    keys are the nodes reachable from [u], summed over the nodes other
    than [u] and divided by their number; NaN when there is none. *)
Definition aspl_spec (G : graph) (u : node) (a : float64) : Prop :=
  exists lengths,
    single_source_dijkstra_path_length G u = Some lengths /\
    NoDup (keys lengths) /\
    (forall v, In v (keys lengths) <-> reachable G u v) /\
    match others u lengths with
    | [] => a = NaN
    | o => is_value a (Qsum (map snd o) / inject_Z (Z.of_nat (List.length o)))
    end.

Lemma mean_meets_spec : forall G u,
  wf_graph G -> nonneg_lengths G -> In u (nodes G) ->
  exists a,
    mean_shortest_path_length G u = Some a /\
    aspl_spec G u a /\
    ((exists v, v <> u /\ reachable G u v) -> is_finite a = true) /\
    ((forall v, reachable G u v -> v = u) -> a = NaN).
Proof.
  intros G u Hwf Hnn Hu.
  destruct (@dijkstra_reaches G u Hwf Hnn Hu) as [lengths [He [Hnd Hkeys]]].
  assert (Hin : In u (keys lengths)) by (apply Hkeys; constructor).
  pose proof (@mean_by_cases G u lengths He Hnd Hin) as Hm.
  destruct (others u lengths) as [|p o] eqn:Ho.
  - exists NaN. split; [exact Hm |]. split.
    + exists lengths. rewrite Ho. auto.
    + split; [| reflexivity].
      intros [v [Hne Hr]]. apply Hkeys in Hr.
      unfold keys in Hr. apply in_map_iff in Hr. destruct Hr as [[v' d] [Hv Hvd]].
      simpl in Hv. subst v'.
      assert (H : In (v, d) (others u lengths)) by (apply in_others; auto).
      rewrite Ho in H. contradiction.
  - destruct Hm as [m [Hm Hval]]. exists (Fin m). split; [exact Hm |]. split.
    + exists lengths. rewrite Ho. auto.
    + split; [reflexivity |].
      intros Hall. exfalso. destruct p as [v d].
      assert (H : In (v, d) (others u lengths)) by (rewrite Ho; now left).
      apply in_others in H. destruct H as [H Hne]. apply Hne, Hall, Hkeys.
      unfold keys. apply in_map_iff. now exists (v, d).
Qed.

Lemma for_each_spec : forall (A : Type) (f : node -> option A)
                             (P : node -> A -> Prop) vs,
  (forall v, In v vs -> exists a, f v = Some a /\ P v a) ->
  exists m, for_each f vs = Some m /\ map fst m = vs /\
            forall v a, In (v, a) m -> P v a.
Proof.
  intros A f P. induction vs as [|v r IH]; intros H.
  - exists []. simpl. split; [reflexivity |]. split; [reflexivity | intros ? ? []].
  - destruct (H v (or_introl eq_refl)) as [a [Ha HP]].
    destruct IH as [m [Hm [Hk Hall]]].
    { intros w Hw. apply H. now right. }
    exists ((v, a) :: m). simpl. rewrite Ha, Hm.
    split; [reflexivity |]. split; [now rewrite Hk |].
    intros w b [Hwb | Hwb]; [injection Hwb as <- <-; exact HP | now apply Hall].
Qed.

(** Nodes A = 1, B = 2, C = 3; streets A-B of 100 m and B-C of 150 m,
    each usable both ways. *)
Definition path3 : graph :=
  {| nodes := [1; 2; 3]%Z;
     edges := [E 1 2 100; E 2 1 100; E 2 3 150; E 3 2 150] |}.

Lemma wf_path3 : wf_graph path3.
Proof.
  split.
  - simpl. repeat constructor; simpl; intuition discriminate.
  - intros e He. simpl in He.
    repeat (destruct He as [<- | He]; [simpl; intuition |]). contradiction.
Qed.

Lemma nonneg_path3 : nonneg_lengths path3.
Proof.
  intros e He. simpl in He.
  repeat (destruct He as [<- | He]; [simpl; discriminate |]). contradiction.
Qed.

(** A node without any street has no mean: NaN, not 0. *)
Example isolated_node_mean :
  all_pairs_mean_shortest_path_length {| nodes := [7%Z]; edges := [] |}
  = Some [(7%Z, NaN)].
Proof. reflexivity. Qed.

(** A one-way street: the far end reaches nothing. *)
Example one_way_mean :
  all_pairs_mean_shortest_path_length
    {| nodes := [1; 2]%Z; edges := [E 1 2 80] |}
  = Some [(1%Z, Fin 80); (2%Z, NaN)].
Proof. reflexivity. Qed.

End PathClaims.

(* ===================================================================== *)
(** * The path-counting search of the betweenness *)
(* ===================================================================== *)

Module BetweennessFacts.

Import Graph GraphFacts Paths DijkstraFacts Betweenness.
Local Open Scope Q_scope.

Definition bprio (e : bentry) : Q := fst (fst (fst e)).
Definition bpred (e : bentry) : node := snd (fst e).
Definition bnode (e : bentry) : node := snd e.

Lemma upd_same : forall (A : Type) (m : node -> A) k a, upd m k a k = a.
Proof. intros. unfold upd. now rewrite Z.eqb_refl. Qed.

Lemma upd_other : forall (A : Type) (m : node -> A) k a x,
  x <> k -> upd m k a x = m x.
Proof.
  intros A m k a x H. unfold upd.
  destruct (Z.eqb_spec x k); [contradiction | reflexivity].
Qed.

(** The sum of [f] over a list of nodes. *)
Fixpoint qsum (f : node -> Q) (l : list node) : Q :=
  match l with
  | [] => 0
  | x :: r => f x + qsum f r
  end.

Lemma qsum_ext : forall f g l,
  (forall x, In x l -> f x == g x) -> qsum f l == qsum g l.
Proof.
  induction l as [|a r IH]; intros H; simpl; [reflexivity |].
  rewrite (H a (or_introl eq_refl)), IH; [reflexivity |].
  intros x Hx. apply H. now right.
Qed.

Lemma qsum_app : forall f l1 l2, qsum f (l1 ++ l2) == qsum f l1 + qsum f l2.
Proof.
  induction l1 as [|a r IH]; intros l2; simpl; [ring |].
  rewrite IH. ring.
Qed.

Lemma qsum_nonneg : forall f l, (forall x, 0 <= f x) -> 0 <= qsum f l.
Proof.
  induction l as [|a r IH]; intros H; simpl; [apply Qle_refl |].
  specialize (IH H). specialize (H a).
  rewrite <- (Qplus_0_r 0). now apply Qplus_le_compat.
Qed.

(** ** The heap *)

Lemma bentry_ltb_true : forall a b, bentry_ltb a b = true -> bprio a <= bprio b.
Proof.
  intros [[[da ca] pa] va] [[[db cb] pb] vb]. unfold bentry_ltb, bprio. simpl.
  intros H. apply orb_true_iff in H. destruct H as [H | H].
  - apply qltb_true in H. now apply Qlt_le_weak.
  - apply andb_true_iff in H. destruct H as [H _].
    apply Qeq_bool_iff in H. rewrite H. apply Qle_refl.
Qed.

Lemma bentry_ltb_false : forall a b, bentry_ltb a b = false -> bprio b <= bprio a.
Proof.
  intros [[[da ca] pa] va] [[[db cb] pb] vb]. unfold bentry_ltb, bprio. simpl.
  intros H. apply orb_false_iff in H. destruct H as [H _].
  now apply qltb_false in H.
Qed.

Lemma bpop_min_none : forall h, bpop_min h = None -> h = [].
Proof.
  intros [|e r]; simpl; [reflexivity |].
  destruct (bpop_min r) as [[m r'] |]; [destruct (bentry_ltb e m) |]; discriminate.
Qed.

Lemma bpop_min_spec : forall h m rest,
  bpop_min h = Some (m, rest) ->
  Permutation h (m :: rest) /\
  forall e, In e rest -> bprio m <= bprio e.
Proof.
  induction h as [|e r IH]; intros m rest H; simpl in H; [discriminate |].
  destruct (bpop_min r) as [[m' r'] |] eqn:Hp.
  - destruct (IH m' r' eq_refl) as [Hperm Hmin].
    destruct (bentry_ltb e m') eqn:Hlt; injection H as <- <-.
    + split; [apply Permutation_refl |].
      intros x Hx. apply (Permutation_in _ Hperm) in Hx.
      apply bentry_ltb_true in Hlt.
      destruct Hx as [<- | Hx]; [exact Hlt |].
      apply Qle_trans with (bprio m'); [exact Hlt | now apply Hmin].
    + split.
      * apply Permutation_trans with (e :: m' :: r');
          [now apply perm_skip | apply perm_swap].
      * intros x [<- | Hx]; [now apply bentry_ltb_false | now apply Hmin].
  - injection H as <- <-. apply bpop_min_none in Hp. subst r.
    split; [apply Permutation_refl | intros x []].
Qed.

Lemma weight_positive : forall G v w,
  positive_lengths G -> In w (adj G v) -> 0 < weight G v w.
Proof.
  intros G v w Hpos Hw. unfold weight.
  destruct (filter (fun e => Z.eqb (e_v e) w) (out_edges G v)) as [|e r] eqn:Hf.
  - exfalso. apply in_adj in Hw. destruct Hw as [e [He [Hu Hv]]].
    assert (Hin : In e (filter (fun e => Z.eqb (e_v e) w) (out_edges G v))).
    { apply filter_In. split; [apply in_out_edges; auto | now apply Z.eqb_eq]. }
    rewrite Hf in Hin. contradiction.
  - assert (Hall : forall e', In e' (e :: r) -> 0 < e_length e').
    { intros e' He'. rewrite <- Hf in He'. apply filter_In in He'.
      destruct He' as [He' _]. apply in_out_edges in He'. apply Hpos, He'. }
    assert (Hgen : forall es m, 0 < m -> (forall e', In e' es -> 0 < e_length e') ->
                   0 < fold_left (fun m e' => qmin m (e_length e')) es m).
    { induction es as [|a es IH]; intros m Hm Hes; simpl; [exact Hm |].
      apply IH.
      - destruct (qmin_cases m (e_length a)) as [-> | ->]; [exact Hm |].
        apply Hes. now left.
      - intros e' He'. apply Hes. now right. }
    apply Hgen.
    + apply Hall. now left.
    + intros e' He'. apply Hall. now right.
Qed.

(** ** The order of accumulation *)

(** [order] lists settled nodes, last settled first.  Every node has a
    positive path count, its predecessors come later in the list, and
    the count of a node other than the source is the sum of the counts
    of its predecessors. *)
Fixpoint good_order (s : node) (P : node -> list node) (sigma : node -> Q)
         (order : list node) : Prop :=
  match order with
  | [] => True
  | w :: r =>
      0 < sigma w /\ incl (P w) r /\
      (w <> s -> sigma w == qsum sigma (P w)) /\
      good_order s P sigma r
  end.

Lemma good_order_ext : forall s P P' sigma sigma' order,
  (forall x, In x order -> P' x = P x /\ sigma' x == sigma x) ->
  good_order s P sigma order -> good_order s P' sigma' order.
Proof.
  intros s P P' sigma sigma'. induction order as [|w r IH]; intros Hext H.
  - exact I.
  - destruct H as [H1 [H2 [H3 H4]]].
    destruct (Hext w (or_introl eq_refl)) as [HP Hs].
    simpl. rewrite HP, Hs. split; [exact H1 |]. split; [exact H2 |].
    split.
    + intros Hne. rewrite (H3 Hne). apply qsum_ext.
      intros x Hx. symmetry. apply Hext. right. now apply H2.
    + apply IH; [| exact H4]. intros x Hx. apply Hext. now right.
Qed.

Lemma good_order_positive : forall s P sigma order x,
  good_order s P sigma order -> In x order -> 0 < sigma x.
Proof.
  induction order as [|w r IH]; intros x H Hx; [contradiction |].
  destruct H as [H1 [_ [_ H4]]]. destruct Hx as [<- | Hx]; [exact H1 | now apply IH].
Qed.

(** ** Invariant of the search *)

(** The path count of a node that waits in the heap with predecessor
    [p]: once [sigma p] is added it is the sum over the predecessor
    list, which holds settled nodes only. *)
Definition counts (S : list node) (P : node -> list node) (sigma : node -> Q)
           (w p : node) : Prop :=
  sigma w + sigma p == qsum sigma (P w) /\ incl (P w) S /\ 0 <= sigma w.

Lemma counts_ext : forall S S' P P' sigma sigma' k w p,
  (forall x, x <> k -> sigma' x = sigma x /\ P' x = P x) ->
  ~ In k S -> incl S S' -> w <> k -> In p S ->
  counts S P sigma w p -> counts S' P' sigma' w p.
Proof.
  intros S S' P P' sigma sigma' k w p Hext Hk Hsub Hw Hp [C1 [C2 C3]].
  assert (Hnk : forall x, In x S -> x <> k) by (intros x Hx ->; contradiction).
  destruct (Hext w Hw) as [Hsw HPw].
  destruct (Hext p (Hnk p Hp)) as [Hsp _].
  unfold counts. rewrite HPw, Hsw, Hsp.
  split; [| split; [intros x Hx; apply Hsub; now apply C2 | exact C3]].
  rewrite C1. apply qsum_ext. intros x Hx.
  destruct (Hext x (Hnk x (C2 x Hx))) as [-> _]. reflexivity.
Qed.

Section SearchInv.

Variable G : graph.
Variable s : node.
Hypothesis Hwf : wf_graph G.
Hypothesis Hs : In s (nodes G).

(** The streets that leave [v] are not absorbed at the distance
    [dist]. *)
Definition kept (v : node) (dist : Q) : Prop :=
  forall w c, In (w, c) (succ_costs G v) -> dist < radd dist c.

Record sinv (st : search) : Prop := {
  k_nodup : NoDup (S_ st);
  k_head : exists S', S_ st = s :: S';
  k_nodes : incl (S_ st) (nodes G);
  k_D : forall w, D_ st w <> None <-> In w (S_ st);
  k_settled : forall w, In w (S_ st) ->
      exists sw, seen_ st w = Some sw /\
                 forall e, In e (Q_ st) -> sw <= bprio e;
  k_entry : forall e, In e (Q_ st) ->
      In (bnode e) (nodes G) /\ In (bpred e) (S_ st) /\
      exists sw, seen_ st (bnode e) = Some sw /\ sw <= bprio e /\
                 (D_ st (bnode e) = None -> bprio e == sw ->
                  counts (S_ st) (P_ st) (sigma_ st) (bnode e) (bpred e));
  k_best : forall w sw, seen_ st w = Some sw -> D_ st w = None ->
      exists e, In e (Q_ st) /\ bnode e = w /\ bprio e == sw;
  k_good : good_order s (P_ st) (sigma_ st) (rev (S_ st))
}.

(** Every settled node was seen at a distance not above [dist]. *)
Definition settled_le (st : search) (dist : Q) : Prop :=
  forall x sx, In x (S_ st) -> seen_ st x = Some sx -> sx <= dist.

Lemma not_settled : forall st w, sinv st -> D_ st w = None -> ~ In w (S_ st).
Proof.
  intros st w [_ _ _ K4 _ _ _ _] HD Hin. apply K4 in Hin. contradiction.
Qed.

(** A strictly better distance for [w]: its entry is pushed, its
    predecessor list and count start again. *)
Lemma sinv_push : forall st v dist w cost,
  sinv st -> In v (S_ st) -> settled_le st dist ->
  dist <= radd dist cost -> In w (nodes G) ->
  D_ st w = None ->
  (forall sw, seen_ st w = Some sw -> radd dist cost < sw) ->
  sinv {| S_ := S_ st;
          P_ := upd (P_ st) w [v];
          sigma_ := upd (sigma_ st) w 0;
          D_ := D_ st;
          seen_ := upd (seen_ st) w (Some (radd dist cost));
          Q_ := (radd dist cost, c_ st, v, w) :: Q_ st;
          c_ := S (c_ st) |}.
Proof.
  intros st v dist w cost Hinv Hv Hle Hvw Hw HD Hbetter.
  pose proof (@not_settled st w Hinv HD) as HwS.
  destruct Hinv as [K1 K2 K3 K4 K5 K6 K7 K8].
  assert (HnS : forall x, In x (S_ st) -> x <> w) by (intros x Hx ->; contradiction).
  assert (Hext : forall x, x <> w ->
             upd (sigma_ st) w 0 x = sigma_ st x /\ upd (P_ st) w [v] x = P_ st x).
  { intros x Hx. now rewrite !upd_other. }
  constructor; cbn [S_ P_ sigma_ D_ seen_ Q_ c_].
  - exact K1.
  - exact K2.
  - exact K3.
  - exact K4.
  - intros x Hx. destruct (K5 x Hx) as [sx [Hsx Hall]].
    exists sx. rewrite upd_other by (now apply HnS). split; [exact Hsx |].
    intros e [<- | He]; [| now apply Hall].
    unfold bprio. simpl. apply Qle_trans with dist; [now apply (Hle x) | exact Hvw].
  - intros e [<- | He].
    + unfold bnode, bpred, bprio. simpl.
      split; [exact Hw |]. split; [exact Hv |].
      exists (radd dist cost). rewrite upd_same.
      split; [reflexivity |]. split; [apply Qle_refl |].
      intros _ _. unfold counts. rewrite !upd_same.
      rewrite upd_other by (now apply HnS).
      split; [simpl; rewrite upd_other by (now apply HnS); ring |].
      split; [intros x [<- | []]; exact Hv | apply Qle_refl].
    + destruct (K6 e He) as [E1 [E2 [sw [E3 [E4 E5]]]]].
      split; [exact E1 |]. split; [exact E2 |].
      destruct (Z.eq_dec (bnode e) w) as [Heq | Hne].
      * exists (radd dist cost). rewrite Heq, upd_same.
        rewrite Heq in E3. specialize (Hbetter sw E3).
        split; [reflexivity |].
        split; [apply Qlt_le_weak; now apply Qlt_le_trans with sw |].
        intros _ Hq. exfalso. rewrite Hq in E4.
        now apply (Qlt_not_le _ _ Hbetter).
      * exists sw. rewrite upd_other by exact Hne.
        split; [exact E3 |]. split; [exact E4 |].
        intros Hd Hq.
        apply (@counts_ext (S_ st) (S_ st) (P_ st) _ (sigma_ st) _ w); auto.
        apply incl_refl.
  - intros x sx Hx Hd. destruct (Z.eq_dec x w) as [-> | Hne].
    + rewrite upd_same in Hx. injection Hx as <-.
      exists (radd dist cost, c_ st, v, w). split; [now left |].
      split; reflexivity.
    + rewrite upd_other in Hx by exact Hne.
      destruct (K7 x sx Hx Hd) as [e [He Hb]]. exists e. split; [now right | exact Hb].
  - apply good_order_ext with (P := P_ st) (sigma := sigma_ st); [| exact K8].
    intros x Hx. apply in_rev in Hx.
    destruct (Hext x (HnS x Hx)) as [-> ->]. split; reflexivity.
Qed.

(** An equally short path to [w] through [v]: [v] joins the
    predecessors and its count is added. *)
Lemma sinv_equal : forall st v w,
  sinv st -> In v (S_ st) -> D_ st w = None ->
  sinv {| S_ := S_ st;
          P_ := upd (P_ st) w (P_ st w ++ [v]);
          sigma_ := upd (sigma_ st) w (Qred (sigma_ st w + sigma_ st v));
          D_ := D_ st;
          seen_ := seen_ st;
          Q_ := Q_ st;
          c_ := c_ st |}.
Proof.
  intros st v w Hinv Hv HD.
  pose proof (@not_settled st w Hinv HD) as HwS.
  destruct Hinv as [K1 K2 K3 K4 K5 K6 K7 K8].
  assert (HnS : forall x, In x (S_ st) -> x <> w) by (intros x Hx ->; contradiction).
  assert (Hext : forall x, x <> w ->
             upd (sigma_ st) w (Qred (sigma_ st w + sigma_ st v)) x = sigma_ st x /\
             upd (P_ st) w (P_ st w ++ [v]) x = P_ st x).
  { intros x Hx. now rewrite !upd_other. }
  assert (Hsv : 0 < sigma_ st v).
  { apply (@good_order_positive s (P_ st) (sigma_ st) (rev (S_ st)) v K8).
    now apply -> in_rev. }
  constructor; cbn [S_ P_ sigma_ D_ seen_ Q_ c_]; auto.
  - intros e He. destruct (K6 e He) as [E1 [E2 [sw [E3 [E4 E5]]]]].
    split; [exact E1 |]. split; [exact E2 |].
    exists sw. split; [exact E3 |]. split; [exact E4 |].
    intros Hd Hq. specialize (E5 Hd Hq).
    destruct (Z.eq_dec (bnode e) w) as [Heq | Hne].
    + rewrite Heq in *. destruct E5 as [C1 [C2 C3]].
      unfold counts. rewrite !upd_same.
      rewrite upd_other by (now apply HnS).
      split; [| split].
      * set (sg := upd (sigma_ st) w (Qred (sigma_ st w + sigma_ st v))).
        assert (Hsg : forall x, In x (S_ st) -> sg x == sigma_ st x).
        { intros x Hx. unfold sg. rewrite upd_other; [reflexivity | now apply HnS]. }
        rewrite Qred_correct, qsum_app. simpl.
        rewrite (Hsg v Hv).
        rewrite (@qsum_ext sg (sigma_ st) (P_ st w)).
        -- rewrite <- C1. ring.
        -- intros x Hx. apply Hsg. now apply C2.
      * intros x Hx. apply in_app_or in Hx.
        destruct Hx as [Hx | [<- | []]]; [now apply C2 | exact Hv].
      * rewrite Qred_correct. rewrite <- (Qplus_0_r 0).
        apply Qplus_le_compat; [exact C3 | now apply Qlt_le_weak].
    + apply (@counts_ext (S_ st) (S_ st) (P_ st) _ (sigma_ st) _ w); auto.
      apply incl_refl.
  - apply good_order_ext with (P := P_ st) (sigma := sigma_ st); [| exact K8].
    intros x Hx. apply in_rev in Hx.
    destruct (Hext x (HnS x Hx)) as [-> ->]. split; reflexivity.
Qed.

Lemma relax1_inv : forall st v dist w cost,
  sinv st -> In v (S_ st) -> settled_le st dist ->
  dist < radd dist cost -> In w (nodes G) ->
  sinv (relax1 v dist st (w, cost)) /\
  S_ (relax1 v dist st (w, cost)) = S_ st /\
  forall x, In x (S_ st) -> seen_ (relax1 v dist st (w, cost)) x = seen_ st x.
Proof.
  intros st v dist w cost Hinv Hv Hle Hcost Hw.
  unfold relax1. cbn [fst snd].
  destruct (D_ st w) as [dw |] eqn:HD.
  - (* [w] is settled: a length that is not absorbed cannot tie *)
    destruct (seen_ st w) as [sw |] eqn:Hsw; [| auto].
    destruct (Qeq_bool (radd dist cost) sw) eqn:Hq; [| auto].
    exfalso. apply Qeq_bool_iff in Hq.
    assert (HwS : In w (S_ st)).
    { destruct Hinv as [_ _ _ K4 _ _ _ _]. apply K4. congruence. }
    pose proof (Hle w sw HwS Hsw) as Hb. rewrite <- Hq in Hb.
    exact (Qlt_not_le _ _ Hcost Hb).
  - pose proof (@not_settled st w Hinv HD) as HwS.
    assert (HnS : forall x, In x (S_ st) -> x <> w) by (intros x Hx ->; contradiction).
    destruct (seen_ st w) as [sw |] eqn:Hsw.
    + destruct (qltb (radd dist cost) sw) eqn:Hlt.
      * apply qltb_true in Hlt. split; [| split; [reflexivity |]].
        -- apply sinv_push; auto using Qlt_le_weak. intros sw' Hsw'.
           rewrite Hsw in Hsw'. now injection Hsw' as <-.
        -- intros x Hx. cbn [seen_]. apply upd_other. now apply HnS.
      * destruct (Qeq_bool (radd dist cost) sw) eqn:Hq; [| auto].
        split; [now apply sinv_equal | auto].
    + split; [| split; [reflexivity |]].
      * apply sinv_push; auto using Qlt_le_weak.
        intros sw' Hsw'. rewrite Hsw in Hsw'. discriminate.
      * intros x Hx. cbn [seen_]. apply upd_other. now apply HnS.
Qed.

Lemma fold_relax1_inv : forall v dist nbrs st,
  sinv st -> In v (S_ st) -> settled_le st dist ->
  (forall w c, In (w, c) nbrs -> dist < radd dist c /\ In w (nodes G)) ->
  sinv (fold_left (relax1 v dist) nbrs st).
Proof.
  intros v dist. induction nbrs as [|[w c] r IH]; intros st Hinv Hv Hle Hn.
  - exact Hinv.
  - destruct (Hn w c (or_introl eq_refl)) as [Hc Hw].
    destruct (@relax1_inv st v dist w c Hinv Hv Hle Hc Hw) as [Hinv' [HS Hseen]].
    cbn [fold_left]. apply IH.
    + exact Hinv'.
    + now rewrite HS.
    + intros x sx Hx Hsx. rewrite HS in Hx. rewrite (Hseen x Hx) in Hsx.
      now apply (Hle x).
    + intros w' c' H. apply Hn. now right.
Qed.

Lemma succ_costs_kept : forall v dist w c,
  kept v dist -> In (w, c) (succ_costs G v) ->
  dist < radd dist c /\ In w (nodes G).
Proof.
  intros v dist w c Hk H. split; [now apply (Hk w c) |].
  unfold succ_costs in H. apply in_map_iff in H.
  destruct H as [w' [He Hw']]. injection He as -> <-.
  apply in_adj in Hw'. destruct Hw' as [e [He [_ <-]]]. now apply Hwf.
Qed.

(** ** Settled distances stay *)

Lemma relax1_D : forall v dist st wc, D_ (relax1 v dist st wc) = D_ st.
Proof.
  intros v dist st wc. unfold relax1.
  destruct (match D_ st (fst wc) with
            | Some _ => false
            | None => match seen_ st (fst wc) with
                      | Some sw => qltb (radd dist (snd wc)) sw
                      | None => true
                      end
            end); [reflexivity |].
  destruct (seen_ st (fst wc)) as [sw |]; [| reflexivity].
  destruct (Qeq_bool (radd dist (snd wc)) sw); reflexivity.
Qed.

Lemma fold_relax1_D : forall v dist nbrs st,
  D_ (fold_left (relax1 v dist) nbrs st) = D_ st.
Proof.
  intros v dist. induction nbrs as [|wc r IH]; intros st; [reflexivity |].
  cbn [fold_left]. rewrite IH. apply relax1_D.
Qed.

Lemma search_loop_D : forall fuel st x d,
  D_ st x = Some d -> D_ (search_loop fuel G st) x = Some d.
Proof.
  induction fuel as [|f IH]; intros st x d H; [exact H |].
  cbn [search_loop].
  destruct (bpop_min (Q_ st)) as [[[[[dist c] pred] v] rest] |]; [| exact H].
  destruct (D_ st v) as [dv |] eqn:HD.
  - apply IH. exact H.
  - apply IH. rewrite fold_relax1_D. cbn [D_].
    rewrite upd_other; [exact H | intros ->; congruence].
Qed.

(** A stale entry is dropped. *)
Lemma sinv_skip : forall st e rest,
  sinv st -> Permutation (Q_ st) (e :: rest) -> D_ st (bnode e) <> None ->
  sinv {| S_ := S_ st; P_ := P_ st; sigma_ := sigma_ st; D_ := D_ st;
          seen_ := seen_ st; Q_ := rest; c_ := c_ st |}.
Proof.
  intros st e rest [K1 K2 K3 K4 K5 K6 K7 K8] Hperm HD.
  assert (Hsub : forall x, In x rest -> In x (Q_ st)).
  { intros x Hx. apply (Permutation_in _ (Permutation_sym Hperm)). now right. }
  constructor; cbn [S_ P_ sigma_ D_ seen_ Q_ c_]; auto.
  - intros w Hw. destruct (K5 w Hw) as [sw [Hsw Hall]].
    exists sw. split; [exact Hsw |]. intros x Hx. apply Hall. now apply Hsub.
  - intros w sw Hw Hd. destruct (K7 w sw Hw Hd) as [x [Hx [Hn Hp]]].
    exists x. split; [| auto].
    apply (Permutation_in _ Hperm) in Hx. destruct Hx as [<- | Hx]; [| exact Hx].
    rewrite Hn in HD. contradiction.
Qed.

(** The least entry belongs to a node that is not settled: the node is
    settled at that distance, with the count of its predecessor added. *)
Lemma sinv_settle : forall st dist c pred v rest,
  sinv st ->
  Permutation (Q_ st) ((dist, c, pred, v) :: rest) ->
  (forall e, In e rest -> dist <= bprio e) ->
  D_ st v = None ->
  let st1 := {| S_ := S_ st ++ [v];
                P_ := P_ st;
                sigma_ := upd (sigma_ st) v (Qred (sigma_ st v + sigma_ st pred));
                D_ := upd (D_ st) v (Some dist);
                seen_ := seen_ st;
                Q_ := rest;
                c_ := c_ st |} in
  sinv st1 /\ In v (S_ st1) /\ settled_le st1 dist.
Proof.
  intros st dist c pred v rest Hinv Hperm Hmin HD.
  pose proof (@not_settled st v Hinv HD) as HvS.
  destruct Hinv as [K1 K2 K3 K4 K5 K6 K7 K8].
  assert (Hsub : forall x, In x rest -> In x (Q_ st)).
  { intros x Hx. apply (Permutation_in _ (Permutation_sym Hperm)). now right. }
  assert (Hpop : In (dist, c, pred, v) (Q_ st)).
  { apply (Permutation_in _ (Permutation_sym Hperm)). now left. }
  assert (HnS : forall x, In x (S_ st) -> x <> v) by (intros x Hx ->; contradiction).
  destruct (K6 _ Hpop) as [Hvn [Hpred [sw [Hsw [Hswd Hcnt]]]]].
  unfold bnode, bpred, bprio in Hvn, Hpred, Hsw, Hswd, Hcnt.
  cbn [fst snd] in Hvn, Hpred, Hsw, Hswd, Hcnt.
  (* the popped entry is the best one of [v] *)
  assert (Hbest : dist == sw).
  { apply Qle_antisym; [| exact Hswd].
    destruct (K7 v sw Hsw HD) as [e1 [He1 [Hn1 Hp1]]].
    apply (Permutation_in _ Hperm) in He1. destruct He1 as [<- | He1].
    - unfold bprio in Hp1. simpl in Hp1. rewrite Hp1. apply Qle_refl.
    - rewrite <- Hp1. now apply Hmin. }
  destruct (Hcnt HD Hbest) as [C1 [C2 C3]].
  assert (Hsp : 0 < sigma_ st pred).
  { apply (@good_order_positive s (P_ st) (sigma_ st) (rev (S_ st)) pred K8).
    now apply -> in_rev. }
  set (sg := upd (sigma_ st) v (Qred (sigma_ st v + sigma_ st pred))).
  assert (Hsg : forall x, x <> v -> sg x = sigma_ st x).
  { intros x Hx. unfold sg. now rewrite upd_other. }
  assert (Hsgv : sg v == sigma_ st v + sigma_ st pred).
  { unfold sg. rewrite upd_same. apply Qred_correct. }
  assert (Hext : forall x, x <> v -> sg x = sigma_ st x /\ P_ st x = P_ st x).
  { intros x Hx. split; [now apply Hsg | reflexivity]. }
  cbv zeta. fold sg. clearbody sg. split; [| split].
  - constructor; cbn [S_ P_ sigma_ D_ seen_ Q_ c_].
    + apply Permutation_NoDup with (v :: S_ st).
      * apply Permutation_cons_append.
      * constructor; assumption.
    + destruct K2 as [S' HS]. exists (S' ++ [v]). now rewrite HS.
    + intros x Hx. apply in_app_or in Hx.
      destruct Hx as [Hx | [<- | []]]; [now apply K3 | exact Hvn].
    + intros w. rewrite in_app_iff. destruct (Z.eq_dec w v) as [-> | Hne].
      * rewrite upd_same. split; [intros _; right; now left | discriminate].
      * rewrite upd_other by exact Hne. rewrite K4. split; [tauto |].
        intros [H | [H | []]]; [exact H | congruence].
    + intros w Hw. apply in_app_or in Hw. destruct Hw as [Hw | [<- | []]].
      * destruct (K5 w Hw) as [sx [Hsx Hall]]. exists sx. split; [exact Hsx |].
        intros x Hx. apply Hall. now apply Hsub.
      * exists sw. split; [exact Hsw |]. intros x Hx.
        apply Qle_trans with dist; [exact Hswd | now apply Hmin].
    + intros e He. destruct (K6 e (Hsub e He)) as [E1 [E2 [sx [E3 [E4 E5]]]]].
      split; [exact E1 |]. split; [apply in_or_app; now left |].
      exists sx. split; [exact E3 |]. split; [exact E4 |].
      intros Hd Hq.
      assert (Hne : bnode e <> v).
      { intros Heq. rewrite Heq, upd_same in Hd. discriminate. }
      rewrite upd_other in Hd by exact Hne.
      apply (@counts_ext (S_ st) (S_ st ++ [v]) (P_ st) (P_ st) (sigma_ st) sg v);
        auto.
      intros x Hx. apply in_or_app. now left.
    + intros w sx Hw Hd.
      assert (Hne : w <> v).
      { intros Heq. rewrite Heq, upd_same in Hd. discriminate. }
      rewrite upd_other in Hd by exact Hne.
      destruct (K7 w sx Hw Hd) as [x [Hx [Hn Hp]]].
      exists x. split; [| auto].
      apply (Permutation_in _ Hperm) in Hx. destruct Hx as [<- | Hx]; [| exact Hx].
      unfold bnode in Hn. simpl in Hn. congruence.
    + rewrite rev_app_distr. cbn [rev app good_order].
      split; [| split; [| split]].
      * rewrite Hsgv. lra.
      * intros x Hx. apply -> in_rev. now apply C2.
      * intros _. rewrite Hsgv, C1. apply qsum_ext.
        intros x Hx. rewrite Hsg; [reflexivity | now apply HnS, C2].
      * apply good_order_ext with (P := P_ st) (sigma := sigma_ st); [| exact K8].
        intros x Hx. apply in_rev in Hx. rewrite Hsg by (now apply HnS).
        split; reflexivity.
  - cbn [S_]. apply in_or_app. right. now left.
  - intros x sx Hx Hsx. cbn [S_ seen_] in *. apply in_app_or in Hx.
    destruct Hx as [Hx | [<- | []]].
    + destruct (K5 x Hx) as [sx' [Hsx' Hall]].
      rewrite Hsx in Hsx'. injection Hsx' as <-.
      apply (Hall _ Hpop).
    + rewrite Hsw in Hsx. injection Hsx as <-. exact Hswd.
Qed.

(** The invariant holds along a run in which no street is absorbed at
    the distance its tail is settled at. *)
Lemma search_loop_inv : forall fuel st,
  sinv st ->
  (forall v d, D_ (search_loop fuel G st) v = Some d -> kept v d) ->
  sinv (search_loop fuel G st).
Proof.
  induction fuel as [|f IH]; intros st Hinv Hfin; [exact Hinv |].
  cbn [search_loop] in Hfin |- *.
  destruct (bpop_min (Q_ st)) as [[[[[dist c] pred] v] rest] |] eqn:Hpop;
    [| exact Hinv].
  destruct (bpop_min_spec _ Hpop) as [Hperm Hmin].
  destruct (D_ st v) as [dv |] eqn:HD.
  - apply IH; [| exact Hfin].
    apply (@sinv_skip st (dist, c, pred, v) rest Hinv Hperm).
    unfold bnode. simpl. congruence.
  - destruct (@sinv_settle st dist c pred v rest Hinv Hperm Hmin HD)
      as [Hinv1 [Hv1 Hle1]].
    assert (Hk : kept v dist).
    { apply Hfin. apply search_loop_D. rewrite fold_relax1_D. cbn [D_].
      apply upd_same. }
    apply IH; [| exact Hfin]. apply fold_relax1_inv; auto.
    intros w cst H. exact (@succ_costs_kept _ _ w _ Hk H).
Qed.

(** The state after the source is settled. *)
Lemma sinv_source :
  sinv {| S_ := [s];
          P_ := fun _ => [];
          sigma_ := upd (upd (fun _ => 0) s 1) s (Qred (1 + 1));
          D_ := upd (fun _ => None) s (Some 0);
          seen_ := upd (fun _ => None) s (Some 0);
          Q_ := [];
          c_ := 1 |}.
Proof.
  constructor; cbn [S_ P_ sigma_ D_ seen_ Q_ c_].
  - constructor; [intros [] | constructor].
  - now exists [].
  - intros x [<- | []]. exact Hs.
  - intros w. destruct (Z.eq_dec w s) as [-> | Hne].
    + rewrite upd_same. split; [intros _; now left | discriminate].
    + rewrite upd_other by exact Hne. split; [congruence |].
      intros [H | []]. congruence.
  - intros w [<- | []]. exists 0. rewrite upd_same. split; [reflexivity | intros e []].
  - intros e [].
  - intros w sw Hw Hd. exfalso. destruct (Z.eq_dec w s) as [-> | Hne].
    + rewrite upd_same in Hd. discriminate.
    + rewrite upd_other in Hw by exact Hne. discriminate.
  - simpl. split; [| split; [| split]]; auto.
    + rewrite upd_same. reflexivity.
    + intros x [].
    + intros H. congruence.
Qed.

(** What the accumulation relies on. *)
Definition search_ok (st : search) : Prop :=
  NoDup (S_ st) /\ incl (S_ st) (nodes G) /\
  (exists S', S_ st = s :: S') /\
  good_order s (P_ st) (sigma_ st) (rev (S_ st)).

Lemma search_basic_ok :
  (forall v d, D_ (single_source_dijkstra_path_basic G s) v = Some d ->
               kept v d) ->
  search_ok (single_source_dijkstra_path_basic G s).
Proof.
  intros Hfin.
  assert (Hinv : sinv (single_source_dijkstra_path_basic G s)).
  { assert (Hrun : single_source_dijkstra_path_basic G s
                   = search_loop (List.length (edges G)) G
                       (fold_left (relax1 s 0) (succ_costs G s)
                          {| S_ := [s];
                             P_ := fun _ => [];
                             sigma_ := upd (upd (fun _ => 0) s 1) s (Qred (1 + 1));
                             D_ := upd (fun _ => None) s (Some 0);
                             seen_ := upd (fun _ => None) s (Some 0);
                             Q_ := [];
                             c_ := 1 |})).
    { unfold single_source_dijkstra_path_basic. cbn [search_loop bpop_min Q_].
      cbn [D_ S_ P_ sigma_ seen_ c_]. rewrite upd_same. reflexivity. }
    rewrite Hrun in Hfin |- *.
    assert (Hk : kept s 0).
    { apply Hfin. apply search_loop_D. rewrite fold_relax1_D. cbn [D_].
      apply upd_same. }
    apply search_loop_inv; [| exact Hfin]. apply fold_relax1_inv.
    - exact sinv_source.
    - now left.
    - intros x sx [<- | []] Hsx. cbn [seen_] in Hsx. rewrite upd_same in Hsx.
      injection Hsx as <-. apply Qle_refl.
    - intros w c H. exact (@succ_costs_kept _ _ w _ Hk H). }
  destruct Hinv as [K1 K2 K3 _ _ _ _ K8]. repeat split; assumption.
Qed.

End SearchInv.

(** ** Accumulation of dependencies *)

Definition nq (n : nat) : Q := inject_Z (Z.of_nat n).

Lemma nq_le : forall a b, (a <= b)%nat <-> nq a <= nq b.
Proof.
  intros a b. unfold nq. rewrite <- Zle_Qle. apply Nat2Z.inj_le.
Qed.

Lemma nq_add : forall a b, nq (a + b) == nq a + nq b.
Proof.
  intros a b. unfold nq. rewrite Nat2Z.inj_add, inject_Z_plus. reflexivity.
Qed.

Lemma nq_S : forall a, nq (S a) == nq a + 1.
Proof.
  intros a. replace (S a) with (a + 1)%nat by lia. rewrite nq_add. reflexivity.
Qed.

Lemma nq_nonneg : forall a, 0 <= nq a.
Proof. intros a. change 0 with (nq 0). apply nq_le. lia. Qed.

Lemma qsum_upd_out : forall f l v c,
  ~ In v l -> qsum (upd f v c) l == qsum f l.
Proof.
  intros f l v c H. apply qsum_ext. intros x Hx.
  rewrite upd_other; [reflexivity | intros ->; contradiction].
Qed.

Lemma qsum_upd_in : forall f l v c,
  NoDup l -> In v l -> qsum (upd f v c) l == qsum f l - f v + c.
Proof.
  induction l as [|a r IH]; intros v c Hnd Hin; [contradiction |].
  inversion Hnd as [| ? ? Ha Hr]; subst. simpl.
  destruct Hin as [-> | Hin].
  - rewrite upd_same, qsum_upd_out by exact Ha. ring.
  - rewrite upd_other by (intros ->; contradiction).
    rewrite IH by assumption. ring.
Qed.

Lemma spread_spec : forall sigma coeff preds delta,
  0 <= coeff ->
  (forall v, In v preds -> 0 <= sigma v) ->
  (forall x, 0 <= delta x) ->
  (forall x, 0 <= spread sigma coeff preds delta x) /\
  (forall x, ~ In x preds -> spread sigma coeff preds delta x = delta x) /\
  (forall l, NoDup l -> incl preds l ->
             qsum (spread sigma coeff preds delta) l
             == qsum delta l + coeff * qsum sigma preds).
Proof.
  intros sigma coeff. unfold spread.
  induction preds as [|v r IH]; intros delta Hc Hs Hd.
  - simpl. split; [exact Hd |]. split; [reflexivity |]. intros l _ _. ring.
  - cbn [fold_left].
    set (delta1 := upd delta v (Qred (delta v + sigma v * coeff))).
    assert (Hv : 0 <= sigma v * coeff).
    { apply Qmult_le_0_compat; [apply Hs; now left | exact Hc]. }
    assert (Hd1 : forall x, 0 <= delta1 x).
    { intros x. unfold delta1, upd. destruct (Z.eqb x v); [| apply Hd].
      rewrite Qred_correct. specialize (Hd v). lra. }
    destruct (IH delta1 Hc (fun x Hx => Hs x (or_intror Hx)) Hd1) as [I1 [I2 I3]].
    split; [exact I1 |]. split.
    + intros x Hx. rewrite I2 by (intros H; apply Hx; now right).
      unfold delta1. apply upd_other. intros ->. apply Hx. now left.
    + intros l Hnd Hsub. rewrite I3; [| exact Hnd | intros x Hx; apply Hsub; now right].
      unfold delta1. rewrite qsum_upd_in; [| exact Hnd | apply Hsub; now left].
      rewrite Qred_correct. simpl. ring.
Qed.

Lemma last_is_source : forall (s w : node) r r0,
  w :: r = r0 ++ [s] -> ~ In w r ->
  (w = s /\ r = []) \/ (w <> s /\ exists r1, r = r1 ++ [s]).
Proof.
  intros s w r r0 He Hw. destruct r0 as [|a r1]; simpl in He.
  - injection He as -> ->. now left.
  - injection He as <- ->. right. split; [| now exists r1].
    intros ->. apply Hw. apply in_or_app. right. now left.
Qed.

(** One pass of [_accumulate_basic] over [order], a list of [N] nodes
    at most that ends with the source: no division fails, no score
    decreases, the score of a node grows by [N - 2] at most, and the
    scores of the source and of the nodes outside [order] stay. *)
Lemma accumulate_spec : forall s P sigma N order delta b,
  NoDup order -> good_order s P sigma order ->
  (order = [] \/ exists r0, order = r0 ++ [s]) ->
  (forall x, 0 <= delta x) ->
  qsum delta order + nq (List.length order) <= nq N ->
  exists b',
    accumulate_basic order P sigma s delta b = Some b' /\
    forall x, b x <= b' x /\ b' x <= b x + nq (N - 2) /\
              (x = s \/ ~ In x order -> b' x == b x).
Proof.
  intros s P sigma N.
  induction order as [|w r IH]; intros delta b Hnd Hgood Hlast Hd Hsum.
  - exists b. split; [reflexivity |]. intros x.
    pose proof (nq_nonneg (N - 2)). split; [lra |]. split; [lra | reflexivity].
  - destruct Hgood as [Hsw [HP [Hcount Hgood]]].
    inversion Hnd as [| ? ? Hw Hr]; subst.
    destruct Hlast as [Hnil | [r0 Hr0]]; [discriminate |].
    cbn [accumulate_basic].
    destruct (Qeq_bool (sigma w) 0) eqn:Hz.
    { apply Qeq_bool_iff in Hz. rewrite Hz in Hsw. now apply Qlt_irrefl in Hsw. }
    set (coeff := Qred ((1 + delta w) / sigma w)).
    assert (Hcoeff : coeff == (1 + delta w) / sigma w) by apply Qred_correct.
    assert (Hc0 : 0 <= coeff).
    { rewrite Hcoeff. apply Qle_shift_div_l; [exact Hsw |].
      specialize (Hd w). lra. }
    assert (Hsig : forall v, In v (P w) -> 0 <= sigma v).
    { intros v Hv. apply Qlt_le_weak.
      apply (@good_order_positive s P sigma r v Hgood). now apply HP. }
    destruct (@spread_spec sigma coeff (P w) delta Hc0 Hsig Hd) as [D1 [D2 D3]].
    set (delta' := spread sigma coeff (P w) delta) in *.
    assert (Hdw : delta' w = delta w).
    { apply D2. intros H. apply Hw. now apply HP. }
    pose proof (qsum_nonneg delta r Hd) as Hqr.
    simpl in Hsum. rewrite nq_S in Hsum.
    destruct (@last_is_source s w r r0 Hr0 Hw) as [[-> ->] | [Hne [r1 Hr1]]].
    + rewrite Z.eqb_refl. exists b. split; [reflexivity |]. intros x.
      pose proof (nq_nonneg (N - 2)). split; [lra |]. split; [lra | reflexivity].
    + destruct (Z.eqb_spec w s) as [Heq | _]; [contradiction |].
      set (b1 := upd b w (Qred (b w + delta' w))).
      assert (Hsum' : qsum delta' r + nq (List.length r) <= nq N).
      { rewrite D3; [| exact Hr | exact HP].
        rewrite <- (Hcount Hne), Hcoeff.
        setoid_replace ((1 + delta w) / sigma w * sigma w) with (1 + delta w).
        - lra.
        - field. intros H. rewrite H in Hsw. now apply Qlt_irrefl in Hsw. }
      destruct (IH delta' b1 Hr Hgood (or_intror (ex_intro _ r1 Hr1)) D1 Hsum')
        as [b' [Hb' Hall]].
      exists b'. split; [exact Hb' |].
      (* the bound on what [w] receives *)
      assert (Hlen : (2 <= List.length (w :: r))%nat).
      { rewrite Hr1. simpl. rewrite length_app. simpl. lia. }
      assert (HN : nq (N - 2) == nq N - 2).
      { assert (Hle : (List.length (w :: r) <= N)%nat).
        { apply nq_le. simpl List.length. rewrite nq_S.
          pose proof (Hd w). lra. }
        assert (HN2 : nq N == nq (N - 2) + nq 2).
        { rewrite <- nq_add. replace (N - 2 + 2)%nat with N by lia. reflexivity. }
        change (nq 2) with 2 in HN2. lra. }
      assert (Hl2 : 2 <= nq (List.length r) + 1).
      { rewrite <- nq_S. change 2 with (nq 2). now apply nq_le. }
      intros x. destruct (Hall x) as [A1 [A2 A3]].
      destruct (Z.eq_dec x w) as [-> | Hxw].
      * assert (Hb1 : b1 w == b w + delta w).
        { unfold b1. rewrite upd_same, Qred_correct, Hdw. reflexivity. }
        assert (Hsame : b' w == b1 w) by (apply A3; now right).
        specialize (Hd w). rewrite Hsame, Hb1.
        split; [lra |]. split; [rewrite HN; lra |].
        intros [Heq | Hout]; [contradiction | exfalso; apply Hout; now left].
      * assert (Hb1 : b1 x = b x) by (unfold b1; now apply upd_other).
        rewrite Hb1 in *. split; [exact A1 |]. split; [exact A2 |].
        intros [Heq | Hout]; apply A3; [now left | right].
        intros H. apply Hout. now right.
Qed.

(** ** All sources *)

(** The number of sources other than [x]. *)
Definition cnt (x : node) (sources : list node) : nat :=
  List.length (filter (fun s => negb (Z.eqb s x)) sources).

Lemma cnt_nodes : forall x l, NoDup l -> In x l -> S (cnt x l) = List.length l.
Proof.
  unfold cnt. induction l as [|a r IH]; intros Hnd Hin; [contradiction |].
  inversion Hnd as [| ? ? Ha Hr]; subst. cbn [filter List.length].
  destruct (Z.eqb_spec a x) as [-> | Hne]; cbn [negb List.length].
  - rewrite forallb_filter_id; [reflexivity |]. apply forallb_forall.
    intros y Hy. apply negb_true_iff, Z.eqb_neq. intros ->. contradiction.
  - destruct Hin as [-> | Hin]; [contradiction |]. f_equal. now apply IH.
Qed.

Lemma qsum_zero : forall l, qsum (fun _ => 0) l == 0.
Proof. induction l as [|a r IH]; simpl; [reflexivity | rewrite IH; ring]. Qed.

Section Sources.

Variable G : graph.
Hypothesis Hwf : wf_graph G.
Hypothesis Habs : no_absorption G.

Lemma absorption_kept : forall s v d,
  In s (nodes G) ->
  D_ (single_source_dijkstra_path_basic G s) v = Some d -> kept G v d.
Proof.
  intros s v d Hs HD w c Hwc. unfold succ_costs in Hwc.
  apply in_map_iff in Hwc. destruct Hwc as [w' [He Hw']].
  injection He as -> <-.
  destruct (weight_attained G v w Hw') as [e [He [Hu [_ Hlen]]]].
  rewrite <- Hlen. exact (@Habs s v d e Hs HD He Hu).
Qed.

Lemma search_ok_from : forall s,
  In s (nodes G) -> search_ok G s (single_source_dijkstra_path_basic G s).
Proof.
  intros s Hs. apply search_basic_ok; [exact Hwf | exact Hs |].
  intros v d HD. now apply (absorption_kept s).
Qed.

Lemma accumulate_source : forall s b,
  In s (nodes G) ->
  exists b',
    accumulate_basic (rev (S_ (single_source_dijkstra_path_basic G s)))
                     (P_ (single_source_dijkstra_path_basic G s))
                     (sigma_ (single_source_dijkstra_path_basic G s))
                     s (fun _ => 0) b = Some b' /\
    forall x, b x <= b' x /\
              b' x <= b x + nq (List.length (nodes G) - 2) /\
              b' s == b s.
Proof.
  intros s b Hs.
  destruct (@search_ok_from s Hs) as [Hnd [Hsub [[S' HS] Hgood]]].
  set (st := single_source_dijkstra_path_basic G s) in *.
  destruct (@accumulate_spec s (P_ st) (sigma_ st) (List.length (S_ st))
              (rev (S_ st)) (fun _ => 0) b) as [b' [Hb' Hall]].
  - now apply NoDup_rev.
  - exact Hgood.
  - right. exists (rev S'). rewrite HS. reflexivity.
  - intros x. apply Qle_refl.
  - rewrite qsum_zero, length_rev. lra.
  - exists b'. split; [exact Hb' |]. intros x.
    destruct (Hall x) as [A1 [A2 _]]. split; [exact A1 |]. split.
    + apply Qle_trans with (b x + nq (List.length (S_ st) - 2)); [exact A2 |].
      apply Qplus_le_r. apply nq_le.
      pose proof (NoDup_incl_length Hnd Hsub). lia.
    + destruct (Hall s) as [_ [_ A3]]. apply A3. now left.
Qed.

Lemma accumulate_sources_spec : forall sources b,
  incl sources (nodes G) ->
  exists b',
    accumulate_sources G sources b = Some b' /\
    forall x, b x <= b' x /\
              b' x <= b x + nq (cnt x sources * (List.length (nodes G) - 2)).
Proof.
  induction sources as [|s r IH]; intros b Hsub.
  - exists b. split; [reflexivity |]. intros x. simpl.
    change (nq 0) with 0. split; lra.
  - assert (Hs : In s (nodes G)) by (apply Hsub; now left).
    destruct (@accumulate_source s b Hs) as [b1 [Hb1 H1]].
    cbn [accumulate_sources]. rewrite Hb1.
    destruct (IH b1 (fun x Hx => Hsub x (or_intror Hx))) as [b' [Hb' H2]].
    exists b'. split; [exact Hb' |]. intros x.
    destruct (H1 x) as [A1 [A2 A3]]. destruct (H2 x) as [B1 B2].
    split; [lra |].
    unfold cnt in *. cbn [filter]. destruct (Z.eqb_spec s x) as [-> | Hne].
    + cbn [negb]. lra.
    + cbn [negb List.length]. rewrite Nat.mul_succ_l, nq_add. lra.
Qed.

(** Before rescaling, a score lies between 0 and [(n-1)(n-2)]. *)
Lemma raw_betweenness_bounds :
  exists b,
    accumulate_sources G (nodes G) (fun _ => 0) = Some b /\
    forall x, In x (nodes G) ->
      0 <= b x /\
      b x <= nq ((List.length (nodes G) - 1) * (List.length (nodes G) - 2)).
Proof.
  destruct (@accumulate_sources_spec (nodes G) (fun _ => 0) (incl_refl _))
    as [b [Hb Hall]].
  exists b. split; [exact Hb |]. intros x Hx.
  destruct (Hall x) as [A1 A2]. split; [exact A1 |].
  pose proof (@cnt_nodes x (nodes G) (proj1 Hwf) Hx) as Hc.
  replace (List.length (nodes G) - 1)%nat with (cnt x (nodes G)) by lia.
  lra.
Qed.

End Sources.

(** ** What the absence of absorbed streets implies *)

Lemma source_distance : forall G s,
  D_ (single_source_dijkstra_path_basic G s) s = Some 0.
Proof.
  intros G s. unfold single_source_dijkstra_path_basic.
  cbn [search_loop bpop_min Q_]. cbn [D_ S_ P_ sigma_ seen_ c_].
  apply search_loop_D. rewrite fold_relax1_D. cbn [D_]. apply upd_same.
Qed.

(** A length of zero or below is absorbed already where its street
    starts. *)
Lemma no_absorption_positive : forall G,
  wf_graph G -> no_absorption G -> positive_lengths G.
Proof.
  intros G [_ Hends] Habs e He. destruct (Hends e He) as [Hu _].
  pose proof (@Habs (e_u e) (e_u e) 0 e Hu (source_distance G (e_u e)) He
                eq_refl) as H.
  apply Qnot_le_lt. intros Hle. unfold radd in H.
  assert (Hr : round64 (0 + e_length e) <= 0)
    by (apply FloatFacts.round64_nonpos; lra).
  lra.
Qed.

(** ** The test for absorbed streets *)

Lemma no_absorptionb_sound : forall G,
  no_absorptionb G = true -> no_absorption G.
Proof.
  intros G H s v d e Hs HD He Hv. unfold no_absorptionb in H.
  rewrite forallb_forall in H. specialize (H s Hs).
  apply negb_true_iff in H. unfold absorbed_from in H.
  apply Qnot_le_lt. intros Hle.
  assert (Hex : existsb
            (fun e => match D_ (single_source_dijkstra_path_basic G s) (e_u e) with
                      | Some d => Qle_bool (radd d (e_length e)) d
                      | None => false
                      end) (edges G) = true).
  { apply existsb_exists. exists e. split; [exact He |].
    rewrite Hv, HD. now apply Qle_bool_iff. }
  congruence.
Qed.

(** ** The accumulation never divides by zero *)

Section Total.

Variable G : graph.
Hypothesis Hwf : wf_graph G.

(** Whatever the lengths are, every settled node is a node of the
    graph with a positive path count, and every heap entry names a
    settled predecessor. *)
Record pinv (st : search) : Prop := {
  p_nonneg : forall x, 0 <= sigma_ st x;
  p_settled : forall x, In x (S_ st) -> 0 < sigma_ st x;
  p_pred : forall e, In e (Q_ st) -> In (bpred e) (S_ st);
  p_D : forall x, In x (S_ st) -> D_ st x <> None;
  p_nodes : incl (S_ st) (nodes G);
  p_entry : forall e, In e (Q_ st) -> In (bnode e) (nodes G)
}.

Lemma relax1_pinv : forall v dist st wc,
  pinv st -> In v (S_ st) -> In (fst wc) (nodes G) ->
  pinv (relax1 v dist st wc) /\ S_ (relax1 v dist st wc) = S_ st.
Proof.
  intros v dist st [w c] [P1 P2 P3 P4 P5 P6] Hv Hw. cbn [fst] in Hw.
  assert (Htie : pinv {| S_ := S_ st;
                         P_ := upd (P_ st) w (P_ st w ++ [v]);
                         sigma_ := upd (sigma_ st) w
                                     (Qred (sigma_ st w + sigma_ st v));
                         D_ := D_ st; seen_ := seen_ st; Q_ := Q_ st;
                         c_ := c_ st |}).
  { constructor; cbn [S_ sigma_ Q_ D_]; auto.
    - intros x. unfold upd. destruct (Z.eqb x w); [| apply P1].
      rewrite Qred_correct. pose proof (P1 w). pose proof (P1 v). lra.
    - intros x Hx. unfold upd. destruct (Z.eqb_spec x w) as [-> | _];
        [| now apply P2].
      rewrite Qred_correct. pose proof (P1 w). pose proof (P2 v Hv). lra. }
  assert (Hsame : pinv st) by (constructor; auto).
  unfold relax1. cbn [fst snd].
  destruct (D_ st w) as [dw |] eqn:HD.
  - destruct (seen_ st w) as [sw |]; [| auto].
    destruct (Qeq_bool (radd dist c) sw); auto.
  - assert (HwS : ~ In w (S_ st)) by (intros Hin; now apply (P4 w Hin)).
    assert (Hpush : pinv {| S_ := S_ st;
                            P_ := upd (P_ st) w [v];
                            sigma_ := upd (sigma_ st) w 0;
                            D_ := D_ st;
                            seen_ := upd (seen_ st) w (Some (radd dist c));
                            Q_ := (radd dist c, c_ st, v, w) :: Q_ st;
                            c_ := S (c_ st) |}).
    { constructor; cbn [S_ sigma_ Q_ D_]; auto.
      - intros x. unfold upd. destruct (Z.eqb x w); [apply Qle_refl | apply P1].
      - intros x Hx. rewrite upd_other; [now apply P2 |].
        intros ->. contradiction.
      - intros e [<- | He]; [exact Hv | now apply P3].
      - intros e [<- | He]; [exact Hw | now apply P6]. }
    destruct (seen_ st w) as [sw |]; [| auto].
    destruct (qltb (radd dist c) sw); [auto |].
    destruct (Qeq_bool (radd dist c) sw); auto.
Qed.

Lemma fold_relax1_pinv : forall v dist nbrs st,
  pinv st -> In v (S_ st) ->
  (forall wc, In wc nbrs -> In (fst wc) (nodes G)) ->
  pinv (fold_left (relax1 v dist) nbrs st).
Proof.
  intros v dist. induction nbrs as [|wc r IH]; intros st Hp Hv Hn; [exact Hp |].
  cbn [fold_left].
  destruct (@relax1_pinv v dist st wc Hp Hv (Hn wc (or_introl eq_refl)))
    as [Hp' HS].
  apply IH; [exact Hp' | now rewrite HS |].
  intros x Hx. apply Hn. now right.
Qed.

Lemma succ_costs_in_nodes : forall v wc,
  In wc (succ_costs G v) -> In (fst wc) (nodes G).
Proof.
  intros v [w c] H. unfold succ_costs in H. apply in_map_iff in H.
  destruct H as [w' [He Hw']]. injection He as -> _. cbn [fst].
  apply in_adj in Hw'. destruct Hw' as [e [He [_ <-]]]. now apply Hwf.
Qed.

Lemma search_loop_pinv : forall fuel st,
  pinv st -> pinv (search_loop fuel G st).
Proof.
  induction fuel as [|f IH]; intros st Hp; [exact Hp |].
  cbn [search_loop].
  destruct (bpop_min (Q_ st)) as [[[[[dist c] pred] v] rest] |] eqn:Hpop;
    [| exact Hp].
  destruct (bpop_min_spec _ Hpop) as [Hperm _].
  assert (Hsub : forall e, In e rest -> In e (Q_ st)).
  { intros e He. apply (Permutation_in _ (Permutation_sym Hperm)). now right. }
  assert (Hpopped : In (dist, c, pred, v) (Q_ st)).
  { apply (Permutation_in _ (Permutation_sym Hperm)). now left. }
  destruct Hp as [P1 P2 P3 P4 P5 P6].
  destruct (D_ st v) as [dv |] eqn:HD.
  - apply IH. constructor; cbn [S_ sigma_ Q_ D_]; auto.
  - assert (HvS : ~ In v (S_ st)) by (intros Hin; now apply (P4 v Hin)).
    pose proof (P3 _ Hpopped) as Hpred. unfold bpred in Hpred.
    cbn [fst snd] in Hpred.
    pose proof (P6 _ Hpopped) as Hvn. unfold bnode in Hvn. cbn [snd] in Hvn.
    apply IH. apply fold_relax1_pinv.
    + constructor; cbn [S_ sigma_ Q_ D_].
      * intros x. unfold upd. destruct (Z.eqb x v); [| apply P1].
        rewrite Qred_correct. pose proof (P1 v). pose proof (P1 pred). lra.
      * intros x Hx. unfold upd. destruct (Z.eqb_spec x v) as [-> | Hne].
        -- rewrite Qred_correct. pose proof (P1 v). pose proof (P2 pred Hpred).
           lra.
        -- apply P2. apply in_app_or in Hx.
           destruct Hx as [Hx | [Hx | []]]; [exact Hx | congruence].
      * intros e He. apply in_or_app. left. now apply P3, Hsub.
      * intros x Hx. unfold upd. destruct (Z.eqb_spec x v) as [-> | Hne];
          [discriminate |].
        apply P4. apply in_app_or in Hx.
        destruct Hx as [Hx | [Hx | []]]; [exact Hx | congruence].
      * intros x Hx. apply in_app_or in Hx.
        destruct Hx as [Hx | [<- | []]]; [now apply P5 | exact Hvn].
      * intros e He. now apply P6, Hsub.
    + cbn [S_]. apply in_or_app. right. now left.
    + apply succ_costs_in_nodes.
Qed.

Lemma search_basic_pinv : forall s,
  In s (nodes G) -> pinv (single_source_dijkstra_path_basic G s).
Proof.
  intros s Hs. unfold single_source_dijkstra_path_basic.
  cbn [search_loop bpop_min Q_]. cbn [D_ S_ P_ sigma_ seen_ c_].
  apply search_loop_pinv. apply fold_relax1_pinv.
  - constructor; cbn [S_ sigma_ Q_ D_].
    + intros x. unfold upd. destruct (Z.eqb x s).
      * rewrite Qred_correct. destruct (Z.eqb s s); lra.
      * destruct (Z.eqb x s); lra.
    + intros x [<- | []]. rewrite upd_same, Qred_correct, upd_same. lra.
    + intros e [].
    + intros x [<- | []]. rewrite upd_same. discriminate.
    + intros x [<- | []]. exact Hs.
    + intros e [].
  - now left.
  - apply succ_costs_in_nodes.
Qed.

(** One pass of the accumulation over settled nodes: it succeeds, no
    score decreases, and only the scores of nodes of [order] other
    than the source can change. *)
Lemma accumulate_total : forall P sigma s order delta b,
  (forall x, 0 <= sigma x) ->
  (forall w, In w order -> 0 < sigma w) ->
  (forall x, 0 <= delta x) ->
  exists b',
    accumulate_basic order P sigma s delta b = Some b' /\
    forall x, b x <= b' x /\ (x = s \/ ~ In x order -> b' x == b x).
Proof.
  intros P sigma s. induction order as [|w r IH]; intros delta b Hs Hpos Hd.
  - exists b. split; [reflexivity |]. intros x. split; [lra | reflexivity].
  - cbn [accumulate_basic].
    assert (Hw : 0 < sigma w) by (apply Hpos; now left).
    destruct (Qeq_bool (sigma w) 0) eqn:Hz.
    { apply Qeq_bool_iff in Hz. lra. }
    set (coeff := Qred ((1 + delta w) / sigma w)).
    assert (Hc0 : 0 <= coeff).
    { unfold coeff. rewrite Qred_correct. apply Qle_shift_div_l; [exact Hw |].
      specialize (Hd w). lra. }
    destruct (@spread_spec sigma coeff (P w) delta Hc0 (fun v _ => Hs v) Hd)
      as [D1 _].
    set (delta' := spread sigma coeff (P w) delta) in *.
    destruct (IH delta'
                (if Z.eqb w s then b else upd b w (Qred (b w + delta' w)))
                Hs (fun x Hx => Hpos x (or_intror Hx)) D1)
      as [b' [Hb' Hall]].
    exists b'. split; [exact Hb' |]. intros x.
    destruct (Hall x) as [A1 A2].
    destruct (Z.eqb_spec w s) as [-> | Hne].
    + split; [exact A1 |]. intros [Hx | Hx]; apply A2; [now left |].
      right. intros H. apply Hx. now right.
    + unfold upd in A1, A2. destruct (Z.eqb_spec x w) as [Hxw | Hxw].
      * subst x. rewrite Qred_correct in A1, A2. pose proof (D1 w).
        split; [lra |].
        intros [Hx | Hx]; [contradiction | exfalso; apply Hx; now left].
      * split; [exact A1 |]. intros [Hx | Hx]; apply A2; [now left |].
        right. intros H. apply Hx. now right.
Qed.

Lemma accumulate_sources_total : forall sources b,
  incl sources (nodes G) ->
  exists b',
    accumulate_sources G sources b = Some b' /\
    forall x, b x <= b' x /\
              ((forall s, In s sources -> s = x) -> b' x == b x).
Proof.
  induction sources as [|s r IH]; intros b Hsub.
  - exists b. split; [reflexivity |]. intros x. split; [lra | reflexivity].
  - cbn [accumulate_sources].
    assert (Hs : In s (nodes G)) by (apply Hsub; now left).
    pose proof (@search_basic_pinv s Hs) as Hp.
    destruct (@accumulate_total
                (P_ (single_source_dijkstra_path_basic G s))
                (sigma_ (single_source_dijkstra_path_basic G s)) s
                (rev (S_ (single_source_dijkstra_path_basic G s)))
                (fun _ => 0) b) as [b1 [Hb1 H1]].
    { exact (p_nonneg Hp). }
    { intros w Hw. apply in_rev in Hw. now apply (p_settled Hp). }
    { intros x. apply Qle_refl. }
    rewrite Hb1.
    destruct (IH b1 (fun x Hx => Hsub x (or_intror Hx))) as [b' [Hb' H2]].
    exists b'. split; [exact Hb' |]. intros x.
    destruct (H1 x) as [A1 A2]. destruct (H2 x) as [B1 B2].
    split; [lra |]. intros Hall.
    rewrite B2 by (intros s' Hs'; apply Hall; now right).
    apply A2. left. symmetry. apply Hall. now left.
Qed.

(** [nx.betweenness_centrality] raises nothing, whatever the lengths
    are, and scores every node with a number that is not negative; the
    node of a one-node graph gets 0. *)
Lemma betweenness_total :
  exists btw,
    betweenness_centrality G = Some btw /\ map fst btw = nodes G /\
    (forall v b, In (v, b) btw -> 0 <= b) /\
    (List.length (nodes G) = 1%nat -> forall v b, In (v, b) btw -> b == 0).
Proof.
  unfold betweenness_centrality.
  destruct (@accumulate_sources_total (nodes G) (fun _ => 0) (incl_refl _))
    as [raw [Hraw Hall]].
  rewrite Hraw. eexists. split; [reflexivity |].
  split; [rewrite map_map; apply map_id |].
  split.
  - intros v b Hin. apply in_map_iff in Hin. destruct Hin as [v' [He Hv]].
    injection He as -> <-. destruct (Hall v) as [H0 _]. unfold rescale.
    destruct (Nat.leb_spec (List.length (nodes G)) 2) as [Hn | Hn];
      [exact H0 |].
    rewrite Qred_correct.
    apply Qmult_le_0_compat; [exact H0 |].
    apply Qle_shift_div_l; [| lra].
    change 0 with (inject_Z 0). rewrite <- Zlt_Qlt.
    assert (0 < (List.length (nodes G) - 1) * (List.length (nodes G) - 2))%nat
      by nia.
    lia.
  - intros Hone v b Hin. apply in_map_iff in Hin.
    destruct Hin as [v' [He Hv]]. injection He as -> <-.
    destruct (Hall v) as [_ H1]. unfold rescale. rewrite Hone. cbn [Nat.leb].
    rewrite H1; [reflexivity |].
    intros s Hs. destruct (nodes G) as [|a [|a' r]]; try discriminate.
    destruct Hs as [<- | []]. destruct Hv as [<- | []]. reflexivity.
Qed.

End Total.

Lemma rescale_unit : forall n b,
  0 <= b -> b <= nq ((n - 1) * (n - 2)) ->
  0 <= rescale n b /\ rescale n b <= 1 /\ ((n <= 2)%nat -> rescale n b == 0).
Proof.
  intros n b H0 Hb. unfold rescale.
  destruct (Nat.leb_spec n 2) as [Hn | Hn].
  - assert (Hz : ((n - 1) * (n - 2) = 0)%nat) by nia.
    rewrite Hz in Hb. change (nq 0) with 0 in Hb.
    split; [exact H0 |]. split; [lra |]. intros _. lra.
  - fold (nq ((n - 1) * (n - 2))).
    assert (Hm : 0 < nq ((n - 1) * (n - 2))).
    { change 0 with (nq 0). apply Qnot_le_lt. intros H. apply nq_le in H. nia. }
    rewrite Qred_correct.
    setoid_replace (b * (1 / nq ((n - 1) * (n - 2))))
      with (b / nq ((n - 1) * (n - 2))) by (unfold Qdiv; ring).
    split; [apply Qle_shift_div_l; [exact Hm | lra] |].
    split; [apply Qle_shift_div_r; [exact Hm | lra] | lia].
Qed.

End BetweennessFacts.

(* ===================================================================== *)
(** * Claims on the betweenness *)
(* ===================================================================== *)

Module BetweennessClaims.

Import Graph GraphFacts Paths Betweenness BetweennessFacts.
Import PathClaims.
Local Open Scope Q_scope.

(** The three-node street with a loop of zero length at the middle
    node B = 2, and the same with a loop of [10^-20] m. *)
Definition loop3 : graph :=
  {| nodes := [1; 2; 3]%Z;
     edges := [E 1 2 100; E 2 1 100; E 2 3 150; E 3 2 150; E 2 2 0] |}.

Definition short_loop3 : graph :=
  {| nodes := [1; 2; 3]%Z;
     edges := [E 1 2 100; E 2 1 100; E 2 3 150; E 3 2 150;
               E 2 2 (1 # 100000000000000000000)] |}.

(** On [loop3] the zero-length loop makes B its own predecessor; its
    score, 3, is outside [[0,1]].  A loop of [10^-20] m does the same:
    the float64 sum of 100 and [10^-20] is 100. *)
Lemma zero_length_loop_score :
  betweenness_centrality loop3 = Some [(1%Z, 0); (2%Z, 3); (3%Z, 0)] /\
  betweenness_centrality short_loop3 = Some [(1%Z, 0); (2%Z, 3); (3%Z, 0)] /\
  positive_lengths short_loop3 /\
  ~ in_range 0 1 (Fin 3).
Proof.
  split; [vm_compute; reflexivity |].
  split; [vm_compute; reflexivity |].
  split.
  - intros e He. simpl in He.
    repeat (destruct He as [<- | He]; [reflexivity |]). contradiction.
  - unfold in_range. intros [_ H].
    now apply (Qlt_not_le _ _ (eq_refl : 1 < 3)).
Qed.

(** C7, amended.  The betweenness raises nothing and gives every node
    a number that is not negative; the single node of a one-node graph
    gets 0.  When no street is absorbed in a sum of the search (which
    needs every length to be positive), every score lies between 0 and
    1, and with two nodes at most every score is 0. *)
Theorem betweenness_in_unit_interval : forall G,
  wf_graph G ->
  exists btw,
    betweenness_centrality G = Some btw /\
    map fst btw = nodes G /\
    (forall v b, In (v, b) btw -> 0 <= b) /\
    (List.length (nodes G) = 1%nat -> forall v b, In (v, b) btw -> b == 0) /\
    (no_absorption G ->
     positive_lengths G /\
     (forall v b, In (v, b) btw -> in_range 0 1 (Fin b)) /\
     ((List.length (nodes G) <= 2)%nat ->
      forall v b, In (v, b) btw -> b == 0)).
Proof.
  intros G Hwf.
  destruct (@betweenness_total G Hwf) as [btw [Hbtw [Hkeys [Hnn Hone]]]].
  exists btw. split; [exact Hbtw |]. split; [exact Hkeys |].
  split; [exact Hnn |]. split; [exact Hone |].
  intros Habs. split; [now apply no_absorption_positive |].
  destruct (@raw_betweenness_bounds G Hwf Habs) as [b [Hb Hall]].
  unfold betweenness_centrality in Hbtw. rewrite Hb in Hbtw.
  injection Hbtw as <-. split.
  - intros v x Hin. apply in_map_iff in Hin. destruct Hin as [v' [He Hv]].
    injection He as -> <-. destruct (Hall v Hv) as [H0 H1].
    destruct (@rescale_unit (List.length (nodes G)) _ H0 H1) as [R0 [R1 _]].
    split; assumption.
  - intros Hn v x Hin. apply in_map_iff in Hin. destruct Hin as [v' [He Hv]].
    injection He as -> <-. destruct (Hall v Hv) as [H0 H1].
    destruct (@rescale_unit (List.length (nodes G)) _ H0 H1) as [_ [_ R2]].
    now apply R2.
Qed.

Lemma positive_path3 : positive_lengths path3.
Proof.
  intros e He. simpl in He.
  repeat (destruct He as [<- | He]; [reflexivity |]). contradiction.
Qed.

Lemma kept_path3 : no_absorption path3.
Proof. apply no_absorptionb_sound. vm_compute. reflexivity. Qed.

Lemma betweenness_in_unit_interval_witness :
  exists btw,
    betweenness_centrality path3 = Some btw /\
    forall v b, In (v, b) btw -> in_range 0 1 (Fin b).
Proof.
  destruct (@betweenness_in_unit_interval path3 wf_path3)
    as [btw [Hbtw [_ [_ [_ Hkept]]]]].
  exists btw. split; [exact Hbtw |].
  exact (proj1 (proj2 (Hkept kept_path3))).
Defined.

Example single_node_betweenness :
  betweenness_centrality {| nodes := [7%Z]; edges := [] |} = Some [(7%Z, 0)].
Proof. reflexivity. Qed.

(** A street between two nodes with a loop of [10^-20] m at its far
    end: the loop is absorbed and the far end scores 1. *)
Example absorbed_loop_two_nodes :
  betweenness_centrality
    {| nodes := [1; 2]%Z;
       edges := [E 1 2 100; E 2 1 100; E 2 2 (1 # 100000000000000000000)] |}
  = Some [(1%Z, 0); (2%Z, 1)].
Proof. vm_compute. reflexivity. Qed.

(** The test for absorbed streets tells the three graphs apart. *)
Example absorption_examples :
  no_absorptionb path3 = true /\
  no_absorptionb loop3 = false /\
  no_absorptionb short_loop3 = false.
Proof. repeat split; vm_compute; reflexivity. Qed.

(** C6.  On the street A - B - C with lengths 100 and 150, B has
    betweenness 1 and A and C have 0, so B exceeds both; the mean
    shortest-path length is 175 for A and 125 for B (and 200 for C). *)
Theorem three_node_scenario :
  exists bA bB bC,
    betweenness_centrality path3 = Some [(1%Z, bA); (2%Z, bB); (3%Z, bC)] /\
    bA < bB /\ bC < bB /\
    all_pairs_mean_shortest_path_length path3
    = Some [(1%Z, Fin 175); (2%Z, Fin 125); (3%Z, Fin 200)].
Proof.
  exists 0, 1, 0.
  split; [vm_compute; reflexivity |].
  split; [reflexivity |].
  split; [reflexivity |].
  vm_compute. reflexivity.
Qed.

(** The same street given with one edge per segment and made
    undirected gives the same numbers. *)
Example three_node_scenario_undirected :
  let G := to_undirected {| nodes := [1; 2; 3]%Z;
                            edges := [E 1 2 100; E 2 3 150] |} in
  betweenness_centrality G = Some [(1%Z, 0); (2%Z, 1); (3%Z, 0)] /\
  all_pairs_mean_shortest_path_length G
  = Some [(1%Z, Fin 175); (2%Z, Fin 125); (3%Z, Fin 200)].
Proof. cbv zeta. split; vm_compute; reflexivity. Qed.

End BetweennessClaims.

(* ===================================================================== *)
(** * The whole run *)
(* ===================================================================== *)

Module PipelineFacts.

Import Graph GraphFacts Paths Betweenness.
Import Table TableFacts Pipeline.
Local Open Scope Q_scope.

Lemma wf_subgraph : forall G comp, wf_graph G -> wf_graph (subgraph G comp).
Proof.
  intros G comp [Hnd Hwf]. split.
  - simpl. now apply NoDup_filter.
  - intros e He. simpl in He. apply filter_In in He. destruct He as [He Hc].
    apply andb_true_iff in Hc. destruct Hc as [Hu Hv].
    destruct (Hwf e He) as [Hun Hvn].
    simpl. split; apply filter_In; auto.
Qed.

Lemma positive_subgraph : forall G comp,
  positive_lengths G -> positive_lengths (subgraph G comp).
Proof.
  intros G comp Hpos e He. simpl in He. apply filter_In in He. now apply Hpos.
Qed.

Lemma positive_nonneg : forall G, positive_lengths G -> nonneg_lengths G.
Proof. intros G H e He. apply Qlt_le_weak. now apply H. Qed.

Lemma largest_component_some : forall G,
  nodes G <> [] ->
  exists G', largest_component G = Some G' /\
             (G' = G \/ exists comp, G' = subgraph G comp).
Proof.
  intros G Hne. unfold largest_component, is_connected, connected_components.
  simpl nodes. destruct (nodes G) as [|v0 r] eqn:Hn; [congruence |].
  destruct (List.length (plain_bfs (to_undirected G) v0) =? List.length (v0 :: r))%nat.
  - exists G. auto.
  - cbn [components_from mem existsb]. eexists. split; [reflexivity |].
    right. eexists. reflexivity.
Qed.

Lemma nonneg_subgraph : forall G comp,
  nonneg_lengths G -> nonneg_lengths (subgraph G comp).
Proof.
  intros G comp H e He. simpl in He. apply filter_In in He. now apply H.
Qed.

Lemma in_indexed : forall (bg : list bg_row) s i b,
  In (i, b) (combine (seq s (List.length bg)) bg) <->
  (s <= i)%nat /\ nth_error bg (i - s) = Some b.
Proof.
  induction bg as [|a r IH]; intros s i b.
  - simpl. split; [intros [] | intros [_ H]].
    destruct (i - s)%nat; discriminate.
  - cbn [List.length seq combine In]. rewrite IH. split.
    + intros [H | [Hle H]].
      * injection H as <- <-. split; [lia |]. now rewrite Nat.sub_diag.
      * split; [lia |]. replace (i - s)%nat with (S (i - S s)) by lia.
        exact H.
    + intros [Hle H]. destruct (Nat.eq_dec i s) as [-> | Hne].
      * rewrite Nat.sub_diag in H. injection H as <-. now left.
      * right. split; [lia |].
        replace (i - s)%nat with (S (i - S s)) in H by lia. exact H.
Qed.

(** The rows of the overlay: one per edge and polygon that meet. *)
Lemma in_overlay : forall n_edges bg (clip : nat -> nat -> option Q) r,
  In r (overlay n_edges bg clip) <->
  exists e i b len,
    (e < n_edges)%nat /\ nth_error bg i = Some b /\ clip e i = Some len /\
    r = {| i_geometry_length := Fin len; i_GEOID_BG := bg_GEOID_BG b |}.
Proof.
  intros n_edges bg clip r. unfold overlay. rewrite in_flat_map. split.
  - intros [e [He Hr]]. apply in_seq in He. apply in_flat_map in Hr.
    destruct Hr as [[i b] [Hib Hr]]. apply in_indexed in Hib.
    destruct Hib as [_ Hb]. rewrite Nat.sub_0_r in Hb. cbn [fst snd] in Hr.
    destruct (clip e i) as [len |] eqn:Hc; [| contradiction].
    destruct Hr as [<- | []]. exists e, i, b, len.
    repeat split; [lia | exact Hb | exact Hc].
  - intros [e [i [b [len [He [Hb [Hc ->]]]]]]]. exists e.
    split; [apply in_seq; lia |]. apply in_flat_map. exists (i, b). split.
    + apply in_indexed. rewrite Nat.sub_0_r. split; [lia | exact Hb].
    + cbn [fst snd]. rewrite Hc. now left.
Qed.

(** The overlay is empty exactly when no edge meets a polygon. *)
Lemma overlay_nil : forall n_edges bg (clip : nat -> nat -> option Q),
  overlay n_edges bg clip = [] <->
  forall e i, (e < n_edges)%nat -> (i < List.length bg)%nat -> clip e i = None.
Proof.
  intros n_edges bg clip. split.
  - intros H e i He Hi.
    destruct (clip e i) as [len |] eqn:Hc; [| reflexivity]. exfalso.
    destruct (nth_error bg i) as [b |] eqn:Hb;
      [| apply nth_error_None in Hb; lia].
    assert (Hin : In {| i_geometry_length := Fin len;
                        i_GEOID_BG := bg_GEOID_BG b |}
                     (overlay n_edges bg clip)).
    { apply in_overlay. now exists e, i, b, len. }
    rewrite H in Hin. contradiction.
  - intros H. destruct (overlay n_edges bg clip) as [|r rest] eqn:Ho;
      [reflexivity |].
    assert (Hin : In r (overlay n_edges bg clip)) by (rewrite Ho; now left).
    apply in_overlay in Hin. destruct Hin as [e [i [b [len [He [Hb [Hc _]]]]]]].
    assert (Hi : (i < List.length bg)%nat).
    { apply nth_error_Some. congruence. }
    rewrite (H e i He Hi) in Hc. discriminate.
Qed.

(** The metrics of a graph with non-negative lengths raise nothing. *)
Lemma node_metrics : forall G,
  wf_graph G -> nonneg_lengths G ->
  exists btw aspl,
    betweenness_centrality G = Some btw /\ map fst btw = nodes G /\
    all_pairs_mean_shortest_path_length G = Some aspl /\
    map fst aspl = nodes G.
Proof.
  intros G Hwf Hnn.
  destruct (@BetweennessFacts.betweenness_total G Hwf) as [btw [Hb [Hk _]]].
  destruct (@PathClaims.for_each_spec _ (mean_shortest_path_length G)
              (fun _ _ => True) (nodes G)) as [aspl [Ha [Hka _]]].
  { intros u Hu.
    destruct (@PathClaims.mean_meets_spec G u Hwf Hnn Hu) as [a [Ha _]].
    exists a. auto. }
  exists btw, aspl. auto.
Qed.

(** The run, step by step: after the reduction, which fails on the
    null graph only, the metrics are computed without exception, and
    what is left are the four guards on the layer, the edges and the
    overlay. *)
Lemma computemetrics_run : forall G0 L within clip,
  wf_graph G0 -> nonneg_lengths G0 ->
  (nodes G0 = [] /\ computemetrics G0 L within clip = None) \/
  (exists G btw aspl,
      nodes G0 <> [] /\
      largest_component G0 = Some G /\ wf_graph G /\ nonneg_lengths G /\
      betweenness_centrality G = Some btw /\ map fst btw = nodes G /\
      all_pairs_mean_shortest_path_length G = Some aspl /\
      map fst aspl = nodes G /\
      computemetrics G0 L within clip =
      match features L with
      | [] => None
      | _ =>
          match keyed L with
          | None => None
          | Some bg =>
              match edges G with
              | [] => None
              | _ =>
                  match overlay (List.length (edges G)) bg clip with
                  | [] => None
                  | inter =>
                      Some (bg_metrics bg
                              (sjoin (node_rows G btw aspl) bg within) inter)
                  end
              end
          end
      end).
Proof.
  intros G0 L within clip Hwf Hnn.
  destruct (nodes G0) as [|v0 r] eqn:Hn.
  - left. split; [reflexivity |].
    unfold computemetrics, largest_component, is_connected.
    simpl nodes. now rewrite Hn.
  - right.
    destruct (@largest_component_some G0) as [G [HG Hsub]];
      [rewrite Hn; discriminate |].
    assert (HwfG : wf_graph G).
    { destruct Hsub as [-> | [comp ->]]; [exact Hwf | now apply wf_subgraph]. }
    assert (HnnG : nonneg_lengths G).
    { destruct Hsub as [-> | [comp ->]]; [exact Hnn | now apply nonneg_subgraph]. }
    destruct (@node_metrics G HwfG HnnG) as [btw [aspl [Hb [Hkb [Ha Hka]]]]].
    exists G, btw, aspl.
    split; [discriminate |].
    repeat (split; [assumption |]).
    unfold computemetrics. rewrite HG, Hb, Ha. reflexivity.
Qed.

End PipelineFacts.

(* ===================================================================== *)
(** * Keys across the scripts *)
(* ===================================================================== *)

Module IdentFacts.

Import Geoid GeoidFacts Idents.
Local Open Scope string_scope.

Lemma str_last_short : forall k s,
  (String.length s <= k)%nat -> str_last k s = s.
Proof.
  intros k s H. unfold str_last.
  replace (String.length s - k)%nat with 0%nat by lia. reflexivity.
Qed.

Lemma zfill_long : forall w s, (w <= String.length s)%nat -> zfill w s = s.
Proof.
  intros w s H. unfold zfill. apply Nat.leb_le in H. now rewrite H.
Qed.

Lemma normalize_fixed : forall s, String.length s = 12 -> normalize (CStr s) = s.
Proof.
  intros s H. unfold normalize. cbn [astype_str].
  rewrite str_last_short by lia. apply zfill_long. lia.
Qed.

Lemma take_append : forall a b, take (String.length a) (a ++ b) = a.
Proof.
  induction a as [|c a IH]; intros b; simpl; [reflexivity | now rewrite IH].
Qed.

Lemma drop_append : forall a b, drop (String.length a) (a ++ b) = b.
Proof.
  induction a as [|c a IH]; intros b; simpl; [reflexivity | apply IH].
Qed.

Lemma drop_append_le : forall n a b,
  (n <= String.length a)%nat -> drop n (a ++ b) = drop n a ++ b.
Proof.
  induction n as [|n IH]; intros a b H; [reflexivity |].
  destruct a as [|c a]; simpl in *; [lia |]. apply IH. lia.
Qed.

Lemma append_nil_r : forall s, s ++ "" = s.
Proof.
  induction s as [|c s IH]; simpl; [reflexivity | now rewrite IH].
Qed.

Lemma strip_dot0_suffix : forall s, strip_dot0 (s ++ ".0") = s.
Proof.
  induction s as [|c s IH]; [reflexivity |].
  change (String c s ++ ".0") with (String c (s ++ ".0")).
  cbn [strip_dot0].
  destruct (String.eqb_spec (String c (s ++ ".0")) ".0") as [He | _].
  { exfalso. apply (f_equal String.length) in He. simpl in He.
    rewrite length_append in He. simpl in He. lia. }
  destruct (String.eqb_spec (String c (s ++ ".0")) (".0" ++ newline)) as [He | _].
  { exfalso. injection He as _ He.
    destruct s as [|c1 [|c2 s]]; simpl in He; try discriminate.
    injection He as _ He. destruct s; discriminate. }
  now rewrite IH.
Qed.

(** ** Integer cells *)

Lemma string_nzhead : forall u, exists k,
  NilEmpty.string_of_uint u
  = zeros k ++ NilEmpty.string_of_uint (Decimal.nzhead u).
Proof.
  induction u as [|u [k IH]|u _|u _|u _|u _|u _|u _|u _|u _|u _];
    try (exists 0%nat; reflexivity).
  exists (S k). simpl. now rewrite IH.
Qed.

Lemma nzhead_first : forall u,
  match NilEmpty.string_of_uint (Decimal.nzhead u) with
  | EmptyString => Decimal.nzhead u = Decimal.Nil
  | String c _ =>
      (Ascii.eqb c "+" || Ascii.eqb c "-")%bool = false /\
      Decimal.nzhead u <> Decimal.Nil
  end.
Proof.
  induction u; simpl; try (split; [reflexivity | discriminate]);
    [reflexivity | exact IHu].
Qed.

(** ** Theorems *)

(** X1.  Normalising a key a second time changes nothing: the key columns
    that [computemetrics.py] derives and that [checkinputs.py] and
    [aggregatetobg.py] normalize are left as they are by every later
    normalisation. *)
Theorem normalize_idempotent :
  (forall c, normalize (CStr (normalize c)) = normalize c) /\
  (forall col,
      normalize_col (map (option_map CStr) (normalize_col col))
      = normalize_col col).
Proof.
  assert (H : forall c, normalize (CStr (normalize c)) = normalize c).
  { intros c. apply normalize_fixed. apply normalize_twelve. }
  split; [exact H |].
  intros col. unfold normalize_col. rewrite !map_map.
  apply map_ext. intros [c |]; simpl; [now rewrite H | reflexivity].
Qed.

(** X2.  A 12-digit key written to a CSV file and read back as an integer
    (what [pd.read_csv] does without [dtype=str], leading zeros lost)
    is restored by the normalisation. *)
Theorem csv_key_round_trip : forall s z,
  String.length s = 12 -> read_int s = Some z -> normalize (CInt z) = s.
Proof.
  intros s z Hlen Hread.
  assert (Hu : exists u, NilEmpty.uint_of_string s = Some u /\ z = Z.of_uint u).
  { unfold read_int in Hread. destruct s as [|c s]; [discriminate |].
    destruct (NilEmpty.uint_of_string (String c s)) as [u |]; [| discriminate].
    injection Hread as <-. now exists u. }
  destruct Hu as [u [Hu ->]].
  apply NilEmpty.sus in Hu.
  assert (Hint : Z.to_int (Z.of_uint u) = Decimal.Pos (Decimal.unorm u)).
  { exact (DecimalZ.to_of (Decimal.Pos u)). }
  unfold normalize. cbn [astype_str]. rewrite Hint.
  cbn [NilZero.string_of_int].
  destruct (string_nzhead u) as [k Hk].
  pose proof (nzhead_first u) as Hf.
  destruct (NilEmpty.string_of_uint (Decimal.nzhead u)) as [|c t] eqn:Ht.
  - unfold Decimal.unorm. rewrite Hf. rewrite append_nil_r in Hk.
    assert (k = 12).
    { rewrite <- Hu, Hk, length_zeros in Hlen. exact Hlen. }
    subst k. rewrite <- Hu, Hk. reflexivity.
  - destruct Hf as [Hsign Hnz].
    assert (Hs : NilZero.string_of_uint (Decimal.unorm u) = String c t).
    { unfold Decimal.unorm.
      destruct (Decimal.nzhead u); try congruence; exact Ht. }
    rewrite Hs.
    assert (Hl : (k + String.length (String c t) = 12)%nat).
    { rewrite <- Hu, Hk, length_append, length_zeros in Hlen. exact Hlen. }
    rewrite str_last_short by lia.
    unfold zfill.
    destruct (Nat.leb_spec 12 (String.length (String c t))) as [Hge | Hlt].
    + assert (k = 0)%nat by lia. subst k. now rewrite <- Hu, Hk.
    + rewrite Hsign. rewrite <- Hu, Hk. f_equal. f_equal. lia.
Qed.

Lemma csv_key_round_trip_witness :
  normalize (CInt 60371234561) = "060371234561".
Proof.
  apply (@csv_key_round_trip "060371234561" 60371234561);
    reflexivity.
Defined.

(** X3.  The identifiers the download scripts write and the ones the checker
    derives agree: from a tract code of at most six characters and a
    one-character block group the scripts build a 12-character key, and
    the checker cuts the same TRACT and BG back out of it. *)
Theorem ids_round_trip : forall tract bg,
  (String.length tract <= 6)%nat -> String.length bg = 1 ->
  String.length (id_GEOID_BG (standardize_ids tract bg)) = 12 /\
  derive_ids (CStr (id_GEOID_BG (standardize_ids tract bg))) None None
  = standardize_ids tract bg.
Proof.
  intros tract bg Ht Hb.
  assert (H6 : String.length (zfill 6 tract) = 6)
    by (rewrite length_zfill; lia).
  assert (Hlen : String.length ("17031" ++ zfill 6 tract ++ bg) = 12).
  { rewrite !length_append, H6, Hb. reflexivity. }
  unfold standardize_ids. cbn [id_GEOID_BG]. split; [exact Hlen |].
  unfold derive_ids. rewrite (normalize_fixed _ Hlen). f_equal.
  - unfold slice. change (drop 5 ("17031" ++ zfill 6 tract ++ bg))
      with (zfill 6 tract ++ bg).
    change (11 - 5)%nat with 6%nat. rewrite <- H6 at 1. apply take_append.
  - unfold str_last. rewrite Hlen.
    change (12 - 1)%nat with (5 + 6)%nat.
    change (drop (5 + 6) ("17031" ++ zfill 6 tract ++ bg))
      with (drop 6 (zfill 6 tract ++ bg)).
    rewrite <- H6 at 1. apply drop_append.
Qed.

Lemma ids_round_trip_witness :
  String.length (id_GEOID_BG (standardize_ids "7501" "2")) = 12 /\
  derive_ids (CStr (id_GEOID_BG (standardize_ids "7501" "2"))) None None
  = standardize_ids "7501" "2".
Proof.
  apply (@ids_round_trip "7501" "2"); simpl; lia.
Defined.


(** X4.  A key column that was read as floating-point numbers shows its keys
    as [170318203001.0].  The key fix of [HW4/deliverable3.py] gives
    the 12-character key back; the normalisation of [checkinputs.py],
    [aggregatetobg.py] and [computemetrics.py] keeps the last 12
    characters instead: the key without its first two characters,
    followed by [.0]. *)
Theorem float_key_repair : forall c s,
  astype_str c = s ++ ".0" -> String.length s = 12 ->
  geoid_fix c = s /\ normalize c = drop 2 s ++ ".0".
Proof.
  intros c s Hc Hlen. split.
  - unfold geoid_fix. rewrite Hc, strip_dot0_suffix. apply zfill_long. lia.
  - unfold normalize. rewrite Hc. unfold str_last.
    rewrite length_append, Hlen. change (12 + String.length ".0" - 12)%nat with 2%nat.
    rewrite drop_append_le by lia.
    apply zfill_long. rewrite length_append, length_drop, Hlen. simpl. lia.
Qed.

Lemma float_key_repair_witness :
  geoid_fix (CStr "170318203001.0") = "170318203001" /\
  normalize (CStr "170318203001.0") = "0318203001.0".
Proof.
  apply (@float_key_repair (CStr "170318203001.0") "170318203001");
    reflexivity.
Defined.

(** X5.  The key that [make_geoid_bg_from_parts] builds from the four TIGER
    fields has 12 characters exactly when no field is longer than its
    width (2, 3, 6 and 1); a longer field is not cut, it makes the key
    longer. *)
Theorem parts_key_length : forall st co tr bl,
  (12 <= String.length (geoid_from_parts st co tr bl))%nat /\
  (String.length (geoid_from_parts st co tr bl) = 12 <->
   (String.length (astype_str st) <= 2)%nat /\
   (String.length (astype_str co) <= 3)%nat /\
   (String.length (astype_str tr) <= 6)%nat /\
   (String.length (astype_str bl) <= 1)%nat).
Proof.
  intros st co tr bl. unfold geoid_from_parts.
  rewrite !length_append, !length_zfill. lia.
Qed.

Lemma geoid_fix_length : forall c, (12 <= String.length (geoid_fix c))%nat.
Proof.
  intros c. unfold geoid_fix. rewrite length_zfill. lia.
Qed.

(** X6.  [ensure_geoid_bg_strings] stops only when a table has none of the
    columns a key can come from; otherwise every key it makes has at
    least 12 characters. *)
Theorem ensure_geoid_bg_strings_keys : forall bg acs,
  match bg_key bg with
  | Done ks => Forall (fun k => (12 <= String.length k)%nat) ks
  | Abort _ =>
      g_GEOID bg = None /\
      (g_STATEFP bg = None \/ g_COUNTYFP bg = None \/
       g_TRACTCE bg = None \/ g_BLKGRPCE bg = None)
  end /\
  match acs_key acs with
  | Done ks => Forall (fun k => (12 <= String.length k)%nat) ks
  | Abort _ =>
      a_GEOID_BG acs = None /\ a_GEOID acs = None /\
      (a_TRACT acs = None \/ a_BG acs = None)
  end.
Proof.
  intros bg acs. split.
  - unfold bg_key, make_geoid_bg_from_parts.
    destruct (g_GEOID bg) as [gs |].
    { apply Forall_forall. intros k Hk. apply in_map_iff in Hk.
      destruct Hk as [c [<- _]]. apply geoid_fix_length. }
    destruct (g_STATEFP bg) as [st |]; [| auto].
    destruct (g_COUNTYFP bg) as [co |]; [| auto].
    destruct (g_TRACTCE bg) as [tr |]; [| auto].
    destruct (g_BLKGRPCE bg) as [bl |]; [| auto 6].
    apply Forall_forall. intros k Hk. apply in_map_iff in Hk.
    destruct Hk as [[[[s c] t] b] [<- _]]. unfold geoid_from_parts.
    rewrite !length_append, !length_zfill. lia.
  - unfold acs_key.
    destruct (a_GEOID_BG acs) as [ks |].
    { apply Forall_forall. intros k Hk. apply in_map_iff in Hk.
      destruct Hk as [c [<- _]]. apply geoid_fix_length. }
    destruct (a_GEOID acs) as [gs |].
    { apply Forall_forall. intros k Hk. apply in_map_iff in Hk.
      destruct Hk as [c [<- _]]. apply geoid_fix_length. }
    destruct (a_TRACT acs) as [ts |]; [| auto].
    destruct (a_BG acs) as [bs |]; [| auto].
    apply Forall_forall. intros k Hk. apply in_map_iff in Hk.
    destruct Hk as [[t b] [<- _]]. cbn [fst snd].
    rewrite !length_append, !length_zfill.
    change (String.length "17") with 2%nat.
    change (String.length "031") with 3%nat. lia.
Qed.


(** X23.  Whatever stands in front of a 12-character key is cut off: the
    full census identifier [1500000US170318203001] is normalized to
    its last twelve characters, the block-group key. *)
Theorem normalize_strips_prefix : forall p k,
  String.length k = 12 -> normalize (CStr (p ++ k)) = k.
Proof.
  intros p k Hk. unfold normalize. cbn [astype_str]. unfold str_last.
  rewrite length_append, Hk.
  replace (String.length p + 12 - 12)%nat with (String.length p) by lia.
  rewrite drop_append. apply zfill_long. lia.
Qed.

Lemma normalize_strips_prefix_witness :
  normalize (CStr ("1500000US" ++ "170318203001")) = "170318203001".
Proof.
  apply (@normalize_strips_prefix "1500000US" "170318203001"). reflexivity.
Defined.

End IdentFacts.

(* ===================================================================== *)
(** * The component reduction, from one script to the next *)
(* ===================================================================== *)

Module ReductionFacts.

Import Graph GraphFacts ComponentFacts PipelineFacts.

(** What the reduction returns: the graph itself when it is connected,
    and otherwise its restriction to the nodes a search reaches. *)
Lemma reduction_cases : forall G G',
  wf_graph G -> largest_component G = Some G' ->
  nodes G <> [] /\
  ((connected G /\ G' = G) \/
   (exists c0, In c0 (nodes G) /\
               G' = subgraph G (plain_bfs (to_undirected G) c0))).
Proof.
  intros G G' Hwf. unfold largest_component.
  destruct (nodes G) as [|v0 r] eqn:Hn.
  { unfold is_connected. simpl nodes. rewrite Hn. discriminate. }
  pose proof (is_connected_spec Hwf Hn) as Hspec.
  destruct (is_connected (to_undirected G)) as [[|] |] eqn:Hc; [| | discriminate].
  - intros H. injection H as <-. split; [discriminate |].
    left. split; [now apply Hspec | reflexivity].
  - destruct (connected_components (to_undirected G)) as [|c cs] eqn:Hcc;
      [discriminate |].
    intros H. injection H as <-. split; [discriminate |]. right.
    destruct (max_component Hwf Hcc) as [c0 [Hc0 [Hcomp _]]].
    exists c0. split; [rewrite <- Hn; exact Hc0 |]. now rewrite Hcomp.
Qed.

Lemma connected_fixed : forall G,
  wf_graph G -> nodes G <> [] -> connected G -> largest_component G = Some G.
Proof.
  intros G Hwf Hne Hc. unfold largest_component.
  destruct (nodes G) as [|v0 r] eqn:Hn; [congruence |].
  apply (is_connected_spec Hwf Hn) in Hc. now rewrite Hc.
Qed.

Lemma same_body : forall G, largest_connected_component G = largest_component G.
Proof. reflexivity. Qed.

(** X7.  The graph that [buildnetwork.py] saves is left as it is by the
    reduction [computemetrics.py] applies after loading it: reducing a
    reduced graph returns the same graph. *)
Theorem reduction_is_stable : forall G G',
  wf_graph G -> largest_connected_component G = Some G' ->
  largest_component G' = Some G' /\
  largest_connected_component G' = Some G'.
Proof.
  intros G G' Hwf HG. rewrite same_body in *.
  assert (H : largest_component G' = Some G'); [| now split].
  destruct (reduction_cases Hwf HG) as [Hne [[Hc ->] | [c0 [Hc0 ->]]]].
  - exact HG.
  - destruct (@search_subgraph_connected G c0 Hwf Hc0) as [Hc Hn].
    apply connected_fixed; [now apply wf_subgraph | exact Hn | exact Hc].
Qed.

(** Two blocks of streets that no street joins: intersections 1-2, and
    3-4-5 with a one-way street from 4 to 5. *)
Definition two_blocks : graph :=
  {| nodes := [1; 2; 3; 4; 5]%Z;
     edges := [E 1 2 100; E 2 1 100; E 3 4 80; E 4 3 80; E 4 5 60] |}.

Definition larger_block : graph :=
  {| nodes := [3; 4; 5]%Z;
     edges := [E 3 4 80; E 4 3 80; E 4 5 60] |}.

Lemma wf_two_blocks : wf_graph two_blocks.
Proof.
  split.
  - simpl. repeat constructor; simpl; intuition discriminate.
  - intros e He. simpl in He.
    repeat (destruct He as [<- | He]; [simpl; intuition |]). contradiction.
Qed.

Lemma reduction_is_stable_witness :
  largest_component larger_block = Some larger_block /\
  largest_connected_component larger_block = Some larger_block.
Proof.
  apply (@reduction_is_stable two_blocks larger_block).
  - exact wf_two_blocks.
  - reflexivity.
Defined.

(** X8.  The reduction only removes: the nodes and the streets it returns
    are nodes and streets of the input; and it removes no street that
    touches an intersection it keeps, whichever end that is. *)
Theorem reduction_keeps_incident_streets : forall G G',
  wf_graph G -> largest_component G = Some G' ->
  incl (nodes G') (nodes G) /\ incl (edges G') (edges G) /\
  forall e, In e (edges G) ->
            In (e_u e) (nodes G') \/ In (e_v e) (nodes G') ->
            In e (edges G').
Proof.
  intros G G' Hwf HG.
  destruct (reduction_cases Hwf HG) as [_ [[_ ->] | [c0 [Hc0 ->]]]].
  - split; [apply incl_refl |]. split; [apply incl_refl | auto].
  - pose proof (wf_to_undirected Hwf) as Hwu.
    pose proof (plain_bfs_reachable c0 Hwu Hc0) as Hreach.
    set (comp := plain_bfs (to_undirected G) c0) in *.
    split; [intros v Hv; simpl in Hv; now apply filter_In in Hv |].
    split; [intros e He; simpl in He; now apply filter_In in He |].
    intros e He Hend. simpl. apply filter_In. split; [exact He |].
    assert (Huv : arc G (e_u e) (e_v e)) by (exists e; auto).
    assert (Hin : forall x, In x (filter (fun v => mem v comp) (nodes G)) ->
                            In x comp).
    { intros x Hx. apply filter_In in Hx. now apply mem_In. }
    apply andb_true_iff.
    destruct Hend as [Hu | Hv].
    + apply Hin in Hu. split; [now apply mem_In |].
      apply mem_In, Hreach. apply reach_step with (e_u e); [now apply Hreach |].
      apply arc_undirected. now left.
    + apply Hin in Hv. split; [| now apply mem_In].
      apply mem_In, Hreach. apply reach_step with (e_v e); [now apply Hreach |].
      apply arc_undirected. now right.
Qed.

Lemma reduction_keeps_incident_streets_witness :
  incl (nodes larger_block) (nodes two_blocks) /\
  incl (edges larger_block) (edges two_blocks) /\
  forall e, In e (edges two_blocks) ->
            In (e_u e) (nodes larger_block) \/ In (e_v e) (nodes larger_block) ->
            In e (edges larger_block).
Proof.
  apply (@reduction_keeps_incident_streets two_blocks larger_block).
  - exact wf_two_blocks.
  - reflexivity.
Defined.

(** ** The components as a partition *)

Lemma components_from_disjoint : forall G vs seen,
  wf_graph G -> incl vs (nodes G) ->
  (forall x y, In x seen -> reachable (to_undirected G) x y -> In y seen) ->
  NoDup (List.concat (components_from (to_undirected G) vs seen)) /\
  forall y, In y (List.concat (components_from (to_undirected G) vs seen)) ->
            ~ In y seen.
Proof.
  intros G vs seen Hwf. revert seen.
  pose proof (wf_to_undirected Hwf) as Hwu.
  induction vs as [|v r IH]; intros seen Hsub Hcl.
  - simpl. split; [constructor | intros y []].
  - assert (Hr : incl r (nodes G)) by (intros x Hx; apply Hsub; now right).
    cbn [components_from]. destruct (mem v seen) eqn:Hv; [now apply IH |].
    apply mem_not_In in Hv.
    assert (Hvn : In v (nodes (to_undirected G))) by (apply Hsub; now left).
    pose proof (plain_bfs_reachable v Hwu Hvn) as Hreach.
    pose proof (plain_bfs_NoDup v Hwu Hvn) as Hnd.
    set (c := plain_bfs (to_undirected G) v) in *.
    assert (Hc_seen : forall y, In y c -> ~ In y seen).
    { intros y Hy Hs. apply Hv. apply (Hcl y v Hs).
      apply reachable_undirected_sym. now apply Hreach. }
    destruct (IH (c ++ seen) Hr) as [IH1 IH2].
    { intros x y Hx Hxy. apply in_or_app. apply in_app_or in Hx.
      destruct Hx as [Hx | Hx].
      - left. apply Hreach. apply reachable_trans with x; [now apply Hreach | exact Hxy].
      - right. now apply (Hcl x y). }
    cbn [List.concat]. split.
    + apply NoDup_app; [exact Hnd | exact IH1 |].
      intros y Hy Hy'. apply (IH2 y Hy'). apply in_or_app. now left.
    + intros y Hy. apply in_app_or in Hy. destruct Hy as [Hy | Hy].
      * now apply Hc_seen.
      * intros Hs. apply (IH2 y Hy). apply in_or_app. now right.
Qed.

(** X9.  The components that [nx.connected_components] yields for the
    undirected graph split its nodes: every node lies in one component
    and in one only, no component is empty, and a component holds, with
    each of its nodes, exactly the nodes joined to it. *)
Theorem components_partition : forall G,
  wf_graph G ->
  Permutation (List.concat (connected_components (to_undirected G))) (nodes G) /\
  forall c, In c (connected_components (to_undirected G)) ->
    c <> [] /\
    forall u v, In u c -> (In v c <-> reachable (to_undirected G) u v).
Proof.
  intros G Hwf.
  pose proof (wf_to_undirected Hwf) as Hwu.
  assert (Hsrc : forall c, In c (connected_components (to_undirected G)) ->
            exists v, In v (nodes G) /\ c = plain_bfs (to_undirected G) v).
  { intros c Hc. unfold connected_components in Hc.
    now apply components_from_source in Hc. }
  split.
  - apply NoDup_Permutation.
    + apply (@components_from_disjoint G (nodes G) [] Hwf (incl_refl _)).
      intros x y [].
    + apply Hwf.
    + intros y. split.
      * intros Hy. apply in_concat in Hy. destruct Hy as [c [Hc Hy]].
        destruct (Hsrc c Hc) as [v [Hv ->]].
        now apply (plain_bfs_incl v Hwu Hv).
      * intros Hy.
        destruct (@components_from_cover (to_undirected G)
                    (nodes (to_undirected G)) [] y Hwu (incl_refl _) Hy)
          as [[] | [c [Hc Hyc]]].
        apply in_concat. exists c. split; [exact Hc | exact Hyc].
  - intros c Hc. destruct (Hsrc c Hc) as [v0 [Hv0 ->]].
    pose proof (plain_bfs_reachable v0 Hwu Hv0) as Hreach.
    split.
    + intros Hnil. assert (H : In v0 (plain_bfs (to_undirected G) v0))
        by (apply Hreach; constructor).
      rewrite Hnil in H. contradiction.
    + intros u v Hu. split.
      * intros Hv. apply reachable_trans with v0.
        -- apply reachable_undirected_sym. now apply Hreach.
        -- now apply Hreach.
      * intros Hr. apply Hreach.
        apply reachable_trans with u; [now apply Hreach | exact Hr].
Qed.

Lemma components_partition_witness :
  Permutation (List.concat (connected_components (to_undirected two_blocks)))
              (nodes two_blocks) /\
  forall c, In c (connected_components (to_undirected two_blocks)) ->
    c <> [] /\
    forall u v, In u c ->
                (In v c <-> reachable (to_undirected two_blocks) u v).
Proof.
  apply (@components_partition two_blocks wf_two_blocks).
Defined.


(** ** The run of [buildnetwork.py] *)

Lemma reduction_result : forall G G',
  wf_graph G -> largest_component G = Some G' ->
  wf_graph G' /\ nodes G' <> [] /\ connected G'.
Proof.
  intros G G' Hwf HG.
  destruct (reduction_cases Hwf HG) as [Hne [[Hc ->] | [c0 [Hc0 ->]]]].
  - auto.
  - destruct (@search_subgraph_connected G c0 Hwf Hc0) as [Hc Hn].
    split; [now apply wf_subgraph | auto].
Qed.

(** X22.  [buildnetwork.py] never saves an empty graph: the graph it writes
    has a node, is connected when taken as undirected, and is left
    unchanged by the reduction of [computemetrics.py]; the run stops
    before writing exactly when the layer or the dissolved polygon is
    empty or both downloads come back without a node. *)
Theorem buildnetwork_saves_connected_graph :
  forall bg_empty poly_empty first retry,
  wf_graph first -> wf_graph retry ->
  match Build.main bg_empty poly_empty first retry with
  | Geoid.Done G' =>
      bg_empty = false /\ poly_empty = false /\
      nodes G' <> [] /\ connected G' /\ largest_component G' = Some G' /\
      (nodes first <> [] -> largest_connected_component first = Some G') /\
      (nodes first = [] -> largest_connected_component retry = Some G')
  | Geoid.Abort _ =>
      bg_empty = true \/ poly_empty = true \/
      (nodes first = [] /\ nodes retry = [])
  end.
Proof.
  intros bg_empty poly_empty first retry Hw1 Hw2. unfold Build.main.
  destruct bg_empty; [now left |].
  destruct poly_empty; [right; now left |].
  set (G := match nodes first with [] => retry | _ => first end).
  assert (HG : wf_graph G /\
               (nodes first <> [] -> G = first) /\
               (nodes first = [] -> G = retry)).
  { unfold G. destruct (nodes first); [split; [exact Hw2 |] | split; [exact Hw1 |]];
      split; congruence. }
  destruct HG as [HwG [Hf Hr]].
  destruct (nodes G) as [|v0 r0] eqn:Hn.
  - right. right. destruct (nodes first) as [|a l] eqn:H1.
    + split; [reflexivity |]. rewrite <- (Hr eq_refl). exact Hn.
    + exfalso. assert (He : G = first) by (apply Hf; discriminate).
      rewrite He, H1 in Hn. discriminate.
  - destruct (@largest_component_some G) as [G' [HG' _]];
      [rewrite Hn; discriminate |].
    rewrite same_body, HG'.
    destruct (reduction_result HwG HG') as [HwG' [Hne Hc]].
    split; [reflexivity |]. split; [reflexivity |].
    split; [exact Hne |]. split; [exact Hc |].
    split; [now apply connected_fixed |].
    split; intros H; rewrite same_body.
    + now rewrite <- (Hf H).
    + now rewrite <- (Hr H).
Qed.

Lemma buildnetwork_saves_connected_graph_witness :
  false = false /\ false = false /\
  nodes larger_block <> [] /\ connected larger_block /\
  largest_component larger_block = Some larger_block /\
  (nodes (subgraph two_blocks []) <> [] ->
   largest_connected_component (subgraph two_blocks []) = Some larger_block) /\
  (nodes (subgraph two_blocks []) = [] ->
   largest_connected_component two_blocks = Some larger_block).
Proof.
  exact (@buildnetwork_saves_connected_graph false false
           (subgraph two_blocks []) two_blocks
           (wf_subgraph [] wf_two_blocks) wf_two_blocks).
Defined.

End ReductionFacts.

(* ===================================================================== *)
(** * The distances of the search are shortest *)
(* ===================================================================== *)

Module ShortestPathFacts.

Import Graph GraphFacts Paths DijkstraFacts.
Local Open Scope Q_scope.

(** A route from [u] along streets in their direction, with the sum of
    the lengths of its streets. *)
Inductive walk (G : graph) (u : node) : node -> Q -> Prop :=
| walk_nil : walk G u u 0
| walk_step : forall v l e,
    walk G u v l -> In e (edges G) -> e_u e = v ->
    walk G u (e_v e) (l + e_length e).

Lemma walk_nonneg : forall G u v l,
  nonneg_lengths G -> walk G u v l -> 0 <= l.
Proof.
  intros G u v l Hnn H. induction H as [| v l e _ IH He _].
  - apply Qle_refl.
  - pose proof (Hnn e He). lra.
Qed.

Lemma walk_reachable : forall G u v l, walk G u v l -> reachable G u v.
Proof.
  intros G u v l H. induction H as [| v l e _ IH He Hu].
  - constructor.
  - apply reach_step with v; [exact IH |]. now exists e.
Qed.

Lemma reachable_walk : forall G u v,
  reachable G u v -> exists l, walk G u v l.
Proof.
  intros G u v H. induction H as [| x y _ [l IH] [e [He [Hx Hy]]]].
  - exists 0. constructor.
  - exists (l + e_length e). subst y. now apply walk_step with x.
Qed.

(** ** The weight of a pair of nodes *)

Lemma qmin_le_l : forall a b, qmin a b <= a.
Proof.
  intros a b. unfold qmin. destruct (Qle_bool a b) eqn:H; [apply Qle_refl |].
  apply Qlt_le_weak. apply Qnot_le_lt. intros Hle.
  apply Qle_bool_iff in Hle. congruence.
Qed.

Lemma qmin_le_r : forall a b, qmin a b <= b.
Proof.
  intros a b. unfold qmin. destruct (Qle_bool a b) eqn:H; [| apply Qle_refl].
  now apply Qle_bool_iff.
Qed.

Lemma fold_qmin_le : forall (es : list edge) m,
  fold_left (fun m e' => qmin m (e_length e')) es m <= m /\
  forall e, In e es ->
            fold_left (fun m e' => qmin m (e_length e')) es m <= e_length e.
Proof.
  induction es as [|a es IH]; intros m; simpl.
  - split; [apply Qle_refl | intros e []].
  - destruct (IH (qmin m (e_length a))) as [H1 H2]. split.
    + eapply Qle_trans; [exact H1 | apply qmin_le_l].
    + intros e [<- | He]; [| now apply H2].
      eapply Qle_trans; [exact H1 | apply qmin_le_r].
Qed.

(** The weight of a pair is the length of the shortest of its parallel
    streets. *)
Lemma weight_le : forall G e,
  In e (edges G) -> weight G (e_u e) (e_v e) <= e_length e.
Proof.
  intros G e He. unfold weight.
  assert (Hin : In e (filter (fun e' => Z.eqb (e_v e') (e_v e))
                             (out_edges G (e_u e)))).
  { apply filter_In. split; [apply in_out_edges; auto | apply Z.eqb_refl]. }
  destruct (filter (fun e' => Z.eqb (e_v e') (e_v e)) (out_edges G (e_u e)))
    as [|a r]; [contradiction |].
  destruct (fold_qmin_le r (e_length a)) as [H1 H2].
  destruct Hin as [<- | Hin]; [exact H1 | now apply H2].
Qed.

(** ** One round of relaxation *)

(** The best distance seen for a node that is not settled is the
    priority of one of its entries in the heap. *)
Definition seen_in_fringe (dist : list (node * Q)) (st : frontier) : Prop :=
  forall w s, lookup w (seen st) = Some s ->
              In w (keys dist) \/ exists c, In (s, c, w) (fringe st).

Lemma relax_opt : forall d dist nbrs st st',
  relax d nbrs dist st = Some st' ->
  seen_in_fringe dist st ->
  seen_in_fringe dist st' /\
  (forall f, In f (fringe st) -> In f (fringe st')) /\
  (forall f, In f (fringe st') ->
             In f (fringe st) \/
             exists w c, In (w, c) nbrs /\ enode f = w /\
                         eprio f = Qred (d + c)) /\
  (forall w c, In (w, c) nbrs ->
               In w (keys dist) \/
               exists f, In f (fringe st') /\ enode f = w /\
                         eprio f <= d + c).
Proof.
  intros d dist. induction nbrs as [|[w0 c0] r IH]; intros st st' Hr Hseen.
  - simpl in Hr. injection Hr as <-.
    split; [exact Hseen |]. split; [auto |]. split; [auto | intros w c []].
  - (* the neighbour is skipped *)
    assert (Hskip : relax d r dist st = Some st' ->
              (In w0 (keys dist) \/
               exists f, In f (fringe st) /\ enode f = w0 /\
                         eprio f <= d + c0) ->
              seen_in_fringe dist st' /\
              (forall f, In f (fringe st) -> In f (fringe st')) /\
              (forall f, In f (fringe st') ->
                         In f (fringe st) \/
                         exists w c, In (w, c) ((w0, c0) :: r) /\ enode f = w /\
                                     eprio f = Qred (d + c)) /\
              (forall w c, In (w, c) ((w0, c0) :: r) ->
                           In w (keys dist) \/
                           exists f, In f (fringe st') /\ enode f = w /\
                                     eprio f <= d + c)).
    { intros Hr' Hw0. destruct (IH st st' Hr' Hseen) as [A [B [C D]]].
      split; [exact A |]. split; [exact B |]. split.
      - intros f Hf. destruct (C f Hf) as [H | [w [c [H1 H2]]]]; [now left |].
        right. exists w, c. split; [now right | exact H2].
      - intros w c [Hwc | Hwc]; [| now apply D].
        injection Hwc as <- <-.
        destruct Hw0 as [H | [f [H1 H2]]]; [now left |].
        right. exists f. split; [now apply B | exact H2]. }
    (* the neighbour is pushed *)
    set (push := {| seen := (w0, Qred (d + c0)) :: seen st;
                    fringe := (Qred (d + c0), counter st, w0) :: fringe st;
                    counter := S (counter st) |}).
    assert (Hpush : relax d r dist push = Some st' ->
              seen_in_fringe dist st' /\
              (forall f, In f (fringe st) -> In f (fringe st')) /\
              (forall f, In f (fringe st') ->
                         In f (fringe st) \/
                         exists w c, In (w, c) ((w0, c0) :: r) /\ enode f = w /\
                                     eprio f = Qred (d + c)) /\
              (forall w c, In (w, c) ((w0, c0) :: r) ->
                           In w (keys dist) \/
                           exists f, In f (fringe st') /\ enode f = w /\
                                     eprio f <= d + c)).
    { intros Hr'.
      assert (Hseen' : seen_in_fringe dist push).
      { intros w s Hl. unfold push in Hl. cbn [seen lookup] in Hl.
        destruct (Z.eqb_spec w0 w) as [-> | Hne].
        - injection Hl as <-. right. exists (counter st). now left.
        - destruct (Hseen w s Hl) as [H | [c H]]; [now left |].
          right. exists c. now right. }
      destruct (IH push st' Hr' Hseen') as [A [B [C D]]].
      split; [exact A |].
      split; [intros f Hf; apply B; now right |].
      split.
      - intros f Hf. destruct (C f Hf) as [[<- | H] | [w [c [H1 H2]]]].
        + right. exists w0, c0. split; [now left |]. split; reflexivity.
        + now left.
        + right. exists w, c. split; [now right | exact H2].
      - intros w c [Hwc | Hwc]; [| now apply D].
        injection Hwc as <- <-. right.
        exists (Qred (d + c0), counter st, w0).
        split; [apply B; now left |]. split; [reflexivity |].
        unfold eprio. cbn [fst]. rewrite Qred_correct. apply Qle_refl. }
    cbn [relax] in Hr. fold push in Hr.
    destruct (lookup w0 dist) as [u_dist |] eqn:Hl.
    + destruct (qltb (Qred (d + c0)) u_dist); [discriminate |].
      apply Hskip; [exact Hr |]. left.
      apply lookup_some_in in Hl. unfold keys. apply in_map_iff.
      now exists (w0, u_dist).
    + destruct (lookup w0 (seen st)) as [s |] eqn:Hs; [| now apply Hpush].
      destruct (qltb (Qred (d + c0)) s) eqn:Hq; [now apply Hpush |].
      apply Hskip; [exact Hr |].
      apply qltb_false in Hq. rewrite Qred_correct in Hq.
      destruct (Hseen w0 s Hs) as [H | [c H]]; [now left |].
      right. exists (s, c, w0). split; [exact H |]. split; [reflexivity | exact Hq].
Qed.

(** ** The loop *)

Section Optimal.

Variable G : graph.
Variable u : node.
Hypothesis Hwf : wf_graph G.
Hypothesis Hnn : nonneg_lengths G.
Hypothesis Hu : In u (nodes G).

(** Every distance, settled or in the heap, is the length of a route;
    a settled distance is at most the length of any route; and behind
    every street that leaves a settled node there is a settled node or
    a heap entry with a distance no longer than the way over that
    street. *)
Record oinv (dist : list (node * Q)) (st : frontier) : Prop := {
  o_walk_dist : forall x dx, In (x, dx) dist ->
                             exists l, walk G u x l /\ l == dx;
  o_walk_fringe : forall f, In f (fringe st) ->
                            exists l, walk G u (enode f) l /\ l == eprio f;
  o_least : forall x dx l, In (x, dx) dist -> walk G u x l -> dx <= l;
  o_edge : forall x dx e, In (x, dx) dist -> In e (edges G) -> e_u e = x ->
             (exists dw, In (e_v e, dw) dist /\ dw <= dx + e_length e) \/
             (exists f, In f (fringe st) /\ enode f = e_v e /\
                        eprio f <= dx + e_length e);
  o_source : (exists d0, In (u, d0) dist /\ d0 <= 0) \/
             (exists f, In f (fringe st) /\ enode f = u /\ eprio f <= 0);
  o_seen : seen_in_fringe dist st
}.

(** Every route ends at a settled node with a distance no longer than
    the route, or is at least as long as some distance in the heap. *)
Lemma route_bound : forall dist st y l,
  oinv dist st -> walk G u y l ->
  (exists dy, In (y, dy) dist /\ dy <= l) \/
  (exists f, In f (fringe st) /\ eprio f <= l).
Proof.
  intros dist st y l [O1 O2 O3 O4 O5 O6] Hw.
  induction Hw as [| v l e Hw IH He Hv].
  - destruct O5 as [[d0 [H1 H2]] | [f [H1 [_ H2]]]].
    + left. now exists d0.
    + right. now exists f.
  - pose proof (Hnn e He) as Hlen.
    destruct IH as [[dv [H1 H2]] | [f [H1 H2]]].
    + destruct (O4 v dv e H1 He Hv) as [[dw [A B]] | [f [A [_ B]]]].
      * left. exists dw. split; [exact A | lra].
      * right. exists f. split; [exact A | lra].
    + right. exists f. split; [exact H1 | lra].
Qed.

Lemma in_keys : forall (dist : list (node * Q)) x,
  In x (keys dist) -> exists dx, In (x, dx) dist.
Proof.
  intros dist x H. unfold keys in H. apply in_map_iff in H.
  destruct H as [[x' dx] [He H]]. simpl in He. subst x'. now exists dx.
Qed.

Lemma keys_in : forall (dist : list (node * Q)) x dx,
  In (x, dx) dist -> In x (keys dist).
Proof.
  intros dist x dx H. unfold keys. apply in_map_iff. now exists (x, dx).
Qed.

Lemma oinv_skip : forall dist st d c v rest,
  dinv G u dist st -> oinv dist st ->
  Permutation (fringe st) ((d, c, v) :: rest) ->
  In v (keys dist) ->
  oinv dist {| seen := seen st; fringe := rest; counter := counter st |}.
Proof.
  intros dist st d c v rest [_ _ _ _ _ I6 _] [O1 O2 O3 O4 O5 O6] Hperm Hv.
  assert (Hsub : forall f, In f rest -> In f (fringe st)).
  { intros f Hf. apply (Permutation_in _ (Permutation_sym Hperm)). now right. }
  assert (Hpop : In (d, c, v) (fringe st)).
  { apply (Permutation_in _ (Permutation_sym Hperm)). now left. }
  destruct (in_keys _ _ Hv) as [dv Hdv].
  assert (Hle : dv <= d) by (apply (I6 v dv (d, c, v) Hdv Hpop)).
  constructor; cbn [fringe seen].
  - exact O1.
  - intros f Hf. apply O2. now apply Hsub.
  - exact O3.
  - intros x dx e Hx He Hxu.
    destruct (O4 x dx e Hx He Hxu) as [H | [f [Hf [Hn Hp]]]]; [now left |].
    apply (Permutation_in _ Hperm) in Hf. destruct Hf as [<- | Hf].
    + left. exists dv. unfold enode in Hn. cbn [snd] in Hn. subst v.
      unfold eprio in Hp. cbn [fst] in Hp. split; [exact Hdv | lra].
    + right. now exists f.
  - destruct O5 as [H | [f [Hf [Hn Hp]]]]; [now left |].
    apply (Permutation_in _ Hperm) in Hf. destruct Hf as [<- | Hf].
    + left. exists dv. unfold enode in Hn. cbn [snd] in Hn. subst v.
      unfold eprio in Hp. cbn [fst] in Hp. split; [exact Hdv | lra].
    + right. now exists f.
  - intros w s Hl. destruct (O6 w s Hl) as [H | [c' H]]; [now left |].
    apply (Permutation_in _ Hperm) in H. destruct H as [H | H].
    + injection H as _ _ <-. now left.
    + right. now exists c'.
Qed.

Lemma oinv_settle : forall dist st d c v rest st',
  dinv G u dist st -> oinv dist st ->
  Permutation (fringe st) ((d, c, v) :: rest) ->
  (forall f, In f rest -> d <= eprio f) ->
  ~ In v (keys dist) ->
  relax d (succ_costs G v) (dist ++ [(v, d)])
        {| seen := seen st; fringe := rest; counter := counter st |}
  = Some st' ->
  oinv (dist ++ [(v, d)]) st'.
Proof.
  intros dist st d c v rest st' Hd Ho Hperm Hmin Hv Hr.
  pose proof (fun y l => @route_bound dist st y l Ho) as Hbound.
  destruct Hd as [_ _ _ _ _ I6 _]. destruct Ho as [O1 O2 O3 O4 O5 O6].
  assert (Hsub : forall f, In f rest -> In f (fringe st)).
  { intros f Hf. apply (Permutation_in _ (Permutation_sym Hperm)). now right. }
  assert (Hpop : In (d, c, v) (fringe st)).
  { apply (Permutation_in _ (Permutation_sym Hperm)). now left. }
  assert (Hbefore : forall x dx, In (x, dx) (dist ++ [(v, d)]) -> dx <= d).
  { intros x dx Hx. apply in_app_or in Hx. destruct Hx as [Hx | [Hx | []]].
    - apply (I6 x dx (d, c, v) Hx Hpop).
    - injection Hx as _ <-. apply Qle_refl. }
  destruct (O2 _ Hpop) as [lv [Hwv Hlv]].
  unfold enode, eprio in Hwv, Hlv. cbn [fst snd] in Hwv, Hlv.
  destruct (@relax_opt d (dist ++ [(v, d)]) (succ_costs G v) _ st' Hr)
    as [R1 [R2 [R3 R4]]].
  { intros w s Hl. cbn [seen] in Hl. cbn [fringe].
    destruct (O6 w s Hl) as [H | [c' H]].
    - left. rewrite keys_app. apply in_or_app. now left.
    - apply (Permutation_in _ Hperm) in H. destruct H as [H | H].
      + injection H as _ _ <-. left. rewrite keys_app. apply in_or_app.
        right. now left.
      + right. now exists c'. }
  cbn [fringe] in R2, R3.
  constructor.
  - intros x dx Hx. apply in_app_or in Hx. destruct Hx as [Hx | [Hx | []]].
    + now apply O1.
    + injection Hx as <- <-. now exists lv.
  - intros f Hf. destruct (R3 f Hf) as [H | [w [cw [Hin [Hn Hp]]]]].
    + apply O2. now apply Hsub.
    + unfold succ_costs in Hin. apply in_map_iff in Hin.
      destruct Hin as [w' [He Hw']]. injection He as -> <-.
      destruct (weight_attained G v w Hw') as [e [He [Heu [Hev Hlen]]]].
      exists (lv + e_length e). rewrite Hn, Hp, <- Hev. split.
      * now apply walk_step with v.
      * rewrite Qred_correct, Hlen, Hev, Hlv. reflexivity.
  - intros x dx l Hx Hw. apply in_app_or in Hx.
    destruct Hx as [Hx | [Hx | []]]; [now apply (O3 x dx l) |].
    injection Hx as <- <-.
    destruct (Hbound v l Hw) as [[dy [H1 _]] | [f [H1 H2]]].
    + exfalso. apply Hv. now apply keys_in with dy.
    + apply (Permutation_in _ Hperm) in H1. destruct H1 as [<- | H1].
      * exact H2.
      * apply Qle_trans with (eprio f); [now apply Hmin | exact H2].
  - intros x dx e Hx He Hxu. apply in_app_or in Hx.
    destruct Hx as [Hx | [Hx | []]].
    + destruct (O4 x dx e Hx He Hxu) as [[dw [A B]] | [f [Hf [Hn Hp]]]].
      * left. exists dw. split; [apply in_or_app; now left | exact B].
      * apply (Permutation_in _ Hperm) in Hf. destruct Hf as [<- | Hf].
        -- left. exists d. unfold enode in Hn. cbn [snd] in Hn.
           unfold eprio in Hp. cbn [fst] in Hp. rewrite <- Hn.
           split; [apply in_or_app; right; now left | exact Hp].
        -- right. exists f. split; [now apply R2 | auto].
    + injection Hx as <- <-. pose proof (Hnn e He) as Hlen.
      assert (Hadj : In (e_v e) (adj G v)).
      { apply in_adj. exists e. auto. }
      assert (Hin : In (e_v e, weight G v (e_v e)) (succ_costs G v)).
      { unfold succ_costs. apply in_map_iff. now exists (e_v e). }
      pose proof (weight_le G e He) as Hwle. rewrite Hxu in Hwle.
      destruct (R4 _ _ Hin) as [H | [f [Hf [Hn Hp]]]].
      * left. destruct (in_keys _ _ H) as [dw Hdw]. exists dw.
        split; [exact Hdw |]. pose proof (Hbefore _ _ Hdw). lra.
      * right. exists f. split; [exact Hf |]. split; [exact Hn | lra].
  - destruct O5 as [[d0 [A B]] | [f [Hf [Hn Hp]]]].
    + left. exists d0. split; [apply in_or_app; now left | exact B].
    + apply (Permutation_in _ Hperm) in Hf. destruct Hf as [<- | Hf].
      * left. exists d. unfold enode in Hn. cbn [snd] in Hn.
        unfold eprio in Hp. cbn [fst] in Hp. rewrite <- Hn.
        split; [apply in_or_app; right; now left | exact Hp].
      * right. exists f. split; [now apply R2 | auto].
  - exact R1.
Qed.

Lemma dijkstra_loop_least : forall fuel dist st lengths,
  dinv G u dist st -> oinv dist st ->
  dijkstra_loop fuel G dist st = Some lengths ->
  forall x dx, In (x, dx) lengths ->
    (exists l, walk G u x l /\ l == dx) /\
    (forall l, walk G u x l -> dx <= l).
Proof.
  induction fuel as [|f IH]; intros dist st lengths Hd Ho Hrun.
  - simpl in Hrun. injection Hrun as <-. destruct Ho as [O1 _ O3 _ _ _].
    intros x dx Hx. split; [now apply O1 | intros l; now apply O3].
  - cbn [dijkstra_loop] in Hrun.
    destruct (pop_min (fringe st)) as [[[[d c] v] rest] |] eqn:Hpop.
    + destruct (pop_min_spec _ Hpop) as [Hperm Hmin].
      destruct (lookup v dist) as [dv |] eqn:Hl.
      * apply lookup_some_in in Hl. apply keys_in in Hl.
        apply (IH _ _ _ (dinv_skip Hd Hperm Hl) (oinv_skip Hd Ho Hperm Hl) Hrun).
      * apply lookup_none in Hl.
        destruct (@relax_spec d (dist ++ [(v, d)]) (succ_costs G v)
                    {| seen := seen st; fringe := rest; counter := counter st |})
          as [st' [He Hrel]].
        { intros x dx Hx. apply in_app_or in Hx. destruct Hx as [Hx | [Hx | []]].
          - destruct Hd as [_ _ _ _ _ I6 _]. apply (I6 x dx (d, c, v) Hx).
            apply (Permutation_in _ (Permutation_sym Hperm)). now left.
          - injection Hx as _ <-. apply Qle_refl. }
        { intros w cost Hw. eapply succ_costs_nonneg; eauto. }
        rewrite He in Hrun.
        destruct (dinv_settle Hwf Hu Hd Hperm Hmin Hl Hrel) as [Hd' _].
        apply (IH _ _ _ Hd' (oinv_settle Hd Ho Hperm Hmin Hl He) Hrun).
    + injection Hrun as <-. destruct Ho as [O1 _ O3 _ _ _].
      intros x dx Hx. split; [now apply O1 | intros l; now apply O3].
Qed.


End Optimal.

(** The distances that the search from [u] returns are lengths of
    shortest routes. *)
Lemma search_least : forall G u lengths,
  wf_graph G -> nonneg_lengths G -> In u (nodes G) ->
  single_source_dijkstra_path_length G u = Some lengths ->
  forall v d, In (v, d) lengths ->
    (exists l, walk G u v l /\ l == d) /\
    (forall l, walk G u v l -> d <= l).
Proof.
  intros G u lengths Hwf Hnn Hu He.
  unfold single_source_dijkstra_path_length in He.
  apply (dijkstra_loop_least Hwf Hnn Hu) with (3 := He).
  - constructor; simpl.
    + constructor.
    + intros v [].
    + intros e [<- | []]. constructor.
    + intros v [<- | []]. right. now left.
    + intros v w [].
    + intros x dx e [].
    + now left.
  - constructor; simpl.
    + intros x dx [].
    + intros f [<- | []]. exists 0. split; [constructor | reflexivity].
    + intros x dx l [].
    + intros x dx e [].
    + right. exists (0, 0%nat, u). split; [now left |].
      split; [reflexivity | apply Qle_refl].
    + intros w s Hl. simpl in Hl.
      destruct (Z.eqb_spec u w) as [-> | _]; [| discriminate].
      injection Hl as <-. right. exists 0%nat. now left.
Qed.

(** X10.  On a graph without negative lengths the search from [u] gives a
    distance to every node that a route from [u] reaches, and that
    distance is the length of a shortest route: some route has this
    length and no route is shorter. *)
Theorem dijkstra_distances_are_shortest : forall G u,
  wf_graph G -> nonneg_lengths G -> In u (nodes G) ->
  exists lengths,
    single_source_dijkstra_path_length G u = Some lengths /\
    (forall v l, walk G u v l -> exists d, In (v, d) lengths) /\
    forall v d, In (v, d) lengths ->
      (exists l, walk G u v l /\ l == d) /\
      (forall l, walk G u v l -> d <= l).
Proof.
  intros G u Hwf Hnn Hu.
  destruct (@dijkstra_reaches G u Hwf Hnn Hu) as [lengths [He [_ Hkeys]]].
  exists lengths. split; [exact He |]. split.
  - intros v l Hw. apply in_keys. apply Hkeys. now apply walk_reachable with l.
  - intros v d Hvd. exact (@search_least G u lengths Hwf Hnn Hu He v d Hvd).
Qed.

Lemma nonneg_two_blocks : nonneg_lengths ReductionFacts.two_blocks.
Proof.
  intros e He. simpl in He.
  repeat (destruct He as [<- | He]; [simpl; discriminate |]). contradiction.
Qed.

Lemma dijkstra_distances_are_shortest_witness :
  exists lengths,
    single_source_dijkstra_path_length ReductionFacts.two_blocks 3%Z
    = Some lengths /\
    (forall v l, walk ReductionFacts.two_blocks 3%Z v l ->
                 exists d, In (v, d) lengths) /\
    forall v d, In (v, d) lengths ->
      (exists l, walk ReductionFacts.two_blocks 3%Z v l /\ l == d) /\
      (forall l, walk ReductionFacts.two_blocks 3%Z v l -> d <= l).
Proof.
  apply (@dijkstra_distances_are_shortest ReductionFacts.two_blocks 3%Z).
  - exact ReductionFacts.wf_two_blocks.
  - exact nonneg_two_blocks.
  - simpl. auto.
Defined.

(** From intersection 3 of the two blocks: 80 m to 4, 140 m to 5, and
    no distance to the other block. *)
Example two_blocks_distances :
  single_source_dijkstra_path_length ReductionFacts.two_blocks 3%Z
  = Some [(3%Z, 0); (4%Z, 80); (5%Z, 140)].
Proof. reflexivity. Qed.

End ShortestPathFacts.

(* ===================================================================== *)
(** * Claim on the mean shortest-path length *)
(* ===================================================================== *)

Module MeanPathClaims.

Import Graph GraphFacts Paths DijkstraFacts PathClaims ShortestPathFacts.
Local Open Scope Q_scope.

(** [d] is the length-weighted shortest distance from [u] to [v]: the
    length of some route from [u] to [v] along the streets, and no
    route from [u] to [v] is shorter. *)
Definition shortest_distance (G : graph) (u v : node) (d : Q) : Prop :=
  (exists l, walk G u v l /\ l == d) /\ (forall l, walk G u v l -> d <= l).

Lemma NoDup_keys_filter : forall (p : node * Q -> bool) l,
  NoDup (keys l) -> NoDup (keys (filter p l)).
Proof.
  intros p. induction l as [|[v d] r IH]; intros H; [constructor |].
  simpl in H. inversion H as [| ? ? Hv Hr]; subst. simpl.
  destruct (p (v, d)); [| now apply IH].
  simpl. constructor; [| now apply IH].
  intros Hin. apply Hv. unfold keys in *. apply in_map_iff in Hin.
  destruct Hin as [[v' d'] [He Hin]]. simpl in He. subst v'.
  apply filter_In in Hin. apply in_map_iff. exists (v, d'). tauto.
Qed.

(** C2.  On a graph with non-negative lengths the function returns a
    mean for every node [u].  There is a table [dists] of the nodes
    other than [u] that a route from [u] reaches, each once, with its
    length-weighted shortest distance from [u]; when the table is not
    empty the mean is a number, the sum of these distances divided by
    their count, and when it is empty the mean is NaN. *)
Theorem mean_shortest_path_lengths : forall G,
  wf_graph G -> nonneg_lengths G ->
  exists means,
    all_pairs_mean_shortest_path_length G = Some means /\
    map fst means = nodes G /\
    forall u a, In (u, a) means ->
      exists dists,
        NoDup (map fst dists) /\
        (forall v, In v (map fst dists) <-> v <> u /\ reachable G u v) /\
        (forall v d, In (v, d) dists -> shortest_distance G u v d) /\
        match dists with
        | [] => a = NaN
        | _ => is_value a (Qsum (map snd dists)
                           / inject_Z (Z.of_nat (List.length dists)))
        end.
Proof.
  intros G Hwf Hnn. unfold all_pairs_mean_shortest_path_length.
  destruct (@for_each_spec _ (mean_shortest_path_length G)
              (fun u a => In u (nodes G) /\ aspl_spec G u a) (nodes G))
    as [means [Hm [Hk Hall]]].
  { intros u Hu.
    destruct (@mean_meets_spec G u Hwf Hnn Hu) as [a [Ha [Hspec _]]].
    exists a. auto. }
  exists means. split; [exact Hm |]. split; [exact Hk |].
  intros u a Hin. destruct (Hall u a Hin) as [Hu [lengths [He [Hnd [Hkeys Hval]]]]].
  exists (others u lengths).
  split; [apply (@NoDup_keys_filter _ lengths Hnd) |].
  split; [| split; [| destruct (others u lengths); exact Hval]].
  - intros v. change (map fst (others u lengths)) with (keys (others u lengths)).
    split.
    + intros Hv. apply in_keys in Hv. destruct Hv as [d Hd].
      apply in_others in Hd. destruct Hd as [Hd Hne]. split; [exact Hne |].
      apply Hkeys. now apply keys_in with d.
    + intros [Hne Hr]. apply Hkeys in Hr. apply in_keys in Hr.
      destruct Hr as [d Hd]. apply keys_in with d. apply in_others. auto.
  - intros v d Hd. apply in_others in Hd. destruct Hd as [Hd _].
    exact (@search_least G u lengths Hwf Hnn Hu He v d Hd).
Qed.

Lemma mean_shortest_path_lengths_witness :
  exists means,
    all_pairs_mean_shortest_path_length path3 = Some means /\
    map fst means = nodes path3 /\
    forall u a, In (u, a) means ->
      exists dists,
        NoDup (map fst dists) /\
        (forall v, In v (map fst dists) <-> v <> u /\ reachable path3 u v) /\
        (forall v d, In (v, d) dists -> shortest_distance path3 u v d) /\
        match dists with
        | [] => a = NaN
        | _ => is_value a (Qsum (map snd dists)
                           / inject_Z (Z.of_nat (List.length dists)))
        end.
Proof.
  apply (@mean_shortest_path_lengths path3 wf_path3 nonneg_path3).
Defined.

End MeanPathClaims.

(* ===================================================================== *)
(** * Group statistics stay within the values of the group *)
(* ===================================================================== *)

Module StatsFacts.

Import Stats.
Local Open Scope Q_scope.

(** A cell that is missing or a number of the interval [[lo, hi]]. *)
Definition nan_or_in_range (lo hi : Q) (x : float64) : Prop :=
  x = NaN \/ in_range lo hi x.

Lemma dropna_values : forall lo hi l,
  (forall x, In x l -> nan_or_in_range lo hi x) ->
  forall x, In x (dropna l) -> in_range lo hi x.
Proof.
  intros lo hi l H x Hx. unfold dropna in Hx. apply filter_In in Hx.
  destruct Hx as [Hx Hn]. destruct (H x Hx) as [-> | Hr]; [discriminate | exact Hr].
Qed.

Lemma fsum_bounds : forall lo hi v a,
  (forall x, In x v -> in_range lo hi x) ->
  exists s, fold_left fadd v (Fin a) = Fin s /\
            a + inject_Z (Z.of_nat (List.length v)) * lo <= s /\
            s <= a + inject_Z (Z.of_nat (List.length v)) * hi.
Proof.
  intros lo hi. induction v as [|x v IH]; intros a H.
  - exists a. split; [reflexivity |]. cbn [List.length Z.of_nat].
    change (inject_Z 0) with 0. lra.
  - assert (Hx : in_range lo hi x) by (apply H; now left).
    destruct x as [q | | |]; try contradiction. destruct Hx as [H1 H2].
    cbn [fold_left fadd].
    destruct (IH (Qred (a + q))) as [s [Hs [B1 B2]]].
    { intros y Hy. apply H. now right. }
    exists s. split; [exact Hs |].
    rewrite Qred_correct in B1, B2.
    cbn [List.length]. rewrite Nat2Z.inj_succ. unfold Z.succ.
    rewrite inject_Z_plus. change (inject_Z 1) with 1.
    set (n := inject_Z (Z.of_nat (List.length v))) in *.
    assert (0 <= n) by (unfold n; change 0 with (inject_Z 0);
                        rewrite <- Zle_Qle; lia).
    split; nra.
Qed.

(** The mean of a group is missing or lies between the bounds of the
    values of the group that are not missing. *)
Lemma mean_in_range : forall lo hi l,
  (forall x, In x l -> nan_or_in_range lo hi x) ->
  nan_or_in_range lo hi (mean l).
Proof.
  intros lo hi l H. unfold mean.
  pose proof (@dropna_values lo hi l H) as Hv.
  destruct (dropna l) as [|x v]; [now left |]. right.
  destruct (@fsum_bounds lo hi (x :: v) 0 Hv) as [s [Hs [B1 B2]]].
  unfold fsum. rewrite Hs. unfold of_nat.
  set (n := inject_Z (Z.of_nat (List.length (x :: v)))) in *.
  assert (Hn : 0 < n).
  { unfold n. change 0 with (inject_Z 0). rewrite <- Zlt_Qlt. simpl. lia. }
  cbn [fdiv]. unfold Qsign.
  assert (Hc : (n ?= 0) = Gt) by (now apply Qgt_alt).
  rewrite Hc. cbn [in_range]. rewrite Qred_correct. split.
  - apply Qle_shift_div_l; [exact Hn | lra].
  - apply Qle_shift_div_r; [exact Hn | lra].
Qed.

Lemma in_insert_sorted : forall x l y,
  In y (insert_sorted x l) <-> y = x \/ In y l.
Proof.
  induction l as [|a r IH]; intros y; simpl.
  - intuition.
  - destruct (flt x a); simpl; [intuition |]. rewrite IH. intuition.
Qed.

Lemma in_sort_values : forall l y, In y (sort_values l) <-> In y l.
Proof.
  induction l as [|x r IH]; intros y; simpl; [reflexivity |].
  rewrite in_insert_sorted, IH. intuition.
Qed.

Lemma nth_in_range : forall lo hi v i,
  (forall x, In x v -> in_range lo hi x) -> (i < List.length v)%nat ->
  in_range lo hi (nth i v NaN).
Proof.
  intros lo hi v i H Hi. apply H. now apply nth_In.
Qed.

(** The interpolated quantile of a group is missing or lies between
    the bounds of the values of the group, for a level between 0 and
    1. *)
Lemma quantile_in_range : forall lo hi q l,
  0 <= q -> q <= 1 ->
  (forall x, In x l -> nan_or_in_range lo hi x) ->
  nan_or_in_range lo hi (quantile q l).
Proof.
  intros lo hi q l Hq0 Hq1 H. unfold quantile.
  assert (Hv : forall x, In x (sort_values (dropna l)) -> in_range lo hi x).
  { intros x Hx. rewrite in_sort_values in Hx.
    exact (@dropna_values lo hi l H x Hx). }
  destruct (sort_values (dropna l)) as [|x0 v0] eqn:Hs; [now left |]. right.
  set (v := x0 :: v0) in *.
  set (m := (List.length v - 1)%nat).
  assert (Hm : List.length v = S m) by (unfold m, v; simpl; lia).
  set (h := inject_Z (Z.of_nat m) * q).
  assert (Hnm : 0 <= inject_Z (Z.of_nat m)).
  { change 0 with (inject_Z 0). rewrite <- Zle_Qle. lia. }
  assert (Hh0 : 0 <= h) by (unfold h; nra).
  assert (Hh1 : h <= inject_Z (Z.of_nat m)) by (unfold h; nra).
  assert (Hf0 : (0 <= Qfloor h)%Z).
  { change 0%Z with (Qfloor 0). now apply Qfloor_resp_le. }
  assert (Hf1 : (Qfloor h <= Z.of_nat m)%Z).
  { rewrite <- (Qfloor_Z (Z.of_nat m)). now apply Qfloor_resp_le. }
  assert (Hlo : (Z.to_nat (Qfloor h) < List.length v)%nat) by lia.
  assert (Hhi : (Nat.min (S (Z.to_nat (Qfloor h))) m < List.length v)%nat) by lia.
  pose proof (@nth_in_range lo hi v _ Hv Hlo) as Ha.
  pose proof (@nth_in_range lo hi v _ Hv Hhi) as Hb.
  fold m. fold h.
  destruct (nth (Z.to_nat (Qfloor h)) v NaN) as [a | | |]; try contradiction.
  destruct (nth (Nat.min (S (Z.to_nat (Qfloor h))) m) v NaN) as [b | | |];
    try contradiction.
  destruct Ha as [A1 A2]. destruct Hb as [B1 B2].
  set (frac := Qred (h - inject_Z (Qfloor h))).
  assert (Hfr : 0 <= frac /\ frac <= 1).
  { unfold frac. rewrite Qred_correct.
    pose proof (Qfloor_le h). pose proof (Qlt_floor h) as Hlt.
    rewrite inject_Z_plus in Hlt. change (inject_Z 1) with 1 in Hlt.
    split; lra. }
  destruct (Qsign frac); [split; assumption | |];
    cbn [fneg fadd fmul in_range]; rewrite !Qred_correct;
    destruct Hfr as [F0 F1]; split; nra.
Qed.

End StatsFacts.

(* ===================================================================== *)
(** * What a row of the table aggregates *)
(* ===================================================================== *)

Module AggregationFacts.

Import Table TableFacts StatsFacts.

Lemma filter_swap : forall (A : Type) (p q : A -> bool) l,
  filter q (filter p l) = filter p (filter q l).
Proof.
  induction l as [|a r IH]; [reflexivity |]. simpl.
  destruct (p a) eqn:Hp; destruct (q a) eqn:Hq; simpl;
    rewrite ?Hp, ?Hq, IH; reflexivity.
Qed.

Lemma filter_flat_map : forall (A B : Type) (p : B -> bool) (f : A -> list B) l,
  filter p (flat_map f l) = flat_map (fun x => filter p (f x)) l.
Proof.
  induction l as [|a r IH]; [reflexivity |]. simpl.
  now rewrite filter_app, IH.
Qed.

(** The polygons of the layer with their positions. *)
Definition indexed (s : nat) (bg : list bg_row) : list (nat * bg_row) :=
  combine (seq s (List.length bg)) bg.

Definition same_key (k : key) (ib : nat * bg_row) : bool :=
  String.eqb (bg_GEOID_BG (snd ib)) k.

Lemma key_absent : forall bg s k,
  ~ In k (map bg_GEOID_BG bg) -> filter (same_key k) (indexed s bg) = [].
Proof.
  intros bg s k Hk. apply filter_nil_iff. intros [j x] Hin.
  apply in_combine_r in Hin. unfold same_key. cbn [snd].
  apply String.eqb_neq. intros He. apply Hk. apply in_map_iff. now exists x.
Qed.

(** With distinct keys, the key of the [i]-th polygon selects that
    polygon alone. *)
Lemma key_hits : forall bg s i b,
  NoDup (map bg_GEOID_BG bg) -> nth_error bg i = Some b ->
  filter (same_key (bg_GEOID_BG b)) (indexed s bg) = [((s + i)%nat, b)].
Proof.
  induction bg as [|a r IH]; intros s i b Hnd Hi.
  - destruct i; discriminate.
  - cbn [map] in Hnd. inversion Hnd as [| ? ? Ha Hr]; subst.
    unfold indexed. cbn [List.length seq combine filter].
    fold (indexed (S s) r).
    destruct i as [|i]; cbn [nth_error] in Hi.
    + injection Hi as ->. unfold same_key at 1. cbn [snd].
      rewrite String.eqb_refl, (@key_absent r (S s) _ Ha), Nat.add_0_r. reflexivity.
    + assert (Hne : bg_GEOID_BG a <> bg_GEOID_BG b).
      { intros He. apply Ha. rewrite He. apply in_map.
        now apply nth_error_In with i. }
      unfold same_key at 1. cbn [snd].
      apply String.eqb_neq in Hne. rewrite Hne.
      rewrite (IH (S s) i b Hr Hi). now rewrite Nat.add_succ_r.
Qed.

(** ** Nodes *)

(** The row a node within the polygon of key [k] gets in the join. *)
Definition joined (k : key) (n : node_row) : joined_row :=
  {| j_betweenness := n_betweenness n;
     j_aspl := n_aspl n;
     j_GEOID_BG := Some k |}.

Lemma sjoin_node_group : forall bg within i b n,
  NoDup (map bg_GEOID_BG bg) -> nth_error bg i = Some b ->
  filter (fun r => has_key (bg_GEOID_BG b) (j_GEOID_BG r))
    match filter (fun ib => within (n_osmid n) (fst ib))
                 (combine (seq 0 (List.length bg)) bg) with
    | [] => [ {| j_betweenness := n_betweenness n;
                 j_aspl := n_aspl n;
                 j_GEOID_BG := None |} ]
    | hits =>
        map (fun ib => {| j_betweenness := n_betweenness n;
                          j_aspl := n_aspl n;
                          j_GEOID_BG := Some (bg_GEOID_BG (snd ib)) |})
            hits
    end
  = if within (n_osmid n) i then [joined (bg_GEOID_BG b) n] else [].
Proof.
  intros bg within i b n Hnd Hi.
  fold (indexed 0 bg).
  set (p := fun ib : nat * bg_row => within (n_osmid n) (fst ib)).
  assert (Hq : filter (same_key (bg_GEOID_BG b)) (filter p (indexed 0 bg))
               = if within (n_osmid n) i then [(i, b)] else []).
  { rewrite filter_swap, (@key_hits bg 0%nat i b Hnd Hi). cbn [filter Nat.add].
    unfold p. cbn [fst]. reflexivity. }
  assert (Hmap : forall l,
            filter (fun r => has_key (bg_GEOID_BG b) (j_GEOID_BG r))
              (map (fun ib : nat * bg_row =>
                      {| j_betweenness := n_betweenness n;
                         j_aspl := n_aspl n;
                         j_GEOID_BG := Some (bg_GEOID_BG (snd ib)) |}) l)
            = map (fun _ => joined (bg_GEOID_BG b) n)
                  (filter (same_key (bg_GEOID_BG b)) l)).
  { induction l as [|x l IH]; [reflexivity |]. cbn [map filter j_GEOID_BG has_key].
    unfold same_key at 1. destruct (String.eqb_spec (bg_GEOID_BG (snd x))
                                                     (bg_GEOID_BG b)) as [He | _].
    - cbn [map]. rewrite IH. unfold joined. now rewrite He.
    - exact IH. }
  destruct (filter p (indexed 0 bg)) as [|h hs] eqn:Hhits.
  - cbn [filter j_GEOID_BG has_key]. cbn [filter] in Hq.
    destruct (within (n_osmid n) i); [discriminate | reflexivity].
  - rewrite Hmap, Hq. destruct (within (n_osmid n) i); reflexivity.
Qed.

(** With distinct keys on the layer, the joined rows that carry the key
    of the [i]-th polygon are the nodes within that polygon, in the
    order of the nodes, each once. *)
Lemma sjoin_group : forall nodes bg within i b,
  NoDup (map bg_GEOID_BG bg) -> nth_error bg i = Some b ->
  nodes_of (sjoin nodes bg within) (bg_GEOID_BG b)
  = map (joined (bg_GEOID_BG b))
        (filter (fun n => within (n_osmid n) i) nodes).
Proof.
  intros nodes bg within i b Hnd Hi. unfold nodes_of, sjoin.
  rewrite filter_flat_map.
  induction nodes as [|n r IH]; [reflexivity |].
  cbn [flat_map filter]. rewrite IH, (@sjoin_node_group bg within i b n Hnd Hi).
  destruct (within (n_osmid n) i); reflexivity.
Qed.

(** X11.  On a layer with distinct keys, the node columns of the row of the
    [i]-th polygon are computed from the nodes within that polygon and
    from no other node: their number, the mean and the 0.90 quantile of
    their betweenness, the mean of their mean path lengths; the
    columns are missing when no node lies within it. *)
Theorem node_columns_of_polygon : forall nodes bg within inter i b,
  NoDup (map bg_GEOID_BG bg) -> nth_error bg i = Some b ->
  exists r,
    nth_error (bg_metrics bg (sjoin nodes bg within) inter) i = Some r /\
    GEOID_BG r = bg_GEOID_BG b /\
    match filter (fun n => within (n_osmid n) i) nodes with
    | [] =>
        nodes_in_bg r = NaN /\ betweenness_mean r = NaN /\
        betweenness_p90 r = NaN /\ aspl_mean r = NaN
    | inside =>
        nodes_in_bg r = of_nat (List.length inside) /\
        betweenness_mean r = Stats.mean (map n_betweenness inside) /\
        betweenness_p90 r = Stats.quantile (9 # 10) (map n_betweenness inside) /\
        aspl_mean r = Stats.mean (map n_aspl inside)
    end.
Proof.
  intros nodes bg within inter i b Hnd Hi.
  exists (row_of (sjoin nodes bg within) inter b).
  rewrite bg_metrics_rows, nth_error_map, Hi.
  split; [reflexivity |]. split; [reflexivity |].
  unfold row_of. cbn [nodes_in_bg betweenness_mean betweenness_p90 aspl_mean].
  rewrite (@sjoin_group nodes bg within i b Hnd Hi).
  destruct (filter (fun n => within (n_osmid n) i) nodes) as [|n inside].
  - cbn [map stat]. auto.
  - set (l := n :: inside).
    assert (Hs : forall f : list joined_row -> float64,
              stat (map (joined (bg_GEOID_BG b)) l) f
              = f (map (joined (bg_GEOID_BG b)) l)) by reflexivity.
    rewrite !Hs, !map_map, length_map. cbn [joined j_betweenness j_aspl].
    auto.
Qed.

(** Two polygons and three nodes, the first two within the first
    polygon and the third within none. *)
Definition layer2 : list bg_row :=
  [ {| bg_GEOID_BG := "170318203001"%string; bg_geometry_area := Fin 500000 |};
    {| bg_GEOID_BG := "170318203002"%string; bg_geometry_area := Fin 250000 |} ].

Definition nodes3 : list node_row :=
  [ {| n_osmid := 1; n_betweenness := Fin 0; n_aspl := Fin 175 |};
    {| n_osmid := 2; n_betweenness := Fin 1; n_aspl := Fin 125 |};
    {| n_osmid := 3; n_betweenness := Fin 0; n_aspl := Fin 200 |} ].

Definition within2 (v : Z) (i : nat) : bool := (Z.leb v 2 && Nat.eqb i 0)%bool.

Lemma layer2_keys : NoDup (map bg_GEOID_BG layer2).
Proof. simpl. repeat constructor; simpl; intuition discriminate. Qed.

Lemma node_columns_of_polygon_witness :
  exists r,
    nth_error (bg_metrics layer2 (sjoin nodes3 layer2 within2) []) 0 = Some r /\
    GEOID_BG r = "170318203001"%string /\
    nodes_in_bg r = of_nat 2 /\
    betweenness_mean r = Stats.mean [Fin 0; Fin 1] /\
    betweenness_p90 r = Stats.quantile (9 # 10) [Fin 0; Fin 1] /\
    aspl_mean r = Stats.mean [Fin 175; Fin 125].
Proof.
  exact (@node_columns_of_polygon nodes3 layer2 within2 [] 0%nat
           {| bg_GEOID_BG := "170318203001"%string;
              bg_geometry_area := Fin 500000 |}
           layer2_keys eq_refl).
Defined.

(** ** Edges *)

(** The clipped piece of length [len] in the polygon of key [k]. *)
Definition piece (k : key) (len : Q) : inter_row :=
  {| i_geometry_length := Fin len; i_GEOID_BG := k |}.

(** The lengths of the parts of the edges inside the [i]-th polygon,
    in the order of the edges. *)
Definition clipped_lengths (n_edges : nat) (clip : nat -> nat -> option Q)
           (i : nat) : list Q :=
  flat_map (fun e => match clip e i with Some len => [len] | None => [] end)
           (seq 0 n_edges).

Definition total (l : list Q) : Q := fold_right Qplus 0%Q l.

Lemma overlay_edge_group : forall bg (clip : nat -> nat -> option Q) i b e,
  NoDup (map bg_GEOID_BG bg) -> nth_error bg i = Some b ->
  filter (fun r => String.eqb (i_GEOID_BG r) (bg_GEOID_BG b))
    (flat_map
       (fun ib : nat * bg_row =>
          match clip e (fst ib) with
          | Some len => [ {| i_geometry_length := Fin len;
                             i_GEOID_BG := bg_GEOID_BG (snd ib) |} ]
          | None => []
          end)
       (combine (seq 0 (List.length bg)) bg))
  = map (piece (bg_GEOID_BG b))
        match clip e i with Some len => [len] | None => [] end.
Proof.
  intros bg clip i b e Hnd Hi. fold (indexed 0 bg).
  pose proof (@key_hits bg 0%nat i b Hnd Hi) as Hk. cbn [Nat.add] in Hk.
  revert Hk. generalize (indexed 0 bg). intros l Hk.
  assert (Hgen : forall l,
            filter (fun r => String.eqb (i_GEOID_BG r) (bg_GEOID_BG b))
              (flat_map
                 (fun ib : nat * bg_row =>
                    match clip e (fst ib) with
                    | Some len => [ {| i_geometry_length := Fin len;
                                       i_GEOID_BG := bg_GEOID_BG (snd ib) |} ]
                    | None => []
                    end) l)
            = flat_map
                (fun ib : nat * bg_row =>
                   map (piece (bg_GEOID_BG b))
                       match clip e (fst ib) with
                       | Some len => [len]
                       | None => []
                       end)
                (filter (same_key (bg_GEOID_BG b)) l)).
  { clear. induction l as [|x l IH]; [reflexivity |].
    cbn [flat_map filter]. rewrite filter_app, IH. unfold same_key at 2.
    destruct (String.eqb_spec (bg_GEOID_BG (snd x)) (bg_GEOID_BG b))
      as [He | Hne].
    - cbn [flat_map]. f_equal.
      destruct (clip e (fst x)) as [len |]; [| reflexivity].
      cbn [filter i_GEOID_BG map]. rewrite He, String.eqb_refl. reflexivity.
    - destruct (clip e (fst x)) as [len |]; [| reflexivity].
      cbn [filter i_GEOID_BG app]. apply String.eqb_neq in Hne.
      rewrite Hne. reflexivity. }
  rewrite Hgen, Hk. cbn [flat_map fst]. apply app_nil_r.
Qed.

Lemma overlay_group : forall n_edges bg clip i b,
  NoDup (map bg_GEOID_BG bg) -> nth_error bg i = Some b ->
  pieces_of (overlay n_edges bg clip) (bg_GEOID_BG b)
  = map (piece (bg_GEOID_BG b)) (clipped_lengths n_edges clip i).
Proof.
  intros n_edges bg clip i b Hnd Hi.
  unfold pieces_of, overlay, clipped_lengths.
  rewrite filter_flat_map. generalize (seq 0 n_edges).
  induction l as [|e l IH]; [reflexivity |].
  cbn [flat_map]. rewrite map_app, IH.
  now rewrite (@overlay_edge_group bg clip i b e Hnd Hi).
Qed.

Lemma len_km_piece : forall k len,
  len_km (piece k len) = Fin (Qred (len / 1000)).
Proof. reflexivity. Qed.

Lemma sum_pieces : forall k lens a,
  exists s,
    fold_left fadd (map len_km (map (piece k) lens)) (Fin a) = Fin s /\
    (s == a + total lens / 1000)%Q.
Proof.
  intros k. induction lens as [|len r IH]; intros a.
  - exists a. split; [reflexivity |]. unfold total. simpl. field.
  - cbn [map fold_left]. rewrite len_km_piece. cbn [fadd].
    destruct (IH (Qred (a + Qred (len / 1000)))) as [s [Hs He]].
    exists s. split; [exact Hs |].
    rewrite He, !Qred_correct. unfold total. cbn [fold_right]. field.
Qed.

Lemma dropna_pieces : forall k lens,
  Stats.dropna (map len_km (map (piece k) lens))
  = map len_km (map (piece k) lens).
Proof.
  intros k lens. unfold Stats.dropna. apply forallb_filter_id.
  apply forallb_forall. intros x Hx. rewrite map_map in Hx.
  apply in_map_iff in Hx. destruct Hx as [len [<- _]]. reflexivity.
Qed.

(** X12.  On a layer with distinct keys, the edge length of the row of the
    [i]-th polygon is the sum, in kilometres, of the lengths of the
    parts of the edges inside that polygon; it is missing when no edge
    has a part inside it. *)
Theorem edge_column_of_polygon : forall n_edges bg clip nodes_in_bg i b,
  NoDup (map bg_GEOID_BG bg) -> nth_error bg i = Some b ->
  exists r,
    nth_error (bg_metrics bg nodes_in_bg (overlay n_edges bg clip)) i = Some r /\
    GEOID_BG r = bg_GEOID_BG b /\
    match clipped_lengths n_edges clip i with
    | [] => edges_km r = NaN /\ edge_km_density r = NaN
    | lens => is_value (edges_km r) (total lens / 1000)
    end.
Proof.
  intros n_edges bg clip rows i b Hnd Hi.
  exists (row_of rows (overlay n_edges bg clip) b).
  rewrite bg_metrics_rows, nth_error_map, Hi.
  split; [reflexivity |]. split; [reflexivity |].
  unfold row_of. cbn [edges_km edge_km_density].
  rewrite (@overlay_group n_edges bg clip i b Hnd Hi).
  destruct (clipped_lengths n_edges clip i) as [|len lens].
  - cbn [map stat fdiv]. auto.
  - set (l := len :: lens).
    assert (Hs : forall f : list inter_row -> float64,
              stat (map (piece (bg_GEOID_BG b)) l) f
              = f (map (piece (bg_GEOID_BG b)) l)) by reflexivity.
    rewrite Hs. unfold Stats.sum, Stats.fsum. rewrite dropna_pieces.
    destruct (sum_pieces (bg_GEOID_BG b) l 0) as [s [H1 H2]].
    rewrite H1. cbn [is_value]. rewrite H2. ring.
Qed.

Definition clip2 (e i : nat) : option Q :=
  match e, i with
  | O, O => Some 100%Q
  | S O, O => Some 150%Q
  | S O, S O => Some 50%Q
  | _, _ => None
  end.

Lemma edge_column_of_polygon_witness :
  exists r,
    nth_error (bg_metrics layer2 [] (overlay 3 layer2 clip2)) 0 = Some r /\
    GEOID_BG r = "170318203001"%string /\
    is_value (edges_km r) (total [100; 150]%Q / 1000).
Proof.
  exact (@edge_column_of_polygon 3 layer2 clip2 [] 0%nat
           {| bg_GEOID_BG := "170318203001"%string;
              bg_geometry_area := Fin 500000 |}
           layer2_keys eq_refl).
Defined.


(** ** No node is counted twice *)

Lemma map_by_index : forall (A B : Type) (f : A -> B) (g : nat -> B) l s,
  (forall i a, nth_error l i = Some a -> f a = g (s + i)%nat) ->
  map f l = map g (seq s (List.length l)).
Proof.
  intros A B f g. induction l as [|a l IH]; intros s H; [reflexivity |].
  cbn [List.length seq map]. f_equal.
  - rewrite (H 0%nat a eq_refl). now rewrite Nat.add_0_r.
  - apply IH. intros i x Hi. rewrite (H (S i) x Hi). now rewrite Nat.add_succ_r.
Qed.

(** The count cell of a group of [c] nodes. *)
Definition count_cell (c : nat) : float64 :=
  match c with O => NaN | _ => of_nat c end.

Lemma sum_count_cells : forall cs a,
  exists s,
    fold_left fadd (Stats.dropna (map count_cell cs)) (Fin a) = Fin s /\
    (s == a + inject_Z (Z.of_nat (list_sum cs)))%Q.
Proof.
  induction cs as [|c cs IH]; intros a.
  - exists a. split; [reflexivity |]. simpl. ring.
  - destruct c as [|c].
    + destruct (IH a) as [s [H1 H2]]. exists s. split; [exact H1 |].
      exact H2.
    + cbn [map count_cell Stats.dropna filter is_nan of_nat negb fold_left fadd].
      fold (Stats.dropna (map count_cell cs)).
      destruct (IH (Qred (a + inject_Z (Z.of_nat (S c))))) as [s [H1 H2]].
      exists s. split; [exact H1 |].
      rewrite H2, Qred_correct.
      change (list_sum (S c :: cs)) with (S c + list_sum cs)%nat.
      rewrite Nat2Z.inj_add, inject_Z_plus. ring.
Qed.

Lemma list_sum_cons : forall a l, list_sum (a :: l) = (a + list_sum l)%nat.
Proof. reflexivity. Qed.

Lemma one_polygon : forall (p : nat -> bool) l,
  NoDup l ->
  (forall i j, In i l -> In j l -> p i = true -> p j = true -> i = j) ->
  list_sum (map (fun i => if p i then 1 else 0)%nat l)
  = if existsb p l then 1%nat else 0%nat.
Proof.
  intros p. induction l as [|i l IH]; intros Hnd Hone; [reflexivity |].
  inversion Hnd as [| ? ? Hi Hl]; subst.
  cbn [map existsb]. rewrite list_sum_cons.
  rewrite IH; [| exact Hl | intros a b Ha Hb; apply Hone; now right].
  destruct (p i) eqn:Hp; [| reflexivity]. cbn [orb].
  destruct (existsb p l) eqn:He; [| reflexivity].
  exfalso. apply existsb_exists in He. destruct He as [j [Hj Hpj]].
  assert (i = j) by (apply Hone; auto; [now left | now right]).
  subst j. contradiction.
Qed.

Lemma count_by_polygon : forall (within : Z -> nat -> bool) nodes l,
  list_sum (map (fun i => List.length
                            (filter (fun n => within (n_osmid n) i) nodes)) l)
  = list_sum (map (fun n => list_sum
                              (map (fun i => if within (n_osmid n) i
                                             then 1 else 0)%nat l)) nodes).
Proof.
  intros within nodes l. induction nodes as [|n r IH].
  - cbn [filter List.length map].
    induction l as [|i l IHl]; [reflexivity |].
    cbn [map]. rewrite list_sum_cons. exact IHl.
  - cbn [map]. rewrite list_sum_cons, <- IH. clear IH.
    rewrite <- DijkstraFacts.list_sum_map_add. f_equal.
    apply map_ext. intros i. cbn [filter].
    destruct (within (n_osmid n) i); reflexivity.
Qed.

Lemma count_indicator : forall (A : Type) (p : A -> bool) l,
  list_sum (map (fun a => if p a then 1 else 0)%nat l)
  = List.length (filter p l).
Proof.
  induction l as [|a l IH]; [reflexivity |].
  cbn [map filter]. rewrite list_sum_cons, IH. destruct (p a); reflexivity.
Qed.

(** X24.  On a layer with distinct keys whose polygons do not overlap at any
    node, no node is counted twice: the node counts of the rows add up
    to the number of nodes that lie within some polygon. *)
Theorem nodes_counted_once : forall nodes bg within inter,
  NoDup (map bg_GEOID_BG bg) ->
  (forall n i j, In n nodes ->
                 (i < List.length bg)%nat -> (j < List.length bg)%nat ->
                 within (n_osmid n) i = true -> within (n_osmid n) j = true ->
                 i = j) ->
  is_value
    (Stats.sum (map nodes_in_bg (bg_metrics bg (sjoin nodes bg within) inter)))
    (inject_Z (Z.of_nat
       (List.length
          (filter (fun n => existsb (within (n_osmid n))
                                    (seq 0 (List.length bg)))
                  nodes)))).
Proof.
  intros nodes bg within inter Hnd Hone.
  rewrite bg_metrics_rows, map_map.
  rewrite (@map_by_index _ _
             (fun b => nodes_in_bg (row_of (sjoin nodes bg within) inter b))
             (fun i => count_cell
                         (List.length
                            (filter (fun n => within (n_osmid n) i) nodes)))
             bg 0%nat).
  2:{ intros i b Hi. cbn [Nat.add]. unfold row_of. cbn [nodes_in_bg].
      rewrite (@sjoin_group nodes bg within i b Hnd Hi).
      destruct (filter (fun n => within (n_osmid n) i) nodes) as [|n l];
        [reflexivity |].
      cbn [map stat count_cell List.length]. now rewrite length_map. }
  rewrite <- (map_map (fun i => List.length
                                  (filter (fun n => within (n_osmid n) i) nodes))
                      count_cell).
  unfold Stats.sum, Stats.fsum.
  destruct (sum_count_cells
              (map (fun i => List.length
                               (filter (fun n => within (n_osmid n) i) nodes))
                   (seq 0 (List.length bg))) 0) as [s [H1 H2]].
  rewrite H1. cbn [is_value]. rewrite H2, count_by_polygon.
  rewrite (map_ext_in _ (fun n => if existsb (within (n_osmid n))
                                               (seq 0 (List.length bg))
                                  then 1 else 0)%nat).
  - rewrite count_indicator. ring.
  - intros n Hn. apply one_polygon; [apply seq_NoDup |].
    intros i j Hi Hj. apply in_seq in Hi. apply in_seq in Hj.
    apply (Hone n i j Hn); lia.
Qed.

Lemma nodes_counted_once_witness :
  is_value
    (Stats.sum (map nodes_in_bg
                    (bg_metrics layer2 (sjoin nodes3 layer2 within2) [])))
    (inject_Z 2).
Proof.
  apply (@nodes_counted_once nodes3 layer2 within2 [] layer2_keys).
  intros n i j _ _ _ Hi Hj. unfold within2 in Hi, Hj.
  apply andb_true_iff in Hi. apply andb_true_iff in Hj.
  destruct Hi as [_ Hi]. destruct Hj as [_ Hj].
  apply Nat.eqb_eq in Hi. apply Nat.eqb_eq in Hj. congruence.
Defined.

End AggregationFacts.

(* ===================================================================== *)
(** * The run of [computemetrics.py] and the range of its columns *)
(* ===================================================================== *)

Module OutputFacts.

Import Graph GraphFacts Paths Betweenness BetweennessFacts DijkstraFacts.
Import Table TableFacts StatsFacts Pipeline PipelineFacts.
Local Open Scope Q_scope.

Lemma betweenness_scores : forall G,
  wf_graph G -> no_absorption G ->
  exists btw,
    betweenness_centrality G = Some btw /\
    forall v b, In (v, b) btw -> 0 <= b /\ b <= 1.
Proof.
  intros G Hwf Habs.
  destruct (@raw_betweenness_bounds G Hwf Habs) as [b [Hb Hall]].
  unfold betweenness_centrality. rewrite Hb. eexists. split; [reflexivity |].
  intros v x Hin. apply in_map_iff in Hin. destruct Hin as [v' [He Hv]].
  injection He as -> <-. destruct (Hall v Hv) as [H0 H1].
  destruct (@rescale_unit (List.length (nodes G)) _ H0 H1) as [R0 [R1 _]].
  split; assumption.
Qed.

Lemma sjoin_values : forall nodes bg within r,
  In r (sjoin nodes bg within) ->
  exists n, In n nodes /\ j_betweenness r = n_betweenness n /\
            j_aspl r = n_aspl n.
Proof.
  intros nodes bg within r Hr. unfold sjoin in Hr.
  apply in_flat_map in Hr. destruct Hr as [n [Hn Hr]].
  exists n. split; [exact Hn |].
  destruct (filter (fun ib => within (n_osmid n) (fst ib))
                   (combine (seq 0 (List.length bg)) bg)) as [|h hs].
  - destruct Hr as [<- | []]. split; reflexivity.
  - apply in_map_iff in Hr. destruct Hr as [ib [<- _]]. split; reflexivity.
Qed.


Lemma keyed_some : forall L bg,
  keyed L = Some bg -> bg = map (bg_of L) (features L).
Proof.
  intros L bg. unfold keyed.
  destruct (has_GEOID_BG L || has_GEOID L)%bool; [| discriminate].
  intros H. now injection H as <-.
Qed.


(** Intersections 3 and 4 lie within the first polygon of the layer,
    the others within none. *)
Definition within_first (v : Z) (i : nat) : bool :=
  (Z.leb 3 v && Z.leb v 4 && Nat.eqb i 0)%bool.

(** A layer of two block groups that brings its own key column. *)
Definition blocks_layer : layer :=
  {| features :=
       [ {| f_geometry_area := Fin 500000;
            f_GEOID_BG := "170318203001"; f_GEOID := "" |};
         {| f_geometry_area := Fin 250000;
            f_GEOID_BG := "170318203002"; f_GEOID := "" |} ];
     has_GEOID_BG := true;
     has_GEOID := false |}.


(** The same run with streets that miss every polygon, and with a
    graph that is a single intersection: both stop. *)
Example computemetrics_stops :
  computemetrics ReductionFacts.two_blocks blocks_layer within_first
    (fun _ _ => None) = None /\
  computemetrics {| nodes := [7%Z]; edges := [] |} blocks_layer within_first
    AggregationFacts.clip2 = None /\
  computemetrics ReductionFacts.two_blocks
    {| features := features blocks_layer;
       has_GEOID_BG := false; has_GEOID := false |}
    within_first AggregationFacts.clip2 = None.
Proof. repeat split; vm_compute; reflexivity. Qed.

Lemma stat_range : forall (A : Type) lo hi (g : list A) f,
  nan_or_in_range lo hi (f g) -> nan_or_in_range lo hi (stat g f).
Proof.
  intros A lo hi g f H. destruct g; [now left | exact H].
Qed.

Lemma node_rows_betweenness : forall G btw aspl n,
  (forall v b, In (v, b) btw -> 0 <= b /\ b <= 1) ->
  In n (node_rows G btw aspl) ->
  nan_or_in_range 0 1 (n_betweenness n).
Proof.
  intros G btw aspl n Hb Hn. unfold node_rows in Hn.
  apply in_map_iff in Hn. destruct Hn as [v [<- _]]. cbn [n_betweenness].
  destruct (lookup v btw) as [b |] eqn:Hl; [| now left].
  right. apply lookup_some_in in Hl. exact (Hb v b Hl).
Qed.

(** X14.  When no street of the reduced graph is absorbed in a sum of the
    search, the aggregated betweenness columns of every row written,
    the mean and the 0.90 quantile, are missing or lie between 0 and
    1. *)
Theorem aggregated_betweenness_in_unit_interval :
  forall G0 G L within clip rows,
  wf_graph G0 -> largest_component G0 = Some G -> no_absorption G ->
  computemetrics G0 L within clip = Some rows ->
  Forall (fun r => nan_or_in_range 0 1 (betweenness_mean r) /\
                   nan_or_in_range 0 1 (betweenness_p90 r)) rows.
Proof.
  intros G0 G L within clip rows Hwf HG Habs Hrun.
  unfold computemetrics in Hrun. rewrite HG in Hrun.
  assert (HwfG : wf_graph G).
  { destruct (ReductionFacts.reduction_cases Hwf HG)
      as [_ [[_ ->] | [c0 [_ ->]]]]; [exact Hwf | now apply wf_subgraph]. }
  destruct (features L) as [|f0 fs]; [discriminate |].
  destruct (keyed L) as [bg |]; [| discriminate].
  destruct (edges G) as [|e0 es]; [discriminate |].
  destruct (@betweenness_scores G HwfG Habs) as [btw [Hbtw Hb]].
  rewrite Hbtw in Hrun.
  destruct (all_pairs_mean_shortest_path_length G) as [aspl |];
    [| discriminate].
  destruct (overlay (List.length (e0 :: es)) bg clip) as [|p inter];
    [discriminate |].
  injection Hrun as <-. rewrite bg_metrics_rows.
  apply Forall_forall. intros r Hr. apply in_map_iff in Hr.
  destruct Hr as [b [<- _]]. unfold row_of.
  cbn [betweenness_mean betweenness_p90].
  set (g := nodes_of (sjoin (node_rows G btw aspl) bg within)
                     (bg_GEOID_BG b)).
  assert (Hval : forall x, In x (map j_betweenness g) -> nan_or_in_range 0 1 x).
  { intros x Hx. apply in_map_iff in Hx. destruct Hx as [jr [<- Hjr]].
    unfold g, nodes_of in Hjr. apply filter_In in Hjr. destruct Hjr as [Hjr _].
    apply sjoin_values in Hjr. destruct Hjr as [n [Hn [-> _]]].
    exact (@node_rows_betweenness G btw aspl n Hb Hn). }
  split; apply stat_range.
  - now apply mean_in_range.
  - apply quantile_in_range; [lra | lra | exact Hval].
Qed.

Lemma kept_larger_block : no_absorption ReductionFacts.larger_block.
Proof. apply no_absorptionb_sound. vm_compute. reflexivity. Qed.

Lemma aggregated_betweenness_in_unit_interval_witness :
  exists rows,
    computemetrics ReductionFacts.two_blocks blocks_layer
      within_first AggregationFacts.clip2 = Some rows /\
    Forall (fun r => nan_or_in_range 0 1 (betweenness_mean r) /\
                     nan_or_in_range 0 1 (betweenness_p90 r)) rows.
Proof.
  eexists. split; [vm_compute; reflexivity |].
  apply (@aggregated_betweenness_in_unit_interval ReductionFacts.two_blocks
           ReductionFacts.larger_block blocks_layer within_first
           AggregationFacts.clip2).
  - exact ReductionFacts.wf_two_blocks.
  - vm_compute. reflexivity.
  - exact kept_larger_block.
  - vm_compute. reflexivity.
Defined.

End OutputFacts.

(* ===================================================================== *)
(** * Claims on the rows the run writes *)
(* ===================================================================== *)

Module RunClaims.

Import Graph GraphFacts Paths Betweenness.
Import Table TableFacts TableClaims AggregationFacts.
Import Pipeline PipelineFacts OutputFacts.
Local Open Scope string_scope.
Local Open Scope Q_scope.

(** The output row of a polygon from its joined nodes and its clipped
    pieces. *)
Definition row_with (b : bg_row) (g : list joined_row) (h : list inter_row)
  : metrics_row :=
  let cnt := stat g (fun g => of_nat (List.length g)) in
  let km := stat h (fun h => Stats.sum (map len_km h)) in
  {| GEOID_BG := bg_GEOID_BG b;
     area_km2 := area_of b;
     nodes_in_bg := cnt;
     edges_km := km;
     node_density := fdiv cnt (area_of b);
     edge_km_density := fdiv km (area_of b);
     betweenness_mean := stat g (fun g => Stats.mean (map j_betweenness g));
     betweenness_p90 :=
       stat g (fun g => Stats.quantile (9 # 10) (map j_betweenness g));
     aspl_mean := stat g (fun g => Stats.mean (map j_aspl g)) |}.

(** On a layer with distinct keys the row of the [i]-th polygon is made
    of the nodes within that polygon and of the parts of the edges
    inside it. *)
Lemma polygon_row : forall nodes bg within n_edges clip i b,
  NoDup (map bg_GEOID_BG bg) -> nth_error bg i = Some b ->
  nth_error (bg_metrics bg (sjoin nodes bg within) (overlay n_edges bg clip)) i
  = Some (row_with b
            (map (joined (bg_GEOID_BG b))
                 (filter (fun n => within (n_osmid n) i) nodes))
            (map (piece (bg_GEOID_BG b)) (clipped_lengths n_edges clip i))).
Proof.
  intros nodes bg within n_edges clip i b Hnd Hi.
  rewrite bg_metrics_rows, nth_error_map, Hi. cbn [option_map]. f_equal.
  unfold row_of.
  rewrite (@sjoin_group nodes bg within i b Hnd Hi).
  rewrite (@overlay_group n_edges bg clip i b Hnd Hi).
  reflexivity.
Qed.

(** A run that writes a table has gone through every step. *)
Lemma run_rows : forall G0 G L within clip rows,
  largest_component G0 = Some G ->
  computemetrics G0 L within clip = Some rows ->
  exists btw aspl,
    betweenness_centrality G = Some btw /\
    all_pairs_mean_shortest_path_length G = Some aspl /\
    features L <> [] /\ keyed L = Some (map (bg_of L) (features L)) /\
    edges G <> [] /\
    overlay (List.length (edges G)) (map (bg_of L) (features L)) clip <> [] /\
    rows = bg_metrics (map (bg_of L) (features L))
             (sjoin (node_rows G btw aspl) (map (bg_of L) (features L)) within)
             (overlay (List.length (edges G)) (map (bg_of L) (features L)) clip).
Proof.
  intros G0 G L within clip rows HG Hrun.
  unfold computemetrics in Hrun. rewrite HG in Hrun.
  destruct (features L) as [|f0 fs] eqn:Hf; [discriminate |].
  destruct (keyed L) as [bg |] eqn:Hk; [| discriminate].
  apply keyed_some in Hk. rewrite Hf in Hk. subst bg.
  destruct (edges G) as [|e0 es] eqn:He; [discriminate |].
  destruct (betweenness_centrality G) as [btw |]; [| discriminate].
  destruct (all_pairs_mean_shortest_path_length G) as [aspl |];
    [| discriminate].
  destruct (overlay (List.length (e0 :: es)) (map (bg_of L) (f0 :: fs)) clip)
    as [|p inter] eqn:Ho; [discriminate |].
  injection Hrun as <-. exists btw, aspl.
  repeat split; try reflexivity; discriminate.
Qed.

Lemma node_rows_ids : forall G btw aspl n,
  In n (node_rows G btw aspl) -> In (n_osmid n) (nodes G).
Proof.
  intros G btw aspl n H. unfold node_rows in H. apply in_map_iff in H.
  destruct H as [v [<- Hv]]. exact Hv.
Qed.

Lemma filter_ext_in_nodes : forall (p q : node_row -> bool) l,
  (forall n, In n l -> p n = q n) -> filter p l = filter q l.
Proof.
  intros p q. induction l as [|a r IH]; intros H; [reflexivity |].
  simpl. rewrite (H a (or_introl eq_refl)), IH; [reflexivity |].
  intros n Hn. apply H. now right.
Qed.

Lemma clipped_lengths_ext : forall n (clip clip' : nat -> nat -> option Q) i j,
  (forall e, (e < n)%nat -> clip' e j = clip e i) ->
  clipped_lengths n clip' j = clipped_lengths n clip i.
Proof.
  intros n clip clip' i j H. unfold clipped_lengths.
  assert (Hgen : forall l, (forall e, In e l -> (e < n)%nat) ->
            flat_map (fun e => match clip' e j with
                               | Some len => [len] | None => [] end) l
            = flat_map (fun e => match clip e i with
                                 | Some len => [len] | None => [] end) l).
  { induction l as [|e r IH]; intros Hl; [reflexivity |]. simpl.
    rewrite (H e (Hl e (or_introl eq_refl))). f_equal. apply IH.
    intros x Hx. apply Hl. now right. }
  apply Hgen. intros e He. apply in_seq in He. lia.
Qed.

Lemma clipped_lengths_nil : forall n (clip : nat -> nat -> option Q) i,
  (forall e, (e < n)%nat -> clip e i = None) -> clipped_lengths n clip i = [].
Proof.
  intros n clip i H. unfold clipped_lengths.
  assert (Hgen : forall l, (forall e, In e l -> (e < n)%nat) ->
            flat_map (fun e => match clip e i with
                               | Some len => [len] | None => [] end) l = []).
  { induction l as [|e r IH]; intros Hl; [reflexivity |]. simpl.
    rewrite (H e (Hl e (or_introl eq_refl))). simpl. apply IH.
    intros x Hx. apply Hl. now right. }
  apply Hgen. intros e He. apply in_seq in He. lia.
Qed.

Lemma map_bg_keys : forall L,
  map bg_GEOID_BG (map (bg_of L) (features L)) = map (key_of L) (features L).
Proof. intros L. rewrite map_map. reflexivity. Qed.

Lemma run_graph : forall G0 L within clip rows,
  computemetrics G0 L within clip = Some rows ->
  exists G, largest_component G0 = Some G.
Proof.
  intros G0 L within clip rows H. unfold computemetrics in H.
  destruct (largest_component G0) as [G |]; [now exists G | discriminate].
Qed.

(** ** Rows and areas *)

(** Streets that meet the first polygon of a layer only. *)
Definition clip_first (e i : nat) : option Q :=
  match i with O => Some 80 | _ => None end.

(** A layer whose second feature has no geometry. *)
Definition gap_layer : layer :=
  {| features :=
       [ {| f_geometry_area := Fin 500000;
            f_GEOID_BG := "170318203001"; f_GEOID := "" |};
         {| f_geometry_area := NaN;
            f_GEOID_BG := "170318203002"; f_GEOID := "" |} ];
     has_GEOID_BG := true;
     has_GEOID := false |}.

(** The run on the two blocks of streets and on a layer whose second
    feature has no geometry writes both rows; the area of the second
    is missing.  On a layer that no edge meets, here the second feature
    alone, the run stops and writes no table. *)
Lemma missing_geometry_has_no_area :
  (exists rows,
      computemetrics ReductionFacts.two_blocks gap_layer within_first clip_first
      = Some rows /\
      map GEOID_BG rows = ["170318203001"; "170318203002"]%string /\
      map area_km2 rows = [Fin (1 # 2); NaN]) /\
  computemetrics ReductionFacts.two_blocks
    {| features := tl (features gap_layer);
       has_GEOID_BG := true; has_GEOID := false |}
    (fun _ _ => false) (fun _ _ => None) = None.
Proof.
  split; [| vm_compute; reflexivity].
  eexists. split; [vm_compute; reflexivity |]. split; reflexivity.
Qed.

(** C9, amended.  A table that the run writes has one row per feature
    of the polygon layer, in the order of the layer and with the key of
    the feature, whatever nodes or edges fall in it; the area of a row
    is the area of the feature's geometry in km2, a number whenever
    that geometry has an area.  And the run does write the table on a
    street graph without negative lengths as soon as the layer has a
    feature and a key column and one edge of the reduced graph meets
    one polygon. *)
Theorem one_row_per_block_group : forall G0 L within clip,
  (forall rows,
      computemetrics G0 L within clip = Some rows ->
      List.length rows = List.length (features L) /\
      map GEOID_BG rows = map (key_of L) (features L) /\
      map area_km2 rows
      = map (fun f => fdiv (f_geometry_area f) (Fin 1000000)) (features L) /\
      forall i f a,
        nth_error (features L) i = Some f -> f_geometry_area f = Fin a ->
        exists r, nth_error rows i = Some r /\
                  is_value (area_km2 r) (a / 1000000)) /\
  (wf_graph G0 -> nonneg_lengths G0 ->
   features L <> [] -> (has_GEOID_BG L || has_GEOID L)%bool = true ->
   (exists G e i,
       largest_component G0 = Some G /\
       (e < List.length (edges G))%nat /\
       (i < List.length (features L))%nat /\ clip e i <> None) ->
   exists rows, computemetrics G0 L within clip = Some rows).
Proof.
  intros G0 L within clip. split.
  - intros rows Hrun.
    destruct (@run_graph G0 L within clip rows Hrun) as [G HG].
    destruct (@run_rows G0 G L within clip rows HG Hrun)
      as [btw [aspl [_ [_ [_ [_ [_ [_ ->]]]]]]]].
    destruct (rows_of_layer (map (bg_of L) (features L))
                (sjoin (node_rows G btw aspl) (map (bg_of L) (features L)) within)
                (overlay (List.length (edges G)) (map (bg_of L) (features L)) clip))
      as [Hlen [Hkeys Hareas]].
    split; [rewrite Hlen; apply length_map |].
    split; [rewrite Hkeys; apply map_bg_keys |].
    split; [rewrite Hareas, map_map; reflexivity |].
    intros i f a Hi Ha.
    rewrite bg_metrics_rows, nth_error_map, nth_error_map, Hi.
    cbn [option_map]. eexists. split; [reflexivity |].
    unfold row_of. cbn [area_km2]. apply area_of_value. exact Ha.
  - intros Hwf Hnn Hf Hkey [G [e [i [HG [He [Hi Hc]]]]]].
    destruct (@computemetrics_run G0 L within clip Hwf Hnn)
      as [[Hn Hrun] | [G' [btw [aspl [Hn [HG' [_ [_ [_ [_ [_ [_ Hrun]]]]]]]]]]]].
    { exfalso. unfold largest_component, is_connected in HG.
      simpl nodes in HG. rewrite Hn in HG. discriminate. }
    rewrite HG in HG'. injection HG' as <-. rewrite Hrun.
    destruct (features L) as [|f0 fs] eqn:Hfs; [congruence |].
    unfold keyed. rewrite Hkey, Hfs.
    destruct (edges G) as [|e0 es] eqn:Hes; [simpl in He; lia |].
    destruct (overlay (List.length (e0 :: es)) (map (bg_of L) (f0 :: fs)) clip)
      as [|p inter] eqn:Ho; [| eexists; reflexivity].
    exfalso. apply Hc. apply (proj1 (overlay_nil _ _ _) Ho e i He).
    now rewrite length_map.
Qed.

(** ** Degenerate block groups *)

(** A layer in which two features share a key; no node lies within the
    second. *)
Definition twin_layer : layer :=
  {| features :=
       [ {| f_geometry_area := Fin 500000;
            f_GEOID_BG := "170318203001"; f_GEOID := "" |};
         {| f_geometry_area := Fin 250000;
            f_GEOID_BG := "170318203001"; f_GEOID := "" |} ];
     has_GEOID_BG := true;
     has_GEOID := false |}.

(** Two ways the claim fails.  When no edge meets a polygon, every
    block group has zero intersecting edge length and the run stops,
    where it runs through on the same graph and layer with edges
    inside.  And a block group to which no node is assigned, but whose
    key another one shares, gets the node count of its namesake, 2,
    not a missing value. *)
Lemma degenerate_layer_stops_run :
  computemetrics ReductionFacts.two_blocks blocks_layer within_first
    (fun _ _ => None) = None /\
  (exists rows,
      computemetrics ReductionFacts.two_blocks blocks_layer within_first
        clip_first = Some rows) /\
  (forall v, within_first v 1 = false) /\
  (exists rows,
      computemetrics ReductionFacts.two_blocks twin_layer within_first
        clip_first = Some rows /\
      map nodes_in_bg rows = [Fin 2; Fin 2]).
Proof.
  split; [vm_compute; reflexivity |].
  split; [eexists; vm_compute; reflexivity |].
  split.
  - intros v. unfold within_first. cbn [Nat.eqb]. apply andb_false_r.
  - eexists. split; [vm_compute; reflexivity | reflexivity].
Qed.

(** C4, amended.  On a layer with distinct keys, in a table that the
    run writes, the row of a block group within which no node of the
    reduced graph lies has a missing node count, mean and 0.90
    quantile of betweenness, mean ASPL and node density; the row of one
    that no edge meets has a missing summed length and edge density.
    A row depends on nothing but its own block group: it is the same
    in every run on the same graph in which a block group has its key
    and area, the same nodes within and the same parts of edges
    inside.  And once a run on the graph has written a table, a run on
    another layer stops only if the layer has no feature or no key
    column, or if no edge meets any of its polygons: no single block
    group stops it. *)
Theorem degenerate_block_groups : forall G0 G L within clip rows i f,
  largest_component G0 = Some G ->
  NoDup (map (key_of L) (features L)) ->
  computemetrics G0 L within clip = Some rows ->
  nth_error (features L) i = Some f ->
  exists r,
    nth_error rows i = Some r /\ GEOID_BG r = key_of L f /\
    ((forall v, In v (nodes G) -> within v i = false) ->
     nodes_in_bg r = NaN /\ betweenness_mean r = NaN /\
     betweenness_p90 r = NaN /\ aspl_mean r = NaN /\ node_density r = NaN) /\
    ((forall e, (e < List.length (edges G))%nat -> clip e i = None) ->
     edges_km r = NaN /\ edge_km_density r = NaN) /\
    (forall L' within' clip' rows' j f',
        NoDup (map (key_of L') (features L')) ->
        computemetrics G0 L' within' clip' = Some rows' ->
        nth_error (features L') j = Some f' ->
        key_of L' f' = key_of L f ->
        f_geometry_area f' = f_geometry_area f ->
        (forall v, In v (nodes G) -> within' v j = within v i) ->
        (forall e, (e < List.length (edges G))%nat -> clip' e j = clip e i) ->
        nth_error rows' j = Some r) /\
    (forall L' within' clip',
        features L' <> [] ->
        (has_GEOID_BG L' || has_GEOID L')%bool = true ->
        (exists e j, (e < List.length (edges G))%nat /\
                     (j < List.length (features L'))%nat /\
                     clip' e j <> None) ->
        computemetrics G0 L' within' clip' <> None).
Proof.
  intros G0 G L within clip rows i f HG Hnd Hrun Hi.
  destruct (@run_rows G0 G L within clip rows HG Hrun)
    as [btw [aspl [Hb [Ha [_ [_ [He [_ ->]]]]]]]].
  set (bg := map (bg_of L) (features L)).
  assert (Hndbg : NoDup (map bg_GEOID_BG bg))
    by (unfold bg; now rewrite map_bg_keys).
  assert (Hbi : nth_error bg i = Some (bg_of L f))
    by (unfold bg; now rewrite nth_error_map, Hi).
  eexists.
  split; [exact (@polygon_row _ bg within _ clip i _ Hndbg Hbi) |].
  split; [reflexivity |].
  split; [| split; [| split]].
  - intros Hno.
    assert (Hnil : filter (fun n => within (n_osmid n) i) (node_rows G btw aspl)
                   = []).
    { apply filter_nil_iff. intros n Hn. apply Hno.
      now apply node_rows_ids in Hn. }
    rewrite Hnil. cbn. auto.
  - intros Hno. rewrite (@clipped_lengths_nil _ clip i Hno). cbn. auto.
  - intros L' within' clip' rows' j f' Hnd' Hrun' Hj Hkey Harea Hwin Hclip.
    destruct (@run_rows G0 G L' within' clip' rows' HG Hrun')
      as [btw' [aspl' [Hb' [Ha' [_ [_ [_ [_ ->]]]]]]]].
    rewrite Hb in Hb'. injection Hb' as <-.
    rewrite Ha in Ha'. injection Ha' as <-.
    set (bg' := map (bg_of L') (features L')).
    assert (Hndbg' : NoDup (map bg_GEOID_BG bg'))
      by (unfold bg'; now rewrite map_bg_keys).
    assert (Hbj : nth_error bg' j = Some (bg_of L' f'))
      by (unfold bg'; now rewrite nth_error_map, Hj).
    rewrite (@polygon_row _ bg' within' _ clip' j _ Hndbg' Hbj).
    assert (Hsame : bg_of L' f' = bg_of L f)
      by (unfold bg_of; now rewrite Hkey, Harea).
    rewrite Hsame. f_equal. f_equal.
    + f_equal. apply filter_ext_in_nodes. intros n Hn. apply Hwin.
      now apply node_rows_ids in Hn.
    + f_equal. now apply clipped_lengths_ext.
  - intros L' within' clip' Hf' Hkey' [e [j [Hlt [Hj Hc]]]] Hnone.
    unfold computemetrics in Hnone. rewrite HG in Hnone.
    destruct (features L') as [|f0 fs] eqn:Hfs; [congruence |].
    unfold keyed in Hnone. rewrite Hkey', Hfs in Hnone.
    destruct (edges G) as [|e0 es] eqn:Hes; [congruence |].
    rewrite Hb, Ha in Hnone.
    destruct (overlay (List.length (e0 :: es)) (map (bg_of L') (f0 :: fs)) clip')
      as [|p inter] eqn:Ho; [| discriminate].
    apply Hc. apply (proj1 (overlay_nil _ _ _) Ho e j Hlt).
    now rewrite length_map.
Qed.

Lemma blocks_layer_keys :
  NoDup (map (key_of blocks_layer) (features blocks_layer)).
Proof.
  simpl. repeat constructor; simpl; intuition discriminate.
Qed.

Lemma degenerate_block_groups_witness :
  exists rows r,
    computemetrics ReductionFacts.two_blocks blocks_layer within_first
      clip_first = Some rows /\
    nth_error rows 1 = Some r /\
    GEOID_BG r = "170318203002"%string /\
    nodes_in_bg r = NaN /\ node_density r = NaN /\
    edges_km r = NaN /\ edge_km_density r = NaN.
Proof.
  assert (Hrun : exists rows,
             computemetrics ReductionFacts.two_blocks blocks_layer within_first
               clip_first = Some rows)
    by (eexists; vm_compute; reflexivity).
  destruct Hrun as [rows Hrun]. exists rows.
  destruct (@degenerate_block_groups ReductionFacts.two_blocks
              ReductionFacts.larger_block blocks_layer within_first clip_first
              rows 1%nat
              {| f_geometry_area := Fin 250000;
                 f_GEOID_BG := "170318203002"; f_GEOID := "" |}
              eq_refl blocks_layer_keys Hrun eq_refl)
    as [r [Hr [Hk [Hnodes [Hedges _]]]]].
  exists r. split; [exact Hrun |]. split; [exact Hr |]. split; [exact Hk |].
  destruct Hnodes as [H1 [_ [_ [_ H5]]]].
  { intros v _. unfold within_first. cbn [Nat.eqb]. apply andb_false_r. }
  destruct Hedges as [H6 H7]; [intros e _; reflexivity |].
  auto.
Defined.

End RunClaims.

(* ===================================================================== *)
(** * Percentages: guards, rounding and the range check *)
(* ===================================================================== *)

Module RateFacts.

Import Rates FloatFacts StatsFacts.
Local Open Scope Q_scope.

(** ** Rounding *)

(** Rounding to two decimals moves a number by at most 0.005 and stays
    within integer bounds. *)
Lemma round2_value : forall q,
  exists r, round2 (Fin q) = Fin r /\
            - (1 # 200) <= r - q /\ r - q <= 1 # 200 /\
            forall lo hi : Z, inject_Z lo <= q -> q <= inject_Z hi ->
                              inject_Z lo <= r /\ r <= inject_Z hi.
Proof.
  intros q. eexists. split; [reflexivity |].
  rewrite Qred_correct.
  destruct (rint_close (q * 100)) as [C1 C2].
  set (z := inject_Z (rint (q * 100))) in *.
  assert (Hdiv : z / 100 == z * (1 # 100)) by (unfold Qdiv; reflexivity).
  rewrite Hdiv. split; [lra |]. split; [lra |].
  intros lo hi Hlo Hhi.
  assert (H1 : (lo * 100 <= rint (q * 100))%Z).
  { apply rint_ge. rewrite inject_Z_mult. change (inject_Z 100) with 100. lra. }
  assert (H2 : (rint (q * 100) <= hi * 100)%Z).
  { apply rint_le. rewrite inject_Z_mult. change (inject_Z 100) with 100. lra. }
  rewrite Zle_Qle, inject_Z_mult in H1, H2.
  change (inject_Z 100) with 100 in H1, H2. fold z in H1, H2.
  rewrite Qred_correct, Hdiv. split; lra.
Qed.

(** ** The three ways the scripts compute a percentage *)

(** Counts that fit together: a part of a whole, [0 <= n <= d]; a
    missing count fits with anything. *)
Definition consistent (n d : float64) : Prop :=
  match n, d with
  | NaN, _ | _, NaN => True
  | Fin a, Fin b => 0 <= a /\ a <= b
  | _, _ => False
  end.

Lemma Qle_bool_false : forall a b, Qle_bool a b = false <-> b < a.
Proof.
  intros a b. split.
  - intros H. apply Qnot_le_lt. intros Hle.
    apply Qle_bool_iff in Hle. congruence.
  - intros H. destruct (Qle_bool a b) eqn:Hb; [| reflexivity].
    apply Qle_bool_iff in Hb. lra.
Qed.

Lemma Qeq_bool_false : forall a b, a < b -> Qeq_bool b a = false.
Proof.
  intros a b H. destruct (Qeq_bool b a) eqn:Hb; [| reflexivity].
  apply Qeq_bool_iff in Hb. lra.
Qed.

Lemma Qsign_pos : forall q, 0 < q -> Qsign q = Gt.
Proof. intros q H. unfold Qsign. now apply Qgt_alt. Qed.

Lemma Qsign_zero : forall q, q == 0 -> Qsign q = Eq.
Proof. intros q H. unfold Qsign. now apply Qeq_alt. Qed.

Lemma flt_false : forall a b, b <= a -> flt (Fin a) (Fin b) = false.
Proof.
  intros a b H. cbn [flt]. destruct (a ?= b) eqn:Hc; try reflexivity.
  apply Qlt_alt in Hc. lra.
Qed.

Lemma flt_true : forall a b, a < b -> flt (Fin a) (Fin b) = true.
Proof.
  intros a b H. cbn [flt]. destruct (a ?= b) eqn:Hc; try reflexivity.
  - apply Qeq_alt in Hc. lra.
  - apply Qgt_alt in Hc. lra.
Qed.

(** What the checker of [checkinputs.py] lets through: a missing cell
    or a number from -0.01 to 100.01; an infinity is refused. *)
Lemma bad_rate_false : forall x,
  bad_rate x = false <-> nan_or_in_range (- (1 # 100)) (10001 # 100) x.
Proof.
  intros x. unfold bad_rate, nan_or_in_range.
  destruct x as [q | | |]; cbn [is_nan negb andb in_range].
  - destruct (Qlt_le_dec q (- (1 # 100))) as [H1 | H1].
    { rewrite (flt_true H1). cbn [orb]. split; [discriminate |].
      intros [H | [H _]]; [discriminate | lra]. }
    rewrite (flt_false H1). cbn [orb].
    destruct (Qlt_le_dec (10001 # 100) q) as [H2 | H2].
    { rewrite (flt_true H2). split; [discriminate |].
      intros [H | [_ H]]; [discriminate | lra]. }
    rewrite (flt_false H2). split; [right; now split | reflexivity].
  - split; [discriminate | intros [H | []]; discriminate].
  - split; [discriminate | intros [H | []]; discriminate].
  - split; [now left | reflexivity].
Qed.

(** X15.  For counts that fit together, a part of a whole, the unguarded
    rate of the download scripts, [safe_rate] and [pct] give the same
    cell: missing over a zero or missing whole, and otherwise a number
    from 0 to 100, which the range check of [checkinputs.py] accepts. *)
Theorem rates_of_consistent_counts : forall n d,
  consistent n d ->
  nan_or_in_range 0 100 (pct n d) /\
  raw_rate n d = pct n d /\ safe_rate n d = pct n d /\
  bad_rate (pct n d) = false.
Proof.
  intros n d H.
  assert (Hmain : nan_or_in_range 0 100 (pct n d) /\
                  raw_rate n d = pct n d /\ safe_rate n d = pct n d).
  { destruct n as [a | | |]; destruct d as [b | | |]; try contradiction;
      try (split; [now left | split; reflexivity]).
    - destruct H as [Ha Hab]. unfold pct, raw_rate, safe_rate.
      cbn [fle feq is_nan orb].
      destruct (Qlt_le_dec 0 b) as [Hb | Hb].
      + assert (H1 : Qle_bool b 0 = false) by (now apply Qle_bool_false).
        rewrite H1, (Qeq_bool_false Hb). cbn [mask orb].
        split; [| split; reflexivity].
        cbn [fdiv]. rewrite (Qsign_pos Hb). cbn [fmul].
        set (v := Qred (Qred (a / b) * 100)).
        assert (Hv : 0 <= v /\ v <= 100).
        { unfold v. rewrite !Qred_correct. split.
          - apply Qmult_le_0_compat; [| lra].
            apply Qle_shift_div_l; [exact Hb | lra].
          - assert (a / b <= 1) by (apply Qle_shift_div_r; [exact Hb | lra]).
            lra. }
        destruct (round2_value v) as [r [Hr [_ [_ Hbd]]]].
        rewrite Hr. right. cbn [in_range].
        apply (Hbd 0%Z 100%Z); apply Hv.
      + assert (Hz : b == 0) by lra. assert (Haz : a == 0) by lra.
        assert (H1 : Qle_bool b 0 = true) by (apply Qle_bool_iff; lra).
        assert (H2 : Qeq_bool b 0 = true) by (now apply Qeq_bool_iff).
        rewrite H1, H2. cbn [mask orb round2 fdiv].
        rewrite (Qsign_zero Hz), (Qsign_zero Haz). cbn [fmul round2].
        split; [now left | split; reflexivity].
    - unfold pct, raw_rate, safe_rate. cbn [fle feq is_nan fdiv fmul].
      rewrite !orb_true_r. cbn [mask round2].
      split; [now left | split; reflexivity]. }
  destruct Hmain as [Hr [H1 H2]].
  split; [exact Hr |]. split; [exact H1 |]. split; [exact H2 |].
  apply bad_rate_false. destruct Hr as [-> | Hr]; [now left |].
  right. destruct (pct n d) as [q | | |]; try contradiction.
  destruct Hr as [A B]. cbn [in_range]. split; lra.
Qed.

Lemma rates_of_consistent_counts_witness :
  nan_or_in_range 0 100 (pct (Fin 1) (Fin 3)) /\
  raw_rate (Fin 1) (Fin 3) = pct (Fin 1) (Fin 3) /\
  safe_rate (Fin 1) (Fin 3) = pct (Fin 1) (Fin 3) /\
  bad_rate (pct (Fin 1) (Fin 3)) = false.
Proof.
  apply (@rates_of_consistent_counts (Fin 1) (Fin 3)).
  simpl. split; discriminate.
Defined.

(** X16.  [pct] of two numbers: missing for a whole that is zero or
    negative; for a positive whole the quotient in percent, rounded to
    two decimals, at most 0.005 away from the exact value. *)
Theorem pct_value : forall a b,
  (b <= 0 -> pct (Fin a) (Fin b) = NaN) /\
  (0 < b -> exists r, pct (Fin a) (Fin b) = Fin r /\
                      - (1 # 200) <= r - 100 * a / b /\
                      r - 100 * a / b <= 1 # 200).
Proof.
  intros a b. unfold pct. cbn [fle is_nan]. split.
  - intros Hb. apply Qle_bool_iff in Hb. now rewrite Hb.
  - intros Hb. apply Qle_bool_false in Hb as H1. rewrite H1.
    cbn [orb mask fdiv]. rewrite (Qsign_pos Hb). cbn [fmul].
    destruct (round2_value (Qred (Qred (a / b) * 100))) as [r [Hr [C1 [C2 _]]]].
    exists r. split; [exact Hr |].
    rewrite !Qred_correct in C1, C2.
    assert (He : 100 * a / b == a / b * 100) by (field; lra).
    rewrite He. split; assumption.
Qed.

(** X17.  [pct_change] returns nothing for an old value of zero; otherwise
    the change in percent of the old value, rounded to two decimals, at
    most 0.005 away from the exact value. *)
Theorem pct_change_value : forall new old,
  (old == 0 -> pct_change (Fin new) (Fin old) = None) /\
  (~ old == 0 ->
   exists r, pct_change (Fin new) (Fin old) = Some (Fin r) /\
             - (1 # 200) <= r - (new - old) / old * 100 /\
             r - (new - old) / old * 100 <= 1 # 200).
Proof.
  intros new old. unfold pct_change. cbn [feq]. split.
  - intros H. apply Qeq_bool_iff in H. now rewrite H.
  - intros H.
    assert (H0 : Qeq_bool old 0 = false).
    { destruct (Qeq_bool old 0) eqn:Hb; [| reflexivity].
      apply Qeq_bool_iff in Hb. contradiction. }
    rewrite H0. cbn [fneg fadd fdiv].
    assert (Hs : Qsign old <> Eq).
    { unfold Qsign. intros Hc. apply Qeq_alt in Hc. contradiction. }
    assert (Hd : match Qsign old with
                 | Eq => match Qsign (Qred (new + Qred (- old))) with
                         | Gt => PInf | Lt => NInf | Eq => NaN end
                 | _ => Fin (Qred (Qred (new + Qred (- old)) / old))
                 end = Fin (Qred (Qred (new + Qred (- old)) / old))).
    { destruct (Qsign old); [contradiction | reflexivity | reflexivity]. }
    rewrite Hd. cbn [fmul].
    destruct (round2_value
                (Qred (Qred (Qred (new + Qred (- old)) / old) * 100)))
      as [r [Hr [C1 [C2 _]]]].
    exists r. split; [now rewrite Hr |].
    rewrite !Qred_correct in C1, C2.
    assert (He : (new - old) / old * 100 == (new + - old) / old * 100)
      by reflexivity.
    rewrite He. split; assumption.
Qed.

(** X18.  The range check lets a table through exactly when every cell of a
    rate column is missing or a number from -0.01 to 100.01; an
    infinite rate stops the run. *)
Theorem check_rates_accepts : forall cols,
  check_rates cols = Geoid.Done tt <->
  forall c col x, In (c, col) cols -> In x col ->
                  nan_or_in_range (- (1 # 100)) (10001 # 100) x.
Proof.
  induction cols as [|[c col] r IH]; cbn [check_rates].
  - split; [intros _ c col x [] | reflexivity].
  - destruct (existsb bad_rate col) eqn:Hb.
    + split; [discriminate |]. intros H. exfalso.
      apply existsb_exists in Hb. destruct Hb as [x [Hx Hbad]].
      assert (Hok : bad_rate x = false).
      { apply bad_rate_false. apply (H c col x); [now left | exact Hx]. }
      congruence.
    + rewrite IH. split.
      * intros H c' col' x [He | Hin] Hx.
        -- injection He as <- <-. apply bad_rate_false.
           destruct (bad_rate x) eqn:Hbx; [| reflexivity].
           assert (Ht : existsb bad_rate col = true)
             by (apply existsb_exists; now exists x).
           congruence.
        -- now apply (H c' col' x).
      * intros H c' col' x Hin Hx. apply (H c' col' x); [now right | exact Hx].
Qed.

(** A positive count over a whole of zero makes the unguarded rate of
    the download scripts infinite, and the checker stops on it. *)
Example unguarded_rate_is_refused :
  raw_rate (Fin 3) (Fin 0) = PInf /\
  check_rates [("owner_pct"%string, [Fin 50; raw_rate (Fin 3) (Fin 0)])]
  = Geoid.Abort "Out-of-range values in owner_pct".
Proof. split; reflexivity. Qed.

End RateFacts.

(* ===================================================================== *)
(** * Rows kept and dropped by the merges *)
(* ===================================================================== *)

Module MergeFacts.

Import Table TableFacts Joins.

Section Rows.

Variables L R : Type.
Variable keyL : L -> key.
Variable keyR : R -> key.

Definition partners (right : list R) (l : L) : list R :=
  filter (fun r => String.eqb (keyR r) (keyL l)) right.

Lemma in_merge_left_some : forall left right l r,
  In (l, Some r) (merge_left keyL keyR left right) <->
  In l left /\ In r right /\ keyR r = keyL l.
Proof.
  intros left right l r. unfold merge_left. rewrite in_flat_map. split.
  - intros [l0 [Hl0 Hin]]. fold (partners right l0) in Hin.
    destruct (partners right l0) as [|h hs] eqn:Hp.
    + destruct Hin as [He | []]. discriminate.
    + apply in_map_iff in Hin. destruct Hin as [r0 [He Hr0]].
      injection He as <- <-. rewrite <- Hp in Hr0.
      apply filter_In in Hr0. destruct Hr0 as [Hr0 Hk].
      apply String.eqb_eq in Hk. auto.
  - intros [Hl [Hr Hk]]. exists l. split; [exact Hl |].
    fold (partners right l).
    assert (Hin : In r (partners right l)).
    { apply filter_In. split; [exact Hr | now apply String.eqb_eq]. }
    destruct (partners right l) as [|h hs]; [contradiction |].
    apply in_map_iff. now exists r.
Qed.

Lemma in_merge_left_none : forall left right l,
  In (l, None) (merge_left keyL keyR left right) <->
  In l left /\ ~ In (keyL l) (map keyR right).
Proof.
  intros left right l. unfold merge_left. rewrite in_flat_map. split.
  - intros [l0 [Hl0 Hin]]. fold (partners right l0) in Hin.
    destruct (partners right l0) as [|h hs] eqn:Hp.
    + destruct Hin as [He | []]. injection He as ->. split; [exact Hl0 |].
      intros Hk. apply in_map_iff in Hk. destruct Hk as [r [Hk Hr]].
      assert (Hin : In r (partners right l)).
      { apply filter_In. split; [exact Hr | now apply String.eqb_eq]. }
      rewrite Hp in Hin. contradiction.
    + apply in_map_iff in Hin. destruct Hin as [r0 [He _]]. discriminate.
  - intros [Hl Hk]. exists l. split; [exact Hl |].
    rewrite (@filter_key_absent R keyR right (keyL l) Hk). now left.
Qed.

Lemma merge_left_left_rows : forall left right l,
  In l left -> In l (map fst (merge_left keyL keyR left right)).
Proof.
  intros left right l Hl. apply in_map_iff.
  destruct (partners right l) as [|h hs] eqn:Hp.
  - exists (l, None). split; [reflexivity |].
    apply in_merge_left_none. split; [exact Hl |].
    intros Hk. apply in_map_iff in Hk. destruct Hk as [r [Hk Hr]].
    assert (Hin : In r (partners right l)).
    { apply filter_In. split; [exact Hr | now apply String.eqb_eq]. }
    rewrite Hp in Hin. contradiction.
  - exists (l, Some h). split; [reflexivity |].
    assert (Hin : In h (partners right l)) by (rewrite Hp; now left).
    apply filter_In in Hin. destruct Hin as [Hr Hk].
    apply String.eqb_eq in Hk. apply in_merge_left_some. auto.
Qed.

Lemma merge_left_length : forall left right,
  List.length left <= List.length (merge_left keyL keyR left right).
Proof.
  intros left right. unfold merge_left.
  induction left as [|l rest IH]; [apply Nat.le_refl |].
  cbn [flat_map]. rewrite length_app.
  set (n := List.length (flat_map _ rest)) in *.
  destruct (filter (fun r => String.eqb (keyR r) (keyL l)) right) as [|h hs];
    cbn [List.length map]; lia.
Qed.

Lemma merge_inner_of_left : forall left right,
  merge_inner keyL keyR left right
  = flat_map (fun p : L * option R =>
                match snd p with Some r => [(fst p, r)] | None => [] end)
             (merge_left keyL keyR left right).
Proof.
  intros left right. unfold merge_inner, merge_left.
  induction left as [|l rest IH]; [reflexivity |].
  cbn [flat_map]. rewrite flat_map_app, <- IH. f_equal.
  fold (partners right l).
  destruct (partners right l) as [|h hs]; [reflexivity |].
  generalize (h :: hs). induction l0 as [|x xs IHx]; [reflexivity |].
  cbn [map flat_map snd fst app]. now rewrite <- IHx.
Qed.

Lemma in_merge_inner : forall left right l r,
  In (l, r) (merge_inner keyL keyR left right) <->
  In l left /\ In r right /\ keyR r = keyL l.
Proof.
  intros left right l r. unfold merge_inner. rewrite in_flat_map. split.
  - intros [l0 [Hl0 Hin]]. apply in_map_iff in Hin.
    destruct Hin as [r0 [He Hr0]]. injection He as <- <-.
    apply filter_In in Hr0. destruct Hr0 as [Hr0 Hk].
    apply String.eqb_eq in Hk. auto.
  - intros [Hl [Hr Hk]]. exists l. split; [exact Hl |].
    apply in_map_iff. exists r. split; [reflexivity |].
    apply filter_In. split; [exact Hr | now apply String.eqb_eq].
Qed.

End Rows.

Lemma inner_rows_unique : forall (L R : Type) (keyL : L -> key)
                                 (keyR : R -> key) (right : list R) (l : L),
  NoDup (map keyR right) ->
  map fst (map (fun r => (l, r))
               (filter (fun r => String.eqb (keyR r) (keyL l)) right))
  = if existsb (fun r => String.eqb (keyR r) (keyL l)) right then [l] else [].
Proof.
  intros L R keyL keyR right l.
  induction right as [|r rest IH]; intros Hnd; [reflexivity |].
  cbn [map] in Hnd. inversion Hnd as [| ? ? Hr Hrest]; subst.
  cbn [filter existsb].
  destruct (String.eqb_spec (keyR r) (keyL l)) as [He | Hne].
  - rewrite He in Hr.
    rewrite (@filter_key_absent R keyR rest (keyL l) Hr). reflexivity.
  - cbn [orb]. now apply IH.
Qed.

(** X19.  The left merge of [aggregatetobg.py] (and of [computemetrics.py])
    loses no row of the left table: every left row is in the result, a
    row with partners once per partner of its key, a row without
    partner once with missing right columns; when the keys of the right
    table are distinct the result has the left rows, each once and in
    their order. *)
Theorem left_merge_keeps_every_row :
  forall (L R : Type) (keyL : L -> key) (keyR : R -> key)
         (left : list L) (right : list R),
  (forall l, In l left -> In l (map fst (merge_left keyL keyR left right))) /\
  List.length left <= List.length (merge_left keyL keyR left right) /\
  (forall l r, In (l, Some r) (merge_left keyL keyR left right) <->
               In l left /\ In r right /\ keyR r = keyL l) /\
  (forall l, In (l, None) (merge_left keyL keyR left right) <->
             In l left /\ ~ In (keyL l) (map keyR right)) /\
  (NoDup (map keyR right) ->
   map fst (merge_left keyL keyR left right) = left).
Proof.
  intros L R keyL keyR left right.
  split; [intros l; apply merge_left_left_rows |].
  split; [apply merge_left_length |].
  split; [apply in_merge_left_some |].
  split; [apply in_merge_left_none |].
  intros Hnd. rewrite (@merge_left_unique L R keyL keyR left right Hnd), map_map.
  apply map_id.
Qed.

(** X20.  The inner merge of [robustcheck.py], [analysismaps.py] and
    [HW4/deliverable3.py] is the left merge without its rows that found
    no partner: it pairs exactly the rows of the two tables that have
    the same key, and when the keys of the right table are distinct it
    keeps the left rows that have a partner, each once and in their
    order. *)
Theorem inner_merge_drops_unmatched :
  forall (L R : Type) (keyL : L -> key) (keyR : R -> key)
         (left : list L) (right : list R),
  merge_inner keyL keyR left right
  = flat_map (fun p : L * option R =>
                match snd p with Some r => [(fst p, r)] | None => [] end)
             (merge_left keyL keyR left right) /\
  (forall l r, In (l, r) (merge_inner keyL keyR left right) <->
               In l left /\ In r right /\ keyR r = keyL l) /\
  (NoDup (map keyR right) ->
   map fst (merge_inner keyL keyR left right)
   = filter (fun l => existsb (fun r => String.eqb (keyR r) (keyL l)) right)
            left).
Proof.
  intros L R keyL keyR left right.
  split; [apply merge_inner_of_left |].
  split; [apply in_merge_inner |].
  intros Hnd. unfold merge_inner.
  induction left as [|l rest IH]; [reflexivity |].
  cbn [flat_map filter]. rewrite map_app, IH.
  rewrite (@inner_rows_unique L R keyL keyR right l Hnd).
  destruct (existsb (fun r => String.eqb (keyR r) (keyL l)) right); reflexivity.
Qed.

End MergeFacts.

(* ===================================================================== *)
(** * Nodes without through traffic *)
(* ===================================================================== *)

Module ThroughFacts.

Import Graph GraphFacts Paths Betweenness BetweennessFacts DijkstraFacts.
Local Open Scope Q_scope.

(** ** Predecessors are joined by a street *)

Definition pred_arcs (G : graph) (st : search) : Prop :=
  forall x u, In u (P_ st x) -> arc G u x.

Lemma relax1_arcs : forall G st v dist w c,
  pred_arcs G st -> arc G v w -> pred_arcs G (relax1 v dist st (w, c)).
Proof.
  intros G st v dist w c Hp Hvw. unfold relax1. cbn [fst snd].
  assert (Hnew : forall l, (forall u, In u l -> arc G u w) ->
                           forall x u, In u (upd (P_ st) w l x) -> arc G u x).
  { intros l Hl x u Hu. unfold upd in Hu.
    destruct (Z.eqb_spec x w) as [-> | _]; [now apply Hl | now apply Hp]. }
  destruct (match D_ st w with
            | Some _ => false
            | None => match seen_ st w with
                      | Some sw => qltb (radd dist c) sw
                      | None => true
                      end
            end).
  - intros x u. cbn [P_]. apply Hnew. intros u' [<- | []]. exact Hvw.
  - destruct (seen_ st w) as [sw |]; [| exact Hp].
    destruct (Qeq_bool (radd dist c) sw); [| exact Hp].
    intros x u. cbn [P_]. apply Hnew. intros u' Hu'.
    apply in_app_or in Hu'. destruct Hu' as [Hu' | [<- | []]];
      [now apply Hp | exact Hvw].
Qed.

Lemma fold_relax1_arcs : forall G v dist nbrs st,
  pred_arcs G st -> (forall w c, In (w, c) nbrs -> arc G v w) ->
  pred_arcs G (fold_left (relax1 v dist) nbrs st).
Proof.
  intros G v dist. induction nbrs as [|[w c] r IH]; intros st Hp Hn.
  - exact Hp.
  - cbn [fold_left]. apply IH.
    + apply relax1_arcs; [exact Hp | apply (Hn w c); now left].
    + intros w' c' H. apply (Hn w' c'). now right.
Qed.

Lemma search_loop_arcs : forall G fuel st,
  pred_arcs G st -> pred_arcs G (search_loop fuel G st).
Proof.
  intros G. induction fuel as [|f IH]; intros st Hp; [exact Hp |].
  cbn [search_loop].
  destruct (bpop_min (Q_ st)) as [[[[[dist c] pred] v] rest] |]; [| exact Hp].
  destruct (D_ st v) as [dv |].
  - apply IH. exact Hp.
  - apply IH. apply fold_relax1_arcs; [exact Hp |].
    intros w cw H. apply in_adj. rewrite <- succ_costs_nodes.
    apply in_map_iff. now exists (w, cw).
Qed.

Lemma search_basic_arcs : forall G s,
  pred_arcs G (single_source_dijkstra_path_basic G s).
Proof.
  intros G s. unfold single_source_dijkstra_path_basic.
  apply search_loop_arcs. intros x u [].
Qed.

(** ** A node that is no predecessor collects nothing *)

Lemma spread_other : forall sigma coeff preds delta v,
  ~ In v preds -> spread sigma coeff preds delta v = delta v.
Proof.
  intros sigma coeff. unfold spread.
  induction preds as [|p r IH]; intros delta v Hv; [reflexivity |].
  cbn [fold_left]. rewrite IH by (intros H; apply Hv; now right).
  apply upd_other. intros ->. apply Hv. now left.
Qed.

Lemma accumulate_untouched : forall P sigma s v order delta b b',
  accumulate_basic order P sigma s delta b = Some b' ->
  (forall w, In w order -> ~ In v (P w)) ->
  delta v == 0 -> b' v == b v.
Proof.
  intros P sigma s v. induction order as [|w r IH]; intros delta b b' Hrun Hno Hd.
  - simpl in Hrun. injection Hrun as <-. reflexivity.
  - cbn [accumulate_basic] in Hrun.
    destruct (Qeq_bool (sigma w) 0); [discriminate |].
    set (coeff := Qred ((1 + delta w) / sigma w)) in *.
    assert (Hd' : spread sigma coeff (P w) delta v == 0).
    { rewrite spread_other; [exact Hd | apply Hno; now left]. }
    rewrite (IH _ _ _ Hrun); [| intros x Hx; apply Hno; now right | exact Hd'].
    destruct (Z.eqb w s); [reflexivity |].
    unfold upd. destruct (Z.eqb_spec v w) as [-> | _]; [| reflexivity].
    rewrite Qred_correct, Hd'. ring.
Qed.

(** ** The order of settling *)

Lemma qsum_nil_pos : forall sigma (l : list node),
  0 < qsum sigma l -> exists u, In u l.
Proof.
  intros sigma [|u l] H.
  - simpl in H. apply Qlt_irrefl in H. contradiction.
  - exists u. now left.
Qed.

(** A settled node other than the source has a predecessor settled
    before it. *)
Lemma earlier_pred : forall s P sigma order v,
  good_order s P sigma order -> NoDup order -> In v order -> v <> s ->
  exists u, In u (P v) /\ In u order /\ u <> v.
Proof.
  intros s P sigma. induction order as [|a r IH]; intros v Hg Hnd Hv Hs;
    [contradiction |].
  destruct Hg as [Hpos [Hincl [Hcount Hg]]].
  inversion Hnd as [| ? ? Ha Hr]; subst.
  destruct Hv as [<- | Hv].
  - assert (Hq : 0 < qsum sigma (P a)) by (rewrite <- (Hcount Hs); exact Hpos).
    destruct (qsum_nil_pos _ _ Hq) as [u Hu]. exists u.
    split; [exact Hu |]. split; [right; now apply Hincl |].
    intros ->. apply Ha. now apply Hincl.
  - destruct (IH v Hg Hr Hv Hs) as [u [H1 [H2 H3]]].
    exists u. split; [exact H1 |]. split; [now right | exact H3].
Qed.

(** A predecessor [v] of a settled node [w], other than the source, has
    itself a predecessor that is neither [w] nor [v]. *)
Lemma pred_of_pred : forall s P sigma order w v,
  good_order s P sigma order -> NoDup order -> In w order ->
  In v (P w) -> v <> s ->
  exists u, In u (P v) /\ u <> w /\ u <> v /\ v <> w.
Proof.
  intros s P sigma. induction order as [|a r IH]; intros w v Hg Hnd Hw Hv Hs;
    [contradiction |].
  pose proof Hg as [_ [Hincl [_ Hg']]].
  inversion Hnd as [| ? ? Ha Hr]; subst.
  destruct Hw as [<- | Hw].
  - assert (Hvr : In v r) by (now apply Hincl).
    destruct (@earlier_pred s P sigma r v Hg' Hr Hvr Hs) as [u [H1 [H2 H3]]].
    exists u. split; [exact H1 |].
    split; [intros ->; now apply Ha |].
    split; [exact H3 | intros ->; now apply Ha].
  - now apply (IH w v Hg' Hr Hw Hv Hs).
Qed.

(** ** All sources *)

(** No street leads into [v] from one node and out of [v] to another
    node: [v] is a dead end, the end of a one-way street, the start of
    one, or stands alone. *)
Definition no_through_route (G : graph) (v : node) : Prop :=
  forall u x, arc G u v -> arc G v x -> u = x \/ u = v \/ x = v.

Lemma source_untouched : forall G s v b b',
  wf_graph G -> no_absorption G -> In s (nodes G) ->
  no_through_route G v ->
  accumulate_basic (rev (S_ (single_source_dijkstra_path_basic G s)))
                   (P_ (single_source_dijkstra_path_basic G s))
                   (sigma_ (single_source_dijkstra_path_basic G s))
                   s (fun _ => 0) b = Some b' ->
  b' v == b v.
Proof.
  intros G s v b b' Hwf Habs Hs Hv Hrun.
  destruct (Z.eq_dec v s) as [-> | Hne].
  - destruct (@accumulate_source G Hwf Habs s b Hs) as [b0 [Hb0 Hall]].
    rewrite Hrun in Hb0. injection Hb0 as <-. apply (Hall s).
  - destruct (@search_ok_from G Hwf Habs s Hs) as [Hnd [_ [_ Hgood]]].
    pose proof (search_basic_arcs G s) as Harcs.
    set (st := single_source_dijkstra_path_basic G s) in *.
    apply (@accumulate_untouched (P_ st) (sigma_ st) s v (rev (S_ st))
             (fun _ => 0) b b' Hrun); [| reflexivity].
    intros w Hw Hin.
    destruct (@pred_of_pred s (P_ st) (sigma_ st) (rev (S_ st)) w v
                Hgood (NoDup_rev Hnd) Hw Hin Hne) as [u [Hu [H1 [H2 H3]]]].
    destruct (Hv u w (Harcs v u Hu) (Harcs w v Hin)) as [H | [H | H]];
      congruence.
Qed.

Lemma sources_untouched : forall G v sources b b',
  wf_graph G -> no_absorption G -> incl sources (nodes G) ->
  no_through_route G v ->
  accumulate_sources G sources b = Some b' -> b' v == b v.
Proof.
  intros G v sources b b' Hwf Habs. revert b.
  induction sources as [|s r IH]; intros b Hsub Hv Hrun.
  - simpl in Hrun. injection Hrun as <-. reflexivity.
  - cbn [accumulate_sources] in Hrun.
    destruct (accumulate_basic _ _ _ s (fun _ => 0) b) as [b1 |] eqn:Hb1;
      [| discriminate].
    rewrite (IH b1); [| intros x Hx; apply Hsub; now right | exact Hv | exact Hrun].
    apply (@source_untouched G s v b b1 Hwf Habs); auto.
    apply Hsub. now left.
Qed.

(** X21.  On a street graph none of whose streets is absorbed in a sum of
    the search, a node that no route can pass through has betweenness
    0: a node such that no street leads into it from one node and out
    of it to another one, which covers dead ends, ends and starts of
    one-way streets and isolated nodes. *)
Theorem no_through_route_no_betweenness : forall G v,
  wf_graph G -> no_absorption G -> In v (nodes G) ->
  no_through_route G v ->
  exists btw,
    betweenness_centrality G = Some btw /\
    (exists b, In (v, b) btw) /\
    forall b, In (v, b) btw -> b == 0.
Proof.
  intros G v Hwf Habs Hin Hv.
  destruct (@raw_betweenness_bounds G Hwf Habs) as [raw [Hraw _]].
  assert (Hz : raw v == 0).
  { apply (@sources_untouched G v (nodes G) (fun _ => 0) raw Hwf Habs);
      [apply incl_refl | exact Hv | exact Hraw]. }
  unfold betweenness_centrality. rewrite Hraw. eexists. split; [reflexivity |].
  split.
  - eexists. apply in_map_iff. exists v. split; [reflexivity | exact Hin].
  - intros b Hb. apply in_map_iff in Hb. destruct Hb as [v' [He _]].
    injection He as -> <-. unfold rescale.
    destruct (List.length (nodes G) <=? 2)%nat; [exact Hz |].
    rewrite Qred_correct, Hz. ring.
Qed.

Lemma dead_end_two_blocks : no_through_route ReductionFacts.two_blocks 1%Z.
Proof.
  intros u x [e [He [Hu Hv]]] [e' [He' [Hu' Hx]]]. simpl in He, He'.
  repeat (destruct He as [<- | He]; [simpl in Hu, Hv; try discriminate |]);
    try contradiction.
  repeat (destruct He' as [<- | He']; [simpl in Hu', Hx; try discriminate |]);
    try contradiction.
  left. congruence.
Qed.


Lemma kept_two_blocks : no_absorption ReductionFacts.two_blocks.
Proof. apply no_absorptionb_sound. vm_compute. reflexivity. Qed.

Lemma no_through_route_no_betweenness_witness :
  exists btw,
    betweenness_centrality ReductionFacts.two_blocks = Some btw /\
    (exists b, In (1%Z, b) btw) /\
    forall b, In (1%Z, b) btw -> b == 0.
Proof.
  apply (@no_through_route_no_betweenness ReductionFacts.two_blocks 1%Z).
  - exact ReductionFacts.wf_two_blocks.
  - exact kept_two_blocks.
  - simpl. auto.
  - exact dead_end_two_blocks.
Defined.

(** In the two blocks only intersection 4, between 3 and 5, carries a
    route. *)
Example two_blocks_betweenness :
  betweenness_centrality ReductionFacts.two_blocks
  = Some [(1%Z, 0); (2%Z, 0); (3%Z, 0); (4%Z, 1 # 12); (5%Z, 0)].
Proof. vm_compute. reflexivity. Qed.

End ThroughFacts.

(* ===================================================================== *)
(** * What [checkinputs.py] lets through *)
(* ===================================================================== *)

Module CheckerFacts.

Import Geoid GeoidFacts Rates Checker.
Local Open Scope string_scope.

Lemma common_nonempty : forall keys gkeys,
  common keys gkeys <> [] <->
  exists k, In k keys /\ In (Some (CStr k)) gkeys.
Proof.
  intros keys gkeys. unfold common. split.
  - intros H. destruct (filter _ keys) as [|k r] eqn:Hf; [congruence |].
    assert (Hin : In k (filter (fun k => existsb (is_key k) gkeys) keys))
      by (rewrite Hf; now left).
    apply filter_In in Hin. destruct Hin as [Hk He].
    apply existsb_exists in He. destruct He as [c [Hc Hck]].
    exists k. split; [exact Hk |].
    destruct c as [[s | z] |]; try discriminate.
    simpl in Hck. apply String.eqb_eq in Hck. now subst.
  - intros [k [Hk Hg]] Hnil.
    assert (Hin : In k (filter (fun k => existsb (is_key k) gkeys) keys)).
    { apply filter_In. split; [exact Hk |]. apply existsb_exists.
      exists (Some (CStr k)). split; [exact Hg |]. simpl. apply String.eqb_refl. }
    rewrite Hnil in Hin. contradiction.
Qed.

Lemma check_rates_unit : forall cols u, check_rates cols = Done u -> u = tt.
Proof. intros cols []. reflexivity. Qed.

(** X25.  The checker ends with exit code 0 exactly when the CSV exists and
    has every required column, its normalized keys are pairwise
    distinct and none of them is missing, its rate columns pass the
    range check, and either the spatial file cannot be read (the
    overlap check is then skipped) or the layer has a key column and
    shares at least one key with the CSV. *)
Theorem checkinputs_ready_iff : forall csv_exists csv geo v,
  checkinputs csv_exists csv geo = Done v <->
  csv_exists = true /\ missing_core csv = [] /\
  NoDup (normalize_col (csv_GEOID_BG csv)) /\
  ~ In None (csv_GEOID_BG csv) /\
  check_rates (csv_rates csv) = Done tt /\
  match geo with
  | NoGeometry => v = ReadyCsvOnly
  | Layer g =>
      v = ReadyAll /\
      exists gkeys k,
        geometry_key g = Done gkeys /\
        In (Some k) (normalize_col (csv_GEOID_BG csv)) /\
        In (Some (CStr k)) gkeys
  end.
Proof.
  intros csv_exists csv geo v. unfold checkinputs.
  destruct csv_exists; cbn [negb];
    [| split; [discriminate | intros [H _]; discriminate]].
  destruct (missing_core csv) as [|m ms];
    [| split; [discriminate | intros [_ [H _]]; discriminate]].
  destruct (check_keys_cases (csv_GEOID_BG csv))
    as [[Hk [Hnd Hin]] | [[Hk Hnd] | [Hk [Hnd Hin]]]]; rewrite Hk.
  2:{ split; [discriminate | intros [_ [_ [H _]]]; contradiction]. }
  2:{ split; [discriminate | intros [_ [_ [_ [H _]]]]; contradiction]. }
  destruct (check_rates (csv_rates csv)) as [u | msg] eqn:Hr.
  2:{ split; [discriminate | intros [_ [_ [_ [_ [H _]]]]]; discriminate]. }
  apply check_rates_unit in Hr as Hu. subst u.
  destruct geo as [| g].
  - split.
    + intros H. injection H as <-. auto 6.
    + intros [_ [_ [_ [_ [_ ->]]]]]. reflexivity.
  - destruct (geometry_key g) as [gkeys | msg] eqn:Hg.
    2:{ split; [discriminate |].
        intros [_ [_ [_ [_ [_ [_ [gk [k [H _]]]]]]]]]. discriminate. }
    destruct (common (present (normalize_col (csv_GEOID_BG csv))) gkeys)
      as [|c cs] eqn:Hc.
    + split; [discriminate |].
      intros [_ [_ [_ [_ [_ [_ [gk [k [H [H1 H2]]]]]]]]]]. injection H as <-.
      exfalso.
      assert (Hne : common (present (normalize_col (csv_GEOID_BG csv))) gkeys
                    <> []).
      { apply common_nonempty. exists k. split; [| exact H2].
        now apply in_present. }
      contradiction.
    + split.
      * intros H. injection H as <-.
        split; [reflexivity |]. split; [reflexivity |].
        split; [exact Hnd |]. split; [exact Hin |].
        split; [reflexivity |]. split; [reflexivity |].
        assert (Hne : common (present (normalize_col (csv_GEOID_BG csv))) gkeys
                      <> [])
          by (rewrite Hc; discriminate).
        apply common_nonempty in Hne. destruct Hne as [k [H1 H2]].
        exists gkeys, k. split; [reflexivity |]. split; [| exact H2].
        now apply in_present.
      * intros [_ [_ [_ [_ [_ [-> _]]]]]]. reflexivity.
Qed.

(** A CSV whose second key is missing does not pass: the length test
    stops the run. *)
Example missing_key_is_refused :
  checkinputs true
    {| missing_core := [];
       csv_GEOID_BG := [Some (CStr "170318203001"); None];
       csv_rates := [] |}
    NoGeometry
  = Abort "Some GEOID_BG values are not 12 characters after normalization.".
Proof. reflexivity. Qed.

End CheckerFacts.

(* ===================================================================== *)
(** * The two versions of [collapse_suffixes] *)
(* ===================================================================== *)

Module FrameFacts.

Import Frames.
Local Open Scope string_scope.

Lemma has_get : forall c df, has c df = false <-> get c df = None.
Proof.
  intros c. induction df as [|[c' col] r IH]; cbn [has existsb get fst].
  - tauto.
  - destruct (String.eqb c' c); cbn [orb].
    + split; discriminate.
    + exact IH.
Qed.

Lemma has_drop_same : forall c df, has c (drop_col c df) = false.
Proof.
  intros c df. unfold has, drop_col. apply not_true_is_false. intros H.
  apply existsb_exists in H. destruct H as [p [Hp He]].
  apply filter_In in Hp. destruct Hp as [_ Hn]. rewrite He in Hn. discriminate.
Qed.

Lemma get_drop_other : forall c c' df,
  c <> c' -> get c (drop_col c' df) = get c df.
Proof.
  intros c c' df Hne. induction df as [|[a col] r IH]; [reflexivity |].
  cbn [drop_col filter fst]. fold (drop_col c' r).
  destruct (String.eqb_spec a c') as [-> | Ha]; cbn [negb get].
  - rewrite IH. destruct (String.eqb_spec c' c) as [He | _]; [congruence | reflexivity].
  - rewrite IH. reflexivity.
Qed.

Lemma has_drop_other : forall c c' df,
  c <> c' -> has c (drop_col c' df) = has c df.
Proof.
  intros c c' df Hne.
  destruct (has c df) eqn:H.
  - apply not_false_is_true. intros Hf. apply has_get in Hf.
    rewrite (get_drop_other df Hne) in Hf. apply has_get in Hf. congruence.
  - apply has_get. rewrite (get_drop_other df Hne). now apply has_get.
Qed.

Lemma get_set_same : forall c col df, get c (set_col c col df) = Some col.
Proof.
  intros c col. induction df as [|[a col'] r IH]; cbn [set_col get].
  - now rewrite String.eqb_refl.
  - destruct (String.eqb a c) eqn:Ha; cbn [get].
    + now rewrite String.eqb_refl.
    + now rewrite Ha.
Qed.

Lemma get_set_other : forall c c' col df,
  c <> c' -> get c (set_col c' col df) = get c df.
Proof.
  intros c c' col df Hne. induction df as [|[a col'] r IH]; cbn [set_col get].
  - destruct (String.eqb_spec c' c) as [He | _]; [congruence | reflexivity].
  - destruct (String.eqb_spec a c') as [-> | Ha]; cbn [get].
    + destruct (String.eqb_spec c' c) as [He | _]; [congruence | reflexivity].
    + now rewrite IH.
Qed.

Lemma suffix_differs : forall base suffix,
  suffix <> "" -> base ++ suffix <> base.
Proof.
  intros base suffix Hs He. apply (f_equal String.length) in He.
  rewrite GeoidFacts.length_append in He.
  destruct suffix; [congruence | simpl in He; lia].
Qed.

Lemma suffixes_differ : forall base, base ++ "_x" <> base ++ "_y".
Proof.
  induction base as [|c base IH]; simpl; [discriminate |].
  intros H. injection H as H. now apply IH.
Qed.


Definition drop_if (c : string) (df : table) : table :=
  if has c df then drop_col c df else df.

Lemma has_drop_if_same : forall c df, has c (drop_if c df) = false.
Proof.
  intros c df. unfold drop_if. destruct (has c df) eqn:H; [| exact H].
  apply has_drop_same.
Qed.

Lemma get_drop_if_other : forall c c' df,
  c <> c' -> get c (drop_if c' df) = get c df.
Proof.
  intros c c' df Hne. unfold drop_if.
  destruct (has c' df); [now apply get_drop_other | reflexivity].
Qed.

Lemma has_drop_if_other : forall c c' df,
  c <> c' -> has c (drop_if c' df) = has c df.
Proof.
  intros c c' df Hne. unfold drop_if.
  destruct (has c' df); [now apply has_drop_other | reflexivity].
Qed.

Lemma has_set_other : forall c c' col df,
  c <> c' -> has c (set_col c' col df) = has c df.
Proof.
  intros c c' col df Hne. destruct (has c df) eqn:H.
  - apply not_false_is_true. intros Hf. apply has_get in Hf.
    rewrite (get_set_other col df Hne) in Hf. apply has_get in Hf. congruence.
  - apply has_get. rewrite (get_set_other col df Hne). now apply has_get.
Qed.

(** X26.  What the two versions of [collapse_suffixes] leave behind.  The
    version of [analysismaps.py] always removes both suffixed columns;
    the version of [robustcheck.py] removes them when [base] did not
    exist or both were present.  With both suffixed columns present,
    either version fills [base] with the [_y] value where it is not
    missing and with the [_x] value elsewhere.  A lone [_x] column
    without [base] becomes [base] in [robustcheck.py] and is dropped
    without trace in [analysismaps.py]. *)
Theorem collapse_suffixes_result : forall df base,
  (has (base ++ "_x") (collapse_suffixes_maps df base) = false /\
   has (base ++ "_y") (collapse_suffixes_maps df base) = false) /\
  (has base df = false \/
   (has (base ++ "_x") df = true /\ has (base ++ "_y") df = true) ->
   has (base ++ "_x") (collapse_suffixes_robust df base) = false /\
   has (base ++ "_y") (collapse_suffixes_robust df base) = false) /\
  (forall cx cy,
      get (base ++ "_x") df = Some cx -> get (base ++ "_y") df = Some cy ->
      get base (collapse_suffixes_maps df base) = Some (coalesce cy cx) /\
      get base (collapse_suffixes_robust df base) = Some (coalesce cy cx)) /\
  (forall cx,
      get (base ++ "_x") df = Some cx -> get (base ++ "_y") df = None ->
      has base df = false ->
      get base (collapse_suffixes_robust df base) = Some cx /\
      has base (collapse_suffixes_maps df base) = false).
Proof.
  intros df base.
  assert (Hxb : base ++ "_x" <> base) by (apply suffix_differs; discriminate).
  assert (Hyb : base ++ "_y" <> base) by (apply suffix_differs; discriminate).
  pose proof (suffixes_differ base) as Hxy.
  assert (Hbx : base <> base ++ "_x") by congruence.
  assert (Hby : base <> base ++ "_y") by congruence.
  assert (Hyx : base ++ "_y" <> base ++ "_x") by congruence.
  unfold collapse_suffixes_maps, collapse_suffixes_robust.
  set (x := base ++ "_x") in *. set (y := base ++ "_y") in *.
  fold (drop_if x (match get x df, get y df with
                   | Some cx, Some cy => set_col base (coalesce cy cx) df
                   | None, Some cy =>
                       if has base df then df else set_col base cy df
                   | _, None => df
                   end)).
  match goal with
  | |- context [drop_if x ?d] => set (df1 := d)
  end.
  fold (drop_if y (drop_if x df1)).
  split.
  { split.
    - rewrite (has_drop_if_other _ Hxy). apply has_drop_if_same.
    - apply has_drop_if_same. }
  split.
  { intros Hcase.
    destruct (get x df) as [cx |] eqn:Hx; destruct (get y df) as [cy |] eqn:Hy.
    - split.
      + rewrite (has_drop_other _ Hxy). apply has_drop_same.
      + apply has_drop_same.
    - assert (Hb : has base df = false).
      { destruct Hcase as [H | [_ H]]; [exact H |].
        apply has_get in Hy. congruence. }
      rewrite Hb. split; [apply has_drop_same |].
      rewrite (has_drop_other _ Hyx), (has_set_other _ _ Hyb).
      now apply has_get.
    - assert (Hb : has base df = false).
      { destruct Hcase as [H | [H _]]; [exact H |].
        apply has_get in Hx. congruence. }
      rewrite Hb. split; [| apply has_drop_same].
      rewrite (has_drop_other _ Hxy), (has_set_other _ _ Hxb).
      now apply has_get.
    - split; now apply has_get. }
  split.
  { intros cx cy Hx Hy. unfold df1. rewrite Hx, Hy. split.
    - rewrite (get_drop_if_other _ Hby), (get_drop_if_other _ Hbx).
      apply get_set_same.
    - rewrite (get_drop_other _ Hby), (get_drop_other _ Hbx).
      apply get_set_same. }
  intros cx Hx Hy Hb. unfold df1. rewrite Hx, Hy, Hb. split.
  - rewrite (get_drop_other _ Hbx). apply get_set_same.
  - rewrite (has_drop_if_other _ Hby), (has_drop_if_other _ Hbx). exact Hb.
Qed.

(** After a merge that left [owner_pct_x] and [owner_pct_y]. *)
Example collapse_both :
  let df := [("GEOID_BG", [Fin 1; Fin 2]);
             ("owner_pct_x", [Fin 40; Fin 50]);
             ("owner_pct_y", [NaN; Fin 55])] in
  collapse_suffixes_maps df "owner_pct"
  = [("GEOID_BG", [Fin 1; Fin 2]); ("owner_pct", [Fin 40; Fin 55])] /\
  collapse_suffixes_robust df "owner_pct"
  = [("GEOID_BG", [Fin 1; Fin 2]); ("owner_pct", [Fin 40; Fin 55])].
Proof. cbv zeta. split; reflexivity. Qed.

End FrameFacts.

(* ===================================================================== *)
(** * Networks of two-way streets *)
(* ===================================================================== *)

Module TwoWayFacts.

Import Graph GraphFacts Paths ComponentFacts PipelineFacts ReductionFacts.

(** Every street can be driven back: each edge has an edge between the
    same nodes in the other direction. *)
Definition two_way (G : graph) : Prop :=
  forall e, In e (edges G) ->
            exists e', In e' (edges G) /\ e_u e' = e_v e /\ e_v e' = e_u e.

Lemma two_way_reachable : forall G u v,
  two_way G -> reachable (to_undirected G) u v -> reachable G u v.
Proof.
  intros G u v Htw H. induction H as [| x y _ IH Hxy]; [constructor |].
  apply reach_step with x; [exact IH |].
  apply arc_undirected in Hxy. destruct Hxy as [H | [e [He [Hu Hv]]]]; [exact H |].
  destruct (Htw e He) as [e' [He' [Hu' Hv']]].
  exists e'. split; [exact He' |]. split; congruence.
Qed.

Lemma two_way_subgraph : forall G comp, two_way G -> two_way (subgraph G comp).
Proof.
  intros G comp Htw e He. simpl in He. apply filter_In in He.
  destruct He as [He Hc]. apply andb_true_iff in Hc. destruct Hc as [Hu Hv].
  destruct (Htw e He) as [e' [He' [Hu' Hv']]].
  exists e'. split; [| auto]. simpl. apply filter_In. split; [exact He' |].
  rewrite Hu', Hv'. apply andb_true_iff. auto.
Qed.

Lemma another_node : forall (l : list node) u,
  NoDup l -> 2 <= List.length l -> In u l -> exists v, In v l /\ v <> u.
Proof.
  intros l u Hnd Hlen Hu.
  destruct l as [|a [|b r]]; simpl in Hlen; try lia.
  inversion Hnd as [| ? ? Ha _]; subst.
  destruct (Z.eq_dec a u) as [-> | Hne].
  - exists b. split; [right; now left |]. intros ->. apply Ha. now left.
  - exists a. split; [now left | exact Hne].
Qed.

(** X27.  In a network of two-way streets without negative lengths, every
    node of the reduced graph has a mean shortest-path length that is a
    number, as soon as the graph has two nodes: no node is left
    without a value. *)
Theorem two_way_network_has_all_means : forall G0 G,
  wf_graph G0 -> nonneg_lengths G0 -> two_way G0 ->
  largest_component G0 = Some G -> 2 <= List.length (nodes G) ->
  exists means,
    all_pairs_mean_shortest_path_length G = Some means /\
    map fst means = nodes G /\
    forall u a, In (u, a) means -> is_finite a = true.
Proof.
  intros G0 G Hwf Hnn Htw HG Hlen.
  destruct (reduction_result Hwf HG) as [HwfG [_ Hconn]].
  assert (Hprops : nonneg_lengths G /\ two_way G).
  { destruct (reduction_cases Hwf HG) as [_ [[_ ->] | [c0 [_ ->]]]].
    - now split.
    - split; [now apply nonneg_subgraph | now apply two_way_subgraph]. }
  destruct Hprops as [HnnG HtwG].
  unfold all_pairs_mean_shortest_path_length.
  apply PathClaims.for_each_spec. intros u Hu.
  destruct (@PathClaims.mean_meets_spec G u HwfG HnnG Hu) as [a [Ha [_ [Hfin _]]]].
  exists a. split; [exact Ha |]. apply Hfin.
  destruct (@another_node (nodes G) u (proj1 HwfG) Hlen Hu) as [v [Hv Hne]].
  exists v. split; [exact Hne |].
  apply two_way_reachable; [exact HtwG |]. now apply Hconn.
Qed.

Lemma two_way_path3 : two_way PathClaims.path3.
Proof.
  intros e He. exists (reverse_edge e). simpl in He.
  repeat (destruct He as [<- | He];
          [split; [simpl; auto 10 | split; reflexivity] |]).
  contradiction.
Qed.

Lemma two_way_network_has_all_means_witness :
  exists means,
    all_pairs_mean_shortest_path_length PathClaims.path3 = Some means /\
    map fst means = nodes PathClaims.path3 /\
    forall u a, In (u, a) means -> is_finite a = true.
Proof.
  apply (@two_way_network_has_all_means PathClaims.path3 PathClaims.path3).
  - exact PathClaims.wf_path3.
  - exact PathClaims.nonneg_path3.
  - exact two_way_path3.
  - reflexivity.
  - simpl. lia.
Defined.

End TwoWayFacts.

(* ===================================================================== *)
(** * When a rate column is filled in, and when that fails *)
(* ===================================================================== *)

Module RefillFacts.

Import Frames FrameFacts Rates Refill.
Local Open Scope string_scope.

Lemma has_true_get : forall c df,
  has c df = true <-> exists col, get c df = Some col.
Proof.
  intros c df. destruct (get c df) as [col |] eqn:Hg.
  - split; [intros _; now exists col |]. intros _.
    apply not_false_is_true. intros H. apply has_get in H. congruence.
  - apply has_get in Hg. rewrite Hg.
    split; [discriminate | intros [col H]; discriminate].
Qed.

(** X28.  The fill-in of [HW4/deliverable3.py] raises a [KeyError] exactly
    when the rate column and one of its two count columns are both
    absent; the fill-in of [aggregatetobg.py] raises nothing and then
    leaves the table as it is.  Neither touches a rate column that
    holds a value.  Where they fill in, the column is [safe_rate],
    respectively [pct], of the two counts. *)
Theorem rate_fill_in : forall df field num den,
  (fill_rate df field num den = None <->
   has field df = false /\ (has num df = false \/ has den df = false)) /\
  (has num df = false \/ has den df = false ->
   refill_rate df field num den = df) /\
  (forall col, get field df = Some col -> all_missing col = false ->
               fill_rate df field num den = Some df /\
               refill_rate df field num den = df) /\
  (forall n d, get num df = Some n -> get den df = Some d ->
               (has field df = false \/
                exists col, get field df = Some col /\ all_missing col = true) ->
               fill_rate df field num den
               = Some (set_col field (map2 safe_rate n d) df) /\
               refill_rate df field num den
               = set_col field (map2 pct n d) df).
Proof.
  intros df field num den. unfold fill_rate, refill_rate, needs_compute.
  cbn [forallb]. split; [| split; [| split]].
  - destruct (has field df) eqn:Hf; cbn [negb orb].
    + apply has_true_get in Hf. destruct Hf as [col Hf]. rewrite Hf.
      split; [| intros [H _]; discriminate].
      destruct (all_missing col); cbn [andb]; [| discriminate].
      destruct (has num df) eqn:Hn; cbn [andb]; [| discriminate].
      destruct (has den df) eqn:Hd; cbn [andb]; [| discriminate].
      apply has_true_get in Hn. destruct Hn as [n Hn].
      apply has_true_get in Hd. destruct Hd as [d Hd].
      rewrite Hn, Hd. discriminate.
    + destruct (get num df) as [n |] eqn:Hn.
      * destruct (get den df) as [d |] eqn:Hd.
        -- split; [discriminate |]. intros [_ [H | H]];
             apply has_get in H; congruence.
        -- split; [intros _ | reflexivity]. split; [reflexivity |].
           right. now apply has_get.
      * split; [intros _ | reflexivity]. split; [reflexivity |].
        left. now apply has_get.
  - intros H.
    assert (Hb : has num df && has den df = false).
    { destruct H as [-> | ->]; [reflexivity | apply andb_false_r]. }
    rewrite Hb. destruct (negb (has field df) || _)%bool; reflexivity.
  - intros col Hc Hm. rewrite Hc, Hm.
    assert (Hf : has field df = true) by (apply has_true_get; now exists col).
    rewrite Hf. cbn [negb orb andb]. split; reflexivity.
  - intros n d Hn Hd Hcase. rewrite Hn, Hd.
    assert (Hhn : has num df = true) by (apply has_true_get; now exists n).
    assert (Hhd : has den df = true) by (apply has_true_get; now exists d).
    rewrite Hhn, Hhd. cbn [andb].
    destruct Hcase as [Hf | [col [Hc Hm]]].
    + rewrite Hf. cbn [negb orb]. split; reflexivity.
    + rewrite Hc, Hm. destruct (has field df); split; reflexivity.
Qed.

End RefillFacts.
